(** * OneMind: turn orchestration and context management

    A shallow embedding of the core of the OneMind roleplay sandbox
    (src/lib/summarize.ts, src/lib/characterAI.ts, src/lib/aiService.ts,
    src/lib/worldData.ts, src/lib/worldBuilder.ts, the state handlers of
    src/App.tsx and the form handlers of src/components/app/MenuDrawer.tsx),
    the properties of its specification proved about it, and further
    properties of the code.

    Conventions of the embedding:
    - JavaScript strings are [string], read as UTF-8 texts; a string is
      truthy when it is not empty. [trim] removes every white space and
      line terminator code point of ECMAScript, on one, two or three
      bytes. [toLowerCase] is the case folding of the engine, a parameter
      of the world builder.
    - arrays are lists; a [Record<string, T>] object is the [gmap string T]
      of its own properties, and the list of its entries where it is
      enumerated; the insertion-ordered [Map] of staged location patches
      is an association list.
    - the application files its records under generated ids. The names
      typed by the user are keys only in [importChatHistory]: there a
      lookup that finds no own property falls back on the properties
      inherited from [Object.prototype], and an assignment to "__proto__"
      adds no own property.
    - token counts are integers ([Z]).
    - the text-generation capability and [generateId] are external: the
      former is a function from the request to its outcome, the latter
      the stream of the ids it hands out, indexed by the number of ids
      drawn so far.
    - a [throw] is a value of [Thrown]; code inside [try] lives in the
      [exc] monad.
    - an object that is found in an array and then assigned to is updated
      in place, at the position it was found at.
    - React state setters are applied in program order. *)

From Stdlib Require Import String Ascii List ZArith QArith Lia Bool Arith DecimalString.
From stdpp Require Import base option list gmap strings.
Import ListNotations.

Local Open Scope Z_scope.
Local Open Scope nat_scope.

(** ** JavaScript strings and arrays *)

Module JS.

Definition truthy (s : string) : bool :=
  match s with EmptyString => false | String _ _ => true end.

Definition truthyOpt (o : option string) : bool :=
  match o with Some s => truthy s | None => false end.

(** Strings are UTF-8 texts. The code points [String.prototype.trim]
    removes are WhiteSpace (TAB, VT, FF, SPACE, U+00A0, U+FEFF and the
    category Zs: U+1680, U+2000 to U+200A, U+202F, U+205F, U+3000) and
    LineTerminator (LF, CR, U+2028, U+2029); they are encoded on one, two
    or three bytes. *)
Definition whiteSpace1 (a : ascii) : bool :=
  let x := nat_of_ascii a in
  ((9 <=? x) && (x <=? 13)) || (x =? 32).

Definition whiteSpace2 (a b : ascii) : bool :=
  (nat_of_ascii a =? 194) && (nat_of_ascii b =? 160).

Definition whiteSpace3 (a b c : ascii) : bool :=
  let x := nat_of_ascii a in
  let y := nat_of_ascii b in
  let z := nat_of_ascii c in
  ((x =? 225) && (y =? 154) && (z =? 128)) ||
  ((x =? 226) && (y =? 128) &&
   (((128 <=? z) && (z <=? 138)) || (z =? 168) || (z =? 169) || (z =? 175))) ||
  ((x =? 226) && (y =? 129) && (z =? 159)) ||
  ((x =? 227) && (y =? 128) && (z =? 128)) ||
  ((x =? 239) && (y =? 187) && (z =? 191)).

Arguments whiteSpace1 : simpl never.
Arguments whiteSpace2 : simpl never.
Arguments whiteSpace3 : simpl never.

(** The string is the encoding of one white space code point. *)
Definition isWhiteSpace (s : string) : bool :=
  match s with
  | String a EmptyString => whiteSpace1 a
  | String a (String b EmptyString) => whiteSpace2 a b
  | String a (String b (String c EmptyString)) => whiteSpace3 a b c
  | _ => false
  end.

Fixpoint trimStart (s : string) : string :=
  match s with
  | EmptyString => EmptyString
  | String a s1 =>
      if whiteSpace1 a then trimStart s1
      else
        match s1 with
        | EmptyString => s
        | String b s2 =>
            if whiteSpace2 a b then trimStart s2
            else
              match s2 with
              | EmptyString => s
              | String c s3 => if whiteSpace3 a b c then trimStart s3 else s
              end
        end
  end.

(** What is left of [String a s'] once the white space at its end is
    removed is [a] followed by what is left of [s'], unless that is one
    white space code point. *)
Fixpoint trimEnd (s : string) : string :=
  match s with
  | EmptyString => EmptyString
  | String a s' =>
      let t := String a (trimEnd s') in
      if isWhiteSpace t then EmptyString else t
  end.

Definition trim (s : string) : string := trimEnd (trimStart s).

(** [Array.prototype.join]. *)
Definition join (sep : string) (l : list string) : string := String.concat sep l.

(** Relative index of [Array.prototype.slice]: a negative index counts
    from the end, and the result is clamped to [0, len]. *)
Definition relIndex (len k : Z) : Z :=
  if (k <? 0)%Z then Z.max (len + k) 0 else Z.min k len.

(** [l.slice(start, end)]; [l.slice(start)] is [slice l start None]. *)
Definition slice {A} (l : list A) (start : Z) (end_ : option Z) : list A :=
  let len := Z.of_nat (length l) in
  let from := relIndex len start in
  let to := match end_ with Some e => relIndex len e | None => len end in
  firstn (Z.to_nat (to - from)) (skipn (Z.to_nat from) l).

(** [l.findIndex(p)], with [None] for -1. *)
Fixpoint findIndex {A} (p : A -> bool) (l : list A) : option nat :=
  match l with
  | [] => None
  | x :: l' => if p x then Some 0 else option_map S (findIndex p l')
  end.

(** [[...new Set(l)]]: the first occurrence of every element, in order. *)
Fixpoint dedupe (l : list string) : list string :=
  match l with
  | [] => []
  | x :: l' => x :: List.filter (fun y => negb (String.eqb y x)) (dedupe l')
  end.

(** [l.includes(x)] on an array of strings. *)
Definition includes (l : list string) (x : string) : bool :=
  existsb (String.eqb x) l.

End JS.

(** ** Exceptions *)

(** A thrown value: an [Error] with its message, or anything else. *)
Inductive Thrown : Type :=
| ThrownError (message : string)
| ThrownOther.

(** [error instanceof Error ? error.message : 'Unknown error'] *)
Definition errorMessageOf (e : Thrown) : string :=
  match e with
  | ThrownError m => m
  | ThrownOther => "Unknown error"
  end.

Definition exc (A : Type) : Type := (Thrown + A)%type.

Definition ret {A} (a : A) : exc A := inr a.
Definition throw {A} (e : Thrown) : exc A := inl e.
Definition bind {A B} (m : exc A) (k : A -> exc B) : exc B :=
  match m with
  | inl e => inl e
  | inr a => k a
  end.

Notation "'do' x <- m ; k" := (bind m (fun x => k))
  (at level 10, x name, m at level 100, k at level 200).

(** ** Data model (src/types/chat.ts, src/types/settings.ts) *)

Inductive MessageType : Type :=
| TUser | TCharacter | TExposition | TNarration | TDirector | TLoading | TSummary.

Definition MessageType_eqb (a b : MessageType) : bool :=
  match a, b with
  | TUser, TUser | TCharacter, TCharacter | TExposition, TExposition
  | TNarration, TNarration | TDirector, TDirector | TLoading, TLoading
  | TSummary, TSummary => true
  | _, _ => false
  end.

Record ChatMessage : Type := mkMessage {
  m_id : string;
  m_type : MessageType;
  m_text : string;
  m_sender : string;
  m_charId : option string
}.

Record Character : Type := mkCharacter {
  c_id : string;
  c_name : string;
  c_description : string;
  c_pfp_base64 : option string;
  c_groupChatId : string;
  c_notes : list string;
  c_quotes : list string;
  c_knownCharacterIds : list string
}.

Record GroupChat : Type := mkGroupChat {
  gc_id : string;
  gc_name : string;
  gc_description : string;
  gc_characterIds : list string;
  gc_exposition : option (list string)
}.

(** [Partial<Character>] and [Partial<GroupChat>]: every field optional. *)
Record CharacterPatch : Type := mkCharacterPatch {
  cp_id : option string;
  cp_name : option string;
  cp_description : option string;
  cp_pfp_base64 : option string;
  cp_groupChatId : option string;
  cp_notes : option (list string);
  cp_quotes : option (list string);
  cp_knownCharacterIds : option (list string)
}.

Record GroupChatPatch : Type := mkGroupChatPatch {
  gp_id : option string;
  gp_name : option string;
  gp_description : option string;
  gp_characterIds : option (list string);
  gp_exposition : option (list string)
}.

Definition emptyCharacterPatch : CharacterPatch :=
  mkCharacterPatch None None None None None None None None.

Definition emptyGroupChatPatch : GroupChatPatch :=
  mkGroupChatPatch None None None None None.

Inductive AIProvider : Type :=
| OpenAI | Anthropic | Google | Together | OpenRouter | XAI.

Definition providerName (p : AIProvider) : string :=
  match p with
  | OpenAI => "openai" | Anthropic => "anthropic" | Google => "google"
  | Together => "together" | OpenRouter => "openrouter" | XAI => "xai"
  end.

Inductive MessageStyle : Type := Descriptive | CasualRoleplay | DialogueOnly.

Record UserProfile : Type := mkUserProfile {
  displayName : string;
  bio : string
}.

Record SettingsState : Type := mkSettings {
  messageStyle : MessageStyle;
  shareUserProfile : bool;
  charactersKnowAll : bool;
  aiProvider : AIProvider;
  userProfile : UserProfile;
  strangerLabel : string;
  apiKey : string;
  model : string;
  summarizationModel : string;
  worldbuilderModel : string;
  temperature : Q;
  topK : Q;
  topP : Q
}.

(** ** The generation capability (src/lib/aiService.ts and the `ai` SDK) *)

Inductive ModelPurpose : Type := ForCharacter | ForSummarization | ForWorldbuilder.

Definition orElse (s fallback : string) : string :=
  if JS.truthy s then s else fallback.

Definition getModelForPurpose (settings : SettingsState) (purpose : ModelPurpose) : string :=
  match purpose with
  | ForSummarization => orElse (JS.trim (summarizationModel settings)) (model settings)
  | ForWorldbuilder => orElse (JS.trim (worldbuilderModel settings)) (model settings)
  | ForCharacter => model settings
  end.

Record ModelInstance : Type := mkModelInstance {
  mi_provider : AIProvider;
  mi_model : string
}.

Definition getModelInstance (settings : SettingsState) (purpose : ModelPurpose)
  : exc ModelInstance :=
  let model := getModelForPurpose settings purpose in
  if negb (JS.truthy (apiKey settings))
  then throw (ThrownError ("API key required for provider: " +:+ providerName (aiProvider settings)))
  else ret (mkModelInstance (aiProvider settings) model).

Record GenerationSettings : Type := mkGenerationSettings {
  g_temperature : Q;
  g_topK : Q;
  g_topP : Q;
  g_maxRetries : nat
}.

Definition getGenerationSettings (settings : SettingsState) : GenerationSettings :=
  mkGenerationSettings (temperature settings) (topK settings) (topP settings) 2.

Record ToolInput : Type := mkToolInput {
  in_note : option string;
  in_locationName : option string;
  in_name : option string
}.

Record ToolCall : Type := mkToolCall {
  toolName : string;
  input : option ToolInput
}.

Record RawUsage : Type := mkRawUsage {
  raw_inputTokens : option Z;
  raw_outputTokens : option Z;
  raw_totalTokens : option Z
}.

Record GenResult : Type := mkGenResult {
  r_text : option string;
  r_toolCalls : option (list ToolCall);
  r_reasoning : option (list string);
  r_usage : option RawUsage
}.

Record GenRequest : Type := mkGenRequest {
  q_model : ModelInstance;
  q_system : option string;
  q_prompt : string;
  q_tools : bool;
  q_settings : GenerationSettings
}.

(** ** Summarization engine (src/lib/summarize.ts) *)

Definition TOKEN_THRESHOLD : Z := 3000.
Definition RECENT_MESSAGES_TO_KEEP : nat := 5.

Definition needsSummarization (cumulativeInputTokens : Z) : bool :=
  (TOKEN_THRESHOLD <=? cumulativeInputTokens)%Z.

Definition isType (t : MessageType) (m : ChatMessage) : bool :=
  MessageType_eqb (m_type m) t.

Definition isActual (m : ChatMessage) : bool :=
  negb (isType TLoading m) && negb (isType TSummary m).

Definition summaryLine (m : ChatMessage) : string :=
  let prefix := if isType TDirector m then "[Director]" else "" in
  prefix +:+ m_sender m +:+ ": " +:+ m_text m.

Definition nl : string := String (ascii_of_nat 10) EmptyString.

Definition summaryPrompt (existingSummaries messagesToSummarize : list ChatMessage) : string :=
  let conversationText := JS.join nl (map summaryLine messagesToSummarize) in
  let previousSummaryText :=
    match existingSummaries with
    | [] => ""
    | _ => "Previous summary:" +:+ nl +:+ JS.join (nl +:+ nl) (map m_text existingSummaries)
           +:+ nl +:+ nl +:+ "Continued conversation:" +:+ nl
    end in
  JS.trim (nl +:+
    "You are summarizing a roleplay conversation to preserve context while reducing length." +:+ nl +:+
    "Create a concise summary that captures:" +:+ nl +:+
    "- Key events and actions that occurred" +:+ nl +:+
    "- Important character interactions and relationships established" +:+ nl +:+
    "- Any significant plot developments or decisions made" +:+ nl +:+
    "- Notable emotional beats or character moments" +:+ nl +:+
    nl +:+
    "Keep the summary factual and in past tense. Focus on information that would be relevant for continuing the story." +:+ nl +:+
    "Maximum 3-4 paragraphs." +:+ nl +:+
    nl +:+
    previousSummaryText +:+ conversationText +:+ nl).

Definition getMessagesForContext (messages : list ChatMessage) (maxRecentMessages : nat)
  : list ChatMessage :=
  let filtered := List.filter (fun m => negb (isType TLoading m)) messages in
  let summaries := List.filter (isType TSummary) filtered in
  let nonSummaries := List.filter (fun m => negb (isType TSummary m)) filtered in
  let recentMessages := JS.slice nonSummaries (- Z.of_nat maxRecentMessages) None in
  summaries ++ recentMessages.

Section Core.

(** The id handed out by the [n]-th call of [generateId]. *)
Variable generateId : nat -> string.

(** The outcome of [generateText] on a request: a result, or a throw. *)
Variable generateText : GenRequest -> exc GenResult.

(** The three partitions taken by [summarizeOldMessages]. *)
Definition existingSummaries (messages : list ChatMessage) : list ChatMessage :=
  List.filter (isType TSummary) messages.
Definition loadingMessages (messages : list ChatMessage) : list ChatMessage :=
  List.filter (isType TLoading) messages.
Definition actualMessages (messages : list ChatMessage) : list ChatMessage :=
  List.filter isActual messages.

Definition messagesToSummarize (messages : list ChatMessage) : list ChatMessage :=
  JS.slice (actualMessages messages) 0 (Some (- Z.of_nat RECENT_MESSAGES_TO_KEEP)%Z).
Definition messagesToKeep (messages : list ChatMessage) : list ChatMessage :=
  JS.slice (actualMessages messages) (- Z.of_nat RECENT_MESSAGES_TO_KEEP)%Z None.

(** The body of the [try] of [summarizeOldMessages]: everything that can
    throw, up to the trimmed text of the summary. [result.text.trim()]
    throws when the result carries no text. *)
Definition summaryGeneration (messages : list ChatMessage) (settings : SettingsState)
  : exc string :=
  do model <- getModelInstance settings ForSummarization;
  do result <- generateText
    (mkGenRequest model None
       (summaryPrompt (existingSummaries messages) (messagesToSummarize messages))
       false (getGenerationSettings settings));
  match r_text result with
  | Some t => ret (JS.trim t)
  | None => throw (ThrownError "Cannot read properties of undefined (reading 'trim')")
  end.

(** [summarizeOldMessages messages settings], drawing ids from position
    [n] of the id stream; returns the new history and the next position. *)
Definition summarizeOldMessages (messages : list ChatMessage) (settings : SettingsState)
    (n : nat) : list ChatMessage * nat :=
  if length (messagesToSummarize messages) <? 5 then (messages, n)
  else
    match summaryGeneration messages settings with
    | inr summaryText =>
        let summaryMessage := mkMessage (generateId n) TSummary summaryText "Summary" None in
        (summaryMessage :: messagesToKeep messages ++ loadingMessages messages, S n)
    | inl _ => (messages, n)
    end.

(** ** Character turn executor (src/lib/characterAI.ts) *)

Record TokenUsage : Type := mkTokenUsage {
  inputTokens : Z;
  outputTokens : Z;
  totalTokens : Z
}.

(** The insertion-ordered [Map<string, Partial<GroupChat>>]. *)
Definition PatchMap : Type := list (string * GroupChatPatch).

Record CharacterTurnResult : Type := mkTurnResult {
  tr_messages : list ChatMessage;
  tr_characterUpdates : option CharacterPatch;
  tr_groupChatUpdates : option PatchMap;
  tr_strangerLabel : option string;
  tr_error : option string;
  tr_usage : option TokenUsage
}.

Definition dq : string := String (ascii_of_nat 34) EmptyString.

Definition bulleted (lines : list string) : string :=
  JS.join nl (map (fun e => "- " +:+ e) lines).

Definition getFormattingInstructions (style : MessageStyle) : string :=
  match style with
  | DialogueOnly =>
      "Format: Dialogue only in quotes. Ex: " +:+ dq +:+ "So, what's the plan?" +:+ dq
  | CasualRoleplay =>
      "Format: *action* " +:+ dq +:+ "dialogue" +:+ dq +:+ ". Ex: *glances at door* "
      +:+ dq +:+ "Did you hear that?" +:+ dq
  | Descriptive =>
      "Format: Prose narrative with dialogue in quotes. Ex: He leans against the wall. "
      +:+ dq +:+ "So, what's the plan?" +:+ dq
  end.

Definition describeCharacters (cs : list Character) : string :=
  "Other known characters:" +:+ nl +:+
  JS.join nl (map (fun c => "- " +:+ c_name c +:+ ": " +:+ c_description c) cs).

Definition buildSystemInstruction (character : Character) (groupChat : GroupChat)
    (allCharacters : list Character) (allGroupChats : list GroupChat)
    (settings : SettingsState) : string :=
  let locationInfo := gc_name groupChat +:+ ": " +:+ gc_description groupChat in
  let expositionInfo :=
    match gc_exposition groupChat with
    | Some (e :: es) => nl +:+ "Location Details:" +:+ nl +:+ bulleted (e :: es)
    | _ => ""
    end in
  let otherLocations :=
    List.filter (fun gc => negb (String.eqb (gc_id gc) (gc_id groupChat))) allGroupChats in
  let availableLocationsInfo :=
    match otherLocations with
    | [] => "No other locations available."
    | _ => "Available locations to travel to:" +:+ nl +:+ bulleted (map gc_name otherLocations)
    end in
  let knownCharactersInfo :=
    if charactersKnowAll settings then
      let others := List.filter (fun c =>
        negb (String.eqb (c_id c) (c_id character))
        && JS.includes (gc_characterIds groupChat) (c_id c)) allCharacters in
      match others with
      | [] => ""
      | _ => describeCharacters others
      end
    else
      let known := List.filter (fun c =>
        JS.includes (c_knownCharacterIds character) (c_id c)
        && JS.includes (gc_characterIds groupChat) (c_id c)) allCharacters in
      match known with
      | [] => "You do not know any other characters yet."
      | _ => describeCharacters known
      end in
  let notesInfo :=
    match c_notes character with
    | [] => "You have no notes yet. Pay attention to what people say and do!"
    | ns => "Your notes about others:" +:+ nl +:+ bulleted ns
    end in
  let quotesInfo :=
    match c_quotes character with
    | [] => ""
    | qs => "Example dialogue from you:" +:+ nl +:+
            JS.join nl (map (fun q => "- " +:+ dq +:+ q +:+ dq) qs)
    end in
  let formattingInstructions := getFormattingInstructions (messageStyle settings) in
  let strangerLabel := orElse (strangerLabel settings) "Stranger" in
  let userInfo :=
    if shareUserProfile settings && JS.truthy (JS.trim (displayName (userProfile settings)))
    then
      let userName := JS.trim (displayName (userProfile settings)) in
      let userBio := JS.trim (bio (userProfile settings)) in
      "The Player:" +:+ nl +:+ "- Name: " +:+ userName +:+
      (if JS.truthy userBio then nl +:+ "- About them: " +:+ userBio else "")
    else
      dq +:+ strangerLabel +:+ dq +:+
      " is a mysterious person - NEVER assume their identity, species, or appearance unless they tell you. If they introduce themselves, use labelStranger() to remember their name." in
  JS.trim (nl +:+
    "You are " +:+ dq +:+ c_name character +:+ dq +:+ ": " +:+ c_description character +:+ nl +:+
    "Location: " +:+ locationInfo +:+ expositionInfo +:+ nl +:+
    nl +:+
    availableLocationsInfo +:+ nl +:+
    nl +:+
    knownCharactersInfo +:+ nl +:+
    nl +:+
    userInfo +:+ nl +:+
    nl +:+
    notesInfo +:+ nl +:+
    nl +:+
    (if JS.truthy quotesInfo then quotesInfo +:+ nl else "") +:+ nl +:+
    "RULES:" +:+ nl +:+
    formattingInstructions +:+ nl +:+
    "• Control ONLY your character; let others respond for themselves" +:+ nl +:+
    "• Focus on recent/impactful messages; keep responses concise" +:+ nl +:+
    "• Treat characters as strangers unless notes say otherwise" +:+ nl +:+
    "• Seek compromise; prioritize story over winning arguments" +:+ nl +:+
    "• When asked to go somewhere and you accept, USE moveToLocation() - don't just talk about going" +:+ nl +:+
    "• Tools: makeNote() for observations, moveToLocation() to travel" +:+
    (if negb (shareUserProfile settings)
     then ", labelStranger() when they tell you their name" else "") +:+ nl +:+
    "• Follow Director messages naturally without mentioning them" +:+ nl +:+
    nl +:+
    "Conversation (most recent last):" +:+ nl).

(** The index found by the backwards [for] loop of [buildCatchupBlock]. *)
Fixpoint findLastIndex {A} (p : A -> bool) (l : list A) : option nat :=
  match l with
  | [] => None
  | x :: l' =>
      match findLastIndex p l' with
      | Some i => Some (S i)
      | None => if p x then Some 0 else None
      end
  end.

(** [l.filter(p).indexOf(l[i])], for [l[i]] that satisfies [p]. [indexOf]
    compares references, and every slot of a history holds a message
    object of its own: the reference is found at the position [l[i]]
    takes among the elements kept by the filter. *)
Definition indexOfKept {A} (p : A -> bool) (l : list A) (i : nat) : nat :=
  length (List.filter p (firstn i l)).

Definition catchupLine (m : ChatMessage) : string :=
  if isType TDirector m then "[Director]: " +:+ m_text m
  else m_sender m +:+ ": " +:+ m_text m.

Definition takeInitiative : string :=
  "No one has said anything recently. Take the initiative.".

(** The messages [buildCatchupBlock] shows to the character: those since
    its last turn ([catchupMessages]). *)
Definition catchupMessagesOf (messages : list ChatMessage) (characterName : string)
  : list ChatMessage :=
  let contextMessages := getMessagesForContext messages 12 in
  let lastCharacterMessageIndex :=
    findLastIndex (fun m => String.eqb (m_sender m) characterName && isType TCharacter m)
      contextMessages in
  let notSummary := fun m => negb (isType TSummary m) in
  let nonSummaryMessages := List.filter notSummary contextMessages in
  match lastCharacterMessageIndex with
  | Some i => JS.slice nonSummaryMessages
                (Z.of_nat (indexOfKept notSummary contextMessages i + 1)) None
  | None => nonSummaryMessages
  end.

(** The text [buildCatchupBlock] renders from the summaries and from
    these messages ([catchupParts.join], before any substitution). *)
Definition renderedCatchup (messages : list ChatMessage) (characterName : string) : string :=
  let contextMessages := getMessagesForContext messages 12 in
  let summaries := List.filter (isType TSummary) contextMessages in
  let summaryParts :=
    match summaries with
    | [] => []
    | _ => ["[Previous context summary]" +:+ nl +:+
            JS.join (nl +:+ nl) (map m_text summaries) +:+ nl +:+ "[End of summary]"]
    end in
  let catchupMessages := catchupMessagesOf messages characterName in
  let filteredCatchup :=
    JS.trim (JS.join nl (map catchupLine
      (List.filter (fun m => negb (isType TLoading m || isType TNarration m)) catchupMessages))) in
  let catchupParts :=
    summaryParts ++ (if JS.truthy filteredCatchup then [filteredCatchup] else []) in
  JS.join (nl +:+ nl) catchupParts.

Definition buildCatchupBlock (messages : list ChatMessage) (characterName : string)
    (_settings : SettingsState) (directorNudge : option string) : string :=
  let catchupMessages := catchupMessagesOf messages characterName in
  let catchupBlock := renderedCatchup messages characterName in
  let catchupBlock :=
    if negb (JS.truthy catchupBlock) && negb (JS.truthyOpt directorNudge)
    then takeInitiative else catchupBlock in
  let catchupBlock :=
    match directorNudge with
    | Some nudge =>
        if JS.truthy nudge then
          let nudgeText := "(Director's Nudge: " +:+ nudge +:+
            ". Incorporate this into your character's thoughts and next action.)" in
          if JS.truthy catchupBlock then nudgeText +:+ nl +:+ nl +:+ catchupBlock else nudgeText
        else catchupBlock
    | None => catchupBlock
    end in
  let relevantMessages :=
    List.filter (fun m => negb (isType TLoading m || isType TNarration m || isType TDirector m))
      catchupMessages in
  match List.last (map Some relevantMessages) None with
  | Some lastMessage =>
      if isType TUser lastMessage
      then catchupBlock +:+ nl +:+ nl +:+ "[" +:+ m_sender lastMessage +:+
           " is talking to you. Respond to them directly.]"
      else catchupBlock
  | None => catchupBlock
  end.

(** [Map.prototype.set]: an existing key keeps its place. *)
Fixpoint mapSet {V} (k : string) (v : V) (m : list (string * V)) : list (string * V) :=
  match m with
  | [] => [(k, v)]
  | (k', v') :: m' =>
      if String.eqb k' k then (k, v) :: m' else (k', v') :: mapSet k v m'
  end.

Definition removeId (cid : string) (ids : list string) : list string :=
  List.filter (fun id => negb (String.eqb id cid)) ids.

(** The local variables of [processCharacterTurnResult]. *)
Record TurnAcc : Type := mkTurnAcc {
  newMessages : list ChatMessage;
  characterUpdates : CharacterPatch;
  groupChatUpdates : PatchMap;
  hasMadeNote : bool;
  acc_strangerLabel : option string;
  acc_nextId : nat
}.

Definition pushMessage (a : TurnAcc) (type : MessageType) (sender text : string)
    (charId : option string) : TurnAcc :=
  mkTurnAcc
    (newMessages a ++ [mkMessage (generateId (acc_nextId a)) type text sender charId])
    (characterUpdates a) (groupChatUpdates a) (hasMadeNote a) (acc_strangerLabel a)
    (S (acc_nextId a)).

Definition setCharacterUpdates (a : TurnAcc) (u : CharacterPatch) : TurnAcc :=
  mkTurnAcc (newMessages a) u (groupChatUpdates a) (hasMadeNote a) (acc_strangerLabel a)
    (acc_nextId a).

Definition setGroupChatUpdate (a : TurnAcc) (chatId : string) (u : GroupChatPatch) : TurnAcc :=
  mkTurnAcc (newMessages a) (characterUpdates a) (mapSet chatId u (groupChatUpdates a))
    (hasMadeNote a) (acc_strangerLabel a) (acc_nextId a).

Definition withNotes (u : CharacterPatch) (notes : list string) : CharacterPatch :=
  mkCharacterPatch (cp_id u) (cp_name u) (cp_description u) (cp_pfp_base64 u)
    (cp_groupChatId u) (Some notes) (cp_quotes u) (cp_knownCharacterIds u).

Definition withGroupChatId (u : CharacterPatch) (chatId : string) : CharacterPatch :=
  mkCharacterPatch (cp_id u) (cp_name u) (cp_description u) (cp_pfp_base64 u)
    (Some chatId) (cp_notes u) (cp_quotes u) (cp_knownCharacterIds u).

Definition characterIdsPatch (ids : list string) : GroupChatPatch :=
  mkGroupChatPatch None None None (Some ids) None.

Definition makeNote (character : Character) (i : ToolInput) (a : TurnAcc) : TurnAcc :=
  match in_note i with
  | Some note =>
      if JS.truthy note then
        let updatedNotes := c_notes character ++ [note] in
        let a := setCharacterUpdates a (withNotes (characterUpdates a) updatedNotes) in
        let a := pushMessage a TCharacter (c_name character)
                   (c_name character +:+ " noted: *" +:+ note +:+ "*")
                   (Some (c_id character)) in
        mkTurnAcc (newMessages a) (characterUpdates a) (groupChatUpdates a) true
          (acc_strangerLabel a) (acc_nextId a)
      else a
  | None => a
  end.

Definition moveToLocation (character : Character) (groupChat : GroupChat)
    (allGroupChats : list GroupChat) (i : ToolInput) (a : TurnAcc) : TurnAcc :=
  match in_locationName i with
  | None => a
  | Some destName =>
      if negb (JS.truthy destName) then a
      else
        match List.find (fun gc => String.eqb (gc_name gc) destName) allGroupChats with
        | Some destChat =>
            if negb (String.eqb (gc_id destChat) (c_groupChatId character)) then
              let a := setCharacterUpdates a
                         (withGroupChatId (characterUpdates a) (gc_id destChat)) in
              let oldChatUpdate :=
                characterIdsPatch (removeId (c_id character) (gc_characterIds groupChat)) in
              let a := setGroupChatUpdate a (gc_id groupChat) oldChatUpdate in
              let newChatUpdate :=
                characterIdsPatch
                  (removeId (c_id character) (gc_characterIds destChat) ++ [c_id character]) in
              let a := setGroupChatUpdate a (gc_id destChat) newChatUpdate in
              pushMessage a TNarration "Narrator"
                ("*" +:+ c_name character +:+ " moved to " +:+ gc_name destChat +:+ ".*") None
            else
              pushMessage a TNarration "Narrator"
                ("*" +:+ c_name character +:+ " is already at " +:+ destName +:+ ".*") None
        | None =>
            pushMessage a TNarration "Narrator"
              ("*" +:+ c_name character +:+ " tried to move to unknown location: "
               +:+ destName +:+ ".*") None
        end
  end.

Definition labelStranger (i : ToolInput) (a : TurnAcc) : TurnAcc :=
  match in_name i with
  | Some name =>
      if JS.truthy name && JS.truthy (JS.trim name) then
        mkTurnAcc (newMessages a) (characterUpdates a) (groupChatUpdates a) (hasMadeNote a)
          (Some (JS.trim name)) (acc_nextId a)
      else a
  | None => a
  end.

(** One iteration of the loop over [result.toolCalls]. *)
Definition processToolCall (character : Character) (groupChat : GroupChat)
    (allGroupChats : list GroupChat) (a : TurnAcc) (toolCall : ToolCall) : TurnAcc :=
  match input toolCall with
  | None => a
  | Some i =>
      if String.eqb (toolName toolCall) "makeNote" then makeNote character i a
      else if String.eqb (toolName toolCall) "moveToLocation"
      then moveToLocation character groupChat allGroupChats i a
      else if String.eqb (toolName toolCall) "labelStranger" then labelStranger i a
      else a
  end.

Definition patchIsEmpty (u : CharacterPatch) : bool :=
  match cp_id u, cp_name u, cp_description u, cp_pfp_base64 u,
        cp_groupChatId u, cp_notes u, cp_quotes u, cp_knownCharacterIds u with
  | None, None, None, None, None, None, None, None => true
  | _, _, _, _, _, _, _, _ => false
  end.

Definition hasReasoning (result : GenResult) : bool :=
  match r_reasoning result with
  | Some (_ :: _) => true
  | _ => false
  end.

Definition processCharacterTurnResult (result : GenResult) (character : Character)
    (groupChat : GroupChat) (allGroupChats : list GroupChat) (n : nat)
  : CharacterTurnResult * nat :=
  let a := mkTurnAcc [] emptyCharacterPatch [] false None n in
  let a :=
    match r_toolCalls result with
    | Some toolCalls => fold_left (processToolCall character groupChat allGroupChats) toolCalls a
    | None => a
    end in
  let dialogue := option_map JS.trim (r_text result) in
  let a :=
    if JS.truthyOpt dialogue
    then pushMessage a TCharacter (c_name character) (default EmptyString dialogue)
           (Some (c_id character))
    else a in
  let a :=
    match newMessages a with
    | [] =>
        if negb (hasReasoning result) && negb (hasMadeNote a)
        then pushMessage a TCharacter (c_name character)
               ("*" +:+ c_name character +:+ " is thinking...*") (Some (c_id character))
        else a
    | _ => a
    end in
  (mkTurnResult (newMessages a)
     (if patchIsEmpty (characterUpdates a) then None else Some (characterUpdates a))
     (match groupChatUpdates a with [] => None | m => Some m end)
     (acc_strangerLabel a) None None,
   acc_nextId a).

Definition usageOf (result : GenResult) : option TokenUsage :=
  match r_usage result with
  | Some u =>
      let i := default 0%Z (raw_inputTokens u) in
      let o := default 0%Z (raw_outputTokens u) in
      Some (mkTokenUsage i o (default (i + o)%Z (raw_totalTokens u)))
  | None => None
  end.

(** The body of the [try] of [executeCharacterTurn]. *)
Definition executeCharacterTurn_try (character : Character) (groupChat : GroupChat)
    (allCharacters : list Character) (allGroupChats : list GroupChat)
    (messages : list ChatMessage) (settings : SettingsState)
    (directorNudge : option string) (n : nat) : exc (CharacterTurnResult * nat) :=
  let systemInstruction :=
    buildSystemInstruction character groupChat allCharacters allGroupChats settings in
  let catchupBlock := buildCatchupBlock messages (c_name character) settings directorNudge in
  do model <- getModelInstance settings ForCharacter;
  let generationSettings := getGenerationSettings settings in
  do result <- generateText
    (mkGenRequest model (Some systemInstruction) catchupBlock true generationSettings);
  let usage := usageOf result in
  let (turnResult, n') := processCharacterTurnResult result character groupChat allGroupChats n in
  ret (mkTurnResult (tr_messages turnResult) (tr_characterUpdates turnResult)
         (tr_groupChatUpdates turnResult) (tr_strangerLabel turnResult)
         (tr_error turnResult) usage, n').

(** The result built by the [catch] of [executeCharacterTurn]. *)
Definition errorTurnResult (character : Character) (error : Thrown) (n : nat)
  : CharacterTurnResult :=
  let errorMessage := errorMessageOf error in
  mkTurnResult
    [mkMessage (generateId n) TCharacter
       ("(An error occurred: " +:+ errorMessage +:+ ")") (c_name character)
       (Some (c_id character))]
    None None None (Some errorMessage) None.

Definition executeCharacterTurn (character : Character) (groupChat : GroupChat)
    (allCharacters : list Character) (allGroupChats : list GroupChat)
    (messages : list ChatMessage) (settings : SettingsState)
    (directorNudge : option string) (n : nat) : CharacterTurnResult * nat :=
  match executeCharacterTurn_try character groupChat allCharacters allGroupChats
          messages settings directorNudge n with
  | inr r => r
  | inl error => (errorTurnResult character error n, S n)
  end.

(** ** World export and import (src/lib/worldData.ts) *)

Record LocationData : Type := mkLocationData {
  ld_name : string;
  ld_description : string;
  ld_exposition : list string
}.

Record CharacterData : Type := mkCharacterData {
  cd_name : string;
  cd_description : string;
  cd_pfp_base64 : option string;
  cd_location : string;
  cd_quotes : list string;
  cd_notes : list string;
  cd_knownCharacters : list string
}.

Record WorldData : Type := mkWorldData {
  wd_locations : list LocationData;
  wd_characters : list CharacterData
}.

(** [.filter(Boolean)] on strings, and on strings that may be undefined. *)
Definition filterBoolean (l : list string) : list string := List.filter JS.truthy l.

Fixpoint filterBooleanOpt (l : list (option string)) : list string :=
  match l with
  | [] => []
  | Some x :: l' => if JS.truthy x then x :: filterBooleanOpt l' else filterBooleanOpt l'
  | None :: l' => filterBooleanOpt l'
  end.

Definition findCharacterById (characters : list Character) (id : string) : option Character :=
  List.find (fun c => String.eqb (c_id c) id) characters.

Definition findCharacterByName (characters : list Character) (name : string)
  : option Character :=
  List.find (fun c => String.eqb (c_name c) name) characters.

Definition findGroupChatById (groupChats : list GroupChat) (id : string) : option GroupChat :=
  List.find (fun gc => String.eqb (gc_id gc) id) groupChats.

Definition exportLocation (gc : GroupChat) : LocationData :=
  mkLocationData (gc_name gc) (gc_description gc) (default [] (gc_exposition gc)).

Definition exportCharacter (characters : list Character) (groupChats : list GroupChat)
    (char : Character) : CharacterData :=
  let loc := findGroupChatById groupChats (c_groupChatId char) in
  mkCharacterData (c_name char) (c_description char) (c_pfp_base64 char)
    (match loc with
     | Some l => gc_name l
     | None => orElse (default EmptyString (option_map gc_name (head groupChats)))
                 "Unknown Location"
     end)
    (c_quotes char) (c_notes char)
    (filterBooleanOpt
       (map (fun id => option_map c_name (findCharacterById characters id))
          (c_knownCharacterIds char))).

Definition exportWorldData (characters : list Character) (groupChats : list GroupChat)
  : WorldData :=
  mkWorldData (map exportLocation groupChats)
    (map (exportCharacter characters groupChats) characters).

(** The arrays under construction in [importWorldData], and the id counter. *)
Record ImportState : Type := mkImportState {
  is_groupChats : list GroupChat;
  is_characters : list Character;
  is_nextId : nat
}.

(** First pass, one location. *)
Definition importLocation (st : ImportState) (loc : LocationData) : ImportState :=
  if JS.truthy (ld_name loc) && JS.truthy (ld_description loc) then
    mkImportState
      (is_groupChats st ++
         [mkGroupChat (generateId (is_nextId st)) (ld_name loc) (ld_description loc) []
            (Some (filterBoolean (ld_exposition loc)))])
      (is_characters st) (S (is_nextId st))
  else st.

Definition importDefaultLocation (data : WorldData) (st : ImportState) : ImportState :=
  match is_groupChats st, wd_characters data with
  | [], _ :: _ =>
      mkImportState
        [mkGroupChat (generateId (is_nextId st)) "Default Location" "A starting place" []
           (Some ["A plain, featureless area."])]
        (is_characters st) (S (is_nextId st))
  | _, _ => st
  end.

(** [gc.characterIds.push(charId)] on the location object at index [i] of
    the array: the update is seen through the array. *)
Definition pushCharacterId (i : nat) (charId : string) (groupChats : list GroupChat)
  : list GroupChat :=
  alter (fun gc => mkGroupChat (gc_id gc) (gc_name gc) (gc_description gc)
                     (gc_characterIds gc ++ [charId]) (gc_exposition gc)) i groupChats.

(** Second pass, one character. The location is the first one of that
    name, or the first location when there is none of that name. *)
Definition importCharacter (st : ImportState) (c : CharacterData) : ImportState :=
  if JS.truthy (cd_name c) && JS.truthy (cd_description c) then
    let locationName := cd_location c in
    let groupChats := is_groupChats st in
    let gcIndex :=
      match JS.findIndex (fun g => String.eqb (gc_name g) locationName) groupChats with
      | Some i => Some i
      | None => match groupChats with [] => None | _ :: _ => Some 0 end
      end in
    let gc := match gcIndex with Some i => groupChats !! i | None => None end in
    let charId := generateId (is_nextId st) in
    let assignedChatId :=
      match gc with Some g => orElse (gc_id g) EmptyString | None => EmptyString end in
    let groupChats :=
      match gcIndex with Some i => pushCharacterId i charId groupChats | None => groupChats end in
    mkImportState groupChats
      (is_characters st ++
         [mkCharacter charId (cd_name c) (cd_description c) (cd_pfp_base64 c) assignedChatId
            (filterBoolean (cd_notes c)) (filterBoolean (cd_quotes c)) []])
      (S (is_nextId st))
  else st.

Definition setKnownCharacterIds (knownIds : list string) (c : Character) : Character :=
  mkCharacter (c_id c) (c_name c) (c_description c) (c_pfp_base64 c) (c_groupChatId c)
    (c_notes c) (c_quotes c) knownIds.

(** Third pass, one source character: [newChar.knownCharacterIds = knownIds]
    on the character object found by name in the array. *)
Definition linkKnownCharacters (characters : list Character) (sourceChar : CharacterData)
  : list Character :=
  match JS.findIndex (fun c => String.eqb (c_name c) (cd_name sourceChar)) characters with
  | None => characters
  | Some i =>
      let knownIds :=
        filterBooleanOpt
          (map (fun name => option_map c_id (findCharacterByName characters name))
             (cd_knownCharacters sourceChar)) in
      alter (setKnownCharacterIds knownIds) i characters
  end.

(** [importWorldData data], drawing ids from position [n]; returns the
    characters, the locations and the next position of the id stream. *)
Definition importWorldData (data : WorldData) (n : nat)
  : list Character * list GroupChat * nat :=
  let st := fold_left importLocation (wd_locations data) (mkImportState [] [] n) in
  let st := importDefaultLocation data st in
  let st := fold_left importCharacter (wd_characters data) st in
  let characters := fold_left linkKnownCharacters (wd_characters data) (is_characters st) in
  (characters, is_groupChats st, is_nextId st).

(** ** Application state and its handlers (src/App.tsx) *)

Inductive SummarizationStatus : Type := StatusIdle | StatusSummarizing | StatusSuccess.

(** The [useState] cells of [App], and the position in the id stream. *)
Record AppState : Type := mkAppState {
  app_characters : list Character;
  app_groupChats : list GroupChat;
  app_messages : gmap string (list ChatMessage);
  app_tokenUsage : gmap string Z;
  app_summarizationStatus : gmap string SummarizationStatus;
  app_activeChatId : option string;
  app_message : string;
  app_selectedCharId : option string;
  app_settings : SettingsState;
  app_nextId : nat
}.

Definition setCharacters (f : list Character -> list Character) (s : AppState) : AppState :=
  mkAppState (f (app_characters s)) (app_groupChats s) (app_messages s) (app_tokenUsage s)
    (app_summarizationStatus s) (app_activeChatId s) (app_message s) (app_selectedCharId s)
    (app_settings s) (app_nextId s).

Definition setGroupChats (f : list GroupChat -> list GroupChat) (s : AppState) : AppState :=
  mkAppState (app_characters s) (f (app_groupChats s)) (app_messages s) (app_tokenUsage s)
    (app_summarizationStatus s) (app_activeChatId s) (app_message s) (app_selectedCharId s)
    (app_settings s) (app_nextId s).

Definition setMessages (f : gmap string (list ChatMessage) -> gmap string (list ChatMessage))
    (s : AppState) : AppState :=
  mkAppState (app_characters s) (app_groupChats s) (f (app_messages s)) (app_tokenUsage s)
    (app_summarizationStatus s) (app_activeChatId s) (app_message s) (app_selectedCharId s)
    (app_settings s) (app_nextId s).

Definition setTokenUsage (f : gmap string Z -> gmap string Z) (s : AppState) : AppState :=
  mkAppState (app_characters s) (app_groupChats s) (app_messages s) (f (app_tokenUsage s))
    (app_summarizationStatus s) (app_activeChatId s) (app_message s) (app_selectedCharId s)
    (app_settings s) (app_nextId s).

Definition setSummarizationStatus
    (f : gmap string SummarizationStatus -> gmap string SummarizationStatus)
    (s : AppState) : AppState :=
  mkAppState (app_characters s) (app_groupChats s) (app_messages s) (app_tokenUsage s)
    (f (app_summarizationStatus s)) (app_activeChatId s) (app_message s)
    (app_selectedCharId s) (app_settings s) (app_nextId s).

Definition setActiveChatId (a : option string) (s : AppState) : AppState :=
  mkAppState (app_characters s) (app_groupChats s) (app_messages s) (app_tokenUsage s)
    (app_summarizationStatus s) a (app_message s) (app_selectedCharId s)
    (app_settings s) (app_nextId s).

Definition setMessage (m : string) (s : AppState) : AppState :=
  mkAppState (app_characters s) (app_groupChats s) (app_messages s) (app_tokenUsage s)
    (app_summarizationStatus s) (app_activeChatId s) m (app_selectedCharId s)
    (app_settings s) (app_nextId s).

Definition setSettings (f : SettingsState -> SettingsState) (s : AppState) : AppState :=
  mkAppState (app_characters s) (app_groupChats s) (app_messages s) (app_tokenUsage s)
    (app_summarizationStatus s) (app_activeChatId s) (app_message s) (app_selectedCharId s)
    (f (app_settings s)) (app_nextId s).

Definition setNextId (n : nat) (s : AppState) : AppState :=
  mkAppState (app_characters s) (app_groupChats s) (app_messages s) (app_tokenUsage s)
    (app_summarizationStatus s) (app_activeChatId s) (app_message s) (app_selectedCharId s)
    (app_settings s) n.

Definition withCharacterIds (ids : list string) (gc : GroupChat) : GroupChat :=
  mkGroupChat (gc_id gc) (gc_name gc) (gc_description gc) ids (gc_exposition gc).

(** [{ ...char, ...updates }] *)
Definition applyCharacterPatch (char : Character) (u : CharacterPatch) : Character :=
  mkCharacter
    (default (c_id char) (cp_id u))
    (default (c_name char) (cp_name u))
    (default (c_description char) (cp_description u))
    (match cp_pfp_base64 u with Some p => Some p | None => c_pfp_base64 char end)
    (default (c_groupChatId char) (cp_groupChatId u))
    (default (c_notes char) (cp_notes u))
    (default (c_quotes char) (cp_quotes u))
    (default (c_knownCharacterIds char) (cp_knownCharacterIds u)).

(** [{ ...gc, ...updates }] *)
Definition applyGroupChatPatch (gc : GroupChat) (u : GroupChatPatch) : GroupChat :=
  mkGroupChat
    (default (gc_id gc) (gp_id u))
    (default (gc_name gc) (gp_name u))
    (default (gc_description gc) (gp_description u))
    (default (gc_characterIds gc) (gp_characterIds u))
    (match gp_exposition u with Some e => Some e | None => gc_exposition gc end).

(** [createCharacter]: the [id] of the argument is not read
    ([Omit<Character, 'id'>]); the new id is drawn from the stream. *)
Definition createCharacter (char : Character) (s : AppState) : AppState :=
  let id := generateId (app_nextId s) in
  let s := setNextId (S (app_nextId s)) s in
  let newChar := mkCharacter id (c_name char) (c_description char) (c_pfp_base64 char)
                   (c_groupChatId char) (c_notes char) (c_quotes char)
                   (c_knownCharacterIds char) in
  let s := setCharacters (fun prev => prev ++ [newChar]) s in
  if JS.truthy (c_groupChatId char) then
    setGroupChats (map (fun gc =>
      if String.eqb (gc_id gc) (c_groupChatId char)
      then withCharacterIds (JS.dedupe (gc_characterIds gc ++ [id])) gc
      else gc)) s
  else s.

(** The two [setGroupChats] calls made by [updateCharacter] for a
    character that changes location. *)
Definition reassign (id oldChatId newChatId : string) (groupChats : list GroupChat)
  : list GroupChat :=
  let removed := map (fun g =>
    if String.eqb (gc_id g) oldChatId
    then withCharacterIds (removeId id (gc_characterIds g)) g else g) groupChats in
  map (fun g =>
    if String.eqb (gc_id g) newChatId
    then withCharacterIds (removeId id (gc_characterIds g) ++ [id]) g else g) removed.

Definition reassigns (id : string) (updates : CharacterPatch) (char : Character) : bool :=
  String.eqb (c_id char) id &&
  match cp_groupChatId updates with
  | Some newChatId => JS.truthy newChatId && negb (String.eqb newChatId (c_groupChatId char))
  | None => false
  end.

Definition updateCharacter (id : string) (updates : CharacterPatch) (s : AppState) : AppState :=
  let prev := app_characters s in
  let s := setCharacters (map (fun char =>
    if negb (String.eqb (c_id char) id) then char else applyCharacterPatch char updates)) s in
  setGroupChats (fun groupChats =>
    fold_left (fun gcs char =>
      if reassigns id updates char
      then reassign id (c_groupChatId char) (default EmptyString (cp_groupChatId updates)) gcs
      else gcs) prev groupChats) s.

Definition stripKnown (id : string) (c : Character) : Character :=
  setKnownCharacterIds (removeId id (c_knownCharacterIds c)) c.

(** [deleteCharacter], reading [characters] from the render it was
    created in. *)
Definition deleteCharacterIn (characters : list Character) (id : string) (s : AppState)
  : AppState :=
  match findCharacterById characters id with
  | None => s
  | Some char =>
      let s := setGroupChats (map (fun gc =>
        if String.eqb (gc_id gc) (c_groupChatId char)
        then withCharacterIds (removeId id (gc_characterIds gc)) gc else gc)) s in
      setCharacters (fun prev =>
        List.filter (fun c => negb (String.eqb (c_id c) id)) (map (stripKnown id) prev)) s
  end.

Definition deleteCharacter (id : string) (s : AppState) : AppState :=
  deleteCharacterIn (app_characters s) id s.

(** [createGroupChat]: the [id] of the argument is not read. *)
Definition createGroupChat (chat : GroupChat) (s : AppState) : AppState :=
  let id := generateId (app_nextId s) in
  let s := setNextId (S (app_nextId s)) s in
  let newChat := mkGroupChat id (gc_name chat) (gc_description chat) (gc_characterIds chat)
                   (gc_exposition chat) in
  setGroupChats (fun prev => prev ++ [newChat]) s.

Definition dedupePatch (u : GroupChatPatch) : GroupChatPatch :=
  match gp_characterIds u with
  | Some ids =>
      mkGroupChatPatch (gp_id u) (gp_name u) (gp_description u) (Some (JS.dedupe ids))
        (gp_exposition u)
  | None => u
  end.

Definition updateGroupChat (id : string) (updates : GroupChatPatch) (s : AppState) : AppState :=
  setGroupChats (map (fun gc =>
    if negb (String.eqb (gc_id gc) id) then gc
    else applyGroupChatPatch gc (dedupePatch updates))) s.

Definition deleteGroupChat (id : string) (s : AppState) : AppState :=
  let characters := app_characters s in
  let charsToUpdate := List.filter (fun c => String.eqb (c_groupChatId c) id) characters in
  let s := fold_left (fun s char => deleteCharacterIn characters (c_id char) s) charsToUpdate s in
  let s := setGroupChats (List.filter (fun gc => negb (String.eqb (gc_id gc) id))) s in
  match app_activeChatId s with
  | Some a => if String.eqb a id then setActiveChatId None s else s
  | None => s
  end.

Definition removeCharacterFromChat (chatId charId : string) (s : AppState) : AppState :=
  let s := setGroupChats (map (fun gc =>
    if String.eqb (gc_id gc) chatId
    then withCharacterIds (removeId charId (gc_characterIds gc)) gc else gc)) s in
  setCharacters (map (fun char =>
    if String.eqb (c_id char) charId
    then applyCharacterPatch char
           (mkCharacterPatch None None None None (Some EmptyString) None None None)
    else char)) s.

Definition historyOf (s : AppState) (chatId : string) : list ChatMessage :=
  default [] (app_messages s !! chatId).

Definition counterOf (s : AppState) (chatId : string) : Z :=
  default 0%Z (app_tokenUsage s !! chatId).

(** [setMessages(prev => ({ ...prev, [chatId]: [...(prev[chatId] || []), ...msgs] }))] *)
Definition appendMessages (chatId : string) (msgs : list ChatMessage) (s : AppState)
  : AppState :=
  setMessages (fun prev => <[chatId := default [] (prev !! chatId) ++ msgs]> prev) s.

Definition isLoadingOf (charId : string) (m : ChatMessage) : bool :=
  isType TLoading m &&
  match m_charId m with Some c => String.eqb c charId | None => false end.

(** The placeholder is removed by
    [filter(m => m.type !== 'loading' || m.charId !== actingCharacter.id)]. *)
Definition removeLoading (chatId charId : string) (s : AppState) : AppState :=
  setMessages (fun prev =>
    <[chatId := List.filter (fun m => negb (isLoadingOf charId m))
                  (default [] (prev !! chatId))]> prev) s.

Definition setStrangerLabel (label : string) (settings : SettingsState) : SettingsState :=
  mkSettings (messageStyle settings) (shareUserProfile settings) (charactersKnowAll settings)
    (aiProvider settings) (userProfile settings) label (apiKey settings) (model settings)
    (summarizationModel settings) (worldbuilderModel settings) (temperature settings)
    (topK settings) (topP settings).

(** What [handleSendMessage] and [handleRetryMessage] do with the result of
    the turn: usage, placeholder, messages, then the staged mutations. *)
Definition applyTurnResult (chat : GroupChat) (actingCharacter : Character)
    (result : CharacterTurnResult) (s : AppState) : AppState :=
  let s :=
    match tr_usage result with
    | Some usage =>
        setTokenUsage (fun prev =>
          <[gc_id chat := (default 0%Z (prev !! gc_id chat) + inputTokens usage)%Z]> prev) s
    | None => s
    end in
  let s := removeLoading (gc_id chat) (c_id actingCharacter) s in
  let s := appendMessages (gc_id chat) (tr_messages result) s in
  let s :=
    match tr_characterUpdates result with
    | Some updates => updateCharacter (c_id actingCharacter) updates s
    | None => s
    end in
  let s :=
    match tr_groupChatUpdates result with
    | Some m => fold_left (fun s e => updateGroupChat (fst e) (snd e) s) m s
    | None => s
    end in
  match tr_strangerLabel result with
  | Some label => if JS.truthy label then setSettings (setStrangerLabel label) s else s
  | None => s
  end.

Definition loadingMessageFor (actingCharacter : Character) (id : string) : ChatMessage :=
  mkMessage id TLoading EmptyString (c_name actingCharacter) (Some (c_id actingCharacter)).

(** The summarization step of [handleSendMessage]: returns the state and
    the local [currentMessages]. The timer that later puts the status
    back to idle is not part of the embedding. *)
Definition summarizeIfDue (chat : GroupChat) (s : AppState) : AppState * list ChatMessage :=
  let currentMessages := historyOf s (gc_id chat) in
  let chatTokenUsage := counterOf s (gc_id chat) in
  if needsSummarization chatTokenUsage then
    let s := setSummarizationStatus (fun prev => <[gc_id chat := StatusSummarizing]> prev) s in
    let '(summarizedMessages, n) :=
      summarizeOldMessages currentMessages (app_settings s) (app_nextId s) in
    let s := setNextId n s in
    let s := setMessages (fun prev => <[gc_id chat := summarizedMessages]> prev) s in
    let s := setTokenUsage (fun prev => <[gc_id chat := 0%Z]> prev) s in
    let s := setSummarizationStatus (fun prev => <[gc_id chat := StatusSuccess]> prev) s in
    (s, summarizedMessages)
  else (s, currentMessages).

Definition userDisplayName (settings : SettingsState) : string :=
  if shareUserProfile settings && JS.truthy (JS.trim (displayName (userProfile settings)))
  then JS.trim (displayName (userProfile settings))
  else orElse (strangerLabel settings) "Stranger".

Definition activeChat (s : AppState) : option GroupChat :=
  match app_activeChatId s with
  | Some a => findGroupChatById (app_groupChats s) a
  | None => None
  end.

(** The free-text entry of the user or of the director. *)
Definition sendPlainMessage (chat : GroupChat) (type : MessageType) (sender : string)
    (s : AppState) : AppState :=
  let m := mkMessage (generateId (app_nextId s)) type (app_message s) sender None in
  let s := setNextId (S (app_nextId s)) s in
  let s := appendMessages (gc_id chat) [m] s in
  setMessage EmptyString s.

(** The state of [handleSendMessage] in character mode when the turn is
    issued (placeholder appended), with the history handed to the turn. *)
Definition prepareCharacterTurn (chat : GroupChat) (actingCharacter : Character)
    (s : AppState) : AppState * list ChatMessage :=
  let hasMessage := JS.truthy (JS.trim (app_message s)) in
  let '(newUserMessage, s) :=
    if hasMessage then
      (Some (mkMessage (generateId (app_nextId s)) TUser (app_message s)
               (userDisplayName (app_settings s)) None),
       setMessage EmptyString (setNextId (S (app_nextId s)) s))
    else (None, s) in
  let '(s, currentMessages) := summarizeIfDue chat s in
  let '(s, currentMessages) :=
    match newUserMessage with
    | Some m => (appendMessages (gc_id chat) [m] s, currentMessages ++ [m])
    | None => (s, currentMessages)
    end in
  let loadingMessage := loadingMessageFor actingCharacter (generateId (app_nextId s)) in
  let s := setNextId (S (app_nextId s)) s in
  (appendMessages (gc_id chat) [loadingMessage] s, currentMessages).

(** The turn run by the handlers: [characters], [groupChats] and [settings]
    are those of the render the handler was created in, [s0]. *)
Definition runTurn (s0 : AppState) (chat : GroupChat) (actingCharacter : Character)
    (turnMessages : list ChatMessage) (s : AppState) : AppState :=
  let '(result, n) :=
    executeCharacterTurn actingCharacter chat (app_characters s0) (app_groupChats s0)
      turnMessages (app_settings s0) None (app_nextId s) in
  applyTurnResult chat actingCharacter result (setNextId n s).

(** [handleSendMessage]. Nothing in its [try] block throws in the
    embedding ([executeCharacterTurn] catches its own failures), so its
    [catch] branch is never entered. *)
Definition handleSendMessage (s : AppState) : AppState :=
  match activeChat s with
  | None => s
  | Some chat =>
      let hasMessage := JS.truthy (JS.trim (app_message s)) in
      match app_selectedCharId s with
      | None => s
      | Some actingCharacterId =>
          if String.eqb actingCharacterId "none" then
            if hasMessage
            then sendPlainMessage chat TUser (userDisplayName (app_settings s)) s
            else s
          else if String.eqb actingCharacterId "director" then
            if hasMessage then sendPlainMessage chat TDirector "Director" s else s
          else
            match findCharacterById (app_characters s) actingCharacterId with
            | None => s
            | Some actingCharacter =>
                let '(s1, currentMessages) := prepareCharacterTurn chat actingCharacter s in
                runTurn s chat actingCharacter currentMessages s1
            end
      end
  end.

(** [handleRetryMessage]; the same remark on its [catch] branch. *)
Definition handleRetryMessage (messageId : string) (s : AppState) : AppState :=
  match activeChat s with
  | None => s
  | Some chat =>
      let chatMessages := historyOf s (gc_id chat) in
      match JS.findIndex (fun m => String.eqb (m_id m) messageId) chatMessages with
      | None => s
      | Some messageIndex =>
          match chatMessages !! messageIndex with
          | None => s
          | Some messageToRetry =>
              if negb (isType TCharacter messageToRetry)
                 || negb (JS.truthyOpt (m_charId messageToRetry))
              then s
              else
                match findCharacterById (app_characters s)
                        (default EmptyString (m_charId messageToRetry)) with
                | None => s
                | Some actingCharacter =>
                    let trimmedMessages :=
                      JS.slice chatMessages 0 (Some (Z.of_nat messageIndex)) in
                    let s1 := setMessages (fun prev => <[gc_id chat := trimmedMessages]> prev) s in
                    let loadingMessage :=
                      loadingMessageFor actingCharacter (generateId (app_nextId s1)) in
                    let s1 := setNextId (S (app_nextId s1)) s1 in
                    let s1 := appendMessages (gc_id chat) [loadingMessage] s1 in
                    runTurn s chat actingCharacter trimmedMessages s1
                end
          end
      end
  end.

End Core.

(** ** Notions used to state the properties *)

(** The number of messages of a type in a history. *)
Definition countType (t : MessageType) (l : list ChatMessage) : nat :=
  length (List.filter (isType t) l).

Section Observations.

Variable generateId : nat -> string.
Variable generateText : GenRequest -> exc GenResult.

(** The character a send action makes act: the selected id is neither
    of the two reserved ones and is the id of a character. *)
Definition actingCharacterOf (s : AppState) : option Character :=
  match app_selectedCharId s with
  | Some cid =>
      if String.eqb cid "none" || String.eqb cid "director" then None
      else findCharacterById (app_characters s) cid
  | None => None
  end.


End Observations.

(** A string has ink when one of its characters is not white space:
    something is left once the white space at its start is removed. *)
Definition hasInk (s : string) : bool := JS.truthy (JS.trimStart s).

(** A byte that is part of no white space code point: a code point below
    128 that is not white space. *)
Definition solid (c : ascii) : bool :=
  (nat_of_ascii c <? 128) && negb (JS.whiteSpace1 c).

(** The string starts with a white space code point. *)
Definition startsWhite (s : string) : bool :=
  match s with
  | EmptyString => false
  | String a s1 =>
      JS.whiteSpace1 a ||
      match s1 with
      | EmptyString => false
      | String b s2 =>
          JS.whiteSpace2 a b ||
          match s2 with
          | EmptyString => false
          | String c _ => JS.whiteSpace3 a b c
          end
      end
  end.

(** A string with a solid byte. *)
Definition inked (s : string) : Prop :=
  exists x c y, solid c = true /\ s = x +:+ String c y.

(** The text [t] occurs in the text [s]. *)
Definition occursIn (t s : string) : Prop :=
  exists a b, s = a +:+ t +:+ b.

(** What the specification says of a turn whose only tool call is
    [moveToLocation] with destination [destName], for the result [out] of
    the turn: one narrator message; no staged mutation when the
    destination is unknown or is where the character is; otherwise the
    character patch that sets [groupChatId], and two location patches,
    the old location without the character and the destination with the
    character once. *)
Definition RelocationOutcome (character : Character) (groupChat : GroupChat)
    (allGroupChats : list GroupChat) (destName : string) (out : CharacterTurnResult) : Prop :=
  countType TNarration (tr_messages out) = 1 /\
  match List.find (fun gc => String.eqb (gc_name gc) destName) allGroupChats with
  | None => tr_groupChatUpdates out = None /\ tr_characterUpdates out = None
  | Some destChat =>
      if String.eqb (gc_id destChat) (c_groupChatId character)
      then tr_groupChatUpdates out = None /\ tr_characterUpdates out = None
      else
        let old := removeId (c_id character) (gc_characterIds groupChat) in
        let new := removeId (c_id character) (gc_characterIds destChat) ++ [c_id character] in
        tr_characterUpdates out
        = Some (mkCharacterPatch None None None None (Some (gc_id destChat)) None None None) /\
        tr_groupChatUpdates out
        = Some [(gc_id groupChat, mkGroupChatPatch None None None (Some old) None);
                (gc_id destChat, mkGroupChatPatch None None None (Some new) None)] /\
        ~ In (c_id character) old /\
        count_occ string_dec new (c_id character) = 1
  end.

Section RetryObservations.

Variable generateId : nat -> string.
Variable generateText : GenRequest -> exc GenResult.

(** The result of the turn that [handleRetryMessage] re-runs for
    [actingCharacter] on the history cut at index [i]; one id has been
    drawn for the placeholder. *)
Definition retryTurnResult (s : AppState) (chat : GroupChat) (actingCharacter : Character)
    (i : nat) : CharacterTurnResult :=
  fst (executeCharacterTurn generateId generateText actingCharacter chat
         (app_characters s) (app_groupChats s)
         (firstn i (historyOf s (gc_id chat))) (app_settings s) None (S (app_nextId s))).

(** What the specification says of a retry that targets the message at
    index [i]: the history becomes the original messages before [i]
    followed by the messages of the re-run turn. *)
Definition RetryTruncates (s : AppState) (chat : GroupChat) (messageId : string)
    (actingCharacter : Character) (i : nat) : Prop :=
  historyOf (handleRetryMessage generateId generateText messageId s) (gc_id chat)
  = firstn i (historyOf s (gc_id chat))
    ++ tr_messages (retryTurnResult s chat actingCharacter i).

End RetryObservations.

(** A character whose known-character list has lost the ids of [ids]. *)
Definition withoutKnown (ids : list string) (c : Character) : Character :=
  setKnownCharacterIds
    (List.filter (fun k => negb (JS.includes ids k)) (c_knownCharacterIds c)) c.

(** ** The bidirectional index *)

(** Character [cid] is assigned to location [g]: some character of the
    world has this id and this [groupChatId]. *)
Definition assigned (cs : list Character) (g cid : string) : Prop :=
  exists c, In c cs /\ c_id c = cid /\ c_groupChatId c = g.

(** The index: the member list of every location holds exactly the ids of
    the characters assigned to it. *)
Definition indexed (cs : list Character) (gcs : list GroupChat) : Prop :=
  forall L, In L gcs -> forall cid, In cid (gc_characterIds L) <-> assigned cs (gc_id L) cid.

(** A consistent world: characters have ids of their own, no location has
    the empty id (the empty [groupChatId] means unassigned), and the
    index holds. *)
Definition consistent (s : AppState) : Prop :=
  List.NoDup (map c_id (app_characters s)) /\
  (forall L, In L (app_groupChats s) -> gc_id L <> EmptyString) /\
  indexed (app_characters s) (app_groupChats s).

(** The destination of a tool call that relocates the character: a
    [moveToLocation] call with an input, whose destination name is not
    empty and is the name of a location other than the one the character
    is assigned to. *)
Definition effectiveMove (character : Character) (allGroupChats : list GroupChat)
    (call : ToolCall) : option GroupChat :=
  match input call with
  | Some i =>
      if String.eqb (toolName call) "moveToLocation" then
        match in_locationName i with
        | Some destName =>
            if JS.truthy destName then
              match List.find (fun gc => String.eqb (gc_name gc) destName) allGroupChats with
              | Some destChat =>
                  if negb (String.eqb (gc_id destChat) (c_groupChatId character))
                  then Some destChat else None
              | None => None
              end
            else None
        | None => None
        end
      else None
  | None => None
  end.

Definition relocations (character : Character) (allGroupChats : list GroupChat)
    (result : GenResult) : list GroupChat :=
  match r_toolCalls result with
  | Some calls =>
      flat_map (fun call =>
        match effectiveMove character allGroupChats call with
        | Some dest => [dest]
        | None => []
        end) calls
  | None => []
  end.

Section Mutations.

Variable generateId : nat -> string.

(** The mutations of the world. [ApplyTurn] is what the handlers do with
    the outcome of a generation call for a character turn. *)
Inductive Mutation : Type :=
| CreateCharacter (char : Character)
| UpdateCharacter (id : string) (updates : CharacterPatch)
| DeleteCharacter (id : string)
| CreateGroupChat (chat : GroupChat)
| UpdateGroupChat (id : string) (updates : GroupChatPatch)
| DeleteGroupChat (id : string)
| RemoveCharacterFromChat (chatId charId : string)
| ApplyTurn (chat : GroupChat) (actingCharacter : Character) (result : GenResult).

Definition applyMutation (m : Mutation) (s : AppState) : AppState :=
  match m with
  | CreateCharacter char => createCharacter generateId char s
  | UpdateCharacter id updates => updateCharacter id updates s
  | DeleteCharacter id => deleteCharacter id s
  | CreateGroupChat chat => createGroupChat generateId chat s
  | UpdateGroupChat id updates => updateGroupChat id updates s
  | DeleteGroupChat id => deleteGroupChat id s
  | RemoveCharacterFromChat chatId charId => removeCharacterFromChat chatId charId s
  | ApplyTurn chat actingCharacter result =>
      let '(turnResult, n) :=
        processCharacterTurnResult generateId result actingCharacter chat
          (app_groupChats s) (app_nextId s) in
      applyTurnResult chat actingCharacter turnResult (setNextId n s)
  end.

Definition applyMutations (ms : list Mutation) (s : AppState) : AppState :=
  fold_left (fun s m => applyMutation m s) ms s.

(** The mutations that keep the index. *)
Definition admissible (s : AppState) (m : Mutation) : Prop :=
  match m with
  | CreateCharacter _ =>
      ~ In (generateId (app_nextId s)) (map c_id (app_characters s))
  | UpdateCharacter _ updates =>
      cp_id updates = None /\ cp_groupChatId updates <> Some EmptyString
  | DeleteCharacter _ => True
  | CreateGroupChat chat =>
      gc_characterIds chat = [] /\
      generateId (app_nextId s) <> EmptyString /\
      forall c, In c (app_characters s) -> c_groupChatId c <> generateId (app_nextId s)
  | UpdateGroupChat _ updates =>
      gp_id updates = None /\ gp_characterIds updates = None
  | DeleteGroupChat _ => True
  | RemoveCharacterFromChat chatId charId =>
      forall c, In c (app_characters s) -> c_id c = charId -> c_groupChatId c = chatId
  | ApplyTurn chat actingCharacter result =>
      In chat (app_groupChats s) /\
      In actingCharacter (app_characters s) /\
      length (relocations actingCharacter (app_groupChats s) result) <= 1
  end.

Fixpoint allAdmissible (s : AppState) (ms : list Mutation) : Prop :=
  match ms with
  | [] => True
  | m :: ms' => admissible s m /\ allAdmissible (applyMutation m s) ms'
  end.

End Mutations.

(** The two entries staged by an effective relocation to [dest]. *)
Definition stageMove (character : Character) (groupChat dest : GroupChat) (m : PatchMap)
  : PatchMap :=
  mapSet (gc_id dest)
    (characterIdsPatch
       (removeId (c_id character) (gc_characterIds dest) ++ [c_id character]))
    (mapSet (gc_id groupChat)
       (characterIdsPatch (removeId (c_id character) (gc_characterIds groupChat))) m).

(** ** Notions for the export and import round trip *)

Definition expositionLines (gc : GroupChat) : list string := default [] (gc_exposition gc).

(** The name of the location a character is assigned to. *)
Definition locationNameOf (groupChats : list GroupChat) (c : Character) : option string :=
  option_map gc_name (findGroupChatById groupChats (c_groupChatId c)).

(** The names of the characters a character knows. *)
Definition knownNamesOf (characters : list Character) (c : Character) : list (option string) :=
  map (fun id => option_map c_name (findCharacterById characters id)) (c_knownCharacterIds c).

(** The worlds of the round-trip property: unique non-empty names,
    non-empty descriptions, every character assigned to a location of the
    world, every known id the id of a character of the world. *)
Definition exportable (characters : list Character) (groupChats : list GroupChat) : Prop :=
  List.NoDup (map gc_name groupChats) /\
  (forall L, In L groupChats -> gc_name L <> EmptyString /\ gc_description L <> EmptyString) /\
  List.NoDup (map c_name characters) /\
  (forall c, In c characters ->
     c_name c <> EmptyString /\ c_description c <> EmptyString /\
     (exists L, In L groupChats /\ gc_id L = c_groupChatId c) /\
     (forall k, In k (c_knownCharacterIds c) -> exists c', In c' characters /\ c_id c' = k)).

(** No exposition line, quote or note is the empty string. *)
Definition noEmptyLines (characters : list Character) (groupChats : list GroupChat) : Prop :=
  (forall L e, In L groupChats -> In e (expositionLines L) -> e <> EmptyString) /\
  (forall c x, In c characters -> In x (c_quotes c) \/ In x (c_notes c) -> x <> EmptyString).

Section RoundTripNotions.

Variable generateId : nat -> string.

(** The [k] ids drawn from position [n] on are fresh: pairwise distinct
    and not empty. *)
Definition freshIds (n k : nat) : Prop :=
  List.NoDup (map generateId (seq n k)) /\
  (forall i, In i (seq n k) -> generateId i <> EmptyString).

(** What the specification says of export followed by import. *)
Definition RoundTrip (characters : list Character) (groupChats : list GroupChat) (n : nat)
  : Prop :=
  let '(characters', groupChats', _) :=
    importWorldData generateId (exportWorldData characters groupChats) n in
  length groupChats' = length groupChats /\
  length characters' = length characters /\
  map gc_name groupChats' = map gc_name groupChats /\
  map gc_description groupChats' = map gc_description groupChats /\
  map expositionLines groupChats' = map expositionLines groupChats /\
  map c_name characters' = map c_name characters /\
  map c_description characters' = map c_description characters /\
  map c_quotes characters' = map c_quotes characters /\
  map c_notes characters' = map c_notes characters /\
  map (locationNameOf groupChats') characters' = map (locationNameOf groupChats) characters /\
  map (knownNamesOf characters') characters' = map (knownNamesOf characters) characters.

End RoundTripNotions.

Section ImportShapes.

Variable generateId : nat -> string.

(** The locations built by the first pass of the import from the
    locations of an export, ids drawn from position [k]. *)
Fixpoint importedLocations (k : nat) (groupChats : list GroupChat) : list GroupChat :=
  match groupChats with
  | [] => []
  | L :: rest =>
      mkGroupChat (generateId k) (gc_name L) (gc_description L) []
        (Some (filterBoolean (expositionLines L)))
      :: importedLocations (S k) rest
  end.

(** The id of the location the import assigns to a character exported
    with location name [name]. *)
Definition idByName (groupChats : list GroupChat) (name : string) : string :=
  match List.find (fun g => String.eqb (gc_name g) name) groupChats with
  | Some g => gc_id g
  | None => match groupChats with g :: _ => gc_id g | [] => EmptyString end
  end.

(** The characters built by the second pass from exported characters. *)
Fixpoint importedCharacters (k : nat) (groupChats : list GroupChat)
    (data : list CharacterData) : list Character :=
  match data with
  | [] => []
  | c :: rest =>
      mkCharacter (generateId k) (cd_name c) (cd_description c) (cd_pfp_base64 c)
        (idByName groupChats (cd_location c))
        (filterBoolean (cd_notes c)) (filterBoolean (cd_quotes c)) []
      :: importedCharacters (S k) groupChats rest
  end.

End ImportShapes.

(** The fields of a location the second pass leaves alone. *)
Definition skeleton (L : GroupChat) : string * string * string * option (list string) :=
  (gc_id L, gc_name L, gc_description L, gc_exposition L).

(** The id the third pass finds for a name. *)
Definition idOfName (characters : list Character) (name : string) : option string :=
  option_map c_id (findCharacterByName characters name).

(** The known ids the third pass computes for an exported character. *)
Definition linkedIds (characters : list Character) (sourceChar : CharacterData)
  : list string :=
  filterBooleanOpt (map (idOfName characters) (cd_knownCharacters sourceChar)).

(** The result of the third pass on characters [built] for the exported
    characters [data], position by position. *)
Fixpoint linked (all : list Character) (built : list Character) (data : list CharacterData)
  : list Character :=
  match built, data with
  | d :: built', c :: data' =>
      setKnownCharacterIds (linkedIds all c) d :: linked all built' data'
  | _, _ => built
  end.

(** ** Executable checks *)

#[global] Instance Character_eq_dec : EqDecision Character.
Proof. solve_decision. Defined.

#[global] Instance GroupChat_eq_dec : EqDecision GroupChat.
Proof. solve_decision. Defined.

Fixpoint nodupb (l : list string) : bool :=
  match l with
  | [] => true
  | x :: rest => negb (JS.includes rest x) && nodupb rest
  end.

Definition assignedb (cs : list Character) (g cid : string) : bool :=
  existsb (fun c => String.eqb (c_id c) cid && String.eqb (c_groupChatId c) g) cs.

Definition indexedb (cs : list Character) (gcs : list GroupChat) : bool :=
  forallb (fun L =>
    forallb (assignedb cs (gc_id L)) (gc_characterIds L) &&
    forallb (fun c =>
      implb (String.eqb (c_groupChatId c) (gc_id L))
        (JS.includes (gc_characterIds L) (c_id c))) cs) gcs.

Definition consistentb (s : AppState) : bool :=
  nodupb (map c_id (app_characters s)) &&
  forallb (fun L => JS.truthy (gc_id L)) (app_groupChats s) &&
  indexedb (app_characters s) (app_groupChats s).

Section MutationChecks.

Variable generateId : nat -> string.

Definition admissibleb (s : AppState) (m : Mutation) : bool :=
  match m with
  | CreateCharacter _ =>
      negb (JS.includes (map c_id (app_characters s)) (generateId (app_nextId s)))
  | UpdateCharacter _ updates =>
      match cp_id updates, cp_groupChatId updates with
      | None, Some g => JS.truthy g
      | None, None => true
      | Some _, _ => false
      end
  | DeleteCharacter _ => true
  | CreateGroupChat chat =>
      match gc_characterIds chat with
      | [] =>
          JS.truthy (generateId (app_nextId s)) &&
          forallb (fun c => negb (String.eqb (c_groupChatId c) (generateId (app_nextId s))))
            (app_characters s)
      | _ :: _ => false
      end
  | UpdateGroupChat _ updates =>
      match gp_id updates, gp_characterIds updates with
      | None, None => true
      | _, _ => false
      end
  | DeleteGroupChat _ => true
  | RemoveCharacterFromChat chatId charId =>
      forallb (fun c =>
        implb (String.eqb (c_id c) charId) (String.eqb (c_groupChatId c) chatId))
        (app_characters s)
  | ApplyTurn chat actingCharacter result =>
      existsb (fun g => bool_decide (g = chat)) (app_groupChats s) &&
      existsb (fun c => bool_decide (c = actingCharacter)) (app_characters s) &&
      (length (relocations actingCharacter (app_groupChats s) result) <=? 1)
  end.

Fixpoint allAdmissibleb (s : AppState) (ms : list Mutation) : bool :=
  match ms with
  | [] => true
  | m :: ms' => admissibleb s m && allAdmissibleb (applyMutation generateId m s) ms'
  end.

End MutationChecks.

(** ** Sample data *)

(** A stream of ids: pairwise distinct and not empty. *)
Fixpoint sampleId (n : nat) : string :=
  match n with
  | 0 => "g"
  | S k => String "x"%char (sampleId k)
  end.

Definition sampleSettings : SettingsState :=
  mkSettings Descriptive false false OpenAI (mkUserProfile EmptyString EmptyString)
    "Stranger" "key" "model-a" EmptyString EmptyString (7 # 10) (40 # 1) (9 # 10).

Definition noKeySettings : SettingsState :=
  mkSettings Descriptive false false OpenAI (mkUserProfile EmptyString EmptyString)
    "Stranger" EmptyString "model-a" EmptyString EmptyString (7 # 10) (40 # 1) (9 # 10).

Definition tavern : GroupChat :=
  mkGroupChat "loc1" "Tavern" "A noisy tavern" ["c1"] (Some ["Smoke hangs in the air."]).

Definition market : GroupChat :=
  mkGroupChat "loc2" "Market" "A busy market" ["c2"] None.

Definition alice : Character :=
  mkCharacter "c1" "Alice" "A bard" None "loc1" [] ["La la"] ["c2"].

Definition bob : Character :=
  mkCharacter "c2" "Bob" "A smith" None "loc2" ["Alice sings"] [] ["c1"].

(** A generation that answers with text and reports 50 input tokens, one
    that only reasons, and one that fails. *)
Definition sampleReply : GenResult :=
  mkGenResult (Some "Hello there.") None None
    (Some (mkRawUsage (Some 50%Z) (Some 7%Z) None)).

Definition sampleGenerateText (_ : GenRequest) : exc GenResult := inr sampleReply.

Definition summaryGenerateText (_ : GenRequest) : exc GenResult :=
  inr (mkGenResult (Some " They met. ") None None None).

Definition failingGenerateText (_ : GenRequest) : exc GenResult :=
  inl (ThrownError "network down").

Definition reasoningOnly : GenResult :=
  mkGenResult (Some "  ") None (Some ["She weighs her options."]) None.

Definition moveTo (destName : string) : GenResult :=
  mkGenResult None
    (Some [mkToolCall "moveToLocation" (Some (mkToolInput None (Some destName) None))])
    None None.

(** Two relocations in one turn. *)
Definition moveTwice : GenResult :=
  mkGenResult None
    (Some [mkToolCall "moveToLocation" (Some (mkToolInput None (Some "Market") None));
           mkToolCall "moveToLocation" (Some (mkToolInput None (Some "Harbor") None))])
    None None.

(** The application with Alice selected in the tavern, the counter of the
    tavern at [counter] and its history [history]. *)
Definition sampleState (counter : Z) (history : list ChatMessage) : AppState :=
  mkAppState [alice; bob] [tavern; market] {["loc1" := history]} {["loc1" := counter]} ∅
    (Some "loc1") EmptyString (Some "c1") sampleSettings 0.

Definition said (id : string) (type : MessageType) (sender text : string) : ChatMessage :=
  mkMessage id type text sender None.

(** Ten messages, an old summary first and a loading placeholder last. *)
Definition longHistory : list ChatMessage :=
  [ mkMessage "s0" TSummary "Earlier, they arrived." "Summary" None;
    said "m1" TUser "Stranger" "Hello";
    mkMessage "m2" TCharacter "Hi" "Alice" (Some "c1");
    said "m3" TDirector "Director" "Rain starts";
    said "m4" TUser "Stranger" "Shall we go in?";
    mkMessage "m5" TCharacter "Yes" "Alice" (Some "c1");
    said "m6" TNarration "Narrator" "*Bob moved to Tavern.*";
    mkMessage "m7" TCharacter "Evening" "Bob" (Some "c2");
    said "m8" TUser "Stranger" "A song?";
    mkMessage "m9" TCharacter "Gladly" "Alice" (Some "c1");
    said "m10" TUser "Stranger" "Louder";
    mkMessage "l11" TLoading EmptyString "Alice" (Some "c1") ].

(** A history with a stale placeholder of Alice before her message. *)
Definition staleHistory : list ChatMessage :=
  [ mkMessage "l0" TLoading EmptyString "Alice" (Some "c1");
    mkMessage "m1" TCharacter "Hi" "Alice" (Some "c1") ].

Definition cleanHistory : list ChatMessage :=
  [ said "m0" TUser "Stranger" "Hello";
    mkMessage "m1" TCharacter "Hi" "Alice" (Some "c1");
    said "m2" TUser "Stranger" "Again" ].

(** A patch of the member list alone. *)
Definition memberPatch : GroupChatPatch :=
  mkGroupChatPatch None None None (Some ["c1"; "ghost"]) None.

Definition tavernWithBob : GroupChat :=
  mkGroupChat "loc1" "Tavern" "A noisy tavern" ["c1"; "c2"] (Some ["Smoke hangs in the air."]).

(** A sequence of admissible mutations. *)
Definition sampleMutations : list Mutation :=
  [ CreateGroupChat (mkGroupChat EmptyString "Harbor" "A windy harbor" [] None);
    CreateCharacter (mkCharacter EmptyString "Cara" "A sailor" None "g" [] [] ["c1"]);
    UpdateCharacter "c2"
      (mkCharacterPatch None None None None (Some "loc1") None None None);
    UpdateGroupChat "loc2"
      (mkGroupChatPatch None (Some "Bazaar") None None None);
    ApplyTurn tavernWithBob alice (moveTo "Bazaar");
    RemoveCharacterFromChat "loc1" "c2";
    DeleteCharacter "xg";
    DeleteGroupChat "loc2" ].

(** A world with an empty quote. *)
Definition aliceWithEmptyQuote : Character :=
  mkCharacter "c1" "Alice" "A bard" None "loc1" [] ["La la"; EmptyString] ["c2"].

(** ** Notions for the messages and updates of a turn *)

(** A message spoken by the character, and a message of the narrator. *)
Definition spokenBy (character : Character) (m : ChatMessage) : Prop :=
  m_type m = TCharacter /\ m_sender m = c_name character /\
  m_charId m = Some (c_id character).

Definition narrated (m : ChatMessage) : Prop :=
  m_type m = TNarration /\ m_sender m = "Narrator" /\ m_charId m = None.

(** A character patch that sets nothing but notes and location, and a
    location patch that sets nothing but the member list. *)
Definition onlyNotesAndLocation (u : CharacterPatch) : Prop :=
  cp_id u = None /\ cp_name u = None /\ cp_description u = None /\
  cp_pfp_base64 u = None /\ cp_quotes u = None /\ cp_knownCharacterIds u = None.

Definition onlyMembers (u : GroupChatPatch) : Prop :=
  gp_id u = None /\ gp_name u = None /\ gp_description u = None /\
  gp_exposition u = None /\ gp_characterIds u <> None.

(** The note a tool call records: that of a [makeNote] call with an input
    whose note is not empty. *)
Definition notedBy (call : ToolCall) : option string :=
  match input call with
  | Some i =>
      if String.eqb (toolName call) "makeNote" then
        match in_note i with
        | Some note => if JS.truthy note then Some note else None
        | None => None
        end
      else None
  | None => None
  end.

(** The notes of a generation result, in the order of its tool calls. *)
Definition notesOf (result : GenResult) : list string :=
  match r_toolCalls result with
  | Some calls => omap notedBy calls
  | None => []
  end.

(** The message that displays a note. *)
Definition noteText (character : Character) (note : string) : string :=
  c_name character +:+ " noted: *" +:+ note +:+ "*".

(** The loop state of [processCharacterTurnResult] accounts for the ids
    drawn since position [n]: one per message, in order, and every message
    is spoken by the character or narrated. *)
Definition accountedFrom (generateId : nat -> string) (n : nat) (character : Character)
    (a : TurnAcc) : Prop :=
  acc_nextId a = n + length (newMessages a) /\
  map m_id (newMessages a) = map generateId (seq n (length (newMessages a))) /\
  Forall (fun m => spokenBy character m \/ narrated m) (newMessages a).

(** The updates staged so far touch nothing but notes, location and
    member lists. *)
Definition stagedWithin (a : TurnAcc) : Prop :=
  onlyNotesAndLocation (characterUpdates a) /\
  Forall (fun e => onlyMembers (snd e)) (groupChatUpdates a).

(** A stranger label, when there is one, is not empty and is trimmed. *)
Definition labelled (l : option string) : Prop :=
  match l with
  | Some l => JS.truthy l = true /\ JS.trim l = l
  | None => True
  end.

(** The notes staged after the notes [notes] were recorded, in this order:
    the notes of the character followed by the last recorded one. *)
Definition stagedNotes (character : Character) (notes : list string) : option (list string) :=
  option_map (fun note => c_notes character ++ [note]) (last notes).

(** ** Importing a world into the application (src/App.tsx, MenuDrawer.tsx) *)

(** The [onImportWorld] callback of [App]: the histories are cleared, the
    token counters and the active chat are left as they are. *)
Definition onImportWorld (chars : list Character) (chats : list GroupChat) (s : AppState)
  : AppState :=
  let s := setCharacters (fun _ => chars) s in
  let s := setGroupChats (fun _ => chats) s in
  setMessages (fun _ => ∅) s.

(** The [onImportMessages] callback of [App]:
    [setMessages(prev => ({ ...prev, ...importedMessages }))]. *)
Definition onImportMessages (importedMessages : gmap string (list ChatMessage))
    (s : AppState) : AppState :=
  setMessages (fun prev => importedMessages ∪ prev) s.

(** [handleImportWorld] of the drawer, for the world data [data] read from
    the uploaded file. *)
Definition handleImportWorld (generateId : nat -> string) (data : WorldData) (s : AppState)
  : AppState :=
  let '(newChars, newChats, n) := importWorldData generateId data (app_nextId s) in
  onImportWorld newChars newChats (setNextId n s).

(** An entry of the import is kept when its name and its description are
    not empty. *)
Definition keptLocation (loc : LocationData) : bool :=
  JS.truthy (ld_name loc) && JS.truthy (ld_description loc).

Definition keptCharacter (c : CharacterData) : bool :=
  JS.truthy (cd_name c) && JS.truthy (cd_description c).

(** The fields of a character the third pass of the import leaves alone. *)
Definition characterCore (c : Character)
  : string * string * string * option string * string * list string * list string :=
  (c_id c, c_name c, c_description c, c_pfp_base64 c, c_groupChatId c, c_notes c, c_quotes c).

(** ** Chat history export and import (src/lib/worldData.ts) *)

(** A [Record<string, ChatMessage[]>] that is enumerated is the list of
    its entries, in property order; [locationNames], which is only looked
    up, is a map. The time stamp of the export is given. *)
Record ChatHistoryExport : Type := mkChatHistoryExport {
  che_version : nat;
  che_exportedAt : string;
  che_messages : list (string * list ChatMessage);
  che_locationNames : gmap string string
}.

(** [groupChats.forEach(gc => { locationNames[gc.id] = gc.name })] *)
Definition locationNamesOf (groupChats : list GroupChat) : gmap string string :=
  fold_left (fun m gc => <[gc_id gc := gc_name gc]> m) groupChats ∅.

(** [exportChatHistory], for the entries of [messages]. *)
Definition exportChatHistory (now : string) (entries : list (string * list ChatMessage))
    (groupChats : list GroupChat) : ChatHistoryExport :=
  let locationNames := locationNamesOf groupChats in
  let filteredMessages :=
    omap (fun e : string * list ChatMessage =>
            let filtered := List.filter (fun m => negb (isType TLoading m)) (snd e) in
            match filtered with
            | [] => None
            | _ :: _ => Some (fst e, filtered)
            end) entries in
  mkChatHistoryExport 1 now filteredMessages locationNames.

(** A plain object holds its own properties and inherits those of
    [Object.prototype], under these names. *)
Definition inheritedNames : list string :=
  ["constructor"; "hasOwnProperty"; "isPrototypeOf"; "propertyIsEnumerable";
   "toLocaleString"; "toString"; "valueOf"; "__defineGetter__"; "__defineSetter__";
   "__lookupGetter__"; "__lookupSetter__"; "__proto__"].

(** What [o[k]] evaluates to on a plain object of strings: the value of
    the own property, or a value inherited under the name [k] (a
    function, or the prototype itself under "__proto__"). *)
Inductive Looked : Type :=
| OwnValue (v : string)
| InheritedValue (name : string).

(** [o[k]], for the own properties [o]; [None] is [undefined]. *)
Definition getProperty (o : gmap string string) (k : string) : option Looked :=
  match o !! k with
  | Some v => Some (OwnValue v)
  | None => if JS.includes inheritedNames k then Some (InheritedValue k) else None
  end.

(** [o[k] = v] on the own properties [o]: the key "__proto__" reaches the
    setter inherited from [Object.prototype], which adds no own
    property. *)
Definition setProperty {V} (k : string) (v : V) (o : gmap string V) : gmap string V :=
  if String.eqb k "__proto__" then o else <[k := v]> o.

(** Functions and objects are truthy. *)
Definition truthyValue (v : Looked) : bool :=
  match v with
  | OwnValue s => JS.truthy s
  | InheritedValue _ => true
  end.

(** [groupChats.forEach(gc => { nameToId[gc.name] = gc.id })] *)
Definition nameToIdOf (groupChats : list GroupChat) : gmap string string :=
  fold_left (fun m gc => setProperty (gc_name gc) (gc_id gc) m) groupChats ∅.

Section ChatHistoryImport.

Variable generateId : nat -> string.

(** The text [String(f)] of the function inherited under a name; it
    depends on the engine. *)
Variable nativeText : string -> string.

(** A value used as a property key is converted to a string. *)
Definition textOf (v : Looked) : string :=
  match v with
  | OwnValue s => s
  | InheritedValue name =>
      if String.eqb name "__proto__" then "[object Object]" else nativeText name
  end.

(** [msgs.map(m => ({ ...m, id: generateId() }))], ids drawn from
    position [n]. *)
Fixpoint regenerateIds (msgs : list ChatMessage) (n : nat) : list ChatMessage :=
  match msgs with
  | [] => []
  | m :: rest =>
      mkMessage (generateId n) (m_type m) (m_text m) (m_sender m) (m_charId m)
      :: regenerateIds rest (S n)
  end.

(** One entry of [data.messages]. Both [data.locationNames] and
    [nameToId] are plain objects. *)
Definition importEntry (locationNames nameToId : gmap string string)
    (acc : gmap string (list ChatMessage) * nat) (e : string * list ChatMessage)
  : gmap string (list ChatMessage) * nat :=
  let '(importedMessages, n) := acc in
  let '(oldChatId, msgs) := e in
  match getProperty locationNames oldChatId with
  | Some locationName =>
      if truthyValue locationName then
        match getProperty nameToId (textOf locationName) with
        | Some newChatId =>
            if truthyValue newChatId
            then (setProperty (textOf newChatId) (regenerateIds msgs n) importedMessages,
                  n + length msgs)
            else acc
        | None => acc
        end
      else acc
  | None => acc
  end.

(** [importChatHistory data groupChats], ids drawn from position [n];
    returns the own properties of the imported histories and the next
    position. *)
Definition importChatHistory (data : ChatHistoryExport) (groupChats : list GroupChat) (n : nat)
  : gmap string (list ChatMessage) * nat :=
  fold_left (importEntry (che_locationNames data) (nameToIdOf groupChats))
    (che_messages data) (∅, n).

(** [handleImportChatHistory] of the drawer, for the data read from the
    uploaded file; its [messages] field is present, and an object is
    truthy. *)
Definition handleImportChatHistory (data : ChatHistoryExport) (s : AppState) : AppState :=
  if negb (che_version data =? 1) then s
  else
    let '(importedMessages, n) := importChatHistory data (app_groupChats s) (app_nextId s) in
    onImportMessages importedMessages (setNextId n s).

End ChatHistoryImport.

(** What a message says: everything but its id. *)
Definition contentOf (m : ChatMessage) : MessageType * string * string * option string :=
  (m_type m, m_text m, m_sender m, m_charId m).

(** The text of the inherited functions in V8. *)
Definition sampleNativeText (name : string) : string :=
  "function " +:+ (if String.eqb name "constructor" then "Object" else name)
  +:+ "() { [native code] }".

(** How a history returned by the import is filed under [k]: it comes
    from an entry [(old, source)] of the data for which
    [data.locationNames] yields the truthy value [recorded]; and either
    [k] is the id, not empty, of a location whose name is the text of
    [recorded], or no location has that name, every object inherits a
    property of that name, and [k] is the text of the inherited value. *)
Definition filedUnder (nativeText : string -> string) (locationNames : gmap string string)
    (groupChats : list GroupChat) (entries : list (string * list ChatMessage))
    (k : string) (msgs : list ChatMessage) : Prop :=
  k <> "__proto__" /\
  exists old source recorded,
    In (old, source) entries /\
    getProperty locationNames old = Some recorded /\
    truthyValue recorded = true /\
    map contentOf msgs = map contentOf source /\
    ((exists g, In g groupChats /\ gc_name g = textOf nativeText recorded /\
                gc_id g = k /\ k <> EmptyString) \/
     (In (textOf nativeText recorded) inheritedNames /\
      nameToIdOf groupChats !! textOf nativeText recorded = None /\
      k = textOf nativeText (InheritedValue (textOf nativeText recorded)))).

(** ** World builder (src/lib/worldBuilder.ts) *)

(** A case folding for the sample data: the letters A to Z, as
    [String.prototype.toLowerCase] folds them. *)
Definition toLowerAscii (c : ascii) : ascii :=
  let n := nat_of_ascii c in
  if (65 <=? n) && (n <=? 90) then ascii_of_nat (n + 32) else c.

Fixpoint asciiLowerCase (s : string) : string :=
  match s with
  | EmptyString => EmptyString
  | String c s' => String (toLowerAscii c) (asciiLowerCase s')
  end.

(** A number in a template literal. *)
Definition showNat (n : nat) : string := NilZero.string_of_uint (Nat.to_uint n).

Inductive LogType : Type := LogInfo | LogSuccess | LogWarning | LogError.

Record WorldBuilderLogEntry : Type := mkLogEntry {
  log_key : string;
  log_message : string;
  log_type : LogType
}.

Record WorldBuilderResult : Type := mkWorldBuilderResult {
  wr_success : bool;
  wr_characters : list Character;
  wr_groupChats : list GroupChat;
  wr_logs : list WorldBuilderLogEntry
}.

(** The inputs of the tools, as their schemas describe them. *)
Record LocationInput : Type := mkLocationInput {
  li_name : string;
  li_description : string;
  li_exposition : option (list string)
}.

Record CharacterInput : Type := mkCharacterInput {
  ci_name : string;
  ci_description : string;
  ci_quotes : option (list string)
}.

(** What a tool hands back to the model. *)
Inductive ToolOutcome : Type :=
| BatchOutcome (created skipped : nat) (message : string)
| FailureOutcome (error : string)
| MessageOutcome (message : string)
| KnownOutcome (found : nat) (notFound : list string) (message : string).

(** What happens while [generateText] runs with the tools of the builder:
    the model has a tool executed, or a step finishes with a reason. *)
Inductive BuilderEvent : Type :=
| CreateLocations (locations : list LocationInput)
| CreateCharacters (characters : list CharacterInput)
| AddCharacterToLocation (characterName locationName : string)
| SetKnownCharacters (characterName : string) (knownCharacterNames : list string)
| WorldGenerationComplete
| StepFinished (finishReason : string).

Record BuilderRequest : Type := mkBuilderRequest {
  b_model : ModelInstance;
  b_system : string;
  b_prompt : string;
  b_settings : GenerationSettings;
  b_stepLimit : nat
}.

(** The arrays of [generateWorld] and the position in the id stream. *)
Record BuilderState : Type := mkBuilderState {
  wb_logs : list WorldBuilderLogEntry;
  wb_characters : list Character;
  wb_groupChats : list GroupChat;
  wb_nextId : nat
}.

Definition setLogs (logs : list WorldBuilderLogEntry) (st : BuilderState) : BuilderState :=
  mkBuilderState logs (wb_characters st) (wb_groupChats st) (wb_nextId st).

(** [addLog]: the entry of the same key is replaced where it is, a new key
    is appended. The optional observer [onLogUpdate] is handed a copy of
    the log after each change and is not part of the embedding. *)
Definition addLog (key message : string) (type : LogType) (st : BuilderState) : BuilderState :=
  let entry := mkLogEntry key message type in
  match JS.findIndex (fun l => String.eqb (log_key l) key) (wb_logs st) with
  | Some existingIndex => setLogs (<[existingIndex := entry]> (wb_logs st)) st
  | None => setLogs (wb_logs st ++ [entry]) st
  end.

(** [l.find(p)] with the position of the object found: the object is then
    updated in place, through the array. *)
Fixpoint findRef {A} (p : A -> bool) (l : list A) : option (nat * A) :=
  match l with
  | [] => None
  | x :: l' =>
      if p x then Some (0, x)
      else option_map (fun r => (S (fst r), snd r)) (findRef p l')
  end.

Definition batchMessage (what : string) (created skipped : nat) : string :=
  "Created " +:+ showNat created +:+ " " +:+ what +:+ "(s)" +:+
  (if 0 <? skipped then ", skipped " +:+ showNat skipped +:+ " existing" else "").

Section WorldBuilder.

Variable generateId : nat -> string.

(** [String.prototype.toLowerCase], the case folding of the engine. *)
Variable toLowerCase : string -> string.

(** The run of [generateText] on a request of the builder: the events, in
    order, and the thrown value when the call ends by a throw. *)
Variable generateWorldRun : BuilderRequest -> list BuilderEvent * option Thrown.

Definition sameName (a b : string) : bool := String.eqb (toLowerCase a) (toLowerCase b).

(** One iteration of the loop of [createLocations]; the counters are
    [created] and [skipped]. *)
Definition createLocation (acc : BuilderState * nat * nat) (loc : LocationInput)
  : BuilderState * nat * nat :=
  let '(st, created, skipped) := acc in
  let exists_ := existsb (fun gc => sameName (gc_name gc) (li_name loc)) (wb_groupChats st) in
  if exists_ then (st, created, S skipped)
  else
    (mkBuilderState (wb_logs st) (wb_characters st)
       (wb_groupChats st ++
          [mkGroupChat (generateId (wb_nextId st)) (li_name loc) (li_description loc) []
             (Some (match li_exposition loc with
                    | Some e => filterBoolean e
                    | None => []
                    end))])
       (S (wb_nextId st)),
     S created, skipped).

Definition createLocations (locations : list LocationInput) (st : BuilderState)
  : BuilderState * ToolOutcome :=
  let '(st, created, skipped) := fold_left createLocation locations (st, 0, 0) in
  let message := batchMessage "location" created skipped in
  (addLog "locations" message LogSuccess st, BatchOutcome created skipped message).

(** One iteration of the loop of [createCharacters]. *)
Definition createBuilderCharacter (acc : BuilderState * nat * nat) (char : CharacterInput)
  : BuilderState * nat * nat :=
  let '(st, created, skipped) := acc in
  let exists_ := existsb (fun c => sameName (c_name c) (ci_name char)) (wb_characters st) in
  if exists_ then (st, created, S skipped)
  else
    (mkBuilderState (wb_logs st)
       (wb_characters st ++
          [mkCharacter (generateId (wb_nextId st)) (ci_name char) (ci_description char) None
             EmptyString []
             (match ci_quotes char with
              | Some q => filterBoolean q
              | None => []
              end) []])
       (wb_groupChats st) (S (wb_nextId st)),
     S created, skipped).

Definition createCharacters (chars : list CharacterInput) (st : BuilderState)
  : BuilderState * ToolOutcome :=
  let '(st, created, skipped) := fold_left createBuilderCharacter chars (st, 0, 0) in
  let message := batchMessage "character" created skipped in
  (addLog "characters" message LogSuccess st, BatchOutcome created skipped message).

Definition withLocation (chatId : string) (c : Character) : Character :=
  mkCharacter (c_id c) (c_name c) (c_description c) (c_pfp_base64 c) chatId
    (c_notes c) (c_quotes c) (c_knownCharacterIds c).

(** [addCharacterToLocation]: the character and the location are the
    first of that name in their array, and are updated in place. *)
Definition addCharacterToLocation (characterName locationName : string) (st : BuilderState)
  : BuilderState * ToolOutcome :=
  let character := findRef (fun c => sameName (c_name c) characterName) (wb_characters st) in
  let location := findRef (fun gc => sameName (gc_name gc) locationName) (wb_groupChats st) in
  match character, location with
  | None, _ =>
      (st, FailureOutcome ("Character " +:+ dq +:+ characterName +:+ dq +:+ " not found."))
  | Some _, None =>
      (st, FailureOutcome ("Location " +:+ dq +:+ locationName +:+ dq +:+ " not found."))
  | Some (ci, character), Some (li, location) =>
      let characters := alter (withLocation (gc_id location)) ci (wb_characters st) in
      let groupChats :=
        if negb (JS.includes (gc_characterIds location) (c_id character))
        then alter (fun gc => withCharacterIds (gc_characterIds gc ++ [c_id character]) gc)
               li (wb_groupChats st)
        else wb_groupChats st in
      let st := mkBuilderState (wb_logs st) characters groupChats (wb_nextId st) in
      (addLog "assignments"
         ("Assigned " +:+ c_name character +:+ " to " +:+ gc_name location) LogInfo st,
       MessageOutcome ("Assigned " +:+ characterName +:+ " to " +:+ locationName))
  end.

(** One iteration of the loop of [setKnownCharacters]; the arrays are
    [foundIds] and [notFound]. *)
Definition resolveKnown (characters : list Character) (character : Character)
    (acc : list string * list string) (name : string) : list string * list string :=
  let '(foundIds, notFound) := acc in
  match List.find (fun c => sameName (c_name c) name) characters with
  | Some known =>
      if negb (String.eqb (c_id known) (c_id character))
      then (foundIds ++ [c_id known], notFound)
      else (foundIds, notFound)
  | None => (foundIds, notFound ++ [name])
  end.

Definition setKnownCharacters (characterName : string) (knownCharacterNames : list string)
    (st : BuilderState) : BuilderState * ToolOutcome :=
  match findRef (fun c => sameName (c_name c) characterName) (wb_characters st) with
  | None =>
      (st, FailureOutcome ("Character " +:+ dq +:+ characterName +:+ dq +:+ " not found."))
  | Some (ci, character) =>
      let '(foundIds, notFound) :=
        fold_left (resolveKnown (wb_characters st) character) knownCharacterNames ([], []) in
      let characters := alter (setKnownCharacterIds foundIds) ci (wb_characters st) in
      let message :=
        "Set " +:+ showNat (length foundIds) +:+ " relationship(s) for " +:+ characterName
        +:+ (match notFound with
             | [] => ""
             | _ :: _ => " (couldn't find: " +:+ JS.join ", " notFound +:+ ")"
             end) in
      let st := mkBuilderState (wb_logs st) characters (wb_groupChats st) (wb_nextId st) in
      (addLog "relationships" message
         (match notFound with [] => LogInfo | _ :: _ => LogWarning end) st,
       KnownOutcome (length foundIds) notFound message)
  end.

Definition worldGenerationComplete (st : BuilderState) : BuilderState * ToolOutcome :=
  (addLog "done" "World generation complete!" LogSuccess st,
   MessageOutcome "World generation complete").

Definition onStepFinish (finishReason : string) (st : BuilderState) : BuilderState :=
  if String.eqb finishReason "error"
  then addLog "step_error" "A step encountered an error" LogWarning st
  else st.

(** The effect of one event of the run on the arrays. *)
Definition builderStep (st : BuilderState) (e : BuilderEvent) : BuilderState :=
  match e with
  | CreateLocations locations => fst (createLocations locations st)
  | CreateCharacters characters => fst (createCharacters characters st)
  | AddCharacterToLocation characterName locationName =>
      fst (addCharacterToLocation characterName locationName st)
  | SetKnownCharacters characterName knownCharacterNames =>
      fst (setKnownCharacters characterName knownCharacterNames st)
  | WorldGenerationComplete => fst (worldGenerationComplete st)
  | StepFinished finishReason => onStepFinish finishReason st
  end.

Definition builderSystemPrompt : string :=
  "You are an AI world builder. Populate worlds from user text using the provided tools in this exact order:" +:+ nl +:+
  nl +:+
  "1. **Create ALL locations** - Call `createLocations` once with all locations" +:+ nl +:+
  "2. **Create ALL characters** - Call `createCharacters` once with all characters" +:+ nl +:+
  "3. **Assign to locations** - Use `addCharacterToLocation` for each character" +:+ nl +:+
  "4. **Set relationships** - Use `setKnownCharacters` to establish connections (infer from context)" +:+ nl +:+
  "5. **Complete** - Call `worldGenerationComplete` when done" +:+ nl +:+
  nl +:+
  "Rules:" +:+ nl +:+
  "- Skip entities that already exist" +:+ nl +:+
  "- Extract ALL characters/locations from input" +:+ nl +:+
  "- Create multiple entities per call when possible".

(** The default location given to a world that has characters and no
    location: the characters without a location are assigned to it. *)
Definition placeUnassigned (defaultId : string) (c : Character) : Character :=
  if negb (JS.truthy (c_groupChatId c)) then withLocation defaultId c else c.

Definition ensureLocation (st : BuilderState) : BuilderState :=
  match wb_groupChats st, wb_characters st with
  | [], _ :: _ =>
      let defaultId := generateId (wb_nextId st) in
      let unassigned :=
        List.filter (fun c => negb (JS.truthy (c_groupChatId c))) (wb_characters st) in
      let defaultLocation :=
        mkGroupChat defaultId "Default Location" "A starting place for characters"
          (map c_id unassigned) (Some []) in
      addLog "default_loc" "Created default location for unassigned characters" LogInfo
        (mkBuilderState (wb_logs st) (map (placeUnassigned defaultId) (wb_characters st))
           [defaultLocation] (S (wb_nextId st)))
  | _, _ => st
  end.

Definition resultOf (success : bool) (st : BuilderState) : WorldBuilderResult :=
  mkWorldBuilderResult success (wb_characters st) (wb_groupChats st) (wb_logs st).

(** [generateWorld inputText settings], ids drawn from position [n]. *)
Definition generateWorld (inputText : string) (settings : SettingsState) (n : nat)
  : WorldBuilderResult * nat :=
  let st := addLog "init" "Starting world generation with AI..." LogInfo
              (mkBuilderState [] [] [] n) in
  let failed (error : Thrown) (st : BuilderState) :=
    let st := addLog "error" ("Error generating world: " +:+ errorMessageOf error) LogError st in
    (resultOf false st, wb_nextId st) in
  match getModelInstance settings ForWorldbuilder with
  | inl error => failed error st
  | inr model =>
      let '(events, thrown) :=
        generateWorldRun
          (mkBuilderRequest model builderSystemPrompt inputText
             (getGenerationSettings settings) 150) in
      let st := fold_left builderStep events st in
      match thrown with
      | Some error => failed error st
      | None =>
          let st := ensureLocation st in
          (resultOf true st, wb_nextId st)
      end
  end.

End WorldBuilder.

(** The invariants of the arrays of the builder: names are unique up to
    the case folding; a character with a location is listed by a location of
    that id; member lists and acquaintances hold ids of characters; no
    character knows itself. *)
Definition builderInvariant (toLowerCase : string -> string) (st : BuilderState) : Prop :=
  List.NoDup (map (fun g => toLowerCase (gc_name g)) (wb_groupChats st)) /\
  List.NoDup (map (fun c => toLowerCase (c_name c)) (wb_characters st)) /\
  (forall c, In c (wb_characters st) ->
     c_groupChatId c = EmptyString \/
     exists g, In g (wb_groupChats st) /\ gc_id g = c_groupChatId c /\
               In (c_id c) (gc_characterIds g)) /\
  (forall g k, In g (wb_groupChats st) -> In k (gc_characterIds g) ->
     In k (map c_id (wb_characters st))) /\
  (forall c k, In c (wb_characters st) -> In k (c_knownCharacterIds c) ->
     k <> c_id c /\ In k (map c_id (wb_characters st))).

(** The invariants of the log while the builder runs: one entry per key,
    the first one that of the start, none of key "error". *)
Definition logInvariant (logs : list WorldBuilderLogEntry) : Prop :=
  List.NoDup (map log_key logs) /\
  head logs = Some (mkLogEntry "init" "Starting world generation with AI..." LogInfo) /\
  ~ In "error" (map log_key logs).

(** An event that creates no location. *)
Definition createsNoLocation (e : BuilderEvent) : bool :=
  match e with
  | CreateLocations (_ :: _) => false
  | _ => true
  end.

(** ** Model names (src/lib/aiService.ts) *)

(** [s.includes(c)] for a one-character string [c]. *)
Fixpoint includesChar (c : ascii) (s : string) : bool :=
  match s with
  | EmptyString => false
  | String d s' => Ascii.eqb d c || includesChar c s'
  end.

(** [validateModelFormat]: the error message, or [None] for [undefined]. *)
Definition validateModelFormat (provider : AIProvider) (model : string) : option string :=
  if negb (JS.truthy model) || (String.length (JS.trim model) =? 0)
  then Some "Model name cannot be empty"
  else if (match provider with OpenRouter => true | _ => false end)
          && negb (includesChar "/" model)
  then Some "OpenRouter models should be in format: provider/model-name"
  else None.

(** ** The drawer (src/components/app/MenuDrawer.tsx) *)

(** [s.split('\n')] *)
Fixpoint splitLines (s : string) : list string :=
  match s with
  | EmptyString => [EmptyString]
  | String c s' =>
      if Ascii.eqb c (ascii_of_nat 10) then EmptyString :: splitLines s'
      else
        match splitLines s' with
        | line :: rest => String c line :: rest
        | [] => [String c EmptyString]
        end
  end.

(** An entry of [editForms]: every field may be missing. *)
Record EditForm : Type := mkEditForm {
  ef_name : option string;
  ef_description : option string;
  ef_exposition : option string;
  ef_groupChatId : option string;
  ef_quotes : option string;
  ef_knownCharacterIds : option string
}.

(** [if (form.x) updates.x = f(form.x)] *)
Definition whenTruthy {A} (field : option string) (f : string -> A) : option A :=
  match field with
  | Some v => if JS.truthy v then Some (f v) else None
  | None => None
  end.

Definition handleSaveGroupChat (chatId : string) (editForms : gmap string EditForm)
    (s : AppState) : AppState * gmap string EditForm :=
  match editForms !! chatId with
  | None => (s, editForms)
  | Some form =>
      let updates :=
        mkGroupChatPatch None
          (whenTruthy (ef_name form) (fun v => v))
          (whenTruthy (ef_description form) (fun v => v))
          None
          (whenTruthy (ef_exposition form) (fun v => filterBoolean (splitLines v))) in
      (updateGroupChat chatId updates s, delete chatId editForms)
  end.

Section DrawerForms.

(** [JSON.parse] on the text of the known-character field. *)
Variable JSON_parse : string -> exc (list string).

(** [handleSaveCharacter]: a throw of [JSON.parse] leaves the handler
    before anything is updated. *)
Definition handleSaveCharacter (charId : string) (editForms : gmap string EditForm)
    (s : AppState) : exc (AppState * gmap string EditForm) :=
  match editForms !! charId with
  | None => ret (s, editForms)
  | Some form =>
      do knownCharacterIds <-
        match ef_knownCharacterIds form with
        | Some v => if JS.truthy v then (do ids <- JSON_parse v; ret (Some ids)) else ret None
        | None => ret None
        end;
      let updates :=
        mkCharacterPatch None
          (whenTruthy (ef_name form) (fun v => v))
          (whenTruthy (ef_description form) (fun v => v))
          None
          (whenTruthy (ef_groupChatId form) (fun v => v))
          None
          (whenTruthy (ef_quotes form) (fun v => filterBoolean (splitLines v)))
          knownCharacterIds in
      ret (updateCharacter charId updates s, delete charId editForms)
  end.

End DrawerForms.

(** *** Switching provider *)

Record ProviderSettings : Type := mkProviderSettings {
  ps_apiKey : string;
  ps_model : string;
  ps_summarizationModel : string;
  ps_worldbuilderModel : string;
  ps_temperature : Q;
  ps_topK : Q;
  ps_topP : Q
}.

(** [DEFAULT_PROVIDER_SETTINGS[provider]] *)
Definition DEFAULT_PROVIDER_SETTINGS (provider : AIProvider) : ProviderSettings :=
  match provider with
  | OpenAI | Anthropic | Google | Together | OpenRouter | XAI =>
      mkProviderSettings EmptyString EmptyString EmptyString EmptyString
        (7 # 10) (40 # 1) (9 # 10)
  end.

(** The settings with their [providerSettings] field, a record keyed by
    the names of the providers. *)
Record SettingsStore : Type := mkSettingsStore {
  st_settings : SettingsState;
  st_providerSettings : gmap string ProviderSettings
}.

(** The [onValueChange] handler of the provider selector, created in the
    render whose settings are [settings] and applied to the settings
    [prev]. *)
Definition handleProviderChange (settings : SettingsStore) (value : AIProvider)
    (prev : SettingsStore) : SettingsStore :=
  let currentProvider := aiProvider (st_settings settings) in
  let currentSettings :=
    mkProviderSettings (apiKey (st_settings settings)) (model (st_settings settings))
      (orElse (summarizationModel (st_settings settings)) EmptyString)
      (orElse (worldbuilderModel (st_settings settings)) EmptyString)
      (temperature (st_settings settings)) (topK (st_settings settings))
      (topP (st_settings settings)) in
  let providerSettings := st_providerSettings settings in
  let newSettings :=
    default (DEFAULT_PROVIDER_SETTINGS value) (providerSettings !! providerName value) in
  mkSettingsStore
    (mkSettings (messageStyle (st_settings prev)) (shareUserProfile (st_settings prev))
       (charactersKnowAll (st_settings prev)) value (userProfile (st_settings prev))
       (strangerLabel (st_settings prev))
       (ps_apiKey newSettings) (ps_model newSettings)
       (orElse (ps_summarizationModel newSettings) EmptyString)
       (orElse (ps_worldbuilderModel newSettings) EmptyString)
       (ps_temperature newSettings) (ps_topK newSettings) (ps_topP newSettings))
    (<[providerName currentProvider := currentSettings]> (st_providerSettings prev)).

(** ** Further sample data *)

(** The text of these bytes. *)
Definition ofBytes (l : list nat) : string :=
  fold_right (fun n s => String (ascii_of_nat n) s) EmptyString l.

(** The encodings of the 25 code points [trim] removes, and of code
    points it keeps: U+0085, U+200B, U+180E, U+00A1 and A. *)
Definition whiteSpaceTable : list (list nat) :=
  [ [9]; [10]; [11]; [12]; [13]; [32]; [194; 160]; [225; 154; 128];
    [226; 128; 128]; [226; 128; 129]; [226; 128; 130]; [226; 128; 131];
    [226; 128; 132]; [226; 128; 133]; [226; 128; 134]; [226; 128; 135];
    [226; 128; 136]; [226; 128; 137]; [226; 128; 138]; [226; 128; 168];
    [226; 128; 169]; [226; 128; 175]; [226; 129; 159]; [227; 128; 128];
    [239; 187; 191] ].

Definition inkTable : list (list nat) :=
  [ [194; 133]; [226; 128; 139]; [225; 160; 142]; [194; 161]; [65] ].

(** White space beyond ASCII: U+00A0, U+2028 and U+FEFF. *)
Definition nbsp : string :=
  String (ascii_of_nat 194) (String (ascii_of_nat 160) EmptyString).

Definition lineSeparator : string :=
  String (ascii_of_nat 226) (String (ascii_of_nat 128) (String (ascii_of_nat 168) EmptyString)).

Definition byteOrderMark : string :=
  String (ascii_of_nat 239) (String (ascii_of_nat 187) (String (ascii_of_nat 191) EmptyString)).

(** A generation whose text is white space only, with and without
    reasoning. *)
Definition blankReasoning : GenResult :=
  mkGenResult (Some (nbsp +:+ " " +:+ lineSeparator)) None (Some ["She weighs her options."])
    None.

Definition blankReply : GenResult :=
  mkGenResult (Some (nbsp +:+ " " +:+ lineSeparator)) None None None.

(** The stranger gives a name. *)
Definition labelAs (name : string) : GenResult :=
  mkGenResult None
    (Some [mkToolCall "labelStranger" (Some (mkToolInput None None (Some name)))])
    None None.

(** Settings whose summarization model is white space only. *)
Definition blankModelSettings : SettingsState :=
  mkSettings Descriptive false false OpenAI (mkUserProfile EmptyString EmptyString)
    "Stranger" "key" "model-a" nbsp (" model-w" +:+ nbsp) (7 # 10) (40 # 1) (9 # 10).

(** The application with the composer in mode [mode] and holding [text]. *)
Definition composerState (mode text : string) : AppState :=
  mkAppState [alice; bob] [tavern; market] {["loc1" := cleanHistory]} ∅ ∅
    (Some "loc1") text (Some mode) sampleSettings 0.

(** World data with an entry without a name and a character whose location
    is unknown, and world data without a location. *)
Definition sampleWorldData : WorldData :=
  mkWorldData
    [ mkLocationData "Harbor" "A windy harbor" ["Gulls cry."; EmptyString];
      mkLocationData EmptyString "Nameless" [] ]
    [ mkCharacterData "Cara" "A sailor" None "Harbor" ["Ahoy"] [] ["Dan"];
      mkCharacterData "Dan" "A cook" None "Nowhere" [] [] ["Cara"; "Eve"] ].

Definition strayData : WorldData :=
  mkWorldData [] [mkCharacterData "Cara" "A sailor" None "Harbor" [] [] []].

(** The histories of the state, one of them of a location that is gone. *)
Definition sampleEntries : list (string * list ChatMessage) :=
  [("loc1", longHistory); ("gone", cleanHistory)].

(** A run of the world builder that creates two characters, one of them
    twice, and no location. *)
Definition sampleWorldRun (_ : BuilderRequest) : list BuilderEvent * option Thrown :=
  ([ CreateCharacters [ mkCharacterInput "Cara" "A sailor" (Some ["Ahoy"; EmptyString]);
                        mkCharacterInput "cara" "A double" None;
                        mkCharacterInput "Dan" "A cook" None ];
     AddCharacterToLocation "Cara" "Harbor";
     SetKnownCharacters "CARA" ["dan"; "Cara"; "Eve"];
     WorldGenerationComplete ],
   None).

(** Edit forms of the tavern and of Bob. *)
Definition sampleEditForms : gmap string EditForm :=
  {[ "loc1" := mkEditForm (Some "Inn") (Some EmptyString)
                 (Some ("Warm." +:+ nl +:+ nl +:+ "Loud.")) None None None;
     "c2" := mkEditForm None None None (Some "loc1") (Some "Hm.") (Some "[c1]") ]}.

Definition sampleParse (_ : string) : exc (list string) := inr ["c1"].

(** * Properties *)

(** ** Strings and slices *)

Lemma truthy_true_iff s : JS.truthy s = true <-> s <> EmptyString.
Proof. destruct s; simpl; split; congruence. Qed.

Lemma truthy_false_iff s : JS.truthy s = false <-> s = EmptyString.
Proof. destruct s; simpl; split; congruence. Qed.

Lemma truthy_append_l a b : JS.truthy a = true -> JS.truthy (a +:+ b) = true.
Proof. destruct a; simpl; congruence. Qed.

Lemma slice_drop_last {A} (l : list A) (k : nat) :
  0 < k -> JS.slice l 0 (Some (- Z.of_nat k)%Z) = firstn (length l - k) l.
Proof.
  intros Hk. unfold JS.slice, JS.relIndex.
  destruct (Z.ltb_spec (- Z.of_nat k) 0); [|lia].
  replace (0 <? 0)%Z with false by reflexivity.
  rewrite (Z.min_l 0) by lia. simpl skipn.
  f_equal. lia.
Qed.

Lemma slice_take_last {A} (l : list A) (k : nat) :
  0 < k -> JS.slice l (- Z.of_nat k)%Z None = skipn (length l - k) l.
Proof.
  intros Hk. unfold JS.slice, JS.relIndex.
  destruct (Z.ltb_spec (- Z.of_nat k) 0); [|lia].
  replace (Z.to_nat (Z.max (Z.of_nat (length l) + - Z.of_nat k) 0)) with (length l - k) by lia.
  apply firstn_all2. rewrite length_skipn. lia.
Qed.

Lemma slice_prefix {A} (l : list A) (i : nat) :
  JS.slice l 0 (Some (Z.of_nat i)) = firstn i l.
Proof.
  unfold JS.slice, JS.relIndex.
  replace (0 <? 0)%Z with false by reflexivity.
  destruct (Z.ltb_spec (Z.of_nat i) 0); [lia|].
  rewrite (Z.min_l 0) by lia. simpl skipn.
  destruct (Nat.le_gt_cases i (length l)).
  - rewrite Z.min_l by lia. f_equal. lia.
  - rewrite Z.min_r by lia. rewrite (firstn_all2 (n := i)) by lia.
    apply firstn_all2. lia.
Qed.

(** ** Counting messages by type *)

Lemma MessageType_eqb_eq a b : MessageType_eqb a b = true <-> a = b.
Proof. destruct a, b; simpl; split; congruence. Qed.

Lemma isType_true t m : isType t m = true <-> m_type m = t.
Proof. apply MessageType_eqb_eq. Qed.

Lemma isType_false t m : isType t m = false <-> m_type m <> t.
Proof.
  unfold isType. destruct (MessageType_eqb (m_type m) t) eqn:E.
  - apply MessageType_eqb_eq in E. split; congruence.
  - split; [|reflexivity]. intros _ H. apply MessageType_eqb_eq in H. congruence.
Qed.

Lemma countType_app t l1 l2 : countType t (l1 ++ l2) = countType t l1 + countType t l2.
Proof. unfold countType. rewrite List.filter_app, length_app. reflexivity. Qed.

Lemma filter_none {A} (p : A -> bool) (l : list A) :
  Forall (fun x => p x = false) l -> List.filter p l = [].
Proof.
  induction 1 as [|x l Hx _ IH]; simpl; [reflexivity|]. rewrite Hx. exact IH.
Qed.

Lemma filter_all {A} (p : A -> bool) (l : list A) :
  Forall (fun x => p x = true) l -> List.filter p l = l.
Proof.
  induction 1 as [|x l Hx _ IH]; simpl; [reflexivity|]. rewrite Hx, IH. reflexivity.
Qed.

Lemma Forall_filter_holds {A} (p : A -> bool) (l : list A) :
  Forall (fun x => p x = true) (List.filter p l).
Proof.
  apply List.Forall_forall. intros x Hx. apply List.filter_In in Hx. tauto.
Qed.

Lemma Forall_skipn {A} (P : A -> Prop) (l : list A) (k : nat) :
  Forall P l -> Forall P (skipn k l).
Proof.
  intros H. rewrite <- (firstn_skipn k l) in H. apply Forall_app in H. tauto.
Qed.

Lemma countType_zero t l : Forall (fun m => isType t m = false) l -> countType t l = 0.
Proof. intros H. unfold countType. rewrite filter_none by exact H. reflexivity. Qed.

Lemma actual_not t l :
  t = TLoading \/ t = TSummary ->
  Forall (fun m => isType t m = false) (List.filter isActual l).
Proof.
  intros Ht. eapply List.Forall_impl; [|apply Forall_filter_holds].
  intros m Hm. unfold isActual in Hm. apply andb_true_iff in Hm as [H1 H2].
  apply negb_true_iff in H1, H2. destruct Ht; subst; assumption.
Qed.

Lemma loading_not_summary l :
  Forall (fun m => isType TSummary m = false) (List.filter (isType TLoading) l).
Proof.
  eapply List.Forall_impl; [|apply Forall_filter_holds].
  intros m Hm. apply isType_true in Hm. apply isType_false. congruence.
Qed.

Lemma countType_loading_idem l :
  countType TLoading (List.filter (isType TLoading) l) = countType TLoading l.
Proof.
  unfold countType. rewrite (filter_all (isType TLoading) (List.filter _ l)); [reflexivity|].
  apply Forall_filter_holds.
Qed.

(** ** Trimming *)

Lemma append_cons a s r : String a s +:+ r = String a (s +:+ r).
Proof. reflexivity. Qed.

Lemma append_nil r : EmptyString +:+ r = r.
Proof. reflexivity. Qed.

Lemma whiteSpace1_solid a : JS.whiteSpace1 a = true -> solid a = false.
Proof. unfold solid. intros ->. apply andb_false_r. Qed.

Lemma whiteSpace2_solid a b :
  JS.whiteSpace2 a b = true -> solid a = false /\ solid b = false.
Proof.
  unfold JS.whiteSpace2, solid. intros H.
  apply andb_true_iff in H as [Ha Hb]. apply Nat.eqb_eq in Ha, Hb.
  rewrite Ha, Hb. split; reflexivity.
Qed.

Lemma whiteSpace3_solid a b c :
  JS.whiteSpace3 a b c = true -> solid a = false /\ solid b = false /\ solid c = false.
Proof.
  unfold JS.whiteSpace3, solid. cbv zeta. intros H.
  assert (128 <= nat_of_ascii a /\ 128 <= nat_of_ascii b /\ 128 <= nat_of_ascii c) as (Ha & Hb & Hc).
  { repeat (apply orb_true_iff in H as [H|H]);
      repeat (apply andb_true_iff in H as [H ?]);
      repeat match goal with
             | E : (_ =? _) = true |- _ => apply Nat.eqb_eq in E
             | E : (_ <=? _) = true |- _ => apply Nat.leb_le in E
             | E : (_ || _) = true |- _ => apply orb_true_iff in E as [E|E]
             | E : (_ && _) = true |- _ => apply andb_true_iff in E as [E ?]
             end; lia. }
  apply Nat.ltb_ge in Ha, Hb, Hc. rewrite Ha, Hb, Hc. auto.
Qed.

Lemma trimStart_fixed s : startsWhite s = false -> JS.trimStart s = s.
Proof.
  destruct s as [|a [|b [|c s]]]; cbn; try reflexivity.
  - destruct (JS.whiteSpace1 a); [discriminate|reflexivity].
  - destruct (JS.whiteSpace1 a); [discriminate|]. cbn.
    destruct (JS.whiteSpace2 a b); [discriminate|reflexivity].
  - destruct (JS.whiteSpace1 a); [discriminate|]. cbn.
    destruct (JS.whiteSpace2 a b); [discriminate|]. cbn.
    destruct (JS.whiteSpace3 a b c); [discriminate|reflexivity].
Qed.

Lemma trimStart_head_aux n : forall s,
  String.length s <= n -> startsWhite (JS.trimStart s) = false.
Proof.
  induction n as [|n IH]; intros s Hn.
  - destruct s; [reflexivity|cbn in Hn; lia].
  - destruct s as [|a [|b [|c s]]]; cbn in Hn |- *; try reflexivity.
    + destruct (JS.whiteSpace1 a) eqn:E1; [reflexivity|]. cbn. rewrite E1. reflexivity.
    + destruct (JS.whiteSpace1 a) eqn:E1.
      { apply (IH (String b EmptyString)). cbn. lia. }
      destruct (JS.whiteSpace2 a b) eqn:E2; [reflexivity|].
      cbn. rewrite E1, E2. reflexivity.
    + destruct (JS.whiteSpace1 a) eqn:E1.
      { apply (IH (String b (String c s))). cbn. lia. }
      destruct (JS.whiteSpace2 a b) eqn:E2.
      { apply (IH (String c s)). cbn. lia. }
      destruct (JS.whiteSpace3 a b c) eqn:E3.
      { apply IH. lia. }
      cbn. rewrite E1, E2, E3. reflexivity.
Qed.

Lemma trimStart_head s : startsWhite (JS.trimStart s) = false.
Proof. exact (trimStart_head_aux _ s (le_n _)). Qed.

Lemma trimStart_idempotent s : JS.trimStart (JS.trimStart s) = JS.trimStart s.
Proof. apply trimStart_fixed, trimStart_head. Qed.

Lemma trimEnd_prefix s : exists r, s = JS.trimEnd s +:+ r.
Proof.
  induction s as [|a s [r IH]]; [exists EmptyString; reflexivity|].
  cbn [JS.trimEnd]. cbv zeta.
  destruct (JS.isWhiteSpace _).
  - eexists. reflexivity.
  - exists r. change (String a s = String a (JS.trimEnd s +:+ r)). f_equal. exact IH.
Qed.

Lemma startsWhite_append p r : startsWhite p = true -> startsWhite (p +:+ r) = true.
Proof.
  destruct p as [|a [|b [|c p]]]; rewrite ?append_cons, ?append_nil; cbn;
    try discriminate.
  - rewrite orb_false_r. intros ->. reflexivity.
  - destruct (JS.whiteSpace1 a); [reflexivity|]. cbn.
    rewrite orb_false_r. intros ->. reflexivity.
  - auto.
Qed.

Lemma isWhiteSpace_starts w : JS.isWhiteSpace w = true -> startsWhite w = true.
Proof.
  destruct w as [|a [|b [|c [|d w]]]]; cbn; try discriminate.
  - intros ->. reflexivity.
  - intros ->. apply orb_true_r.
  - intros ->. rewrite !orb_true_r. reflexivity.
Qed.

Lemma trimEnd_truthy s :
  JS.truthy s = true -> startsWhite s = false -> JS.truthy (JS.trimEnd s) = true.
Proof.
  destruct s as [|a s]; [discriminate|]. intros _ Hs.
  cbn [JS.trimEnd]. cbv zeta.
  destruct (JS.isWhiteSpace _) eqn:E; [|reflexivity].
  destruct (trimEnd_prefix s) as [r Hr].
  apply isWhiteSpace_starts in E. apply (startsWhite_append _ r) in E.
  rewrite append_cons, <- Hr in E. congruence.
Qed.

Lemma trimEnd_head s : startsWhite s = false -> startsWhite (JS.trimEnd s) = false.
Proof.
  intros Hs. destruct (startsWhite (JS.trimEnd s)) eqn:E; [|reflexivity].
  destruct (trimEnd_prefix s) as [r Hr].
  apply (startsWhite_append _ r) in E. rewrite <- Hr in E. congruence.
Qed.

Lemma trimEnd_idempotent s : JS.trimEnd (JS.trimEnd s) = JS.trimEnd s.
Proof.
  induction s as [|a s IH]; [reflexivity|].
  cbn [JS.trimEnd]. cbv zeta.
  destruct (JS.isWhiteSpace (String a (JS.trimEnd s))) eqn:E; [reflexivity|].
  cbn [JS.trimEnd]. cbv zeta. rewrite IH, E. reflexivity.
Qed.

Lemma trim_idempotent s : JS.trim (JS.trim s) = JS.trim s.
Proof.
  unfold JS.trim.
  rewrite (trimStart_fixed (JS.trimEnd (JS.trimStart s))).
  - apply trimEnd_idempotent.
  - apply trimEnd_head, trimStart_head.
Qed.

Lemma trim_truthy_ink s : JS.truthy (JS.trim s) = hasInk s.
Proof.
  unfold JS.trim, hasInk.
  destruct (JS.truthy (JS.trimStart s)) eqn:E.
  - apply trimEnd_truthy; [exact E|apply trimStart_head].
  - destruct (JS.trimStart s); [reflexivity|discriminate].
Qed.

Lemma trim_ink s : hasInk s = true -> JS.truthy (JS.trim s) = true.
Proof. rewrite trim_truthy_ink. auto. Qed.

Lemma trim_no_ink s : hasInk s = false -> JS.trim s = EmptyString.
Proof.
  rewrite <- trim_truthy_ink. destruct (JS.trim s); [reflexivity|discriminate].
Qed.

Lemma startsWhite_solid c s : solid c = true -> startsWhite (String c s) = false.
Proof.
  intros Hc. cbn.
  destruct (JS.whiteSpace1 c) eqn:E1; [apply whiteSpace1_solid in E1; congruence|].
  destruct s as [|b [|d s]]; cbn; [reflexivity| |].
  - destruct (JS.whiteSpace2 c b) eqn:E2; [|reflexivity].
    apply whiteSpace2_solid in E2 as [? _]. congruence.
  - destruct (JS.whiteSpace2 c b) eqn:E2.
    { apply whiteSpace2_solid in E2 as [? _]. congruence. }
    destruct (JS.whiteSpace3 c b d) eqn:E3; [|reflexivity].
    apply whiteSpace3_solid in E3 as [? _]. congruence.
Qed.

Lemma trimStart_solid c s : solid c = true -> JS.trimStart (String c s) = String c s.
Proof. intros Hc. apply trimStart_fixed, startsWhite_solid, Hc. Qed.

Lemma hasInk_solid_aux n : forall x c y,
  String.length x <= n -> solid c = true -> hasInk (x +:+ String c y) = true.
Proof.
  unfold hasInk.
  induction n as [|n IH]; intros x c y Hn Hc.
  - destruct x; [|cbn in Hn; lia].
    rewrite append_nil, trimStart_solid by exact Hc. reflexivity.
  - destruct x as [|a x];
      [rewrite append_nil, trimStart_solid by exact Hc; reflexivity|].
    cbn in Hn. rewrite append_cons. cbn [JS.trimStart].
    destruct (JS.whiteSpace1 a) eqn:E1; [apply IH; [lia|exact Hc]|].
    destruct x as [|b x]; rewrite ?append_cons, ?append_nil.
    { destruct (JS.whiteSpace2 a c) eqn:E2.
      { apply whiteSpace2_solid in E2 as [_ ?]. congruence. }
      destruct y as [|d y]; [reflexivity|].
      destruct (JS.whiteSpace3 a c d) eqn:E3; [|reflexivity].
      apply whiteSpace3_solid in E3 as (_ & ? & _). congruence. }
    cbn in Hn.
    destruct (JS.whiteSpace2 a b) eqn:E2; [apply IH; [lia|exact Hc]|].
    destruct x as [|d x]; rewrite ?append_cons, ?append_nil.
    { destruct (JS.whiteSpace3 a b c) eqn:E3; [|reflexivity].
      apply whiteSpace3_solid in E3 as (_ & _ & ?). congruence. }
    cbn in Hn.
    destruct (JS.whiteSpace3 a b d) eqn:E3; [apply IH; [lia|exact Hc]|reflexivity].
Qed.

Lemma inked_hasInk s : inked s -> hasInk s = true.
Proof.
  intros (x & c & y & Hc & ->). exact (hasInk_solid_aux _ x c y (le_n _) Hc).
Qed.

Lemma string_append_assoc (a b c : string) : (a +:+ b) +:+ c = a +:+ (b +:+ c).
Proof.
  induction a as [|x a IH]; [reflexivity|]. rewrite !append_cons, IH. reflexivity.
Qed.

Lemma inked_append_l a b : inked a -> inked (a +:+ b).
Proof.
  intros (x & c & y & Hc & ->). exists x, c, (y +:+ b). split; [exact Hc|].
  rewrite string_append_assoc. reflexivity.
Qed.

Lemma inked_append_r a b : inked b -> inked (a +:+ b).
Proof.
  intros (x & c & y & Hc & ->). exists (a +:+ x), c, y. split; [exact Hc|].
  rewrite string_append_assoc. reflexivity.
Qed.

Lemma isWhiteSpace_solid c t : solid c = true -> JS.isWhiteSpace (String c t) = false.
Proof.
  intros Hc. destruct (JS.isWhiteSpace (String c t)) eqn:E; [|reflexivity].
  apply isWhiteSpace_starts in E. rewrite startsWhite_solid in E by exact Hc. discriminate.
Qed.

(** No byte of a white space code point is solid. *)
Lemma isWhiteSpace_bytes w :
  JS.isWhiteSpace w = true -> forall x c y, w = x +:+ String c y -> solid c = false.
Proof.
  assert (Hnil : forall x c y, EmptyString <> x +:+ String c y)
    by (intros [|? ?] ? ?; discriminate).
  destruct w as [|a [|b [|d [|e w]]]]; cbn; try discriminate; intros H x c y E.
  - apply whiteSpace1_solid in H.
    destruct x as [|? x]; rewrite ?append_cons, ?append_nil in E;
      inversion E; subst; [exact H|exfalso; eapply Hnil; eassumption].
  - apply whiteSpace2_solid in H as [Ha Hb].
    destruct x as [|? [|? x]]; rewrite ?append_cons, ?append_nil in E;
      inversion E; subst; [exact Ha|exact Hb|exfalso; eapply Hnil; eassumption].
  - apply whiteSpace3_solid in H as (Ha & Hb & Hd).
    destruct x as [|? [|? [|? x]]]; rewrite ?append_cons, ?append_nil in E;
      inversion E; subst;
      [exact Ha|exact Hb|exact Hd|exfalso; eapply Hnil; eassumption].
Qed.

Lemma trimEnd_solid x c y :
  solid c = true -> JS.trimEnd (x +:+ String c y) = x +:+ String c (JS.trimEnd y).
Proof.
  intros Hc. induction x as [|a x IH]; rewrite ?append_cons, ?append_nil;
    cbn [JS.trimEnd]; cbv zeta.
  - rewrite isWhiteSpace_solid by exact Hc. reflexivity.
  - rewrite IH.
    destruct (JS.isWhiteSpace _) eqn:E; [|reflexivity].
    pose proof (isWhiteSpace_bytes _ E (String a x) c (JS.trimEnd y) eq_refl). congruence.
Qed.

Lemma join_cons_inked sep x l : inked x -> inked (JS.join sep (x :: l)).
Proof.
  intros H. unfold JS.join. destruct l; [exact H|].
  change (inked (x +:+ sep +:+ String.concat sep (s :: l))).
  apply inked_append_l. exact H.
Qed.

Lemma trimStart_white1 a s : JS.whiteSpace1 a = true -> JS.trimStart (String a s) = JS.trimStart s.
Proof. intros H. cbn [JS.trimStart]. rewrite H. reflexivity. Qed.

Lemma trimEnd_append_inked a y : inked y -> JS.trimEnd (a +:+ y) = a +:+ JS.trimEnd y.
Proof.
  intros (x & c & z & Hc & ->).
  rewrite <- string_append_assoc, !trimEnd_solid by exact Hc.
  apply string_append_assoc.
Qed.

Lemma trimEnd_append_white1 v a :
  JS.whiteSpace1 a = true -> JS.trimEnd (v +:+ String a EmptyString) = JS.trimEnd v.
Proof.
  intros Ha. induction v as [|b v IH]; rewrite ?append_cons, ?append_nil.
  - cbn. rewrite Ha. reflexivity.
  - cbn [JS.trimEnd]. rewrite IH. reflexivity.
Qed.

Lemma trimEnd_append_nl v : JS.trimEnd (v +:+ nl) = JS.trimEnd v.
Proof. apply trimEnd_append_white1. reflexivity. Qed.

Lemma occursIn_refl t : occursIn t t.
Proof.
  exists EmptyString, EmptyString. rewrite append_nil.
  induction t as [|c t IH]; [reflexivity|]. rewrite append_cons, <- IH. reflexivity.
Qed.

Lemma occursIn_append_l t a b : occursIn t a -> occursIn t (a +:+ b).
Proof.
  intros (x & y & ->). exists x, (y +:+ b). rewrite !string_append_assoc. reflexivity.
Qed.

Lemma occursIn_append_r t a b : occursIn t b -> occursIn t (a +:+ b).
Proof.
  intros (x & y & ->). exists (a +:+ x), y. rewrite !string_append_assoc. reflexivity.
Qed.

Lemma trimEnd_occurs s : occursIn (JS.trimEnd s) s.
Proof.
  destruct (trimEnd_prefix s) as [r Hr]. exists EmptyString, r. rewrite append_nil. exact Hr.
Qed.

Lemma occursIn_join sep t l : In t l -> occursIn t (JS.join sep l).
Proof.
  unfold JS.join. induction l as [|x l IH]; [intros []|].
  intros [->|Hin].
  - destruct l; [apply occursIn_refl|]. apply occursIn_append_l, occursIn_refl.
  - destruct l as [|y l]; [destruct Hin|].
    change (occursIn t (x +:+ sep +:+ String.concat sep (y :: l))).
    apply occursIn_append_r, occursIn_append_r, IH. exact Hin.
Qed.

Lemma join_inked sep l : l <> [] -> Forall inked l -> inked (JS.join sep l).
Proof.
  intros Hne Hl. destruct l as [|x l]; [congruence|].
  apply join_cons_inked. apply (Forall_inv Hl).
Qed.

(** Every line but the last survives the trimming of the end of the
    joined lines, and the last one loses its trailing white space. *)
Lemma trimEnd_join_occurs line lines :
  In line lines -> Forall inked lines ->
  occursIn (JS.trimEnd line) (JS.trimEnd (JS.join nl lines)).
Proof.
  unfold JS.join. induction lines as [|x l IH]; [intros []|]. intros Hin Hl.
  apply Forall_cons_iff in Hl as [Hx Hl].
  destruct l as [|y l].
  - destruct Hin as [->|[]]. apply occursIn_refl.
  - change (String.concat nl (x :: y :: l)) with (x +:+ nl +:+ String.concat nl (y :: l)).
    assert (Hrest : inked (String.concat nl (y :: l)))
      by (apply (join_inked nl (y :: l)); [discriminate|exact Hl]).
    rewrite !trimEnd_append_inked by (try apply inked_append_r; exact Hrest).
    destruct Hin as [->|Hin].
    + apply occursIn_append_l, trimEnd_occurs.
    + apply occursIn_append_r, occursIn_append_r, IH; assumption.
Qed.


Lemma join_cons_truthy sep x l : JS.truthy x = true -> JS.truthy (JS.join sep (x :: l)) = true.
Proof.
  intros H. unfold JS.join. destruct l; simpl; [exact H|].
  apply truthy_append_l. exact H.
Qed.

(** ** Summarization engine *)

Section SummarizationProperties.

Variable generateId : nat -> string.
Variable generateText : GenRequest -> exc GenResult.

Lemma messagesToSummarize_firstn messages :
  messagesToSummarize messages
  = firstn (length (actualMessages messages) - 5) (actualMessages messages).
Proof. unfold messagesToSummarize. apply (slice_drop_last _ 5). lia. Qed.

Lemma messagesToKeep_skipn messages :
  messagesToKeep messages
  = skipn (length (actualMessages messages) - 5) (actualMessages messages).
Proof. unfold messagesToKeep. apply (slice_take_last _ 5). lia. Qed.

Lemma summaryLine_inked m : inked (summaryLine m).
Proof.
  unfold summaryLine. cbv zeta. do 2 apply inked_append_r.
  exists EmptyString, ":"%char, (" " +:+ m_text m). split; reflexivity.
Qed.

Lemma trim_nl_header c h rest :
  solid c = true -> inked rest ->
  JS.trim (nl +:+ String c h +:+ rest) = String c h +:+ JS.trimEnd rest.
Proof.
  intros Hc Hrest. unfold nl. rewrite !append_cons, append_nil. unfold JS.trim.
  rewrite trimStart_white1 by reflexivity.
  rewrite trimStart_solid by exact Hc.
  change (String c (h +:+ rest)) with (String c h +:+ rest).
  apply trimEnd_append_inked. exact Hrest.
Qed.

(** The prompt of the summary holds the text of every earlier summary
    and the line of every message to summarize, the last line without
    the white space at its end. *)
Lemma summaryPrompt_occurs ex cand :
  cand <> [] ->
  Forall (fun s => occursIn (m_text s) (summaryPrompt ex cand)) ex /\
  Forall (fun m => occursIn (JS.trimEnd (summaryLine m)) (summaryPrompt ex cand)) cand.
Proof.
  intros Hcand. unfold summaryPrompt. cbv zeta.
  set (conv := JS.join nl (map summaryLine cand)).
  set (prev := match ex with [] => _ | _ => _ end).
  assert (Hlines : Forall inked (map summaryLine cand)).
  { apply List.Forall_forall. intros l Hl. apply List.in_map_iff in Hl as (m & <- & _).
    apply summaryLine_inked. }
  assert (Hconv : inked conv).
  { apply join_inked; [|exact Hlines]. destruct cand; [congruence|discriminate]. }
  rewrite trim_nl_header; [|reflexivity|].
  2:{ solve [repeat first [apply inked_append_l; exact Hconv | apply inked_append_r]]. }
  rewrite !trimEnd_append_inked
    by solve [repeat first [apply inked_append_l; exact Hconv | apply inked_append_r]].
  rewrite trimEnd_append_nl.
  split; apply List.Forall_forall.
  - intros t Ht.
    do 18 apply occursIn_append_r. apply occursIn_append_l.
    subst prev. destruct ex as [|s0 ex']; [destruct Ht|].
    do 2 apply occursIn_append_r. apply occursIn_append_l.
    apply occursIn_join. apply List.in_map. exact Ht.
  - intros m Hm.
    do 19 apply occursIn_append_r.
    apply trimEnd_join_occurs; [|exact Hlines].
    apply List.in_map. exact Hm.
Qed.

(** C3. [summarizeOldMessages] splits the non-summary, non-loading
    messages into the candidates (all but the last 5) and the last 5.
    It returns its input when there are fewer than 5 candidates. With 5
    candidates or more it sends the model one request; the prompt of the
    request holds the text of every summary of the history and the line
    of every candidate. It returns its input when no model can be built,
    when the request fails and when the result carries no text.
    Otherwise it returns one new summary message whose text is the
    trimmed text of the result, then the last 5 non-summary non-loading
    messages as they are, then the loading messages: the new summary is
    the only summary of the result. In every case the result has as many
    loading messages as the input. *)
Theorem summarizeOldMessages_shape messages settings n :
  let actual := actualMessages messages in
  let candidates := messagesToSummarize messages in
  let prompt := summaryPrompt (existingSummaries messages) candidates in
  let out := fst (summarizeOldMessages generateId generateText messages settings n) in
  candidates ++ messagesToKeep messages = actual /\
  (length candidates < 5 -> out = messages) /\
  (5 <= length candidates ->
   Forall (fun s => occursIn (m_text s) prompt) (existingSummaries messages) /\
   Forall (fun m => occursIn (JS.trimEnd (summaryLine m)) prompt) candidates /\
   match getModelInstance settings ForSummarization with
   | inl _ => out = messages
   | inr model =>
       match generateText
               (mkGenRequest model None prompt false (getGenerationSettings settings)) with
       | inl _ => out = messages
       | inr result =>
           match r_text result with
           | None => out = messages
           | Some text =>
               out = mkMessage (generateId n) TSummary (JS.trim text) "Summary" None
                       :: skipn (length actual - 5) actual ++ loadingMessages messages /\
               length (skipn (length actual - 5) actual) = 5 /\
               countType TSummary out = 1
           end
       end
   end) /\
  countType TLoading out = countType TLoading messages.
Proof.
  intros actual candidates prompt out.
  assert (Hs := messagesToSummarize_firstn messages).
  assert (Hk := messagesToKeep_skipn messages).
  fold actual in Hs, Hk. fold candidates in Hs.
  assert (Hout : out = fst (summarizeOldMessages generateId generateText messages settings n))
    by reflexivity.
  unfold summarizeOldMessages, summaryGeneration in Hout.
  fold candidates in Hout. fold prompt in Hout.
  split; [rewrite Hs, Hk; apply firstn_skipn|].
  split.
  { intros Hlt. apply Nat.ltb_lt in Hlt. rewrite Hlt in Hout. exact Hout. }
  split.
  { intros Hge.
    assert (Hne : candidates <> []) by (intros E; rewrite E in Hge; cbn in Hge; lia).
    destruct (summaryPrompt_occurs (existingSummaries messages) candidates Hne) as [Hp1 Hp2].
    split; [exact Hp1|]. split; [exact Hp2|].
    apply Nat.ltb_ge in Hge as Hge'. rewrite Hge' in Hout.
    destruct (getModelInstance settings ForSummarization) as [e|model]; [exact Hout|].
    cbn [bind] in Hout.
    destruct (generateText _) as [e|result]; [exact Hout|].
    cbn [bind] in Hout.
    destruct (r_text result) as [text|]; [|exact Hout].
    cbn in Hout. rewrite Hk in Hout.
    rewrite Hs, length_firstn in Hge.
    split; [exact Hout|]. split; [rewrite length_skipn; lia|].
    rewrite Hout. change (?x :: ?l) with ([x] ++ l).
    rewrite !countType_app.
    rewrite (countType_zero TSummary (skipn _ _)).
    2:{ apply Forall_skipn. apply actual_not. auto. }
    unfold loadingMessages.
    rewrite (countType_zero TSummary (List.filter _ _)) by apply loading_not_summary.
    reflexivity. }
  destruct (length candidates <? 5); [rewrite Hout; reflexivity|].
  destruct (getModelInstance settings ForSummarization) as [e|model];
    [rewrite Hout; reflexivity|].
  cbn [bind] in Hout.
  destruct (generateText _) as [e|result]; [rewrite Hout; reflexivity|].
  cbn [bind] in Hout.
  destruct (r_text result) as [text|]; [|rewrite Hout; reflexivity].
  cbn in Hout. rewrite Hk in Hout. rewrite Hout.
  change (?x :: ?l) with ([x] ++ l).
  rewrite !countType_app.
  rewrite (countType_zero TLoading (skipn _ _)).
  2:{ apply Forall_skipn. apply actual_not. auto. }
  unfold loadingMessages. rewrite countType_loading_idem. reflexivity.
Qed.

End SummarizationProperties.

(** ** Turn controller: the token counter *)

Section ControllerProperties.

Variable generateId : nat -> string.
Variable generateText : GenRequest -> exc GenResult.

Lemma fold_updateGroupChat_frame (m : PatchMap) s :
  let s' := fold_left (fun s e => updateGroupChat (fst e) (snd e) s) m s in
  app_tokenUsage s' = app_tokenUsage s /\
  app_summarizationStatus s' = app_summarizationStatus s /\
  app_messages s' = app_messages s /\
  app_characters s' = app_characters s.
Proof.
  revert s. induction m as [|e m IH]; intros s; simpl; [tauto|].
  destruct (IH (updateGroupChat (fst e) (snd e) s)) as (H1 & H2 & H3 & H4).
  rewrite H1, H2, H3, H4. simpl. tauto.
Qed.






End ControllerProperties.

(** ** Catch-up block *)

Lemma catchupLine_inked m : inked (catchupLine m).
Proof.
  unfold catchupLine. destruct (isType TDirector m).
  - exists EmptyString, "["%char, ("Director]: " +:+ m_text m). split; reflexivity.
  - apply inked_append_r. exists EmptyString, ":"%char, (" " +:+ m_text m).
    split; reflexivity.
Qed.

Lemma filter_stronger_nil {A} (p q : A -> bool) (l : list A) :
  (forall x, q x = true -> p x = true) -> List.filter p l = [] -> List.filter q l = [].
Proof.
  intros Hpq. induction l as [|x l IH]; simpl; [reflexivity|].
  destruct (p x) eqn:Ep; [discriminate|]. intros H.
  destruct (q x) eqn:Eq; [rewrite (Hpq x Eq) in Ep; discriminate|]. auto.
Qed.

(** When the rendered text is empty, no message of the slice is shown. *)
Lemma renderedCatchup_empty messages characterName :
  renderedCatchup messages characterName = EmptyString ->
  List.filter (fun m => negb (isType TLoading m || isType TNarration m))
    (catchupMessagesOf messages characterName) = [].
Proof.
  unfold renderedCatchup. intros H.
  set (shown := List.filter _ (catchupMessagesOf messages characterName)) in *.
  destruct shown as [|m shown'] eqn:Eshown; [reflexivity|exfalso].
  assert (Hink : JS.truthy (JS.trim (JS.join nl (map catchupLine (m :: shown')))) = true).
  { apply trim_ink, inked_hasInk. simpl map. apply join_cons_inked, catchupLine_inked. }
  rewrite Hink in H.
  apply truthy_false_iff in H. revert H.
  destruct (List.filter (isType TSummary) (getMessagesForContext messages 12)); simpl app.
  - rewrite join_cons_truthy by exact Hink. discriminate.
  - rewrite join_cons_truthy by reflexivity. discriminate.
Qed.

(** C9. [buildCatchupBlock] never returns the empty string; when the
    rendered catch-up text is empty and no nudge is supplied (none, or an
    empty one), it returns the fixed take-initiative directive. *)
Theorem buildCatchupBlock_nonempty messages characterName settings directorNudge :
  buildCatchupBlock messages characterName settings directorNudge <> EmptyString /\
  (renderedCatchup messages characterName = EmptyString ->
   JS.truthyOpt directorNudge = false ->
   buildCatchupBlock messages characterName settings directorNudge = takeInitiative).
Proof.
  split.
  - apply truthy_true_iff. unfold buildCatchupBlock.
    set (block := renderedCatchup messages characterName).
    set (block1 := if negb (JS.truthy block) && negb (JS.truthyOpt directorNudge)
                   then takeInitiative else block).
    set (block2 := match directorNudge with Some _ => _ | None => _ end).
    assert (H2 : JS.truthy block2 = true).
    { subst block2. destruct directorNudge as [nudge|].
      - destruct (JS.truthy nudge) eqn:En.
        + destruct (JS.truthy block1); reflexivity.
        + subst block1. simpl. rewrite En. simpl.
          destruct (JS.truthy block) eqn:Eb; [exact Eb|reflexivity].
      - subst block1. simpl.
        destruct (JS.truthy block) eqn:Eb; [exact Eb|reflexivity]. }
    destruct (List.last _ None) as [lastMessage|]; [|exact H2].
    destruct (isType TUser lastMessage); [|exact H2].
    apply truthy_append_l. exact H2.
  - intros Hempty Hnudge. unfold buildCatchupBlock.
    assert (Hshown := renderedCatchup_empty _ _ Hempty).
    rewrite (filter_stronger_nil
               (fun m => negb (isType TLoading m || isType TNarration m))
               (fun m => negb (isType TLoading m || isType TNarration m || isType TDirector m))
               (catchupMessagesOf messages characterName)).
    2:{ intros x. destruct (isType TLoading x), (isType TNarration x); simpl; auto. }
    2:{ exact Hshown. }
    rewrite Hempty, Hnudge. simpl.
    destruct directorNudge as [nudge|]; [|reflexivity].
    simpl in Hnudge. rewrite Hnudge. reflexivity.
Qed.

(** ** Character turn executor *)

Lemma removeId_not_In id l : ~ In id (removeId id l).
Proof.
  unfold removeId. intros H. apply List.filter_In in H as [_ H].
  rewrite String.eqb_refl in H. discriminate.
Qed.

Lemma removeId_In id x l : In x (removeId id l) <-> In x l /\ x <> id.
Proof.
  unfold removeId. rewrite List.filter_In, negb_true_iff, String.eqb_neq. reflexivity.
Qed.

Lemma count_occ_snoc_fresh id l :
  ~ In id l -> count_occ string_dec (l ++ [id]) id = 1.
Proof.
  intros H. rewrite count_occ_app.
  rewrite (proj1 (count_occ_not_In string_dec l id) H). simpl.
  destruct (string_dec id id); [reflexivity|congruence].
Qed.

Section ExecutorProperties.

Variable generateId : nat -> string.
Variable generateText : GenRequest -> exc GenResult.

(** The [try] block of [executeCharacterTurn] throws exactly when no API
    key is set or the generation call throws. *)
Lemma executeCharacterTurn_try_throws character groupChat allCharacters allGroupChats
    messages settings directorNudge n e :
  executeCharacterTurn_try generateId generateText character groupChat allCharacters
    allGroupChats messages settings directorNudge n = inl e <->
  getModelInstance settings ForCharacter = inl e \/
  exists model,
    getModelInstance settings ForCharacter = inr model /\
    generateText
      (mkGenRequest model
         (Some (buildSystemInstruction character groupChat allCharacters allGroupChats settings))
         (buildCatchupBlock messages (c_name character) settings directorNudge)
         true (getGenerationSettings settings)) = inl e.
Proof.
  unfold executeCharacterTurn_try.
  destruct (getModelInstance settings ForCharacter) as [e0|model]; simpl.
  - split; [intros H; left; congruence|].
    intros [H|(model & H & _)]; [congruence|discriminate].
  - destruct (generateText _) as [e1|result] eqn:Eg; simpl.
    + split; [intros H; right; exists model; split; [reflexivity|]|].
      * rewrite Eg. congruence.
      * intros [H|(model' & Hm & H)]; [discriminate|].
        injection Hm as <-. rewrite Eg in H. congruence.
    + destruct (processCharacterTurnResult generateId result character groupChat
                  allGroupChats n) as [turnResult n'].
      split; [discriminate|].
      intros [H|(model' & Hm & H)]; [discriminate|].
      injection Hm as <-. rewrite Eg in H. discriminate.
Qed.

(** C5. When the model instance cannot be built, or the generation call
    on the request of the turn throws, [executeCharacterTurn] returns a
    result: its messages are one character message with the error text
    in parentheses; it carries no character update, no location update,
    no stranger label and no usage. The persona and the catch-up block
    are built without a throw. *)
Theorem executeCharacterTurn_failure character groupChat allCharacters allGroupChats
    messages settings directorNudge n e :
  getModelInstance settings ForCharacter = inl e \/
  (exists model,
     getModelInstance settings ForCharacter = inr model /\
     generateText
       (mkGenRequest model
          (Some (buildSystemInstruction character groupChat allCharacters allGroupChats
                   settings))
          (buildCatchupBlock messages (c_name character) settings directorNudge)
          true (getGenerationSettings settings)) = inl e) ->
  let out := fst (executeCharacterTurn generateId generateText character groupChat
                    allCharacters allGroupChats messages settings directorNudge n) in
  tr_messages out
  = [mkMessage (generateId n) TCharacter
       ("(An error occurred: " +:+ errorMessageOf e +:+ ")")
       (c_name character) (Some (c_id character))] /\
  tr_characterUpdates out = None /\
  tr_groupChatUpdates out = None /\
  tr_strangerLabel out = None /\
  tr_usage out = None /\
  tr_error out = Some (errorMessageOf e).
Proof.
  intros H.
  apply (executeCharacterTurn_try_throws character groupChat allCharacters allGroupChats
           messages settings directorNudge n e) in H.
  unfold executeCharacterTurn. rewrite H. simpl. repeat split.
Qed.

(** C8. A turn without tool calls and whose text is empty after trimming
    synthesizes no message when the result has reasoning content, and
    exactly the fallback message when it has none. *)
Theorem reasoning_only_turn result character groupChat allGroupChats n :
  r_toolCalls result = None \/ r_toolCalls result = Some [] ->
  JS.truthyOpt (option_map JS.trim (r_text result)) = false ->
  let out := fst (processCharacterTurnResult generateId result character groupChat
                    allGroupChats n) in
  (hasReasoning result = true -> tr_messages out = []) /\
  (hasReasoning result = false ->
   tr_messages out
   = [mkMessage (generateId n) TCharacter
        ("*" +:+ c_name character +:+ " is thinking...*")
        (c_name character) (Some (c_id character))]).
Proof.
  intros Hcalls Htext out. subst out. unfold processCharacterTurnResult.
  rewrite Htext.
  destruct Hcalls as [-> | ->]; simpl;
    (split; intros ->; reflexivity).
Qed.

(** C4, as amended. For a turn run in the location of the character,
    whose only tool call is [moveToLocation] with a destination name that
    is not empty: the turn synthesizes exactly one narrator message; it
    stages nothing when the name is the name of no location or resolves
    to the location of the character; otherwise it stages the character
    patch that sets [groupChatId] to the destination and exactly two
    location patches, the old location without the character and the
    destination with the character exactly once. The function is total:
    no destination makes it throw. *)
Theorem relocation_outcomes result character groupChat allGroupChats n i destName :
  r_toolCalls result = Some [mkToolCall "moveToLocation" (Some i)] ->
  in_locationName i = Some destName ->
  destName <> EmptyString ->
  c_groupChatId character = gc_id groupChat ->
  RelocationOutcome character groupChat allGroupChats destName
    (fst (processCharacterTurnResult generateId result character groupChat allGroupChats n)).
Proof.
  intros Hcalls Hname Hne Hhere.
  apply truthy_true_iff in Hne.
  unfold RelocationOutcome, processCharacterTurnResult.
  rewrite Hcalls. cbn [fold_left]. unfold processToolCall. cbn [input toolName].
  change (String.eqb "moveToLocation" "makeNote") with false.
  change (String.eqb "moveToLocation" "moveToLocation") with true.
  cbn iota. unfold moveToLocation. rewrite Hname, Hne. cbn [negb].
  destruct (List.find _ allGroupChats) as [destChat|] eqn:Efind.
  - destruct (String.eqb (gc_id destChat) (c_groupChatId character)) eqn:Eid; cbn [negb].
    + destruct (JS.truthyOpt (option_map JS.trim (r_text result))); simpl; auto.
    + assert (Hk : gc_id groupChat <> gc_id destChat).
      { apply String.eqb_neq in Eid. congruence. }
      apply String.eqb_neq in Hk.
      destruct (JS.truthyOpt (option_map JS.trim (r_text result))); simpl; rewrite Hk;
        (split; [reflexivity|]); (split; [reflexivity|]); (split; [reflexivity|]);
        (split; [apply removeId_not_In|apply count_occ_snoc_fresh, removeId_not_In]).
  - destruct (JS.truthyOpt (option_map JS.trim (r_text result))); simpl; auto.
Qed.

End ExecutorProperties.

(** ** Turn controller: retry by truncation *)

Section RetryProperties.

Variable generateId : nat -> string.
Variable generateText : GenRequest -> exc GenResult.

Lemma applyTurnResult_history chat ch r s :
  historyOf (applyTurnResult chat ch r s) (gc_id chat)
  = List.filter (fun m => negb (isLoadingOf (c_id ch) m)) (historyOf s (gc_id chat))
    ++ tr_messages r.
Proof.
  unfold applyTurnResult, historyOf.
  destruct (tr_strangerLabel r) as [label|]; [destruct (JS.truthy label)|];
    destruct (tr_groupChatUpdates r) as [m|]; simpl;
    try (rewrite (proj1 (proj2 (proj2 (fold_updateGroupChat_frame m _)))));
    destruct (tr_characterUpdates r); destruct (tr_usage r); simpl;
    rewrite !lookup_insert_eq; reflexivity.
Qed.

(** The history after a retry that passes the guards of the handler: the
    prefix, without the loading placeholders of the acting character,
    then the messages of the re-run turn. *)
Lemma handleRetryMessage_history s chat messageId i target cid ch :
  activeChat s = Some chat ->
  JS.findIndex (fun m => String.eqb (m_id m) messageId) (historyOf s (gc_id chat)) = Some i ->
  historyOf s (gc_id chat) !! i = Some target ->
  m_type target = TCharacter ->
  m_charId target = Some cid ->
  cid <> EmptyString ->
  findCharacterById (app_characters s) cid = Some ch ->
  historyOf (handleRetryMessage generateId generateText messageId s) (gc_id chat)
  = List.filter (fun m => negb (isLoadingOf (c_id ch) m)) (firstn i (historyOf s (gc_id chat)))
    ++ tr_messages (retryTurnResult generateId generateText s chat ch i).
Proof.
  intros Hchat Hidx Htarget Htype Hcid Hne Hch.
  unfold handleRetryMessage, retryTurnResult.
  rewrite Hchat, Hidx, Htarget.
  apply isType_true in Htype. rewrite Htype, Hcid. cbn [negb orb JS.truthyOpt].
  apply truthy_true_iff in Hne. rewrite Hne. cbn [negb from_option id].
  rewrite Hch. rewrite slice_prefix. unfold runTurn. cbn [app_nextId setNextId setMessages
    appendMessages app_characters app_groupChats app_settings].
  destruct (executeCharacterTurn _ _ _ _ _ _ _ _ _ _) as [result n] eqn:Er.
  rewrite applyTurnResult_history. cbn [fst]. f_equal.
  unfold historyOf at 1. cbn. rewrite !lookup_insert_eq. cbn [from_option id].
  rewrite List.filter_app. cbn. unfold isLoadingOf at 2. cbn.
  rewrite String.eqb_refl. cbn. apply app_nil_r.
Qed.

(** C6, as amended. A retry that targets the character message at index
    [i], whose character exists, of a history that holds no loading
    placeholder of that character before [i], leaves the original
    messages before [i] followed by the messages of the re-run turn, and
    by the single error message when the turn fails. *)
Theorem retry_truncates s chat messageId i target cid ch :
  activeChat s = Some chat ->
  JS.findIndex (fun m => String.eqb (m_id m) messageId) (historyOf s (gc_id chat)) = Some i ->
  historyOf s (gc_id chat) !! i = Some target ->
  m_type target = TCharacter ->
  m_charId target = Some cid ->
  cid <> EmptyString ->
  findCharacterById (app_characters s) cid = Some ch ->
  Forall (fun m => isLoadingOf (c_id ch) m = false) (firstn i (historyOf s (gc_id chat))) ->
  RetryTruncates generateId generateText s chat messageId ch i /\
  (forall e,
      executeCharacterTurn_try generateId generateText ch chat (app_characters s)
        (app_groupChats s) (firstn i (historyOf s (gc_id chat))) (app_settings s) None
        (S (app_nextId s)) = inl e ->
      historyOf (handleRetryMessage generateId generateText messageId s) (gc_id chat)
      = firstn i (historyOf s (gc_id chat))
        ++ [mkMessage (generateId (S (app_nextId s))) TCharacter
              ("(An error occurred: " +:+ errorMessageOf e +:+ ")")
              (c_name ch) (Some (c_id ch))]).
Proof.
  intros Hchat Hidx Htarget Htype Hcid Hne Hch Hclean.
  assert (H : RetryTruncates generateId generateText s chat messageId ch i).
  { unfold RetryTruncates.
    rewrite (handleRetryMessage_history s chat messageId i target cid ch) by assumption.
    f_equal. apply filter_all.
    eapply List.Forall_impl; [|exact Hclean].
    intros m Hm. simpl in Hm. rewrite Hm. reflexivity. }
  split; [exact H|].
  intros e He. unfold RetryTruncates in H. rewrite H. f_equal.
  unfold retryTurnResult, executeCharacterTurn. rewrite He. reflexivity.
Qed.

End RetryProperties.

(** ** World state: deleting a location *)

Lemma filter_map_commute {A B} (p : B -> bool) (f : A -> B) (l : list A) :
  List.filter p (map f l) = map f (List.filter (fun x => p (f x)) l).
Proof.
  induction l as [|x l IH]; simpl; [reflexivity|].
  destruct (p (f x)); simpl; rewrite IH; reflexivity.
Qed.

Lemma filter_twice {A} (p q : A -> bool) (l : list A) :
  List.filter p (List.filter q l) = List.filter (fun x => q x && p x) l.
Proof.
  induction l as [|x l IH]; simpl; [reflexivity|].
  destruct (q x); simpl; [destruct (p x)|]; rewrite IH; reflexivity.
Qed.

Lemma find_by_id_In (cs : list Character) (c : Character) :
  In c cs -> exists c', findCharacterById cs (c_id c) = Some c'.
Proof.
  intros H. unfold findCharacterById.
  destruct (List.find _ cs) as [c'|] eqn:E; [eauto|].
  apply (List.find_none _ _ E) in H. rewrite String.eqb_refl in H. discriminate.
Qed.

Lemma NoDup_map_eq {A B} (f : A -> B) (l : list A) x y :
  List.NoDup (map f l) -> In x l -> In y l -> f x = f y -> x = y.
Proof.
  induction l as [|a l IH]; simpl; [tauto|].
  intros Hnd. apply List.NoDup_cons_iff in Hnd as [Hna Hnd].
  intros [->|Hx] [->|Hy] Hf; auto.
  - exfalso. apply Hna. rewrite Hf. apply List.in_map. exact Hy.
  - exfalso. apply Hna. rewrite <- Hf. apply List.in_map. exact Hx.
Qed.

Lemma includes_In l x : JS.includes l x = true <-> In x l.
Proof.
  unfold JS.includes. rewrite List.existsb_exists. split.
  - intros (y & Hy & E). apply String.eqb_eq in E. subst. exact Hy.
  - intros H. exists x. split; [exact H|apply String.eqb_refl].
Qed.

Lemma deleteCharacterIn_characters cs id s c :
  findCharacterById cs id = Some c ->
  app_characters (deleteCharacterIn cs id s)
  = List.filter (fun c => negb (String.eqb (c_id c) id))
      (map (stripKnown id) (app_characters s)).
Proof. intros H. unfold deleteCharacterIn. rewrite H. reflexivity. Qed.

Lemma deleteCharacters_fold cs (victims : list Character) s :
  (forall c, In c victims -> In c cs) ->
  app_characters (fold_left (fun s char => deleteCharacterIn cs (c_id char) s) victims s)
  = fold_left (fun l d => List.filter (fun c => negb (String.eqb (c_id c) d))
                            (map (stripKnown d) l))
      (map c_id victims) (app_characters s).
Proof.
  revert s. induction victims as [|v victims IH]; intros s Hin; simpl; [reflexivity|].
  rewrite IH by (intros c Hc; apply Hin; right; exact Hc).
  destruct (find_by_id_In cs v) as [c' Hc']; [apply Hin; left; reflexivity|].
  rewrite (deleteCharacterIn_characters _ _ _ _ Hc'). reflexivity.
Qed.

Lemma withoutKnown_nil c : withoutKnown [] c = c.
Proof.
  unfold withoutKnown, setKnownCharacterIds. destruct c; simpl. f_equal.
  apply filter_all. apply List.Forall_forall. reflexivity.
Qed.

Lemma withoutKnown_cons d ids c :
  withoutKnown ids (stripKnown d c) = withoutKnown (d :: ids) c.
Proof.
  unfold withoutKnown, stripKnown, setKnownCharacterIds, removeId. simpl. f_equal.
  rewrite filter_twice. apply List.filter_ext. intros k.
  destruct (String.eqb k d); reflexivity.
Qed.

Lemma strip_all ids (l : list Character) :
  fold_left (fun l d => List.filter (fun c => negb (String.eqb (c_id c) d))
                          (map (stripKnown d) l)) ids l
  = map (withoutKnown ids) (List.filter (fun c => negb (JS.includes ids (c_id c))) l).
Proof.
  revert l. induction ids as [|d ids IH]; intros l; simpl.
  - rewrite filter_all by (apply List.Forall_forall; reflexivity).
    rewrite <- (map_id l) at 1. apply map_ext. intros c. symmetry. apply withoutKnown_nil.
  - rewrite IH. rewrite filter_twice, filter_map_commute, map_map.
    rewrite (map_ext _ _ (withoutKnown_cons d ids)). f_equal.
    apply List.filter_ext. intros c. simpl.
    destruct (String.eqb (c_id c) d); reflexivity.
Qed.

(** The characters left by [deleteGroupChat]: those whose id is not the id
    of a character of the location. *)
Lemma deleteGroupChat_characters_by_id id s :
  app_characters (deleteGroupChat id s)
  = map (withoutKnown
           (map c_id (List.filter (fun c => String.eqb (c_groupChatId c) id)
                        (app_characters s))))
      (List.filter
         (fun c => negb (JS.includes
                           (map c_id (List.filter (fun c => String.eqb (c_groupChatId c) id)
                                        (app_characters s)))
                           (c_id c)))
         (app_characters s)).
Proof.
  unfold deleteGroupChat.
  set (victims := List.filter _ (app_characters s)).
  set (s1 := fold_left _ victims s).
  assert (H1 : app_characters s1
               = map (withoutKnown (map c_id victims))
                   (List.filter (fun c => negb (JS.includes (map c_id victims) (c_id c)))
                      (app_characters s))).
  { subst s1. rewrite deleteCharacters_fold.
    - apply strip_all.
    - intros c Hc. apply List.filter_In in Hc. tauto. }
  cbn [app_activeChatId setGroupChats].
  destruct (app_activeChatId s1) as [a|]; [destruct (String.eqb a id)|]; exact H1.
Qed.

(** With ids of their own, they are the characters of the other
    locations and of none. *)
Lemma deleteGroupChat_characters id s :
  List.NoDup (map c_id (app_characters s)) ->
  app_characters (deleteGroupChat id s)
  = map (withoutKnown
           (map c_id (List.filter (fun c => String.eqb (c_groupChatId c) id)
                        (app_characters s))))
      (List.filter (fun c => negb (String.eqb (c_groupChatId c) id)) (app_characters s)).
Proof.
  intros Hnd. rewrite deleteGroupChat_characters_by_id.
  set (deleted := map c_id (List.filter _ (app_characters s))).
  f_equal. apply List.filter_ext_in.
  intros c Hc. f_equal. apply eq_true_iff_eq. rewrite includes_In. subst deleted.
  rewrite List.in_map_iff. split.
  - intros (c2 & Hid & H2). apply List.filter_In in H2 as [H2 Hgc].
    rewrite <- (NoDup_map_eq c_id _ c2 c Hnd H2 Hc Hid). exact Hgc.
  - intros Hgc. exists c. split; [reflexivity|]. apply List.filter_In. tauto.
Qed.

(** C10. Deleting a location deletes the characters whose [groupChatId]
    is the id of the location: no character left is assigned to it or
    has the id of a deleted character, no character left knows a deleted
    character, and the location is gone. When the characters have ids of
    their own, the characters left are exactly the characters of the
    other locations and of none, in their order and with their fields,
    except that the ids of the deleted characters are gone from their
    known-character lists. *)
Theorem deleteGroupChat_cascade id s :
  let deleted :=
    map c_id (List.filter (fun c => String.eqb (c_groupChatId c) id) (app_characters s)) in
  let s' := deleteGroupChat id s in
  (forall c', In c' (app_characters s') ->
     c_groupChatId c' <> id /\ ~ In (c_id c') deleted /\
     forall d, In d deleted -> ~ In d (c_knownCharacterIds c')) /\
  (forall gc, In gc (app_groupChats s') -> gc_id gc <> id) /\
  (List.NoDup (map c_id (app_characters s)) ->
   app_characters s'
   = map (withoutKnown deleted)
       (List.filter (fun c => negb (String.eqb (c_groupChatId c) id)) (app_characters s))).
Proof.
  intros deleted s'.
  assert (Heq := deleteGroupChat_characters_by_id id s). fold deleted s' in Heq.
  split; [|split].
  - intros c' Hc'. rewrite Heq in Hc'. apply List.in_map_iff in Hc' as (c & <- & Hc).
    apply List.filter_In in Hc as [Hc Hout]. cbn.
    apply negb_true_iff in Hout.
    assert (Hnot : ~ In (c_id c) deleted) by (rewrite <- includes_In; congruence).
    split; [|split; [exact Hnot|]].
    + intros Hgc. apply Hnot. subst deleted. apply List.in_map.
      apply List.filter_In. split; [exact Hc|apply String.eqb_eq; exact Hgc].
    + intros d Hd Hk. apply List.filter_In in Hk as [_ Hk].
      apply negb_true_iff in Hk. apply includes_In in Hd. congruence.
  - intros gc Hgc. subst s'. unfold deleteGroupChat in Hgc.
    set (s1 := fold_left _ _ s) in Hgc. cbn [app_activeChatId setGroupChats] in Hgc.
    assert (Hin : In gc (List.filter (fun gc => negb (String.eqb (gc_id gc) id))
                           (app_groupChats s1))).
    { destruct (app_activeChatId s1) as [a|]; [destruct (String.eqb a id)|]; exact Hgc. }
    apply List.filter_In in Hin as [_ Hin]. apply negb_true_iff in Hin.
    apply String.eqb_neq. exact Hin.
  - intros Hnd. apply deleteGroupChat_characters. exact Hnd.
Qed.

(** ** World state: the bidirectional index *)

Lemma In_dedupe x l : In x (JS.dedupe l) <-> In x l.
Proof.
  induction l as [|y l IH]; simpl; [tauto|].
  rewrite List.filter_In, IH, negb_true_iff, String.eqb_neq.
  destruct (string_dec y x) as [->|Hne]; [tauto|].
  split; [tauto|]. intros [H|H]; [tauto|]. right. split; [exact H|congruence].
Qed.

Lemma assigned_unique cs c g cid :
  List.NoDup (map c_id cs) -> In c cs -> c_id c = cid ->
  assigned cs g cid <-> c_groupChatId c = g.
Proof.
  intros Hnd Hc Hid. split.
  - intros (c' & Hc' & Hid' & Hg).
    rewrite (NoDup_map_eq c_id cs c c' Hnd Hc Hc'); [exact Hg|congruence].
  - intros Hg. exists c. auto.
Qed.

Lemma assigned_absent cs g cid :
  (forall c, In c cs -> c_id c <> cid) -> ~ assigned cs g cid.
Proof. intros H (c & Hc & Hid & _). exact (H c Hc Hid). Qed.

(** Replacing the character of id [id] by its image under [F], when [F]
    keeps the id and leaves the other characters alone. *)
Lemma assigned_replace cs id (F : Character -> Character) c g cid :
  List.NoDup (map c_id cs) -> In c cs -> c_id c = id ->
  (forall x, c_id x <> id -> F x = x) -> c_id (F c) = id ->
  assigned (map F cs) g cid
  <-> (assigned cs g cid /\ cid <> id) \/ (cid = id /\ g = c_groupChatId (F c)).
Proof.
  intros Hnd Hc Hid Hother Hf. split.
  - intros (c' & Hc' & Hid' & Hg). apply List.in_map_iff in Hc' as (x & Hx & Hin).
    destruct (string_dec (c_id x) id) as [E|E]; subst c'.
    + assert (x = c) by (apply (NoDup_map_eq c_id cs); auto; congruence). subst x.
      right. split; congruence.
    + rewrite (Hother x E) in *. left. split; [exists x; auto|congruence].
  - intros [((x & Hx & Hxid & Hg) & Hne)|(-> & ->)].
    + exists x. split; [|auto]. apply List.in_map_iff. exists x. split; [|exact Hx].
      apply Hother. congruence.
    + exists (F c). split; [|auto]. apply List.in_map. exact Hc.
Qed.

Lemma replace_absent cs id (F : Character -> Character) :
  (forall x, c_id x <> id -> F x = x) ->
  (forall c, In c cs -> c_id c <> id) ->
  map F cs = cs.
Proof.
  intros Hother H. rewrite <- (map_id cs) at 2. apply List.map_ext_in. intros x Hx.
  apply Hother. auto.
Qed.

Lemma replace_ids (cs : list Character) (F : Character -> Character) :
  (forall c, c_id (F c) = c_id c) -> map c_id (map F cs) = map c_id cs.
Proof. intros H. rewrite map_map. apply map_ext. exact H. Qed.

Lemma id_present_or_absent cs id :
  (exists c, In c cs /\ c_id c = id) \/ (forall c, In c cs -> c_id c <> id).
Proof.
  induction cs as [|a cs IH]; [right; simpl; tauto|].
  destruct (string_dec (c_id a) id) as [E|E]; [left; exists a; simpl; auto|].
  destruct IH as [(c & Hc & Hid)|IH]; [left; exists c; simpl; auto|].
  right. intros c [<-|Hc]; auto.
Qed.

Lemma assigned_snoc cs c g cid :
  assigned (cs ++ [c]) g cid <-> assigned cs g cid \/ (c_id c = cid /\ c_groupChatId c = g).
Proof.
  unfold assigned. split.
  - intros (x & Hx & H). apply List.in_app_iff in Hx as [Hx|[<-|[]]]; [left; eauto|right; exact H].
  - intros [(x & Hx & H)|H].
    + exists x. split; [apply List.in_app_iff; auto|exact H].
    + exists c. split; [apply List.in_app_iff; right; left; reflexivity|exact H].
Qed.

Lemma assigned_delete cs id g cid :
  assigned (List.filter (fun c => negb (String.eqb (c_id c) id)) (map (stripKnown id) cs)) g cid
  <-> assigned cs g cid /\ cid <> id.
Proof.
  unfold assigned. split.
  - intros (x & Hx & Hid & Hg). apply List.filter_In in Hx as [Hx Hne].
    apply List.in_map_iff in Hx as (y & <- & Hy).
    apply negb_true_iff, String.eqb_neq in Hne. cbn in *.
    split; [exists y; auto|congruence].
  - intros ((y & Hy & Hid & Hg) & Hne). exists (stripKnown id y). cbn.
    split; [|auto]. apply List.filter_In. split; [apply List.in_map; exact Hy|].
    cbn. apply negb_true_iff, String.eqb_neq. congruence.
Qed.

Lemma NoDup_ids_filter_map (p : Character -> bool) (F : Character -> Character)
    (cs : list Character) :
  (forall c, c_id (F c) = c_id c) ->
  List.NoDup (map c_id cs) -> List.NoDup (map c_id (List.filter p (map F cs))).
Proof.
  intros HF. induction cs as [|a cs IH]; simpl; [auto|].
  intros Hnd. apply List.NoDup_cons_iff in Hnd as [Hna Hnd].
  destruct (p (F a)); [|auto]. simpl. constructor; [|auto].
  intros Hin. apply Hna. apply List.in_map_iff in Hin as (x & Hx & Hin).
  apply List.filter_In in Hin as [Hin _]. apply List.in_map_iff in Hin as (y & <- & Hy).
  rewrite !HF in Hx. rewrite <- Hx. apply List.in_map. exact Hy.
Qed.

Lemma consistent_frame s s' :
  app_characters s' = app_characters s -> app_groupChats s' = app_groupChats s ->
  consistent s -> consistent s'.
Proof. unfold consistent. intros -> ->. auto. Qed.

(** The member lists after a [map] over the locations that keeps the ids. *)
Lemma indexed_map (cs' : list Character) (gcs : list GroupChat)
    (F : GroupChat -> GroupChat) :
  (forall L, gc_id (F L) = gc_id L) ->
  (forall L, In L gcs ->
     forall cid, In cid (gc_characterIds (F L)) <-> assigned cs' (gc_id L) cid) ->
  indexed cs' (map F gcs).
Proof.
  intros Hid H L' HL' cid. apply List.in_map_iff in HL' as (L & <- & HL).
  rewrite Hid. apply H. exact HL.
Qed.

Lemma nonempty_ids_map (gcs : list GroupChat) (F : GroupChat -> GroupChat) :
  (forall L, gc_id (F L) = gc_id L) ->
  (forall L, In L gcs -> gc_id L <> EmptyString) ->
  forall L, In L (map F gcs) -> gc_id L <> EmptyString.
Proof.
  intros Hid H L' HL'. apply List.in_map_iff in HL' as (L & <- & HL).
  rewrite Hid. auto.
Qed.

Section IndexProperties.

Variable generateId : nat -> string.

Lemma createCharacter_consistent char s :
  consistent s ->
  ~ In (generateId (app_nextId s)) (map c_id (app_characters s)) ->
  consistent (createCharacter generateId char s).
Proof.
  intros (Hnd & Hne & Hidx) Hfresh. unfold createCharacter.
  set (id := generateId (app_nextId s)) in *.
  set (newChar := mkCharacter id _ _ _ _ _ _ _).
  assert (Hnd' : List.NoDup (map c_id (app_characters s ++ [newChar]))).
  { rewrite map_app. simpl. apply List.NoDup_app.
    - exact Hnd.
    - constructor; [intros []|constructor].
    - intros x Hx [<-|[]]. exact (Hfresh Hx). }
  destruct (JS.truthy (c_groupChatId char)) eqn:Eg; unfold consistent; cbn.
  - split; [exact Hnd'|]. split.
    + apply nonempty_ids_map; [|exact Hne]. intros L. destruct (String.eqb _ _); reflexivity.
    + apply indexed_map; [intros L; destruct (String.eqb _ _); reflexivity|].
      intros L HL cid. rewrite assigned_snoc. cbn.
      destruct (String.eqb (gc_id L) (c_groupChatId char)) eqn:E; cbn.
      * apply String.eqb_eq in E. rewrite In_dedupe, List.in_app_iff, (Hidx L HL cid).
        cbn. intuition congruence.
      * apply String.eqb_neq in E. rewrite (Hidx L HL cid). intuition congruence.
  - apply truthy_false_iff in Eg.
    split; [exact Hnd'|]. split; [exact Hne|].
    intros L HL cid. rewrite assigned_snoc. cbn. rewrite (Hidx L HL cid).
    specialize (Hne L HL). intuition congruence.
Qed.

Lemma createGroupChat_consistent chat s :
  consistent s ->
  gc_characterIds chat = [] ->
  generateId (app_nextId s) <> EmptyString ->
  (forall c, In c (app_characters s) -> c_groupChatId c <> generateId (app_nextId s)) ->
  consistent (createGroupChat generateId chat s).
Proof.
  intros (Hnd & Hne & Hidx) Hempty Hid Hfresh. unfold createGroupChat, consistent. cbn.
  split; [exact Hnd|]. split.
  - intros L HL. apply List.in_app_iff in HL as [HL|[<-|[]]]; [auto|exact Hid].
  - intros L HL cid. apply List.in_app_iff in HL as [HL|[<-|[]]]; [auto|].
    cbn. rewrite Hempty. split; [intros []|].
    intros (c & Hc & _ & Hg). exact (Hfresh c Hc Hg).
Qed.

Lemma updateGroupChat_consistent id updates s :
  consistent s ->
  gp_id updates = None -> gp_characterIds updates = None ->
  consistent (updateGroupChat id updates s).
Proof.
  intros (Hnd & Hne & Hidx) Hid Hids. unfold updateGroupChat, consistent. cbn.
  assert (Hkeep : forall L,
    gc_id (if negb (String.eqb (gc_id L) id) then L
           else applyGroupChatPatch L (dedupePatch updates)) = gc_id L /\
    gc_characterIds (if negb (String.eqb (gc_id L) id) then L
                     else applyGroupChatPatch L (dedupePatch updates)) = gc_characterIds L).
  { intros L. destruct (negb _); [auto|].
    unfold dedupePatch. rewrite Hids. cbn. rewrite Hid, Hids. auto. }
  split; [exact Hnd|]. split.
  - apply nonempty_ids_map; [|exact Hne]. intros L. apply Hkeep.
  - apply indexed_map; [intros L; apply Hkeep|].
    intros L HL cid. rewrite (proj2 (Hkeep L)). apply Hidx. exact HL.
Qed.

(** Overwriting the member list of the locations of id [k] by a list with
    the members the index asks for. *)
Lemma overwrite_consistent k ids s :
  consistent s ->
  (forall cid, In cid ids <-> assigned (app_characters s) k cid) ->
  consistent (updateGroupChat k (characterIdsPatch ids) s).
Proof.
  intros (Hnd & Hne & Hidx) Hids. unfold updateGroupChat, consistent. cbn.
  split; [exact Hnd|]. split.
  - apply nonempty_ids_map; [|exact Hne]. intros L. destruct (negb _); reflexivity.
  - apply indexed_map; [intros L; destruct (negb _); reflexivity|].
    intros L HL cid. destruct (String.eqb (gc_id L) k) eqn:E; cbn.
    + apply String.eqb_eq in E. rewrite In_dedupe, Hids, E. reflexivity.
    + apply Hidx. exact HL.
Qed.

Lemma deleteCharacter_consistent id s :
  consistent s -> consistent (deleteCharacter id s).
Proof.
  intros (Hnd & Hne & Hidx). unfold deleteCharacter, deleteCharacterIn.
  destruct (findCharacterById (app_characters s) id) as [c|] eqn:Ef;
    [|unfold consistent; auto].
  apply List.find_some in Ef as [Hc Hid]. apply String.eqb_eq in Hid.
  unfold consistent. cbn. split; [|split].
  - apply NoDup_ids_filter_map; [reflexivity|exact Hnd].
  - apply nonempty_ids_map; [|exact Hne]. intros L. destruct (String.eqb _ _); reflexivity.
  - apply indexed_map; [intros L; destruct (String.eqb _ _); reflexivity|].
    intros L HL cid. rewrite assigned_delete.
    destruct (String.eqb (gc_id L) (c_groupChatId c)) eqn:E; cbn.
    + rewrite removeId_In, (Hidx L HL cid). reflexivity.
    + apply String.eqb_neq in E. rewrite (Hidx L HL cid).
      split; [|tauto]. intros Ha. split; [exact Ha|]. intros ->.
      apply (assigned_unique _ c _ _ Hnd Hc Hid) in Ha. congruence.
Qed.

Lemma removeCharacterFromChat_consistent chatId charId s :
  consistent s ->
  (forall c, In c (app_characters s) -> c_id c = charId -> c_groupChatId c = chatId) ->
  consistent (removeCharacterFromChat chatId charId s).
Proof.
  intros (Hnd & Hne & Hidx) Hat. unfold removeCharacterFromChat, consistent. cbn.
  set (F := fun char : Character => if String.eqb (c_id char) charId then _ else char).
  assert (Hother : forall x, c_id x <> charId -> F x = x).
  { intros x Hx. subst F. cbn. apply String.eqb_neq in Hx. rewrite Hx. reflexivity. }
  assert (Hids : forall x, c_id (F x) = c_id x).
  { intros x. subst F. cbn. destruct (String.eqb _ _); reflexivity. }
  split; [rewrite replace_ids by exact Hids; exact Hnd|]. split.
  - apply nonempty_ids_map; [|exact Hne]. intros L. destruct (String.eqb _ _); reflexivity.
  - apply indexed_map; [intros L; destruct (String.eqb _ _); reflexivity|].
    intros L HL cid.
    destruct (id_present_or_absent (app_characters s) charId) as [(c & Hc & Hid)|Habs].
    + rewrite (assigned_replace _ charId F c) by (auto; rewrite Hids; exact Hid).
      assert (Hgone : c_groupChatId (F c) = EmptyString).
      { subst F. cbn. rewrite Hid, String.eqb_refl. reflexivity. }
      rewrite Hgone. specialize (Hne L HL).
      destruct (String.eqb (gc_id L) chatId) eqn:E; cbn.
      * rewrite removeId_In, (Hidx L HL cid). intuition congruence.
      * apply String.eqb_neq in E. rewrite (Hidx L HL cid).
        split; [|intuition congruence]. intros Ha. left. split; [exact Ha|]. intros ->.
        apply (assigned_unique _ c _ _ Hnd Hc Hid) in Ha.
        rewrite (Hat c Hc Hid) in Ha. congruence.
    + rewrite (replace_absent _ charId F Hother Habs).
      destruct (String.eqb (gc_id L) chatId) eqn:E; cbn; [|apply Hidx; exact HL].
      rewrite removeId_In, (Hidx L HL cid).
      split; [tauto|]. intros Ha. split; [exact Ha|]. intros ->.
      exact (assigned_absent _ _ _ Habs Ha).
Qed.

Lemma applyCharacterPatch_id c u : cp_id u = None -> c_id (applyCharacterPatch c u) = c_id c.
Proof. intros H. cbn. rewrite H. reflexivity. Qed.

Lemma fold_reassign_absent id updates (cs : list Character) gcs :
  (forall c, In c cs -> c_id c <> id) ->
  fold_left (fun gcs char =>
      if reassigns id updates char
      then reassign id (c_groupChatId char) (default EmptyString (cp_groupChatId updates)) gcs
      else gcs) cs gcs = gcs.
Proof.
  revert gcs. induction cs as [|a cs IH]; intros gcs H; simpl; [reflexivity|].
  assert (E : reassigns id updates a = false).
  { unfold reassigns. assert (Ha : c_id a <> id) by (apply H; left; reflexivity).
    apply String.eqb_neq in Ha. rewrite Ha. reflexivity. }
  rewrite E. apply IH. intros c Hc. apply H. right. exact Hc.
Qed.

Lemma fold_reassign_unique id updates (cs : list Character) c gcs :
  List.NoDup (map c_id cs) -> In c cs -> c_id c = id ->
  fold_left (fun gcs char =>
      if reassigns id updates char
      then reassign id (c_groupChatId char) (default EmptyString (cp_groupChatId updates)) gcs
      else gcs) cs gcs
  = if reassigns id updates c
    then reassign id (c_groupChatId c) (default EmptyString (cp_groupChatId updates)) gcs
    else gcs.
Proof.
  revert gcs. induction cs as [|a cs IH]; intros gcs Hnd Hc Hid; [destruct Hc|].
  simpl in Hnd. apply List.NoDup_cons_iff in Hnd as [Hna Hnd]. simpl.
  destruct Hc as [->|Hc].
  - apply fold_reassign_absent. intros x Hx Hxid. apply Hna.
    rewrite Hid, <- Hxid. apply List.in_map. exact Hx.
  - assert (E : reassigns id updates a = false).
    { unfold reassigns. assert (Ha : c_id a <> id).
      { intros Ha. apply Hna. rewrite Ha, <- Hid. apply List.in_map. exact Hc. }
      apply String.eqb_neq in Ha. rewrite Ha. reflexivity. }
    rewrite E. apply IH; assumption.
Qed.

Lemma reassign_members id old new gcs L' cid :
  In L' (reassign id old new gcs) ->
  exists L, In L gcs /\ gc_id L' = gc_id L /\
    (In cid (gc_characterIds L') <->
       if String.eqb (gc_id L) new then (In cid (gc_characterIds L) /\ cid <> id) \/ cid = id
       else if String.eqb (gc_id L) old then In cid (gc_characterIds L) /\ cid <> id
       else In cid (gc_characterIds L)).
Proof.
  unfold reassign. intros H.
  apply List.in_map_iff in H as (L1 & <- & H).
  apply List.in_map_iff in H as (L & <- & H).
  exists L. split; [exact H|].
  destruct (String.eqb (gc_id L) old) eqn:Eo; cbn [gc_id gc_characterIds withCharacterIds];
    destruct (String.eqb (gc_id L) new) eqn:En; cbn [gc_id gc_characterIds withCharacterIds];
    (split; [reflexivity|]);
    rewrite ?List.in_app_iff, ?removeId_In; cbn [In]; intuition congruence.
Qed.

(** The characters after [updateCharacter], seen through [assigned]. *)
Lemma updateCharacter_assigned id updates s c g cid :
  List.NoDup (map c_id (app_characters s)) ->
  In c (app_characters s) -> c_id c = id -> cp_id updates = None ->
  assigned (app_characters (updateCharacter id updates s)) g cid
  <-> (assigned (app_characters s) g cid /\ cid <> id)
      \/ (cid = id /\ g = default (c_groupChatId c) (cp_groupChatId updates)).
Proof.
  intros Hnd Hc Hid Hcp. unfold updateCharacter. cbn [app_characters setCharacters setGroupChats].
  rewrite (assigned_replace _ id _ c); auto.
  - rewrite Hid, String.eqb_refl. reflexivity.
  - intros x Hx. apply String.eqb_neq in Hx. rewrite Hx. reflexivity.
  - rewrite Hid, String.eqb_refl. cbn. rewrite Hcp. exact Hid.
Qed.

Lemma updateCharacter_consistent id updates s :
  consistent s ->
  cp_id updates = None -> cp_groupChatId updates <> Some EmptyString ->
  consistent (updateCharacter id updates s).
Proof.
  intros (Hnd & Hne & Hidx) Hcp Hg.
  set (F := fun char : Character =>
              if negb (String.eqb (c_id char) id) then char
              else applyCharacterPatch char updates).
  assert (Hids : forall x, c_id (F x) = c_id x).
  { intros x. subst F. cbn. destruct (negb _); [reflexivity|].
    apply applyCharacterPatch_id. exact Hcp. }
  assert (Hother : forall x, c_id x <> id -> F x = x).
  { intros x Hx. subst F. cbn. apply String.eqb_neq in Hx. rewrite Hx. reflexivity. }
  destruct (id_present_or_absent (app_characters s) id) as [(c & Hc & Hid)|Habs].
  - assert (Ha := fun g cid => updateCharacter_assigned id updates s c g cid Hnd Hc Hid Hcp).
    unfold consistent. split; [|split].
    + unfold updateCharacter. cbn. fold F. rewrite replace_ids by exact Hids. exact Hnd.
    + unfold updateCharacter. cbn [app_groupChats setCharacters setGroupChats].
      rewrite (fold_reassign_unique id updates _ c) by assumption.
      destruct (reassigns id updates c); [|exact Hne].
      intros L' HL'. destruct (reassign_members _ _ _ _ _ EmptyString HL') as (L & HL & E & _).
      rewrite E. auto.
    + intros L' HL' cid. rewrite Ha. revert HL'.
      unfold updateCharacter. cbn [app_groupChats setCharacters setGroupChats].
      rewrite (fold_reassign_unique id updates _ c) by assumption.
      assert (Hown : forall g, assigned (app_characters s) g id <-> c_groupChatId c = g).
      { intros g. apply assigned_unique; assumption. }
      unfold reassigns. rewrite Hid, String.eqb_refl. cbn [andb].
      destruct (cp_groupChatId updates) as [new|] eqn:Enew; cbn [from_option Datatypes.id].
      * destruct (JS.truthy new) eqn:Et;
          [|apply truthy_false_iff in Et; subst new; congruence].
        destruct (String.eqb new (c_groupChatId c)) eqn:Esame; cbn [negb andb].
        -- apply String.eqb_eq in Esame. subst new. intros HL.
           rewrite (Hidx L' HL cid). split; [|intros [[H _]|[-> ->]]; [exact H|apply Hown; reflexivity]].
           intros H. destruct (string_dec cid id) as [->|Hn]; [|auto].
           right. split; [reflexivity|]. symmetry. apply Hown. exact H.
        -- apply String.eqb_neq in Esame. intros HL'.
           destruct (reassign_members _ _ _ _ _ cid HL') as (L & HL & E & Hm).
           rewrite E, Hm. clear Hm. assert (Hi := Hidx L HL cid).
           destruct (String.eqb (gc_id L) new) eqn:En.
           ++ apply String.eqb_eq in En. rewrite Hi. clear - En. intuition congruence.
           ++ apply String.eqb_neq in En.
              destruct (String.eqb (gc_id L) (c_groupChatId c)) eqn:Eo; rewrite Hi.
              ** intuition congruence.
              ** apply String.eqb_neq in Eo. split; [|intuition congruence].
                 intros H. left. split; [exact H|]. intros ->. apply Hown in H. congruence.
      * intros HL. rewrite (Hidx L' HL cid).
        split; [|intros [[H _]|[-> ->]]; [exact H|apply Hown; reflexivity]].
        intros H. destruct (string_dec cid id) as [->|Hn]; [|auto].
        right. split; [reflexivity|]. symmetry. apply Hown. exact H.
  - apply (consistent_frame s); [| |unfold consistent; auto].
    + unfold updateCharacter. cbn. fold F. apply (replace_absent _ id F Hother Habs).
    + unfold updateCharacter. cbn [app_groupChats setCharacters setGroupChats].
      apply fold_reassign_absent. exact Habs.
Qed.

End IndexProperties.

Section TurnIndexProperties.

Variable generateId : nat -> string.

Lemma deleteGroupChat_step_untouched id (c : Character) (f : GroupChat -> GroupChat)
    (gcs : list GroupChat) :
  c_groupChatId c = id -> (forall L, gc_id (f L) = gc_id L) ->
  List.filter (fun gc => negb (String.eqb (gc_id gc) id))
    (map (fun gc => if String.eqb (gc_id gc) (c_groupChatId c) then f gc else gc) gcs)
  = List.filter (fun gc => negb (String.eqb (gc_id gc) id)) gcs.
Proof.
  intros Hc Hf. subst id. induction gcs as [|L gcs IH]; simpl; [reflexivity|].
  destruct (String.eqb (gc_id L) (c_groupChatId c)) eqn:E; simpl.
  - rewrite Hf, E. simpl. exact IH.
  - rewrite E. simpl. rewrite IH. reflexivity.
Qed.

Lemma deleteCharacters_groupChats id cs (victims : list Character) s :
  (forall v c, In v victims -> findCharacterById cs (c_id v) = Some c -> c_groupChatId c = id) ->
  List.filter (fun gc => negb (String.eqb (gc_id gc) id))
    (app_groupChats
       (fold_left (fun s char => deleteCharacterIn cs (c_id char) s) victims s))
  = List.filter (fun gc => negb (String.eqb (gc_id gc) id)) (app_groupChats s).
Proof.
  revert s. induction victims as [|v victims IH]; intros s H; simpl; [reflexivity|].
  rewrite IH by (intros v' c Hv; apply H; right; exact Hv).
  unfold deleteCharacterIn.
  destruct (findCharacterById cs (c_id v)) as [c|] eqn:Ef; [|reflexivity].
  cbn [app_groupChats setCharacters setGroupChats].
  apply (deleteGroupChat_step_untouched id c
           (fun gc => withCharacterIds (removeId (c_id v) (gc_characterIds gc)) gc)).
  - apply (H v c); [left; reflexivity|exact Ef].
  - reflexivity.
Qed.

Lemma deleteGroupChat_groupChats id s :
  List.NoDup (map c_id (app_characters s)) ->
  app_groupChats (deleteGroupChat id s)
  = List.filter (fun gc => negb (String.eqb (gc_id gc) id)) (app_groupChats s).
Proof.
  intros Hnd. unfold deleteGroupChat.
  set (victims := List.filter _ (app_characters s)).
  set (s1 := fold_left _ victims s).
  assert (H : List.filter (fun gc => negb (String.eqb (gc_id gc) id)) (app_groupChats s1)
              = List.filter (fun gc => negb (String.eqb (gc_id gc) id)) (app_groupChats s)).
  { subst s1. apply deleteCharacters_groupChats.
    intros v c Hv Hf. subst victims. apply List.filter_In in Hv as [Hv Hg].
    apply List.find_some in Hf as [Hc Hid]. apply String.eqb_eq in Hid.
    rewrite (NoDup_map_eq c_id _ c v Hnd Hc Hv Hid). apply String.eqb_eq. exact Hg. }
  cbn [app_activeChatId setGroupChats].
  destruct (app_activeChatId s1) as [a|]; [destruct (String.eqb a id)|]; exact H.
Qed.

Lemma deleteGroupChat_consistent id s :
  consistent s -> consistent (deleteGroupChat id s).
Proof.
  intros (Hnd & Hne & Hidx). unfold consistent.
  rewrite deleteGroupChat_groupChats by exact Hnd.
  rewrite (deleteGroupChat_characters id s Hnd).
  set (D := map c_id (List.filter _ (app_characters s))).
  split; [|split].
  - assert (E : map (withoutKnown D)
                  (List.filter (fun c => negb (String.eqb (c_groupChatId c) id))
                     (app_characters s))
                = List.filter (fun c => negb (String.eqb (c_groupChatId c) id))
                    (map (withoutKnown D) (app_characters s))).
    { rewrite filter_map_commute. reflexivity. }
    rewrite E. apply NoDup_ids_filter_map; [reflexivity|exact Hnd].
  - intros L HL. apply List.filter_In in HL as [HL _]. auto.
  - intros L HL cid. apply List.filter_In in HL as [HL Hid].
    apply negb_true_iff, String.eqb_neq in Hid.
    rewrite (Hidx L HL cid). unfold assigned. split.
    + intros (c & Hc & Hcid & Hg). exists (withoutKnown D c). cbn.
      split; [|auto]. apply List.in_map. apply List.filter_In. split; [exact Hc|].
      apply negb_true_iff, String.eqb_neq. congruence.
    + intros (c' & Hc' & Hcid & Hg). apply List.in_map_iff in Hc' as (c & <- & Hc).
      apply List.filter_In in Hc as [Hc _]. exists c. cbn in *. auto.
Qed.

(** *** The updates staged by a turn *)

Lemma processToolCall_staging character groupChat allGroupChats a call :
  let a' := processToolCall generateId character groupChat allGroupChats a call in
  match effectiveMove character allGroupChats call with
  | Some dest =>
      groupChatUpdates a' = stageMove character groupChat dest (groupChatUpdates a) /\
      cp_groupChatId (characterUpdates a') = Some (gc_id dest)
  | None =>
      groupChatUpdates a' = groupChatUpdates a /\
      cp_groupChatId (characterUpdates a') = cp_groupChatId (characterUpdates a)
  end /\
  cp_id (characterUpdates a') = cp_id (characterUpdates a).
Proof.
  unfold processToolCall, effectiveMove.
  destruct (input call) as [i|]; [|cbn; auto].
  destruct (String.eqb (toolName call) "makeNote") eqn:E1.
  { apply String.eqb_eq in E1. rewrite E1. cbn [String.eqb Ascii.eqb Bool.eqb andb].
    unfold makeNote. destruct (in_note i) as [note|]; [|cbn; auto].
    destruct (JS.truthy note); cbn; auto. }
  destruct (String.eqb (toolName call) "moveToLocation") eqn:E2.
  { unfold moveToLocation.
    destruct (in_locationName i) as [destName|]; [|cbn; auto].
    destruct (JS.truthy destName); cbn [negb]; [|cbn; auto].
    destruct (List.find _ allGroupChats) as [destChat|]; [|cbn; auto].
    destruct (String.eqb (gc_id destChat) (c_groupChatId character)); cbn; auto. }
  destruct (String.eqb (toolName call) "labelStranger"); [|cbn; auto].
  unfold labelStranger. destruct (in_name i) as [name|]; [|cbn; auto].
  destruct (JS.truthy name && JS.truthy (JS.trim name)); cbn; auto.
Qed.

Lemma toolCalls_staging character groupChat allGroupChats calls a :
  let a' := fold_left (processToolCall generateId character groupChat allGroupChats) calls a in
  let moves := flat_map (fun call =>
                 match effectiveMove character allGroupChats call with
                 | Some dest => [dest]
                 | None => []
                 end) calls in
  groupChatUpdates a'
  = fold_left (fun m dest => stageMove character groupChat dest m) moves (groupChatUpdates a) /\
  cp_groupChatId (characterUpdates a')
  = fold_left (fun _ dest => Some (gc_id dest)) moves (cp_groupChatId (characterUpdates a)) /\
  cp_id (characterUpdates a') = cp_id (characterUpdates a).
Proof.
  revert a. induction calls as [|call calls IH]; intros a; cbn [fold_left flat_map]; [auto|].
  destruct (IH (processToolCall generateId character groupChat allGroupChats a call))
    as (Hg & Hc & Hi).
  destruct (processToolCall_staging character groupChat allGroupChats a call) as (Hstep & Hid).
  rewrite Hg, Hc, Hi, Hid, !fold_left_app.
  destruct (effectiveMove character allGroupChats call) as [dest|];
    destruct Hstep as [-> ->]; cbn [fold_left]; auto.
Qed.

(** The mutations staged by [processCharacterTurnResult]: the character
    patch never sets the id and sets [groupChatId] to the last effective
    destination; the location patches are those of the effective moves. *)
Lemma processCharacterTurnResult_staged result character groupChat allGroupChats n :
  let out := fst (processCharacterTurnResult generateId result character groupChat
                    allGroupChats n) in
  let moves := relocations character allGroupChats result in
  let staged := fold_left (fun m dest => stageMove character groupChat dest m) moves [] in
  let target := fold_left (fun _ dest => Some (gc_id dest)) moves None in
  tr_groupChatUpdates out = match staged with [] => None | m => Some m end /\
  match tr_characterUpdates out with
  | Some u => cp_id u = None /\ cp_groupChatId u = target
  | None => target = None
  end.
Proof.
  unfold processCharacterTurnResult, relocations.
  set (a0 := mkTurnAcc [] emptyCharacterPatch [] false None n).
  set (a1 := match r_toolCalls result with Some calls => _ | None => a0 end).
  assert (H1 : groupChatUpdates a1
               = fold_left (fun m dest => stageMove character groupChat dest m)
                   (match r_toolCalls result with
                    | Some calls =>
                        flat_map (fun call =>
                          match effectiveMove character allGroupChats call with
                          | Some dest => [dest]
                          | None => []
                          end) calls
                    | None => []
                    end) [] /\
               cp_groupChatId (characterUpdates a1)
               = fold_left (fun _ dest => Some (gc_id dest))
                   (match r_toolCalls result with
                    | Some calls =>
                        flat_map (fun call =>
                          match effectiveMove character allGroupChats call with
                          | Some dest => [dest]
                          | None => []
                          end) calls
                    | None => []
                    end) None /\
               cp_id (characterUpdates a1) = None).
  { subst a1. destruct (r_toolCalls result) as [calls|]; [|cbn; auto].
    apply (toolCalls_staging character groupChat allGroupChats calls a0). }
  destruct H1 as (Hg & Hc & Hi).
  set (a2 := if JS.truthyOpt _ then _ else a1).
  assert (H2 : groupChatUpdates a2 = groupChatUpdates a1 /\
               characterUpdates a2 = characterUpdates a1).
  { subst a2. destruct (JS.truthyOpt _); cbn; auto. }
  set (a3 := match newMessages a2 with [] => _ | _ => a2 end).
  assert (H3 : groupChatUpdates a3 = groupChatUpdates a1 /\
               characterUpdates a3 = characterUpdates a1).
  { subst a3. destruct (newMessages a2); [|exact H2].
    destruct (negb _ && negb _); [cbn|]; exact H2. }
  destruct H3 as [Hg3 Hc3]. cbn [fst tr_groupChatUpdates tr_characterUpdates].
  rewrite Hg3, Hc3, Hg. split.
  { match goal with |- context [fold_left ?f ?l []] => destruct (fold_left f l []) end;
      reflexivity. }
  rewrite <- Hc. revert Hi. clear.
  destruct (characterUpdates a1) as [ui un ud up ug unt uq uk]. cbn.
  intros ->. destruct un, ud, up, ug, unt, uq, uk; cbn; auto.
Qed.

Lemma relocations_spec character allGroupChats result dest :
  In dest (relocations character allGroupChats result) ->
  In dest allGroupChats /\ gc_id dest <> c_groupChatId character.
Proof.
  unfold relocations. destruct (r_toolCalls result) as [calls|]; [|intros []].
  intros H. apply List.in_flat_map in H as (call & _ & H).
  unfold effectiveMove in H.
  destruct (input call) as [i|]; [|destruct H].
  destruct (String.eqb (toolName call) "moveToLocation"); [|destruct H].
  destruct (in_locationName i) as [destName|]; [|destruct H].
  destruct (JS.truthy destName); [|destruct H].
  destruct (List.find _ allGroupChats) as [destChat|] eqn:Ef; [|destruct H].
  destruct (String.eqb (gc_id destChat) (c_groupChatId character)) eqn:E;
    cbn in H; [destruct H|].
  destruct H as [<-|[]]. apply List.find_some in Ef as [Hin _].
  split; [exact Hin|]. apply String.eqb_neq. exact E.
Qed.

Lemma strangerLabel_consistent (label : option string) s :
  consistent s ->
  consistent match label with
             | Some l => if JS.truthy l then setSettings (setStrangerLabel l) s else s
             | None => s
             end.
Proof.
  intros H. destruct label as [l|]; [destruct (JS.truthy l)|]; exact H.
Qed.

Lemma applyTurn_consistent chat actingCharacter result s :
  consistent s ->
  In chat (app_groupChats s) ->
  In actingCharacter (app_characters s) ->
  length (relocations actingCharacter (app_groupChats s) result) <= 1 ->
  consistent (applyMutation generateId (ApplyTurn chat actingCharacter result) s).
Proof.
  intros Hcons Hchat Hch Hlen. unfold applyMutation.
  assert (Hst := processCharacterTurnResult_staged result actingCharacter chat
                   (app_groupChats s) (app_nextId s)).
  destruct (processCharacterTurnResult generateId result actingCharacter chat
              (app_groupChats s) (app_nextId s)) as [tr n].
  cbn [fst] in Hst. destruct Hst as [Hgu Hcu].
  unfold applyTurnResult. apply strangerLabel_consistent.
  set (sA := appendMessages _ _ (removeLoading _ _ _)).
  assert (HA : app_characters sA = app_characters s /\ app_groupChats sA = app_groupChats s).
  { subst sA. destruct (tr_usage tr); cbn; auto. }
  destruct HA as [HAc HAg].
  assert (HconsA : consistent sA) by (apply (consistent_frame s); assumption).
  clearbody sA. rewrite <- HAc in Hch. rewrite <- HAg in Hchat, Hlen, Hgu, Hcu.
  clear HAc HAg Hcons s.
  destruct HconsA as (Hnd & Hne & Hidx).
  assert (HconsA : consistent sA) by (unfold consistent; auto).
  destruct (relocations actingCharacter (app_groupChats sA) result)
    as [|dest [|dest2 rest]] eqn:Emoves; [| |cbn in Hlen; lia].
  - cbn in Hgu, Hcu. rewrite Hgu.
    destruct (tr_characterUpdates tr) as [u|]; [|exact HconsA].
    destruct Hcu as [Hid Hg]. apply updateCharacter_consistent; [exact HconsA|exact Hid|].
    rewrite Hg. discriminate.
  - destruct (relocations_spec actingCharacter (app_groupChats sA) result dest)
      as [Hdest Hmoved]; [rewrite Emoves; left; reflexivity|].
    cbn [fold_left] in Hgu, Hcu.
    destruct (tr_characterUpdates tr) as [u|]; [|discriminate].
    destruct Hcu as [Hid Hg].
    set (sB := updateCharacter (c_id actingCharacter) u sA).
    assert (HconsB : consistent sB).
    { apply updateCharacter_consistent; [exact HconsA|exact Hid|].
      rewrite Hg. intros E. injection E as E. exact (Hne dest Hdest E). }
    assert (Ha : forall g cid,
               assigned (app_characters sB) g cid
               <-> (assigned (app_characters sA) g cid /\ cid <> c_id actingCharacter)
                   \/ (cid = c_id actingCharacter /\ g = gc_id dest)).
    { intros g cid. subst sB.
      rewrite (updateCharacter_assigned (c_id actingCharacter) u sA actingCharacter)
        by auto.
      rewrite Hg. reflexivity. }
    assert (Hnew : forall cid,
               In cid (removeId (c_id actingCharacter) (gc_characterIds dest)
                         ++ [c_id actingCharacter])
               <-> assigned (app_characters sB) (gc_id dest) cid).
    { intros cid. rewrite Ha, List.in_app_iff, removeId_In, (Hidx dest Hdest cid).
      cbn [In]. intuition congruence. }
    unfold stageMove in Hgu. cbn [mapSet] in Hgu.
    destruct (String.eqb (gc_id chat) (gc_id dest)) eqn:Esame; rewrite Hgu; cbn [fold_left fst snd].
    + apply overwrite_consistent; [exact HconsB|exact Hnew].
    + apply String.eqb_neq in Esame.
      apply overwrite_consistent.
      * apply overwrite_consistent; [exact HconsB|].
        intros cid. rewrite Ha, removeId_In, (Hidx chat Hchat cid). intuition congruence.
      * exact Hnew.
Qed.

(** C1, as amended. Starting from a consistent world, every sequence of
    admissible mutations leaves a consistent world: the member list of
    every location holds exactly the ids of the characters assigned to
    it. *)
Theorem index_preserved ms s :
  consistent s ->
  allAdmissible generateId s ms ->
  consistent (applyMutations generateId ms s).
Proof.
  revert s. induction ms as [|m ms IH]; intros s Hcons Hadm; [exact Hcons|].
  destruct Hadm as [Hm Hrest]. cbn [applyMutations fold_left].
  apply IH; [|exact Hrest]. clear IH Hrest.
  destruct m as [char|id updates|id|chat|id updates|id|chatId charId|chat actingCharacter result];
    cbn [admissible] in Hm.
  - apply createCharacter_consistent; assumption.
  - apply updateCharacter_consistent; tauto.
  - apply deleteCharacter_consistent; assumption.
  - apply createGroupChat_consistent; tauto.
  - apply updateGroupChat_consistent; tauto.
  - apply deleteGroupChat_consistent; assumption.
  - apply removeCharacterFromChat_consistent; assumption.
  - apply applyTurn_consistent; tauto.
Qed.

End TurnIndexProperties.

(** ** World export and import *)

Lemma orElse_empty s : orElse s EmptyString = s.
Proof. destruct s; reflexivity. Qed.

Lemma filterBoolean_all l : (forall x, In x l -> x <> EmptyString) -> filterBoolean l = l.
Proof.
  intros H. apply filter_all. apply List.Forall_forall. intros x Hx.
  apply truthy_true_iff. auto.
Qed.

Lemma findIndex_lookup {A} (p : A -> bool) (l : list A) :
  match JS.findIndex p l with
  | Some i => l !! i = List.find p l /\ List.find p l <> None
  | None => List.find p l = None
  end.
Proof.
  induction l as [|a l IH]; simpl; [reflexivity|].
  destruct (p a); [split; [reflexivity|discriminate]|].
  destruct (JS.findIndex p l); simpl; exact IH.
Qed.

Lemma find_by_key {A} (key : A -> string) (l : list A) x :
  List.NoDup (map key l) -> In x l ->
  List.find (fun y => String.eqb (key y) (key x)) l = Some x.
Proof.
  induction l as [|a l IH]; simpl; [tauto|].
  intros Hnd [->|Hin]; [rewrite String.eqb_refl; reflexivity|].
  apply List.NoDup_cons_iff in Hnd as [Hna Hnd].
  destruct (String.eqb (key a) (key x)) eqn:E; [|auto].
  apply String.eqb_eq in E. exfalso. apply Hna. rewrite E. apply List.in_map. exact Hin.
Qed.

Section ImportProperties.

Variable generateId : nat -> string.

(** *** First pass *)

Lemma importLocations_fold groupChats st :
  (forall L, In L groupChats -> gc_name L <> EmptyString /\ gc_description L <> EmptyString) ->
  fold_left (importLocation generateId) (map exportLocation groupChats) st
  = mkImportState
      (is_groupChats st ++ importedLocations generateId (is_nextId st) groupChats)
      (is_characters st) (is_nextId st + length groupChats).
Proof.
  revert st. induction groupChats as [|L rest IH]; intros st H; simpl.
  - rewrite app_nil_r, Nat.add_0_r. destruct st; reflexivity.
  - destruct (H L) as [Hn Hd]; [left; reflexivity|].
    apply truthy_true_iff in Hn, Hd.
    assert (E : importLocation generateId st (exportLocation L)
                = mkImportState
                    (is_groupChats st ++
                       [mkGroupChat (generateId (is_nextId st)) (gc_name L)
                          (gc_description L) []
                          (Some (filterBoolean (expositionLines L)))])
                    (is_characters st) (S (is_nextId st))).
    { unfold importLocation. cbn [ld_name ld_description exportLocation].
      rewrite Hn, Hd. reflexivity. }
    rewrite E, IH by (intros L' HL'; apply H; right; exact HL').
    cbn. rewrite <- app_assoc. cbn. f_equal. lia.
Qed.

Lemma importedLocations_names k groupChats :
  map gc_name (importedLocations generateId k groupChats) = map gc_name groupChats /\
  map gc_description (importedLocations generateId k groupChats)
  = map gc_description groupChats /\
  map gc_id (importedLocations generateId k groupChats)
  = map generateId (seq k (length groupChats)).
Proof.
  revert k. induction groupChats as [|L rest IH]; intros k; cbn; [auto|].
  destruct (IH (S k)) as (-> & -> & ->). auto.
Qed.

Lemma importedLocations_lines k groupChats :
  (forall L e, In L groupChats -> In e (expositionLines L) -> e <> EmptyString) ->
  map expositionLines (importedLocations generateId k groupChats)
  = map expositionLines groupChats.
Proof.
  revert k. induction groupChats as [|L rest IH]; intros k H; cbn; [reflexivity|].
  rewrite IH by (intros L' e HL'; apply H; right; exact HL').
  f_equal. unfold expositionLines at 1. cbn.
  apply filterBoolean_all. intros e He. apply (H L e); [left; reflexivity|exact He].
Qed.

(** *** Second pass *)

Lemma alter_skeleton (f : GroupChat -> GroupChat) i (G : list GroupChat) :
  (forall L, skeleton (f L) = skeleton L) ->
  map skeleton (alter f i G) = map skeleton G.
Proof.
  intros Hf. revert i. induction G as [|L G IH]; intros [|i]; cbn; try reflexivity.
  - rewrite Hf. reflexivity.
  - f_equal. apply IH.
Qed.

Lemma skeleton_maps (G G' : list GroupChat) :
  map skeleton G = map skeleton G' ->
  map gc_id G = map gc_id G' /\ map gc_name G = map gc_name G' /\
  map gc_description G = map gc_description G' /\
  map gc_exposition G = map gc_exposition G'.
Proof.
  intros H.
  assert (H1 := f_equal (map (fun t : string * string * string * option (list string) =>
                                fst (fst (fst t)))) H).
  assert (H2 := f_equal (map (fun t : string * string * string * option (list string) =>
                                snd (fst (fst t)))) H).
  assert (H3 := f_equal (map (fun t : string * string * string * option (list string) =>
                                snd (fst t))) H).
  assert (H4 := f_equal (map (fun t : string * string * string * option (list string) =>
                                snd t)) H).
  rewrite !map_map in H1, H2, H3, H4. auto.
Qed.

Lemma find_first_key (G G' : list GroupChat) name :
  map gc_name G = map gc_name G' -> map gc_id G = map gc_id G' ->
  option_map gc_id (List.find (fun g => String.eqb (gc_name g) name) G)
  = option_map gc_id (List.find (fun g => String.eqb (gc_name g) name) G').
Proof.
  revert G'. induction G as [|L G IH]; intros [|L' G'] Hn Hi; cbn in *; try discriminate;
    [reflexivity|].
  injection Hn as Hn0 Hn. injection Hi as Hi0 Hi. rewrite Hn0.
  destruct (String.eqb (gc_name L') name); cbn; [congruence|]. apply IH; assumption.
Qed.

Lemma idByName_skeleton G G' name :
  map skeleton G = map skeleton G' -> idByName G name = idByName G' name.
Proof.
  intros H. destruct (skeleton_maps G G' H) as (Hi & Hn & _).
  unfold idByName. assert (Hf := find_first_key G G' name Hn Hi).
  destruct (List.find _ G) as [g|]; destruct (List.find _ G') as [g'|]; cbn in Hf;
    try discriminate; [congruence|].
  destruct G as [|L G], G' as [|L' G']; cbn in *; congruence.
Qed.

Lemma importCharacter_spec st c :
  cd_name c <> EmptyString -> cd_description c <> EmptyString ->
  let st' := importCharacter generateId st c in
  is_characters st'
  = is_characters st ++
      [mkCharacter (generateId (is_nextId st)) (cd_name c) (cd_description c)
         (cd_pfp_base64 c) (idByName (is_groupChats st) (cd_location c))
         (filterBoolean (cd_notes c)) (filterBoolean (cd_quotes c)) []] /\
  map skeleton (is_groupChats st') = map skeleton (is_groupChats st) /\
  is_nextId st' = S (is_nextId st).
Proof.
  intros Hn Hd. apply truthy_true_iff in Hn, Hd.
  unfold importCharacter. rewrite Hn, Hd. cbn [andb is_characters is_groupChats is_nextId].
  split; [|split; [|reflexivity]].
  - f_equal. f_equal. f_equal. unfold idByName.
    assert (Hf := findIndex_lookup (fun g => String.eqb (gc_name g) (cd_location c))
                    (is_groupChats st)).
    destruct (JS.findIndex _ (is_groupChats st)) as [i|].
    + destruct Hf as [-> Hsome].
      destruct (List.find _ (is_groupChats st)) as [g|]; [|congruence].
      apply orElse_empty.
    + rewrite Hf. destruct (is_groupChats st) as [|g G]; [reflexivity|].
      cbn. apply orElse_empty.
  - destruct (match JS.findIndex _ (is_groupChats st) with Some i => Some i | None => _ end)
      as [i|]; [|reflexivity].
    unfold pushCharacterId. apply alter_skeleton. reflexivity.
Qed.

Lemma importedCharacters_skeleton k G G' (data : list CharacterData) :
  map skeleton G = map skeleton G' ->
  importedCharacters generateId k G data = importedCharacters generateId k G' data.
Proof.
  intros H. revert k. induction data as [|c rest IH]; intros k; cbn; [reflexivity|].
  rewrite (idByName_skeleton G G' _ H), IH. reflexivity.
Qed.

Lemma importCharacters_fold (data : list CharacterData) st :
  (forall c, In c data -> cd_name c <> EmptyString /\ cd_description c <> EmptyString) ->
  let st' := fold_left (importCharacter generateId) data st in
  is_characters st'
  = is_characters st ++ importedCharacters generateId (is_nextId st) (is_groupChats st) data /\
  map skeleton (is_groupChats st') = map skeleton (is_groupChats st) /\
  is_nextId st' = is_nextId st + length data.
Proof.
  revert st. induction data as [|c rest IH]; intros st H; cbn [fold_left].
  - cbn. rewrite app_nil_r, Nat.add_0_r. auto.
  - destruct (H c) as [Hn Hd]; [left; reflexivity|].
    destruct (importCharacter_spec st c Hn Hd) as (Hc & Hs & Hk).
    destruct (IH (importCharacter generateId st c)) as (Hc' & Hs' & Hk');
      [intros c' Hc''; apply H; right; exact Hc''|].
    cbn zeta in *. rewrite Hc', Hs', Hk', Hc, Hs, Hk.
    split; [|split; [reflexivity|cbn; lia]].
    rewrite <- app_assoc. cbn.
    rewrite (importedCharacters_skeleton _ _ (is_groupChats st) rest Hs). reflexivity.
Qed.

Lemma importedCharacters_fields k G (data : list CharacterData) :
  let C := importedCharacters generateId k G data in
  map c_name C = map cd_name data /\
  map c_id C = map generateId (seq k (length data)) /\
  map c_description C = map cd_description data /\
  map c_groupChatId C = map (fun c => idByName G (cd_location c)) data /\
  map c_quotes C = map (fun c => filterBoolean (cd_quotes c)) data /\
  map c_notes C = map (fun c => filterBoolean (cd_notes c)) data.
Proof.
  revert k. induction data as [|c rest IH]; intros k; cbn; [repeat split|].
  destruct (IH (S k)) as (-> & -> & -> & -> & -> & ->). repeat split.
Qed.

(** *** Third pass *)

Lemma findIndex_app_first {A} (p : A -> bool) (P : list A) d D :
  (forall x, In x P -> p x = false) -> p d = true ->
  JS.findIndex p (P ++ d :: D) = Some (length P).
Proof.
  intros HP Hd. induction P as [|x P IH]; cbn; [rewrite Hd; reflexivity|].
  rewrite (HP x) by (left; reflexivity).
  rewrite IH by (intros y Hy; apply HP; right; exact Hy). reflexivity.
Qed.

Lemma idOfName_ext (l l' : list Character) name :
  map c_name l = map c_name l' -> map c_id l = map c_id l' ->
  idOfName l name = idOfName l' name.
Proof.
  unfold idOfName, findCharacterByName.
  revert l'. induction l as [|c l IH]; intros [|c' l'] Hn Hi; cbn in *; try discriminate;
    [reflexivity|].
  injection Hn as Hn0 Hn. injection Hi as Hi0 Hi. rewrite Hn0.
  destruct (String.eqb (c_name c') name); cbn; [congruence|]. apply IH; assumption.
Qed.

Lemma linkedIds_ext (l l' : list Character) c :
  map c_name l = map c_name l' -> map c_id l = map c_id l' ->
  linkedIds l c = linkedIds l' c.
Proof.
  intros Hn Hi. unfold linkedIds. f_equal. apply map_ext. intros name.
  apply idOfName_ext; assumption.
Qed.

Lemma link_fold (all : list Character) (data : list CharacterData) :
  forall P D,
    length D = length data ->
    map c_name D = map cd_name data ->
    List.NoDup (map c_name (P ++ D)) ->
    map c_name (P ++ D) = map c_name all -> map c_id (P ++ D) = map c_id all ->
    fold_left linkKnownCharacters data (P ++ D) = P ++ linked all D data.
Proof.
  induction data as [|c rest IH]; intros P D Hlen Hnames Hnd Hn Hi.
  - destruct D; [reflexivity|discriminate].
  - destruct D as [|d D]; [discriminate|].
    cbn in Hlen, Hnames. injection Hlen as Hlen. injection Hnames as Hd Hnames.
    cbn [fold_left linked].
    assert (Hidx : JS.findIndex (fun x => String.eqb (c_name x) (cd_name c)) (P ++ d :: D)
                   = Some (length P)).
    { apply findIndex_app_first.
      - intros x Hx. apply String.eqb_neq. intros E.
        rewrite map_app in Hnd. cbn in Hnd.
        apply List.NoDup_remove_2 in Hnd. apply Hnd.
        apply List.in_app_iff. left. rewrite Hd, <- E. apply List.in_map. exact Hx.
      - apply String.eqb_eq. exact Hd. }
    unfold linkKnownCharacters at 2. rewrite Hidx.
    fold (idOfName (P ++ d :: D)). fold (linkedIds (P ++ d :: D) c).
    rewrite (linkedIds_ext _ all c Hn Hi).
    replace (length P) with (length P + 0) by lia.
    rewrite alter_app_r. cbn [alter list_alter].
    change (P ++ setKnownCharacterIds (linkedIds all c) d :: D)
      with (P ++ [setKnownCharacterIds (linkedIds all c) d] ++ D).
    rewrite app_assoc. rewrite IH; [rewrite <- app_assoc; reflexivity|exact Hlen|exact Hnames| | |].
    + rewrite <- app_assoc. rewrite !map_app in *. exact Hnd.
    + rewrite <- app_assoc. rewrite !map_app in *. exact Hn.
    + rewrite <- app_assoc. rewrite !map_app in *. exact Hi.
Qed.

Lemma linked_fields (all D : list Character) (data : list CharacterData) :
  length D = length data ->
  map c_name (linked all D data) = map c_name D /\
  map c_id (linked all D data) = map c_id D /\
  map c_description (linked all D data) = map c_description D /\
  map c_groupChatId (linked all D data) = map c_groupChatId D /\
  map c_quotes (linked all D data) = map c_quotes D /\
  map c_notes (linked all D data) = map c_notes D /\
  map c_knownCharacterIds (linked all D data) = map (linkedIds all) data.
Proof.
  revert D. induction data as [|c rest IH]; intros [|d D] Hlen; try discriminate;
    [cbn; repeat split|].
  injection Hlen as Hlen. cbn.
  destruct (IH D Hlen) as (-> & -> & -> & -> & -> & -> & ->). repeat split.
Qed.

End ImportProperties.

Section RoundTripProperties.

Variable generateId : nat -> string.

Lemma exportCharacter_names characters groupChats :
  map cd_name (map (exportCharacter characters groupChats) characters) = map c_name characters /\
  map cd_description (map (exportCharacter characters groupChats) characters)
  = map c_description characters.
Proof. rewrite !map_map. split; apply map_ext; reflexivity. Qed.

(** The shape of the import of an export. *)
Lemma importWorldData_export characters groupChats n :
  exportable characters groupChats ->
  let data := map (exportCharacter characters groupChats) characters in
  let G1 := importedLocations generateId n groupChats in
  let C2 := importedCharacters generateId (n + length groupChats) G1 data in
  exists G2,
    importWorldData generateId (exportWorldData characters groupChats) n
    = (linked C2 C2 data, G2, n + length groupChats + length characters) /\
    map skeleton G2 = map skeleton G1.
Proof.
  intros (HndL & HL & HndC & HC). cbv zeta.
  unfold importWorldData, exportWorldData. cbn [wd_locations wd_characters].
  rewrite importLocations_fold by exact HL. cbn [is_groupChats is_characters is_nextId app].
  set (data := map (exportCharacter characters groupChats) characters).
  set (G1 := importedLocations generateId n groupChats).
  set (C2 := importedCharacters generateId (n + length groupChats) G1 data).
  assert (Hdefault : importDefaultLocation generateId
                       (mkWorldData (map exportLocation groupChats) data)
                       (mkImportState G1 [] (n + length groupChats))
                     = mkImportState G1 [] (n + length groupChats)).
  { unfold importDefaultLocation. cbn [is_groupChats wd_characters].
    subst G1 data. destruct groupChats as [|L rest]; [|reflexivity].
    destruct characters as [|c cs]; [reflexivity|].
    destruct (HC c) as (_ & _ & (L & [] & _) & _). left. reflexivity. }
  rewrite Hdefault.
  assert (Hdata : forall c, In c data -> cd_name c <> EmptyString /\ cd_description c <> EmptyString).
  { intros cd Hcd. subst data. apply List.in_map_iff in Hcd as (c & <- & Hc).
    destruct (HC c Hc) as (Hn & Hd & _). cbn. auto. }
  destruct (importCharacters_fold generateId data
              (mkImportState G1 [] (n + length groupChats)) Hdata) as (Hc & Hs & Hk).
  cbn [is_groupChats is_characters is_nextId app] in Hc, Hs, Hk. fold C2 in Hc.
  exists (is_groupChats (fold_left (importCharacter generateId) data
                           (mkImportState G1 [] (n + length groupChats)))).
  split; [|exact Hs].
  rewrite Hc, Hk.
  replace (length data) with (length characters) by (subst data; rewrite length_map; reflexivity).
  f_equal. f_equal.
  destruct (importedCharacters_fields generateId (n + length groupChats) G1 data)
    as (Hnames & Hids & _).
  fold C2 in Hnames, Hids.
  apply (link_fold C2 data [] C2); cbn [app].
  - rewrite <- (length_map c_id C2), Hids, length_map, length_seq. reflexivity.
  - exact Hnames.
  - rewrite Hnames. subst data.
    rewrite (proj1 (exportCharacter_names characters groupChats)). exact HndC.
  - reflexivity.
  - reflexivity.
Qed.

Lemma paired_fields {A} (f g : A -> string) (l l' : list A) :
  map f l = map f l' -> map g l = map g l' ->
  forall x, In x l' -> exists y, In y l /\ f y = f x /\ g y = g x.
Proof.
  revert l'. induction l as [|a l IH]; intros [|b l'] Hf Hg x Hx; cbn in *;
    try discriminate; [destruct Hx|].
  injection Hf as Hf0 Hf. injection Hg as Hg0 Hg.
  destruct Hx as [<-|Hx]; [exists a; auto|].
  destruct (IH l' Hf Hg x Hx) as (y & Hy & H). exists y. auto.
Qed.

Lemma find_present {A} (p : A -> bool) (l : list A) x :
  In x l -> p x = true -> exists y, List.find p l = Some y /\ In y l /\ p y = true.
Proof.
  intros Hx Hp. destruct (List.find p l) as [y|] eqn:E.
  - exists y. split; [reflexivity|]. apply List.find_some in E. exact E.
  - rewrite (List.find_none _ _ E x Hx) in Hp. discriminate.
Qed.

(** A known id survives export and import as the same name. *)
Lemma known_roundtrip (cs C2 C3 : list Character) (ks : list string) :
  List.NoDup (map c_name cs) ->
  (forall c, In c cs -> c_name c <> EmptyString) ->
  map c_name C2 = map c_name cs ->
  map c_name C3 = map c_name C2 -> map c_id C3 = map c_id C2 ->
  List.NoDup (map c_id C3) ->
  (forall d, In d C2 -> c_id d <> EmptyString) ->
  (forall k, In k ks -> exists c', In c' cs /\ c_id c' = k) ->
  map (fun id => option_map c_name (findCharacterById C3 id))
    (filterBooleanOpt
       (map (idOfName C2)
          (filterBooleanOpt
             (map (fun id => option_map c_name (findCharacterById cs id)) ks))))
  = map (fun id => option_map c_name (findCharacterById cs id)) ks.
Proof.
  intros HndN Hnames H2 H3n H3i HndI Hids Hks.
  induction ks as [|k ks IH]; [reflexivity|].
  destruct (Hks k) as (c0 & Hc0 & Hk0); [left; reflexivity|].
  destruct (find_present (fun c => String.eqb (c_id c) k) cs c0 Hc0)
    as (ck & Hfind & Hck & _); [apply String.eqb_eq; exact Hk0|].
  change (findCharacterById cs k = Some ck) in Hfind.
  cbn [map filterBooleanOpt]. rewrite !Hfind. cbn [option_map filterBooleanOpt].
  assert (Ht : JS.truthy (c_name ck) = true) by (apply truthy_true_iff; auto).
  rewrite Ht. cbn [map filterBooleanOpt].
  (* the imported character of that name *)
  assert (Hd : exists d, In d C2 /\ c_name d = c_name ck).
  { assert (Hin : In (c_name ck) (map c_name C2))
      by (rewrite H2; apply List.in_map; exact Hck).
    apply List.in_map_iff in Hin as (d & Hd & Hin). eauto. }
  destruct Hd as (d & Hd & Hdn).
  assert (Hfd : idOfName C2 (c_name ck) = Some (c_id d)).
  { unfold idOfName, findCharacterByName. rewrite <- Hdn.
    rewrite (find_by_key c_name C2 d); [reflexivity| |exact Hd].
    rewrite H2. exact HndN. }
  rewrite Hfd. assert (Hti : JS.truthy (c_id d) = true) by (apply truthy_true_iff; auto).
  rewrite Hti. cbn [map].
  destruct (paired_fields c_name c_id C3 C2 H3n H3i d Hd) as (d3 & Hd3 & Hn3 & Hi3).
  unfold findCharacterById at 1. rewrite <- Hi3.
  rewrite (find_by_key c_id C3 d3 HndI Hd3). cbn [option_map].
  rewrite Hn3, Hdn. f_equal.
  apply IH. intros k' Hk'. apply Hks. right. exact Hk'.
Qed.

(** C7, as amended. For a world with unique non-empty names, non-empty
    descriptions, every character assigned to a location of the world,
    every known id the id of a character of the world, and no empty
    exposition line, quote or note, and fresh ids for the import: the
    import of the export has the locations and the characters of the
    world in their order, with the same names, descriptions, exposition
    lines, quotes and notes, the same location name for every character
    and the same known names. *)
Theorem export_import_roundtrip characters groupChats n :
  exportable characters groupChats ->
  noEmptyLines characters groupChats ->
  freshIds generateId n (length groupChats + length characters) ->
  RoundTrip generateId characters groupChats n.
Proof.
  intros Hexp (HlinesL & HlinesC) (HndIds & HneIds).
  destruct (importWorldData_export characters groupChats n Hexp) as (G2 & Heq & Hskel).
  destruct Hexp as (HndL & HL & HndC & HC).
  unfold RoundTrip. rewrite Heq. clear Heq.
  set (data := map (exportCharacter characters groupChats) characters) in *.
  set (G1 := importedLocations generateId n groupChats) in *.
  set (C2 := importedCharacters generateId (n + length groupChats) G1 data) in *.
  set (C3 := linked C2 C2 data).
  destruct (importedLocations_names generateId n groupChats) as (HG1n & HG1d & HG1i).
  fold G1 in HG1n, HG1d, HG1i.
  destruct (skeleton_maps G2 G1 Hskel) as (HG2i & HG2n & HG2d & HG2e).
  destruct (importedCharacters_fields generateId (n + length groupChats) G1 data)
    as (HC2n & HC2i & HC2d & HC2g & HC2q & HC2t).
  fold C2 in HC2n, HC2i, HC2d, HC2g, HC2q, HC2t.
  assert (Hlen : length C2 = length data).
  { rewrite <- (length_map c_id C2), HC2i, length_map, length_seq. reflexivity. }
  destruct (linked_fields C2 C2 data Hlen) as (HC3n & HC3i & HC3d & HC3g & HC3q & HC3t & HC3k).
  fold C3 in HC3n, HC3i, HC3d, HC3g, HC3q, HC3t, HC3k.
  assert (Hdlen : length data = length characters) by (subst data; apply length_map).
  rewrite seq_app, map_app in HndIds.
  assert (HndG : List.NoDup (map gc_id G2)).
  { rewrite HG2i, HG1i. apply List.NoDup_app_remove_r in HndIds. exact HndIds. }
  assert (HndC3 : List.NoDup (map c_id C3)).
  { rewrite HC3i, HC2i, Hdlen. apply List.NoDup_app_remove_l in HndIds. exact HndIds. }
  assert (HneC2 : forall d, In d C2 -> c_id d <> EmptyString).
  { intros d Hd. assert (Hin : In (c_id d) (map c_id C2)) by (apply List.in_map; exact Hd).
    rewrite HC2i in Hin. apply List.in_map_iff in Hin as (i & <- & Hi).
    apply HneIds. rewrite Hdlen in Hi. apply List.in_seq in Hi. apply List.in_seq. lia. }
  repeat split.
  - rewrite <- (length_map gc_name G2), HG2n, HG1n. apply length_map.
  - rewrite <- (length_map c_name C3), HC3n, HC2n, length_map. exact Hdlen.
  - rewrite HG2n. exact HG1n.
  - rewrite HG2d. exact HG1d.
  - transitivity (map expositionLines G1).
    + unfold expositionLines.
      rewrite <- (map_map gc_exposition (fun e => default [] e) G2).
      rewrite <- (map_map gc_exposition (fun e => default [] e) G1).
      rewrite HG2e. reflexivity.
    + apply importedLocations_lines. exact HlinesL.
  - rewrite HC3n, HC2n. subst data. rewrite map_map. reflexivity.
  - rewrite HC3d, HC2d. subst data. rewrite map_map. reflexivity.
  - rewrite HC3q, HC2q. subst data. rewrite map_map. apply List.map_ext_in.
    intros c Hc. cbn. apply filterBoolean_all. intros x Hx. apply (HlinesC c x Hc). auto.
  - rewrite HC3t, HC2t. subst data. rewrite map_map. apply List.map_ext_in.
    intros c Hc. cbn. apply filterBoolean_all. intros x Hx. apply (HlinesC c x Hc). auto.
  - unfold locationNameOf.
    rewrite <- (map_map c_groupChatId
                  (fun g => option_map gc_name (findGroupChatById G2 g)) C3).
    rewrite HC3g, HC2g. subst data. rewrite !map_map. apply List.map_ext_in.
    intros c Hc. destruct (HC c Hc) as (_ & _ & (L & HLin & HLid) & _).
    destruct (find_present (fun gc => String.eqb (gc_id gc) (c_groupChatId c)) groupChats L HLin)
      as (L0 & Hfind & HL0 & _); [apply String.eqb_eq; exact HLid|].
    unfold exportCharacter, findGroupChatById at 2 3. cbn [cd_location].
    rewrite Hfind. cbn [option_map].
    assert (Hg1 : exists g1, In g1 G1 /\ gc_name g1 = gc_name L0).
    { assert (Hin : In (gc_name L0) (map gc_name G1))
        by (rewrite HG1n; apply List.in_map; exact HL0).
      apply List.in_map_iff in Hin as (g1 & Hg1 & Hin). eauto. }
    destruct Hg1 as (g1 & Hg1 & Hg1n).
    assert (Hid : idByName G1 (gc_name L0) = gc_id g1).
    { unfold idByName. rewrite <- Hg1n.
      rewrite (find_by_key gc_name G1 g1); [reflexivity| |exact Hg1].
      rewrite HG1n. exact HndL. }
    rewrite Hid.
    destruct (paired_fields gc_name gc_id G2 G1 HG2n HG2i g1 Hg1) as (g2 & Hg2 & Hn2 & Hi2).
    unfold findGroupChatById. rewrite <- Hi2.
    rewrite (find_by_key gc_id G2 g2 HndG Hg2). cbn. congruence.
  - unfold knownNamesOf at 1.
    rewrite <- (map_map c_knownCharacterIds
                  (fun ks => map (fun id => option_map c_name (findCharacterById C3 id)) ks) C3).
    rewrite HC3k. subst data. rewrite !map_map. apply List.map_ext_in.
    intros c Hc. destruct (HC c Hc) as (_ & _ & _ & Hks).
    unfold linkedIds, exportCharacter. cbn [cd_knownCharacters].
    apply (known_roundtrip characters C2 C3); auto.
    + intros c' Hc'. apply (HC c' Hc').
    + rewrite HC2n. rewrite map_map. reflexivity.
Qed.

End RoundTripProperties.

(** ** The executable checks are sound *)

Lemma nodupb_sound l : nodupb l = true -> List.NoDup l.
Proof.
  induction l as [|x l IH]; cbn; [constructor|].
  intros H. apply andb_true_iff in H as [Hx Hl]. constructor; [|auto].
  apply negb_true_iff in Hx. intros Hin. apply includes_In in Hin. congruence.
Qed.

Lemma assignedb_sound cs g cid : assignedb cs g cid = true <-> assigned cs g cid.
Proof.
  unfold assignedb, assigned. rewrite List.existsb_exists. split.
  - intros (c & Hc & H). apply andb_true_iff in H as [H1 H2].
    apply String.eqb_eq in H1, H2. eauto.
  - intros (c & Hc & H1 & H2). exists c. split; [exact Hc|].
    apply andb_true_iff. split; apply String.eqb_eq; assumption.
Qed.

Lemma indexedb_sound cs gcs : indexedb cs gcs = true -> indexed cs gcs.
Proof.
  unfold indexedb. intros H L HL cid.
  rewrite List.forallb_forall in H. specialize (H L HL).
  apply andb_true_iff in H as [H1 H2].
  rewrite List.forallb_forall in H1, H2. split.
  - intros Hin. apply assignedb_sound. auto.
  - intros (c & Hc & Hid & Hg). specialize (H2 c Hc).
    rewrite Hg, String.eqb_refl in H2. cbn in H2. apply includes_In in H2. congruence.
Qed.

Lemma consistentb_sound s : consistentb s = true -> consistent s.
Proof.
  unfold consistentb, consistent. intros H.
  apply andb_true_iff in H as [H H3]. apply andb_true_iff in H as [H1 H2].
  split; [apply nodupb_sound; exact H1|]. split; [|apply indexedb_sound; exact H3].
  intros L HL. rewrite List.forallb_forall in H2. apply truthy_true_iff. auto.
Qed.

Lemma admissibleb_sound generateId s m :
  admissibleb generateId s m = true -> admissible generateId s m.
Proof.
  destruct m as [char|id updates|id|chat|id updates|id|chatId charId|chat ch result];
    cbn [admissibleb admissible]; intros H; [| | exact I | | | exact I | |].
  - apply negb_true_iff in H. intros Hin. apply includes_In in Hin. congruence.
  - destruct (cp_id updates); [discriminate|]. split; [reflexivity|].
    destruct (cp_groupChatId updates) as [g|]; [|discriminate].
    intros E. injection E as ->. discriminate.
  - destruct (gc_characterIds chat); [|discriminate]. split; [reflexivity|].
    apply andb_true_iff in H as [H1 H2]. split; [apply truthy_true_iff; exact H1|].
    rewrite List.forallb_forall in H2. intros c Hc.
    apply String.eqb_neq, negb_true_iff. auto.
  - destruct (gp_id updates); [discriminate|].
    destruct (gp_characterIds updates); [discriminate|]. auto.
  - rewrite List.forallb_forall in H. intros c Hc Hid. specialize (H c Hc).
    apply String.eqb_eq in Hid. rewrite Hid in H. apply String.eqb_eq. exact H.
  - apply andb_true_iff in H as [H H3]. apply andb_true_iff in H as [H1 H2].
    apply List.existsb_exists in H1 as (g & Hg & E1).
    apply List.existsb_exists in H2 as (c & Hc & E2).
    apply bool_decide_eq_true in E1, E2. subst.
    apply Nat.leb_le in H3. auto.
Qed.

Lemma allAdmissibleb_sound generateId ms s :
  allAdmissibleb generateId s ms = true -> allAdmissible generateId s ms.
Proof.
  revert s. induction ms as [|m ms IH]; intros s; cbn; [auto|].
  intros H. apply andb_true_iff in H as [H1 H2].
  split; [apply admissibleb_sound; exact H1|apply IH; exact H2].
Qed.

(** ** The properties on the sample data *)

Lemma sampleId_nonempty n : sampleId n <> EmptyString.
Proof. destruct n; discriminate. Qed.

Lemma sample_exportable : exportable [alice; bob] [tavern; market].
Proof.
  unfold exportable. split; [apply nodupb_sound; reflexivity|]. split.
  { intros L [<-|[<-|[]]]; split; discriminate. }
  split; [apply nodupb_sound; reflexivity|].
  intros c [<-|[<-|[]]]; (split; [discriminate|]); (split; [discriminate|]); split.
  - exists tavern. split; [left; reflexivity|reflexivity].
  - intros k [<-|[]]. exists bob. split; [right; left; reflexivity|reflexivity].
  - exists market. split; [right; left; reflexivity|reflexivity].
  - intros k [<-|[]]. exists alice. split; [left; reflexivity|reflexivity].
Qed.

Lemma sample_noEmptyLines : noEmptyLines [alice; bob] [tavern; market].
Proof.
  split.
  - intros L e [<-|[<-|[]]]; cbn; intros H; [destruct H as [<-|[]]|destruct H]. discriminate.
  - intros c x [<-|[<-|[]]]; cbn; intros [H|H];
      repeat (destruct H as [<-|H]; [discriminate|]); destruct H.
Qed.

Lemma sample_freshIds k : nodupb (map sampleId (seq 0 k)) = true -> freshIds sampleId 0 k.
Proof.
  intros H. split; [apply nodupb_sound; exact H|].
  intros i _. apply sampleId_nonempty.
Qed.

(** C1: the sample mutations keep the index. *)
Lemma index_preserved_witness :
  consistent (applyMutations sampleId sampleMutations (sampleState 0 [])).
Proof.
  apply (index_preserved sampleId sampleMutations (sampleState 0 [])).
  - apply consistentb_sound. vm_compute. reflexivity.
  - apply allAdmissibleb_sound. vm_compute. reflexivity.
Defined.

(** C1, as stated: a patch of the member list of a location breaks the
    index of a consistent world. *)
Lemma index_broken_by_member_patch :
  consistent (sampleState 0 []) /\
  let s' := applyMutations sampleId [UpdateGroupChat "loc1" memberPatch] (sampleState 0 []) in
  ~ indexed (app_characters s') (app_groupChats s').
Proof.
  split; [apply consistentb_sound; vm_compute; reflexivity|].
  cbv zeta. intros H.
  specialize (H (mkGroupChat "loc1" "Tavern" "A noisy tavern" ["c1"; "ghost"]
                   (Some ["Smoke hangs in the air."]))).
  assert (Hin : assigned [alice; bob] "loc1" "ghost").
  { apply H; [left; reflexivity|right; left; reflexivity]. }
  destruct Hin as (c & [<-|[<-|[]]] & Hid & _); discriminate.
Qed.

(** Two relocations in one turn leave the character listed in the first
    destination while assigned to the second. *)
Example index_broken_by_two_relocations :
  let s0 := applyMutations sampleId
              [CreateGroupChat (mkGroupChat EmptyString "Harbor" "A windy harbor" [] None)]
              (sampleState 0 []) in
  let s' := applyMutations sampleId [ApplyTurn tavern alice moveTwice] s0 in
  consistentb s0 = true /\
  map c_groupChatId (app_characters s') = ["g"; "loc2"] /\
  map gc_characterIds (app_groupChats s') = [[]; ["c2"; "c1"]; ["c1"]] /\
  consistentb s' = false.
Proof. vm_compute. repeat split. Qed.


Example counter_reset_before_turn :
  let s := sampleState 3000 longHistory in
  needsSummarization (counterOf s "loc1") = true /\
  counterOf (fst (prepareCharacterTurn sampleId summaryGenerateText tavern alice s)) "loc1"
  = 0%Z /\
  counterOf (handleSendMessage sampleId sampleGenerateText s) "loc1" = 50%Z.
Proof. vm_compute. repeat split. Qed.

(** C3: a history with ten substantive messages is compressed, and the
    prompt holds the text of its summary. *)
Lemma summarizeOldMessages_shape_witness :
  occursIn "Earlier, they arrived."
    (summaryPrompt (existingSummaries longHistory) (messagesToSummarize longHistory)) /\
  fst (summarizeOldMessages sampleId summaryGenerateText longHistory sampleSettings 0)
  = mkMessage "g" TSummary "They met." "Summary" None
      :: [ said "m6" TNarration "Narrator" "*Bob moved to Tavern.*";
           mkMessage "m7" TCharacter "Evening" "Bob" (Some "c2");
           said "m8" TUser "Stranger" "A song?";
           mkMessage "m9" TCharacter "Gladly" "Alice" (Some "c1");
           said "m10" TUser "Stranger" "Louder" ]
      ++ [ mkMessage "l11" TLoading EmptyString "Alice" (Some "c1") ].
Proof.
  destruct (summarizeOldMessages_shape sampleId summaryGenerateText longHistory
              sampleSettings 0) as (_ & _ & H & _).
  destruct (H ltac:(vm_compute; lia)) as (Hs & _ & Hout).
  split.
  - exact (Forall_inv Hs).
  - exact (proj1 Hout).
Defined.

(** C3: a failing generation, and a history with fewer than five
    candidates. *)
Example summarize_long_history :
  length (messagesToSummarize longHistory) = 5 /\
  fst (summarizeOldMessages sampleId failingGenerateText longHistory sampleSettings 0)
  = longHistory /\
  fst (summarizeOldMessages sampleId summaryGenerateText cleanHistory sampleSettings 0)
  = cleanHistory.
Proof. vm_compute. repeat split. Qed.

(** C4: Alice moves from the tavern to the market. *)
Lemma relocation_outcomes_witness :
  RelocationOutcome alice tavern [tavern; market] "Market"
    (fst (processCharacterTurnResult sampleId (moveTo "Market") alice tavern
            [tavern; market] 0)).
Proof.
  apply (relocation_outcomes sampleId (moveTo "Market") alice tavern [tavern; market] 0
           (mkToolInput None (Some "Market") None) "Market");
    [reflexivity|reflexivity|discriminate|reflexivity].
Defined.

(** C4, as stated: an empty destination name resolves to no location and
    yet no narrator message is synthesized. *)
Lemma relocation_empty_name :
  r_toolCalls (moveTo EmptyString)
  = Some [mkToolCall "moveToLocation" (Some (mkToolInput None (Some EmptyString) None))] /\
  c_groupChatId alice = gc_id tavern /\
  List.find (fun gc => String.eqb (gc_name gc) EmptyString) [tavern; market] = None /\
  ~ RelocationOutcome alice tavern [tavern; market] EmptyString
      (fst (processCharacterTurnResult sampleId (moveTo EmptyString) alice tavern
              [tavern; market] 0)).
Proof.
  repeat split. intros [H _]. vm_compute in H. discriminate.
Qed.

(** C5: the generation call throws. *)
Lemma executeCharacterTurn_failure_witness :
  tr_messages (fst (executeCharacterTurn sampleId failingGenerateText alice tavern
                      [alice; bob] [tavern; market] cleanHistory sampleSettings None 0))
  = [mkMessage "g" TCharacter "(An error occurred: network down)" "Alice" (Some "c1")].
Proof.
  refine (proj1 (executeCharacterTurn_failure sampleId failingGenerateText alice tavern
                   [alice; bob] [tavern; market] cleanHistory sampleSettings None 0
                   (ThrownError "network down") _)).
  right. eexists. split; reflexivity.
Defined.

(** C5: no model instance without an API key. *)
Example executeCharacterTurn_key_failure :
  tr_messages (fst (executeCharacterTurn sampleId sampleGenerateText alice tavern
                      [alice; bob] [tavern; market] [] noKeySettings None 0))
  = [mkMessage "g" TCharacter
       "(An error occurred: API key required for provider: openai)" "Alice" (Some "c1")].
Proof. vm_compute. reflexivity. Qed.

(** C6: a retry on a history without placeholder. *)
Lemma retry_truncates_witness :
  RetryTruncates sampleId sampleGenerateText (sampleState 0 cleanHistory) tavern "m1" alice 1.
Proof.
  refine (proj1 (retry_truncates sampleId sampleGenerateText (sampleState 0 cleanHistory)
                   tavern "m1" 1 (mkMessage "m1" TCharacter "Hi" "Alice" (Some "c1"))
                   "c1" alice _ _ _ _ _ _ _ _));
    try reflexivity; [discriminate|].
  vm_compute. repeat constructor.
Defined.

(** C6, as stated: a stale placeholder of the character before the
    target does not survive the retry. *)
Lemma retry_drops_stale_placeholder :
  let s := sampleState 0 staleHistory in
  activeChat s = Some tavern /\
  JS.findIndex (fun m => String.eqb (m_id m) "m1") (historyOf s "loc1") = Some 1 /\
  historyOf s "loc1" !! 1 = Some (mkMessage "m1" TCharacter "Hi" "Alice" (Some "c1")) /\
  findCharacterById (app_characters s) "c1" = Some alice /\
  ~ RetryTruncates sampleId sampleGenerateText s tavern "m1" alice 1.
Proof.
  repeat split. unfold RetryTruncates. vm_compute. discriminate.
Qed.

(** C7: the sample world survives export and import. *)
Lemma export_import_roundtrip_witness :
  RoundTrip sampleId [alice; bob] [tavern; market] 0.
Proof.
  apply (export_import_roundtrip sampleId [alice; bob] [tavern; market] 0).
  - exact sample_exportable.
  - exact sample_noEmptyLines.
  - apply sample_freshIds. reflexivity.
Defined.

(** C7, as stated: an empty quote is lost by the import. *)
Lemma roundtrip_drops_empty_quote :
  exportable [aliceWithEmptyQuote; bob] [tavern; market] /\
  freshIds sampleId 0 4 /\
  ~ RoundTrip sampleId [aliceWithEmptyQuote; bob] [tavern; market] 0.
Proof.
  split; [|split; [apply sample_freshIds; reflexivity|]].
  - unfold exportable. split; [apply nodupb_sound; reflexivity|]. split.
    { intros L [<-|[<-|[]]]; split; discriminate. }
    split; [apply nodupb_sound; reflexivity|].
    intros c [<-|[<-|[]]]; (split; [discriminate|]); (split; [discriminate|]); split.
    + exists tavern. split; [left; reflexivity|reflexivity].
    + intros k [<-|[]]. exists bob. split; [right; left; reflexivity|reflexivity].
    + exists market. split; [right; left; reflexivity|reflexivity].
    + intros k [<-|[]]. exists aliceWithEmptyQuote. split; [left; reflexivity|reflexivity].
  - intros H. vm_compute in H.
    destruct H as (_ & _ & _ & _ & _ & _ & _ & Hq & _). discriminate Hq.
Qed.

(** C8: a turn that only reasons synthesizes nothing; its text is white
    space beyond ASCII. *)
Lemma reasoning_only_turn_witness :
  tr_messages (fst (processCharacterTurnResult sampleId blankReasoning alice tavern
                      [tavern; market] 0)) = [] /\
  tr_messages (fst (processCharacterTurnResult sampleId blankReply alice tavern
                      [tavern; market] 0))
  = [mkMessage "g" TCharacter "*Alice is thinking...*" "Alice" (Some "c1")].
Proof.
  split.
  - refine (proj1 (reasoning_only_turn sampleId blankReasoning alice tavern [tavern; market] 0
                     _ _) _); [left; reflexivity|reflexivity|reflexivity].
  - refine (proj2 (reasoning_only_turn sampleId blankReply alice tavern [tavern; market] 0
                     _ _) _); [left; reflexivity|reflexivity|reflexivity].
Defined.

(** C9: with nothing to catch up on, the directive is the prompt. *)
Example buildCatchupBlock_empty_history :
  buildCatchupBlock [] "Alice" sampleSettings None = takeInitiative /\
  buildCatchupBlock [] "Alice" sampleSettings (Some EmptyString) = takeInitiative.
Proof. vm_compute. split; reflexivity. Qed.

(** C10: deleting the tavern deletes Alice, and Bob forgets her. *)
Lemma deleteGroupChat_cascade_witness :
  app_characters (deleteGroupChat "loc1" (sampleState 0 []))
  = [mkCharacter "c2" "Bob" "A smith" None "loc2" ["Alice sings"] [] []].
Proof.
  refine (proj2 (proj2 (deleteGroupChat_cascade "loc1" (sampleState 0 []))) _).
  apply nodupb_sound. reflexivity.
Defined.

(** * Further properties *)

(** ** The context window *)

Lemma context_summaries messages :
  List.filter (isType TSummary) (List.filter (fun m => negb (isType TLoading m)) messages)
  = List.filter (isType TSummary) messages.
Proof.
  rewrite filter_twice. apply List.filter_ext. intros m.
  unfold isType. destruct (m_type m); reflexivity.
Qed.

Lemma context_actual messages :
  List.filter (fun m => negb (isType TSummary m))
    (List.filter (fun m => negb (isType TLoading m)) messages)
  = List.filter isActual messages.
Proof. rewrite filter_twice. reflexivity. Qed.

Lemma slice_last {A} (l : list A) (k : nat) :
  JS.slice l (- Z.of_nat k)%Z None = if k =? 0 then l else skipn (length l - k) l.
Proof.
  destruct k as [|k]; [|apply (slice_take_last l (S k)); lia].
  cbn [Nat.eqb]. unfold JS.slice, JS.relIndex.
  change (- Z.of_nat 0 <? 0)%Z with false. cbv iota.
  rewrite Z.min_l by lia. change (Z.to_nat (- Z.of_nat 0)) with 0. cbn [skipn].
  replace (Z.to_nat (Z.of_nat (length l) - - Z.of_nat 0)) with (length l) by lia.
  apply firstn_all.
Qed.

Lemma getMessagesForContext_eq messages k :
  getMessagesForContext messages k
  = List.filter (isType TSummary) messages
    ++ (if k =? 0 then List.filter isActual messages
        else skipn (length (List.filter isActual messages) - k)
               (List.filter isActual messages)).
Proof.
  unfold getMessagesForContext. rewrite context_summaries, context_actual, slice_last.
  reflexivity.
Qed.

Lemma summaries_not t l :
  t <> TSummary -> Forall (fun m => isType t m = false) (List.filter (isType TSummary) l).
Proof.
  intros Ht. eapply List.Forall_impl; [|apply Forall_filter_holds].
  intros m Hm. apply isType_true in Hm. apply isType_false. congruence.
Qed.

Lemma recent_actual k l :
  Forall (fun m => isActual m = true)
    (if k =? 0 then List.filter isActual l
     else skipn (length (List.filter isActual l) - k) (List.filter isActual l)).
Proof.
  destruct (k =? 0); [|apply Forall_skipn]; apply Forall_filter_holds.
Qed.

Lemma actual_is_not t m : t = TLoading \/ t = TSummary -> isActual m = true -> isType t m = false.
Proof.
  intros Ht Hm. unfold isActual in Hm. apply andb_true_iff in Hm as [H1 H2].
  apply negb_true_iff in H1, H2. destruct Ht; subst; assumption.
Qed.

Lemma summary_not_actual m : isType TSummary m = true -> isActual m = false.
Proof. intros H. unfold isActual. rewrite H. apply andb_false_r. Qed.

(** X1. The context handed to the model holds every summary of the history,
    first, then the most recent [maxRecentMessages] messages that are
    neither summaries nor loading placeholders; no placeholder is ever part
    of it. With [maxRecentMessages = 0] the window is not empty: [slice(-0)]
    keeps every such message. *)
Theorem getMessagesForContext_window messages maxRecentMessages :
  let actual := List.filter isActual messages in
  let out := getMessagesForContext messages maxRecentMessages in
  out = List.filter (isType TSummary) messages
        ++ (if maxRecentMessages =? 0 then actual
            else skipn (length actual - maxRecentMessages) actual) /\
  Forall (fun m => isType TLoading m = false) out /\
  (maxRecentMessages <> 0 ->
   length (List.filter (fun m => negb (isType TSummary m)) out) <= maxRecentMessages).
Proof.
  intros actual out. subst out. rewrite getMessagesForContext_eq. fold actual.
  split; [reflexivity|]. split.
  - apply Forall_app. split; [apply summaries_not; discriminate|].
    eapply List.Forall_impl; [|apply recent_actual].
    intros m. apply actual_is_not. auto.
  - intros Hk. apply Nat.eqb_neq in Hk. rewrite Hk.
    rewrite List.filter_app, length_app.
    rewrite (filter_none _ (List.filter (isType TSummary) messages)).
    2:{ eapply List.Forall_impl; [|apply Forall_filter_holds].
        intros m Hm. cbv beta in Hm. rewrite Hm. reflexivity. }
    etransitivity; [apply Nat.add_le_mono_l, List.filter_length_le|].
    rewrite length_skipn. simpl. lia.
Qed.

(** X2. Taking the context of a context changes nothing: the window is
    idempotent. *)
Theorem getMessagesForContext_idempotent messages maxRecentMessages :
  getMessagesForContext (getMessagesForContext messages maxRecentMessages) maxRecentMessages
  = getMessagesForContext messages maxRecentMessages.
Proof.
  rewrite (getMessagesForContext_eq messages).
  set (S := List.filter (isType TSummary) messages).
  set (R := if maxRecentMessages =? 0 then _ else _).
  assert (HS : Forall (fun m => isType TSummary m = true) S) by apply Forall_filter_holds.
  assert (HR : Forall (fun m => isActual m = true) R) by apply recent_actual.
  rewrite getMessagesForContext_eq, !List.filter_app.
  rewrite (filter_all _ S HS), (filter_all _ R HR).
  rewrite (filter_none (isType TSummary) R).
  2:{ eapply List.Forall_impl; [|exact HR]. intros m. apply actual_is_not. auto. }
  rewrite (filter_none isActual S).
  2:{ eapply List.Forall_impl; [|exact HS]. intros m. apply summary_not_actual. }
  rewrite app_nil_r. cbn [app]. f_equal.
  destruct (maxRecentMessages =? 0) eqn:Ek; [reflexivity|].
  replace (length R - maxRecentMessages) with 0; [reflexivity|].
  subst R. rewrite length_skipn. lia.
Qed.

(** ** Summarization settles *)

Lemma partition_lengths l :
  length (List.filter isActual l) + length (List.filter (isType TLoading) l) <= length l.
Proof.
  induction l as [|m l IH]; simpl; [lia|].
  unfold isActual at 1. destruct (isType TLoading m); simpl;
    [|destruct (negb (isType TSummary m))]; simpl; lia.
Qed.

Lemma loading_not_actual m : isType TLoading m = true -> isActual m = false.
Proof. intros H. unfold isActual. rewrite H. reflexivity. Qed.

Section SummarizationSettles.

Variable generateId : nat -> string.
Variable generateText : GenRequest -> exc GenResult.

(** X3. [summarizeOldMessages] either hands back its input and draws no id,
    or hands back a history that is at least four messages shorter and
    draws one id. A history it has summarized is settled: summarizing it
    again, with any model and any settings, changes nothing and draws no
    id. *)
Theorem summarizeOldMessages_settles messages settings n :
  let out := summarizeOldMessages generateId generateText messages settings n in
  out = (messages, n) \/
  (length (fst out) + 4 <= length messages /\
   snd out = S n /\
   forall generateText' settings' k,
     summarizeOldMessages generateId generateText' (fst out) settings' k = (fst out, k)).
Proof.
  intros out.
  assert (Hout : out = summarizeOldMessages generateId generateText messages settings n)
    by reflexivity.
  clearbody out. unfold summarizeOldMessages in Hout.
  destruct (length (messagesToSummarize messages) <? 5) eqn:Elen; [left; exact Hout|].
  destruct (summaryGeneration generateText messages settings) as [e|summaryText];
    [left; exact Hout|].
  right. cbv zeta in Hout. subst out. cbn [fst snd].
  apply Nat.ltb_ge in Elen.
  rewrite messagesToSummarize_firstn, length_firstn in Elen.
  rewrite messagesToKeep_skipn.
  set (actual := actualMessages messages) in *.
  assert (Hkeep : length (skipn (length actual - 5) actual) = 5)
    by (rewrite length_skipn; lia).
  split; [|split; [reflexivity|]].
  - cbn [length]. rewrite length_app, Hkeep.
    assert (H := partition_lengths messages). fold (actualMessages messages) in H.
    fold actual in H. unfold loadingMessages. lia.
  - intros generateText' settings' k. unfold summarizeOldMessages.
    rewrite messagesToSummarize_firstn.
    set (summaryMessage := mkMessage _ _ _ _ _).
    assert (Hact : actualMessages (summaryMessage :: skipn (length actual - 5) actual
                                     ++ loadingMessages messages)
                   = skipn (length actual - 5) actual).
    { unfold actualMessages. cbn [List.filter]. change (isActual summaryMessage) with false.
      cbv iota. rewrite List.filter_app.
      rewrite (filter_all isActual (skipn _ _)).
      2:{ apply Forall_skipn. apply Forall_filter_holds. }
      rewrite (filter_none isActual (loadingMessages messages)); [apply app_nil_r|].
      eapply List.Forall_impl; [|apply Forall_filter_holds].
      intros m. apply loading_not_actual. }
    rewrite Hact, Hkeep, Nat.sub_diag. reflexivity.
Qed.

End SummarizationSettles.

(** ** The messages and updates of a turn *)

Lemma Forall_mapSet {V} (P : string * V -> Prop) k v (m : list (string * V)) :
  P (k, v) -> Forall P m -> Forall P (mapSet k v m).
Proof.
  intros Hkv. induction 1 as [|[k' v'] m Hx Hm IH]; cbn; [auto|].
  destruct (String.eqb k' k); auto.
Qed.

Lemma seq_snoc n k : seq n (S k) = seq n k ++ [n + k].
Proof. rewrite <- Nat.add_1_r at 1. rewrite List.seq_app. reflexivity. Qed.

Ltac unchanged_acc := split; [split|]; assumption.

Section TurnProperties.

Variable generateId : nat -> string.

Lemma pushMessage_accounted n character a type sender text charId :
  accountedFrom generateId n character a ->
  (let m := mkMessage (generateId (acc_nextId a)) type text sender charId in
   spokenBy character m \/ narrated m) ->
  accountedFrom generateId n character (pushMessage generateId a type sender text charId).
Proof.
  intros (Hn & Hids & Hk) Hm. unfold accountedFrom, pushMessage. cbn.
  rewrite length_app, map_app. cbn [length map].
  rewrite Nat.add_1_r, seq_snoc, map_app, <- Hids, Hn. cbn.
  split; [lia|]. split; [reflexivity|].
  apply Forall_app. split; [exact Hk|]. constructor; [|constructor].
  rewrite <- Hn. exact Hm.
Qed.

Lemma processToolCall_accounted n character groupChat allGroupChats a call :
  accountedFrom generateId n character a ->
  accountedFrom generateId n character
    (processToolCall generateId character groupChat allGroupChats a call).
Proof.
  intros Ha. unfold processToolCall.
  destruct (input call) as [i|]; [|exact Ha].
  destruct (String.eqb (toolName call) "makeNote").
  { unfold makeNote. destruct (in_note i) as [note|]; [|exact Ha].
    destruct (JS.truthy note); [|exact Ha].
    apply (pushMessage_accounted n character
             (setCharacterUpdates a (withNotes (characterUpdates a) (c_notes character ++ [note])))
             TCharacter (c_name character) _ (Some (c_id character))); [exact Ha|].
    left. repeat split. }
  destruct (String.eqb (toolName call) "moveToLocation").
  { unfold moveToLocation.
    destruct (in_locationName i) as [destName|]; [|exact Ha].
    destruct (JS.truthy destName); cbn [negb]; [|exact Ha].
    destruct (List.find _ allGroupChats) as [destChat|];
      [destruct (String.eqb (gc_id destChat) (c_groupChatId character)); cbn [negb]|];
      (apply pushMessage_accounted; [exact Ha|right; repeat split]). }
  destruct (String.eqb (toolName call) "labelStranger"); [|exact Ha].
  unfold labelStranger. destruct (in_name i) as [name|]; [|exact Ha].
  destruct (JS.truthy name && JS.truthy (JS.trim name)); exact Ha.
Qed.

Lemma processToolCall_staged character groupChat allGroupChats a call :
  stagedWithin a /\ labelled (acc_strangerLabel a) ->
  stagedWithin (processToolCall generateId character groupChat allGroupChats a call) /\
  labelled (acc_strangerLabel
              (processToolCall generateId character groupChat allGroupChats a call)).
Proof.
  intros [[Hc Hg] Hl]. unfold processToolCall.
  destruct (input call) as [i|]; [|unchanged_acc].
  destruct (String.eqb (toolName call) "makeNote").
  { unfold makeNote. destruct (in_note i) as [note|]; [|unchanged_acc].
    destruct (JS.truthy note); [|unchanged_acc].
    unfold stagedWithin. cbn. split; [split; assumption|exact Hl]. }
  destruct (String.eqb (toolName call) "moveToLocation").
  { unfold moveToLocation.
    destruct (in_locationName i) as [destName|]; [|unchanged_acc].
    destruct (JS.truthy destName); cbn [negb]; [|unchanged_acc].
    destruct (List.find _ allGroupChats) as [destChat|]; [|unchanged_acc].
    destruct (String.eqb (gc_id destChat) (c_groupChatId character)); cbn [negb];
      [unchanged_acc|].
    unfold stagedWithin. cbn. split; [split; [exact Hc|]|exact Hl].
    apply (Forall_mapSet (fun e => onlyMembers (snd e)));
      [|apply (Forall_mapSet (fun e => onlyMembers (snd e))); [|exact Hg]];
      repeat split; discriminate. }
  destruct (String.eqb (toolName call) "labelStranger"); [|unchanged_acc].
  unfold labelStranger. destruct (in_name i) as [name|]; [|unchanged_acc].
  destruct (JS.truthy name && JS.truthy (JS.trim name)) eqn:E; [|unchanged_acc].
  apply andb_true_iff in E as [_ E]. cbn.
  split; [split; assumption|]. split; [exact E|apply trim_idempotent].
Qed.


Lemma stagedNotes_snoc character prior note :
  stagedNotes character (prior ++ [note]) = Some (c_notes character ++ [note]).
Proof. unfold stagedNotes. rewrite last_snoc. reflexivity. Qed.

Lemma processToolCall_notes character groupChat allGroupChats a call prior :
  cp_notes (characterUpdates a) = stagedNotes character prior ->
  (forall note, In note prior -> In (noteText character note) (map m_text (newMessages a))) ->
  let a' := processToolCall generateId character groupChat allGroupChats a call in
  cp_notes (characterUpdates a') = stagedNotes character (prior ++ option_list (notedBy call)) /\
  (forall note, In note (prior ++ option_list (notedBy call)) ->
     In (noteText character note) (map m_text (newMessages a'))).
Proof.
  intros Hn Hshown. unfold processToolCall, notedBy.
  destruct (input call) as [i|]; [|cbn; rewrite app_nil_r; auto].
  destruct (String.eqb (toolName call) "makeNote").
  { unfold makeNote. destruct (in_note i) as [note|]; [|cbn; rewrite app_nil_r; auto].
    destruct (JS.truthy note); [|cbn; rewrite app_nil_r; auto].
    cbn. rewrite stagedNotes_snoc. split; [reflexivity|].
    intros x Hx. rewrite map_app. apply in_app_iff. apply in_app_iff in Hx as [Hx|[<-|[]]].
    - left. exact (Hshown x Hx).
    - right. left. reflexivity. }
  cbn [option_list]. rewrite app_nil_r.
  destruct (String.eqb (toolName call) "moveToLocation").
  { unfold moveToLocation.
    destruct (in_locationName i) as [destName|]; [|auto].
    destruct (JS.truthy destName); cbn [negb]; [|auto].
    destruct (List.find _ allGroupChats) as [destChat|];
      [destruct (String.eqb (gc_id destChat) (c_groupChatId character)); cbn [negb]|];
      cbn; (split; [exact Hn|]); intros x Hx; rewrite map_app; apply in_app_iff; left;
      exact (Hshown x Hx). }
  destruct (String.eqb (toolName call) "labelStranger"); [|auto].
  unfold labelStranger. destruct (in_name i) as [name|]; [|auto].
  destruct (JS.truthy name && JS.truthy (JS.trim name)); auto.
Qed.

Lemma toolCalls_invariants n character groupChat allGroupChats calls a prior :
  accountedFrom generateId n character a ->
  stagedWithin a -> labelled (acc_strangerLabel a) ->
  cp_notes (characterUpdates a) = stagedNotes character prior ->
  (forall note, In note prior -> In (noteText character note) (map m_text (newMessages a))) ->
  let a' := fold_left (processToolCall generateId character groupChat allGroupChats) calls a in
  accountedFrom generateId n character a' /\
  stagedWithin a' /\ labelled (acc_strangerLabel a') /\
  cp_notes (characterUpdates a') = stagedNotes character (prior ++ omap notedBy calls) /\
  (forall note, In note (prior ++ omap notedBy calls) ->
     In (noteText character note) (map m_text (newMessages a'))).
Proof.
  revert a prior. induction calls as [|call calls IH]; intros a prior Ha Hs Hl Hn Hshown.
  { cbn. rewrite app_nil_r. auto. }
  cbn [fold_left].
  destruct (processToolCall_staged character groupChat allGroupChats a call (conj Hs Hl))
    as [Hs' Hl'].
  destruct (processToolCall_notes character groupChat allGroupChats a call prior Hn Hshown)
    as [Hn' Hshown'].
  specialize (IH _ (prior ++ option_list (notedBy call))
                (processToolCall_accounted n character groupChat allGroupChats a call Ha)
                Hs' Hl' Hn' Hshown').
  replace (prior ++ omap notedBy (call :: calls))
    with ((prior ++ option_list (notedBy call)) ++ omap notedBy calls); [exact IH|].
  rewrite <- app_assoc. f_equal. cbn. destruct (notedBy call); reflexivity.
Qed.

(** The loop state of [processCharacterTurnResult] after the tool calls,
    and what the function returns from it. *)
Lemma processCharacterTurnResult_invariants result character groupChat allGroupChats n :
  exists a,
    accountedFrom generateId n character a /\
    stagedWithin a /\ labelled (acc_strangerLabel a) /\
    cp_notes (characterUpdates a) = stagedNotes character (notesOf result) /\
    (forall note, In note (notesOf result) ->
       In (noteText character note) (map m_text (newMessages a))) /\
    processCharacterTurnResult generateId result character groupChat allGroupChats n
    = (mkTurnResult (newMessages a)
         (if patchIsEmpty (characterUpdates a) then None else Some (characterUpdates a))
         (match groupChatUpdates a with [] => None | m => Some m end)
         (acc_strangerLabel a) None None,
       acc_nextId a).
Proof.
  unfold processCharacterTurnResult.
  set (a0 := mkTurnAcc [] emptyCharacterPatch [] false None n).
  set (a1 := match r_toolCalls result with Some calls => _ | None => a0 end).
  assert (H0 : accountedFrom generateId n character a0).
  { unfold accountedFrom. cbn. split; [lia|]. split; [reflexivity|constructor]. }
  assert (H1 : accountedFrom generateId n character a1 /\
               stagedWithin a1 /\ labelled (acc_strangerLabel a1) /\
               cp_notes (characterUpdates a1) = stagedNotes character (notesOf result) /\
               (forall note, In note (notesOf result) ->
                  In (noteText character note) (map m_text (newMessages a1)))).
  { subst a1. unfold notesOf. destruct (r_toolCalls result) as [calls|].
    - apply (toolCalls_invariants n character groupChat allGroupChats calls a0 []);
        [exact H0|split; [repeat split|constructor]|exact I|reflexivity|intros ? []].
    - split; [exact H0|]. split; [split; [repeat split|constructor]|].
      split; [exact I|]. split; [reflexivity|intros ? []]. }
  destruct H1 as (Ha & Hs & Hl & Hn & Hshown).
  set (a2 := if JS.truthyOpt _ then _ else a1).
  assert (H2 : accountedFrom generateId n character a2 /\
               characterUpdates a2 = characterUpdates a1 /\
               groupChatUpdates a2 = groupChatUpdates a1 /\
               acc_strangerLabel a2 = acc_strangerLabel a1 /\
               (forall x, In x (map m_text (newMessages a1)) ->
                  In x (map m_text (newMessages a2)))).
  { subst a2. destruct (JS.truthyOpt _); [|auto 6].
    split; [apply pushMessage_accounted; [exact Ha|left; repeat split]|].
    cbn. repeat split. intros x Hx. rewrite map_app. apply in_app_iff. auto. }
  destruct H2 as (Ha2 & Hc2 & Hg2 & Hl2 & Hm2).
  set (a3 := match newMessages a2 with [] => _ | _ => a2 end).
  assert (H3 : accountedFrom generateId n character a3 /\
               characterUpdates a3 = characterUpdates a1 /\
               groupChatUpdates a3 = groupChatUpdates a1 /\
               acc_strangerLabel a3 = acc_strangerLabel a1 /\
               (forall x, In x (map m_text (newMessages a1)) ->
                  In x (map m_text (newMessages a3)))).
  { subst a3. destruct (newMessages a2) eqn:E2.
    - assert (Hnone : forall x, ~ In x (map m_text (newMessages a1)))
        by (intros x Hx; apply Hm2 in Hx; destruct Hx).
      destruct (negb _ && negb _).
      + split; [apply pushMessage_accounted; [exact Ha2|left; repeat split]|].
        cbn. split; [exact Hc2|]. split; [exact Hg2|]. split; [exact Hl2|].
        intros x Hx. destruct (Hnone x Hx).
      + split; [exact Ha2|]. split; [exact Hc2|]. split; [exact Hg2|]. split; [exact Hl2|].
        intros x Hx. destruct (Hnone x Hx).
    - split; [exact Ha2|]. split; [exact Hc2|]. split; [exact Hg2|]. split; [exact Hl2|].
      intros x Hx. rewrite E2. exact (Hm2 x Hx). }
  destruct H3 as (Ha3 & Hc3 & Hg3 & Hl3 & Hm3).
  exists a3. split; [exact Ha3|].
  unfold stagedWithin. rewrite Hc3, Hg3, Hl3.
  split; [exact Hs|]. split; [exact Hl|]. split; [exact Hn|]. split; [auto|reflexivity].
Qed.

End TurnProperties.

Section TurnResultProperties.

Variable generateId : nat -> string.
Variable generateText : GenRequest -> exc GenResult.

Lemma executeCharacterTurn_cases character groupChat allCharacters allGroupChats messages
    settings directorNudge n :
  let out := executeCharacterTurn generateId generateText character groupChat allCharacters
               allGroupChats messages settings directorNudge n in
  (exists e, out = (errorTurnResult generateId character e n, S n)) \/
  (exists result,
     tr_messages (fst out)
     = tr_messages (fst (processCharacterTurnResult generateId result character groupChat
                           allGroupChats n)) /\
     snd out = snd (processCharacterTurnResult generateId result character groupChat
                      allGroupChats n)).
Proof.
  unfold executeCharacterTurn, executeCharacterTurn_try.
  destruct (getModelInstance settings ForCharacter) as [e|model]; cbn; [left; eauto|].
  destruct (generateText _) as [e|result]; cbn; [left; eauto|].
  right. exists result.
  destruct (processCharacterTurnResult generateId result character groupChat allGroupChats n).
  cbn. auto.
Qed.

Lemma executeCharacterTurn_kinds character groupChat allCharacters allGroupChats
    messages settings directorNudge n :
  Forall (fun m => spokenBy character m \/ narrated m)
    (tr_messages (fst (executeCharacterTurn generateId generateText character groupChat
                         allCharacters allGroupChats messages settings directorNudge n))).
Proof.
  destruct (executeCharacterTurn_cases character groupChat allCharacters allGroupChats
              messages settings directorNudge n) as [[e He]|(result & Hm & _)];
    cbv zeta in *.
  - rewrite He. constructor; [left; repeat split|constructor].
  - rewrite Hm.
    destruct (processCharacterTurnResult_invariants generateId result character groupChat
                allGroupChats n) as (a & (_ & _ & Hk) & _ & _ & _ & _ & ->).
    exact Hk.
Qed.

(** X4. A character turn draws exactly one id per message it returns, in
    order from the position it was given, whether the generation succeeds
    or fails; and every message it returns is spoken by the acting
    character or is a narration of the narrator. *)
Theorem executeCharacterTurn_messages character groupChat allCharacters allGroupChats
    messages settings directorNudge n :
  let out := executeCharacterTurn generateId generateText character groupChat allCharacters
               allGroupChats messages settings directorNudge n in
  snd out = n + length (tr_messages (fst out)) /\
  map m_id (tr_messages (fst out))
  = map generateId (seq n (length (tr_messages (fst out)))) /\
  Forall (fun m => spokenBy character m \/ narrated m) (tr_messages (fst out)).
Proof.
  cbv zeta.
  destruct (executeCharacterTurn_cases character groupChat allCharacters allGroupChats
              messages settings directorNudge n) as [[e He]|(result & Hm & Hn)].
  - rewrite He. cbn. split; [lia|]. split; [reflexivity|].
    constructor; [left; repeat split|constructor].
  - rewrite Hm, Hn.
    destruct (processCharacterTurnResult_invariants generateId result character groupChat
                allGroupChats n) as (a & Ha & _ & _ & _ & _ & ->).
    exact Ha.
Qed.

(** X5. The updates staged by a turn touch nothing but the notes and the
    location of the character and the member lists of locations: applied
    to any character, the staged character patch keeps its id, name,
    description, picture, quotes and acquaintances; applied to any
    location as [updateGroupChat] does, a staged location patch keeps its
    id, name, description and exposition. *)
Theorem turn_updates_confined result character groupChat allGroupChats n :
  let out := fst (processCharacterTurnResult generateId result character groupChat
                    allGroupChats n) in
  match tr_characterUpdates out with
  | Some u =>
      forall c, let c' := applyCharacterPatch c u in
        c_id c' = c_id c /\ c_name c' = c_name c /\ c_description c' = c_description c /\
        c_pfp_base64 c' = c_pfp_base64 c /\ c_quotes c' = c_quotes c /\
        c_knownCharacterIds c' = c_knownCharacterIds c
  | None => True
  end /\
  match tr_groupChatUpdates out with
  | Some m =>
      Forall (fun e => forall g, let g' := applyGroupChatPatch g (dedupePatch (snd e)) in
                gc_id g' = gc_id g /\ gc_name g' = gc_name g /\
                gc_description g' = gc_description g /\
                gc_exposition g' = gc_exposition g) m
  | None => True
  end.
Proof.
  intros out. subst out.
  destruct (processCharacterTurnResult_invariants generateId result character groupChat
              allGroupChats n) as (a & _ & [Hc Hg] & _ & _ & _ & ->).
  cbn [fst tr_characterUpdates tr_groupChatUpdates]. split.
  - destruct (patchIsEmpty (characterUpdates a)); [exact I|].
    destruct Hc as (H1 & H2 & H3 & H4 & H5 & H6).
    intros c. unfold applyCharacterPatch. cbn. rewrite H1, H2, H3, H4, H5, H6.
    repeat split.
  - destruct (groupChatUpdates a) as [|e m] eqn:E; [exact I|].
    eapply List.Forall_impl; [|exact Hg].
    intros [k u] (H1 & H2 & H3 & H4 & H5) g. cbn [snd] in *.
    unfold dedupePatch. destruct (gp_characterIds u) as [ids|]; [|congruence].
    unfold applyGroupChatPatch. cbn. rewrite H1, H2, H3, H4. repeat split.
Qed.

(** X6. Every non-empty note of the [makeNote] calls of a turn is shown as a
    message, but the staged notes are the notes the character had before
    the turn followed by the last such note alone: each call starts again
    from the notes of the character. A turn without such a note stages no
    notes. *)
Theorem turn_notes_last_wins result character groupChat allGroupChats n :
  let out := fst (processCharacterTurnResult generateId result character groupChat
                    allGroupChats n) in
  Forall (fun note => In (noteText character note) (map m_text (tr_messages out)))
    (notesOf result) /\
  match last (notesOf result) with
  | Some note =>
      exists u, tr_characterUpdates out = Some u /\
                cp_notes u = Some (c_notes character ++ [note])
  | None =>
      match tr_characterUpdates out with
      | Some u => cp_notes u = None
      | None => True
      end
  end.
Proof.
  intros out. subst out.
  destruct (processCharacterTurnResult_invariants generateId result character groupChat
              allGroupChats n) as (a & _ & _ & _ & Hn & Hshown & ->).
  cbn [fst tr_characterUpdates tr_messages]. split.
  - apply List.Forall_forall. exact Hshown.
  - unfold stagedNotes in Hn. destruct (last (notesOf result)) as [note|]; cbn in Hn.
    + exists (characterUpdates a). split; [|exact Hn].
      revert Hn. clear. destruct (characterUpdates a) as [ui un ud up ug unt uq uk]. cbn.
      intros ->. destruct ui, un, ud, up, ug; reflexivity.
    + destruct (patchIsEmpty (characterUpdates a)); [exact I|exact Hn].
Qed.

(** X7. The stranger label a turn hands back, when there is one, is not
    empty and carries no leading or trailing white space. *)
Theorem turn_label_trimmed result character groupChat allGroupChats n :
  match tr_strangerLabel (fst (processCharacterTurnResult generateId result character
                                 groupChat allGroupChats n)) with
  | Some label => label <> EmptyString /\ JS.trim label = label
  | None => True
  end.
Proof.
  destruct (processCharacterTurnResult_invariants generateId result character groupChat
              allGroupChats n) as (a & _ & _ & Hl & _ & _ & ->).
  cbn [fst tr_strangerLabel]. unfold labelled in Hl.
  destruct (acc_strangerLabel a) as [label|]; [|exact I].
  destruct Hl as [H1 H2]. split; [apply truthy_true_iff; exact H1|exact H2].
Qed.

End TurnResultProperties.

(** ** What a turn depends on *)

Lemma getMessagesForContext_loading messages k :
  getMessagesForContext (List.filter (fun m => negb (isType TLoading m)) messages) k
  = getMessagesForContext messages k.
Proof.
  unfold getMessagesForContext.
  rewrite (filter_all (fun m => negb (isType TLoading m))
             (List.filter (fun m => negb (isType TLoading m)) messages));
    [reflexivity|apply Forall_filter_holds].
Qed.

Lemma buildCatchupBlock_loading messages characterName settings directorNudge :
  buildCatchupBlock (List.filter (fun m => negb (isType TLoading m)) messages)
    characterName settings directorNudge
  = buildCatchupBlock messages characterName settings directorNudge.
Proof.
  unfold buildCatchupBlock, renderedCatchup, catchupMessagesOf.
  rewrite getMessagesForContext_loading. reflexivity.
Qed.

Section TurnDependencies.

Variable generateId : nat -> string.

(** X8. Loading placeholders never reach the model: a turn run on a history
    gives the same result, and draws the same ids, as the turn run on the
    history without its placeholders. *)
Theorem executeCharacterTurn_ignores_placeholders generateText character groupChat
    allCharacters allGroupChats messages settings directorNudge n :
  executeCharacterTurn generateId generateText character groupChat allCharacters
    allGroupChats (List.filter (fun m => negb (isType TLoading m)) messages)
    settings directorNudge n
  = executeCharacterTurn generateId generateText character groupChat allCharacters
      allGroupChats messages settings directorNudge n.
Proof.
  unfold executeCharacterTurn, executeCharacterTurn_try.
  rewrite buildCatchupBlock_loading. reflexivity.
Qed.

(** X9. Without an API key a turn never consults the model: whatever the
    generation capability, the result is the single error message that
    names the provider, and exactly one id is drawn. *)
Theorem executeCharacterTurn_without_key generateText character groupChat allCharacters
    allGroupChats messages settings directorNudge n :
  apiKey settings = EmptyString ->
  executeCharacterTurn generateId generateText character groupChat allCharacters
    allGroupChats messages settings directorNudge n
  = (mkTurnResult
       [mkMessage (generateId n) TCharacter
          ("(An error occurred: API key required for provider: "
           +:+ providerName (aiProvider settings) +:+ ")")
          (c_name character) (Some (c_id character))]
       None None None
       (Some ("API key required for provider: " +:+ providerName (aiProvider settings)))
       None,
     S n).
Proof.
  intros Hkey. unfold executeCharacterTurn, executeCharacterTurn_try, getModelInstance.
  rewrite Hkey. reflexivity.
Qed.

End TurnDependencies.

(** X10. A model instance is built exactly when an API key is set; without
    one the error names the provider. The model it carries is the main
    model for character turns; for summarization and world building it is
    the purpose-specific model without its surrounding white space when
    that model has a visible character, and the main model otherwise. *)
Theorem getModelInstance_model settings purpose :
  getModelInstance settings purpose
  = if JS.truthy (apiKey settings) then
      inr (mkModelInstance (aiProvider settings)
             match purpose with
             | ForCharacter => model settings
             | ForSummarization =>
                 if hasInk (summarizationModel settings)
                 then JS.trim (summarizationModel settings) else model settings
             | ForWorldbuilder =>
                 if hasInk (worldbuilderModel settings)
                 then JS.trim (worldbuilderModel settings) else model settings
             end)
    else inl (ThrownError ("API key required for provider: "
                           +:+ providerName (aiProvider settings))).
Proof.
  unfold getModelInstance. destruct (JS.truthy (apiKey settings)); [|reflexivity].
  cbn [negb]. unfold ret. do 2 f_equal.
  destruct purpose; [reflexivity| |]; unfold getModelForPurpose, orElse;
    rewrite trim_truthy_ink; reflexivity.
Qed.

(** ** Turn controller: modes and guards *)

Lemma not_loading_of character cid m :
  spokenBy character m \/ narrated m -> isLoadingOf cid m = false.
Proof.
  intros [(Ht & _)|(Ht & _)]; unfold isLoadingOf, isType; rewrite Ht; reflexivity.
Qed.

Section ControllerModes.

Variable generateId : nat -> string.
Variable generateText : GenRequest -> exc GenResult.

Lemma runTurn_no_placeholder s0 chat ch turnMessages s :
  Forall (fun m => isLoadingOf (c_id ch) m = false)
    (historyOf (runTurn generateId generateText s0 chat ch turnMessages s) (gc_id chat)).
Proof.
  unfold runTurn.
  assert (Hk := executeCharacterTurn_kinds generateId generateText ch chat
                  (app_characters s0) (app_groupChats s0) turnMessages (app_settings s0)
                  None (app_nextId s)).
  destruct (executeCharacterTurn _ _ _ _ _ _ _ _ _ _) as [result n].
  cbn [fst] in Hk.
  rewrite applyTurnResult_history. apply Forall_app. split.
  - eapply List.Forall_impl; [|apply Forall_filter_holds].
    intros m Hm. apply negb_true_iff. exact Hm.
  - eapply List.Forall_impl; [|exact Hk]. intros m. apply not_loading_of.
Qed.

(** X11. Once a character turn started from the composer has been applied,
    the history of the chat holds no loading placeholder of the acting
    character, whether the generation succeeded or failed. *)
Theorem handleSendMessage_no_placeholder s chat actingCharacter :
  activeChat s = Some chat ->
  actingCharacterOf s = Some actingCharacter ->
  Forall (fun m => isLoadingOf (c_id actingCharacter) m = false)
    (historyOf (handleSendMessage generateId generateText s) (gc_id chat)).
Proof.
  intros Hchat Hact. unfold handleSendMessage, actingCharacterOf in *. rewrite Hchat.
  destruct (app_selectedCharId s) as [cid|]; [|discriminate].
  destruct (String.eqb cid "none"); [discriminate|].
  destruct (String.eqb cid "director"); [discriminate|].
  cbn [orb] in Hact. rewrite Hact.
  destruct (prepareCharacterTurn _ _ _ _ _) as [s1 currentMessages].
  apply runTurn_no_placeholder.
Qed.

(** X12. In the modes of the user and of the director, a send never
    consults the model and never touches the world, the token counters or
    the settings. A message without a visible character changes nothing;
    otherwise the text, as typed, is appended to the history of the active
    chat as one message of the mode, one id is drawn and the composer is
    cleared. *)
Theorem handleSendMessage_plain s chat mode :
  activeChat s = Some chat ->
  app_selectedCharId s = Some mode ->
  mode = "none" \/ mode = "director" ->
  let s' := handleSendMessage generateId generateText s in
  if hasInk (app_message s) then
    app_messages s'
    = <[gc_id chat :=
          historyOf s (gc_id chat)
          ++ [mkMessage (generateId (app_nextId s))
                (if String.eqb mode "none" then TUser else TDirector)
                (app_message s)
                (if String.eqb mode "none" then userDisplayName (app_settings s)
                 else "Director")
                None]]> (app_messages s) /\
    app_message s' = EmptyString /\
    app_nextId s' = S (app_nextId s) /\
    app_characters s' = app_characters s /\
    app_groupChats s' = app_groupChats s /\
    app_tokenUsage s' = app_tokenUsage s /\
    app_summarizationStatus s' = app_summarizationStatus s /\
    app_settings s' = app_settings s
  else s' = s.
Proof.
  intros Hchat Hmode Hplain s'. subst s'. unfold handleSendMessage.
  rewrite Hchat, Hmode, trim_truthy_ink.
  destruct Hplain as [-> | ->]; cbn [String.eqb Ascii.eqb Bool.eqb andb];
    destruct (hasInk (app_message s)); try reflexivity;
    unfold sendPlainMessage; cbn; repeat split.
Qed.

(** X13. A retry changes nothing when no chat is active, when the history of
    the active chat holds no message of that id, and when the first
    message of that id is not a character message, carries no character
    id, or carries the id of no character. *)
Theorem handleRetryMessage_guards messageId s :
  match activeChat s with
  | None => True
  | Some chat =>
      match List.find (fun m => String.eqb (m_id m) messageId) (historyOf s (gc_id chat)) with
      | None => True
      | Some target =>
          m_type target <> TCharacter \/
          match m_charId target with
          | Some cid => cid = EmptyString \/ findCharacterById (app_characters s) cid = None
          | None => True
          end
      end
  end ->
  handleRetryMessage generateId generateText messageId s = s.
Proof.
  unfold handleRetryMessage. destruct (activeChat s) as [chat|]; [|reflexivity].
  assert (Hfi := findIndex_lookup (fun m => String.eqb (m_id m) messageId)
                   (historyOf s (gc_id chat))).
  destruct (JS.findIndex _ (historyOf s (gc_id chat))) as [i|] eqn:Ei.
  - destruct Hfi as [Hfi _]. rewrite Hfi.
    destruct (List.find _ (historyOf s (gc_id chat))) as [target|]; [|reflexivity].
    intros [Ht|Hc].
    + apply isType_false in Ht. rewrite Ht. reflexivity.
    + destruct (isType TCharacter target); [|reflexivity]. cbn [negb orb].
      destruct (m_charId target) as [cid|]; [|reflexivity].
      destruct Hc as [-> | Hc]; [reflexivity|].
      cbn [JS.truthyOpt]. destruct (JS.truthy cid); [|reflexivity].
      cbn [negb from_option id]. rewrite Hc. reflexivity.
  - reflexivity.
Qed.

End ControllerModes.

(** ** World state: unknown ids, deletion, creation *)

Lemma removeId_absent id l : ~ In id l -> removeId id l = l.
Proof.
  intros H. unfold removeId. apply filter_all. apply List.Forall_forall.
  intros x Hx. apply negb_true_iff, String.eqb_neq. intros ->. exact (H Hx).
Qed.

Lemma dedupe_NoDup l : List.NoDup l -> JS.dedupe l = l.
Proof.
  induction 1 as [|x l Hx Hnd IH]; [reflexivity|]. cbn. rewrite IH. f_equal.
  apply (removeId_absent x l Hx).
Qed.

Lemma withCharacterIds_same g : withCharacterIds (gc_characterIds g) g = g.
Proof. destruct g; reflexivity. Qed.

Lemma stripKnown_absent id c : ~ In id (c_knownCharacterIds c) -> stripKnown id c = c.
Proof.
  intros H. unfold stripKnown. rewrite removeId_absent by exact H. destruct c; reflexivity.
Qed.

Lemma map_fixed {A} (f : A -> A) (l : list A) : (forall x, In x l -> f x = x) -> map f l = l.
Proof.
  intros H. rewrite <- (map_id l) at 2. apply List.map_ext_in. exact H.
Qed.

Lemma ids_after_delete id (cs : list Character) :
  map c_id (List.filter (fun c => negb (String.eqb (c_id c) id)) (map (stripKnown id) cs))
  = List.filter (fun k => negb (String.eqb k id)) (map c_id cs).
Proof.
  induction cs as [|c cs IH]; [reflexivity|]. cbn.
  destruct (negb (String.eqb (c_id c) id)); cbn; rewrite IH; reflexivity.
Qed.

(** X14. Updating a character or a location whose id is the id of none
    changes nothing. *)
Theorem update_unknown_id characterId chatId characterUpdates chatUpdates s :
  ~ In characterId (map c_id (app_characters s)) ->
  ~ In chatId (map gc_id (app_groupChats s)) ->
  updateCharacter characterId characterUpdates s = s /\
  updateGroupChat chatId chatUpdates s = s.
Proof.
  intros Hc Hg.
  assert (Hc' : forall c, In c (app_characters s) -> c_id c <> characterId).
  { intros c Hin E. apply Hc. rewrite <- E. apply List.in_map. exact Hin. }
  assert (Hg' : forall g, In g (app_groupChats s) -> gc_id g <> chatId).
  { intros g Hin E. apply Hg. rewrite <- E. apply List.in_map. exact Hin. }
  split.
  - unfold updateCharacter, setGroupChats, setCharacters. cbn.
    rewrite fold_reassign_absent by exact Hc'.
    rewrite map_fixed; [destruct s; reflexivity|].
    intros c Hin. apply Hc', String.eqb_neq in Hin. rewrite Hin. reflexivity.
  - unfold updateGroupChat, setGroupChats.
    rewrite map_fixed; [destruct s; reflexivity|].
    intros g Hin. apply Hg', String.eqb_neq in Hin. rewrite Hin. reflexivity.
Qed.

(** X15. Deleting a character whose id is the id of none changes nothing.
    Otherwise the characters that remain are those of another id, in
    order; none of them knows the deleted id any more; the location the
    deleted character was assigned to no longer lists it; and no location
    is added, removed or renamed. *)
Theorem deleteCharacter_no_reference id s :
  let s' := deleteCharacter id s in
  match findCharacterById (app_characters s) id with
  | None => s' = s
  | Some char =>
      map c_id (app_characters s')
      = List.filter (fun k => negb (String.eqb k id)) (map c_id (app_characters s)) /\
      Forall (fun c => ~ In id (c_knownCharacterIds c)) (app_characters s') /\
      Forall (fun g => gc_id g = c_groupChatId char -> ~ In id (gc_characterIds g))
        (app_groupChats s') /\
      map skeleton (app_groupChats s') = map skeleton (app_groupChats s)
  end.
Proof.
  intros s'. subst s'. unfold deleteCharacter, deleteCharacterIn.
  destruct (findCharacterById (app_characters s) id) as [char|]; [|reflexivity].
  cbn [app_characters app_groupChats setCharacters setGroupChats].
  split; [apply ids_after_delete|]. split; [|split].
  - apply List.Forall_forall. intros c Hc.
    apply List.filter_In in Hc as [Hc _]. apply List.in_map_iff in Hc as (c0 & <- & _).
    cbn. apply removeId_not_In.
  - apply List.Forall_forall. intros g Hg.
    apply List.in_map_iff in Hg as (g0 & <- & _).
    destruct (String.eqb (gc_id g0) (c_groupChatId char)) eqn:E.
    + intros _. cbn. apply removeId_not_In.
    + intros Hid. apply String.eqb_neq in E. contradiction.
  - rewrite map_map. apply map_ext. intros g.
    destruct (String.eqb (gc_id g) (c_groupChatId char)); reflexivity.
Qed.

Section CreateDelete.

Variable generateId : nat -> string.

Lemma find_new_character (cs : list Character) c :
  ~ In (c_id c) (map c_id cs) -> findCharacterById (cs ++ [c]) (c_id c) = Some c.
Proof.
  intros H. unfold findCharacterById. induction cs as [|a cs IH]; cbn.
  - rewrite String.eqb_refl. reflexivity.
  - destruct (String.eqb (c_id a) (c_id c)) eqn:E.
    + apply String.eqb_eq in E. exfalso. apply H. left. exact E.
    + apply IH. intros Hin. apply H. right. exact Hin.
Qed.

(** X16. Creating a character and then deleting it gives back the
    characters and the locations as they were, when the id drawn for it is
    new to the world (the id of no character, known to none, listed by no
    location) and no member list holds an id twice. *)
Theorem create_then_delete char s :
  let id := generateId (app_nextId s) in
  ~ In id (map c_id (app_characters s)) ->
  Forall (fun c => ~ In id (c_knownCharacterIds c)) (app_characters s) ->
  Forall (fun g => ~ In id (gc_characterIds g) /\ List.NoDup (gc_characterIds g))
    (app_groupChats s) ->
  let s' := deleteCharacter id (createCharacter generateId char s) in
  app_characters s' = app_characters s /\
  app_groupChats s' = app_groupChats s /\
  app_nextId s' = S (app_nextId s).
Proof.
  intros id Hfresh Hknown Hlisted s'. subst s'.
  set (newChar := mkCharacter id (c_name char) (c_description char) (c_pfp_base64 char)
                    (c_groupChatId char) (c_notes char) (c_quotes char)
                    (c_knownCharacterIds char)).
  assert (Hfind : findCharacterById (app_characters s ++ [newChar]) id = Some newChar)
    by exact (find_new_character (app_characters s) newChar Hfresh).
  assert (Hcs : List.filter (fun c => negb (String.eqb (c_id c) id))
                  (map (stripKnown id) (app_characters s ++ [newChar]))
                = app_characters s).
  { rewrite map_app, List.filter_app. cbn. rewrite String.eqb_refl. cbn.
    rewrite app_nil_r. rewrite filter_all.
    - apply map_fixed. intros c Hc. apply stripKnown_absent.
      exact (proj1 (List.Forall_forall _ _) Hknown c Hc).
    - apply List.Forall_forall. intros c Hc.
      apply List.in_map_iff in Hc as (c0 & <- & Hc0).
      apply negb_true_iff, String.eqb_neq. cbn. intros E. apply Hfresh.
      rewrite <- E. apply List.in_map. exact Hc0. }
  unfold deleteCharacter, createCharacter. fold id. fold newChar.
  destruct (JS.truthy (c_groupChatId char)) eqn:Eg;
    cbn [app_characters setCharacters setGroupChats setNextId];
    unfold deleteCharacterIn; rewrite Hfind;
    cbn [app_characters app_groupChats app_nextId setCharacters setGroupChats setNextId
         c_groupChatId newChar];
    rewrite Hcs; (split; [reflexivity|]); (split; [|reflexivity]).
  - rewrite map_map. apply map_fixed. intros g Hg.
    destruct (proj1 (List.Forall_forall _ _) Hlisted g Hg) as [Hno Hnd].
    destruct (String.eqb (gc_id g) (c_groupChatId char)) eqn:E; cbn [gc_id withCharacterIds].
    + rewrite E. cbn [withCharacterIds gc_characterIds gc_id gc_name gc_description
                        gc_exposition].
      rewrite dedupe_NoDup.
      2:{ apply List.NoDup_app; [exact Hnd|repeat constructor; intros []|].
          intros x Hx [<-|[]]. exact (Hno Hx). }
      unfold removeId. rewrite List.filter_app. cbn. rewrite String.eqb_refl. cbn.
      rewrite app_nil_r. fold (removeId id (gc_characterIds g)).
      rewrite removeId_absent by exact Hno. destruct g; reflexivity.
    + rewrite E. reflexivity.
  - apply map_fixed. intros g Hg.
    destruct (proj1 (List.Forall_forall _ _) Hlisted g Hg) as [Hno Hnd].
    destruct (String.eqb (gc_id g) (c_groupChatId char)); [|reflexivity].
    rewrite removeId_absent by exact Hno. apply withCharacterIds_same.
Qed.

End CreateDelete.

(** ** Importing arbitrary world data *)

Section ImportAnyData.

Variable generateId : nat -> string.

(** *** First pass *)

Lemma importLocations_any (locs : list LocationData) st :
  let st' := fold_left (importLocation generateId) locs st in
  is_characters st' = is_characters st /\
  is_groupChats st'
  = is_groupChats st ++
    imap (fun j loc =>
            mkGroupChat (generateId (is_nextId st + j)) (ld_name loc) (ld_description loc) []
              (Some (filterBoolean (ld_exposition loc))))
      (List.filter keptLocation locs) /\
  is_nextId st' = is_nextId st + length (List.filter keptLocation locs).
Proof.
  revert st. induction locs as [|loc locs IH]; intros st; cbn [fold_left List.filter].
  - cbn. rewrite app_nil_r, Nat.add_0_r. auto.
  - destruct (IH (importLocation generateId st loc)) as (Hc & Hg & Hn).
    cbn zeta in *. rewrite Hc, Hg, Hn. clear IH Hc Hg Hn.
    unfold importLocation. fold (keptLocation loc).
    destruct (keptLocation loc); [|auto].
    cbn [is_characters is_groupChats is_nextId imap length].
    split; [reflexivity|]. split; [|lia].
    rewrite <- app_assoc. cbn [app]. rewrite Nat.add_0_r. do 2 f_equal.
    apply imap_ext. intros j x _. cbn. do 2 f_equal. lia.
Qed.


(** *** Second pass *)

Lemma importCharacter_skipped st c :
  keptCharacter c = false -> importCharacter generateId st c = st.
Proof. intros H. unfold importCharacter. fold (keptCharacter c). rewrite H. reflexivity. Qed.

(** The location the second pass picks for a character. *)
Lemma import_target (groupChats : list GroupChat) locationName :
  match
    match JS.findIndex (fun g => String.eqb (gc_name g) locationName) groupChats with
    | Some i => Some i
    | None => match groupChats with [] => None | _ :: _ => Some 0 end
    end
  with
  | Some i => exists g, groupChats !! i = Some g
  | None => groupChats = []
  end.
Proof.
  assert (Hf := findIndex_lookup (fun g => String.eqb (gc_name g) locationName) groupChats).
  destruct (JS.findIndex _ groupChats) as [i|].
  - destruct Hf as [Hl Hsome]. rewrite Hl.
    destruct (List.find _ groupChats) as [g|]; [eauto|congruence].
  - destruct groupChats as [|g G]; [reflexivity|]. exists g. reflexivity.
Qed.

Lemma lookup_ids_distinct (G : list GroupChat) i j g L :
  List.NoDup (map gc_id G) -> G !! i = Some g -> G !! j = Some L -> i <> j ->
  gc_id g <> gc_id L.
Proof.
  intros Hnd Hi Hj Hne E. apply Hne.
  apply (NoDup_lookup (map gc_id G) i j (gc_id g)); [apply NoDup_ListNoDup; exact Hnd| |].
  - rewrite list_lookup_fmap, Hi. reflexivity.
  - rewrite list_lookup_fmap, Hj, E. reflexivity.
Qed.

Lemma importCharacter_indexed st c :
  List.NoDup (map gc_id (is_groupChats st)) ->
  indexed (is_characters st) (is_groupChats st) ->
  indexed (is_characters (importCharacter generateId st c))
    (is_groupChats (importCharacter generateId st c)).
Proof.
  intros Hnd Hidx. unfold importCharacter.
  destruct (JS.truthy (cd_name c) && JS.truthy (cd_description c)); [|exact Hidx].
  assert (Ht := import_target (is_groupChats st) (cd_location c)).
  destruct (match JS.findIndex _ (is_groupChats st) with Some i => Some i | None => _ end)
    as [i|]; cbn [is_characters is_groupChats].
  2:{ rewrite Ht. intros L []. }
  destruct Ht as [g Hg]. rewrite Hg. rewrite orElse_empty.
  set (charId := generateId (is_nextId st)).
  intros L' HL' cid. rewrite assigned_snoc. cbn [c_id c_groupChatId].
  apply list_elem_of_In, list_elem_of_lookup in HL' as [j Hj].
  unfold pushCharacterId in Hj.
  destruct (decide (i = j)) as [<-|Hne].
  - rewrite list_lookup_alter_eq, Hg in Hj. cbn in Hj. injection Hj as <-.
    cbn [gc_characterIds gc_id]. rewrite in_app_iff.
    assert (HL : In g (is_groupChats st))
      by (apply list_elem_of_In, list_elem_of_lookup; eauto).
    rewrite (Hidx g HL cid). cbn. intuition congruence.
  - rewrite list_lookup_alter_ne in Hj by exact Hne.
    assert (HL : In L' (is_groupChats st))
      by (apply list_elem_of_In, list_elem_of_lookup; eauto).
    rewrite (Hidx L' HL cid).
    assert (Hd := lookup_ids_distinct _ _ _ _ _ Hnd Hg Hj Hne).
    intuition congruence.
Qed.

Lemma importCharacter_any st c :
  let st' := importCharacter generateId st c in
  map skeleton (is_groupChats st') = map skeleton (is_groupChats st) /\
  is_characters st'
  = is_characters st ++
    (if keptCharacter c
     then [mkCharacter (generateId (is_nextId st)) (cd_name c) (cd_description c)
             (cd_pfp_base64 c) (idByName (is_groupChats st) (cd_location c))
             (filterBoolean (cd_notes c)) (filterBoolean (cd_quotes c)) []]
     else []) /\
  is_nextId st' = is_nextId st + (if keptCharacter c then 1 else 0).
Proof.
  destruct (keptCharacter c) eqn:E.
  - apply andb_true_iff in E as [Hn Hd]. apply truthy_true_iff in Hn, Hd.
    destruct (importCharacter_spec generateId st c Hn Hd) as (H1 & H2 & H3).
    cbn zeta in *. rewrite H1, H2, H3. split; [reflexivity|]. split; [reflexivity|lia].
  - cbn zeta. rewrite importCharacter_skipped by exact E.
    rewrite app_nil_r, Nat.add_0_r. auto.
Qed.


Lemma imap_ids {A B} (f : B -> string) (g : nat -> A -> B) b (l : list A) :
  (forall j x, f (g j x) = generateId (b + j)) ->
  map f (imap g l) = map generateId (seq b (length l)).
Proof.
  revert g b. induction l as [|x l IH]; intros g b H; [reflexivity|].
  cbn. rewrite H, Nat.add_0_r. f_equal.
  apply IH. intros j y. unfold compose. rewrite H. f_equal. lia.
Qed.

Lemma imap_fields {A B C} (f : B -> C) (g : nat -> A -> B) (h : A -> C) (l : list A) :
  (forall j x, f (g j x) = h x) -> map f (imap g l) = map h l.
Proof.
  revert g. induction l as [|x l IH]; intros g H; [reflexivity|].
  cbn. rewrite H. f_equal. apply IH. intros j y. apply H.
Qed.

Lemma importCharacters_any (data : list CharacterData) st :
  let st' := fold_left (importCharacter generateId) data st in
  map skeleton (is_groupChats st') = map skeleton (is_groupChats st) /\
  is_characters st'
  = is_characters st ++
    imap (fun j c =>
            mkCharacter (generateId (is_nextId st + j)) (cd_name c) (cd_description c)
              (cd_pfp_base64 c) (idByName (is_groupChats st) (cd_location c))
              (filterBoolean (cd_notes c)) (filterBoolean (cd_quotes c)) [])
      (List.filter keptCharacter data) /\
  is_nextId st' = is_nextId st + length (List.filter keptCharacter data) /\
  (List.NoDup (map gc_id (is_groupChats st)) ->
   indexed (is_characters st) (is_groupChats st) ->
   indexed (is_characters st') (is_groupChats st')).
Proof.
  revert st. induction data as [|c data IH]; intros st; cbn [fold_left List.filter].
  - cbn. rewrite app_nil_r, Nat.add_0_r. auto.
  - destruct (IH (importCharacter generateId st c)) as (Hs & Hc & Hn & Hi).
    destruct (importCharacter_any st c) as (Hs1 & Hc1 & Hn1).
    cbn zeta in *.
    split; [rewrite Hs, Hs1; reflexivity|]. split; [|split].
    + rewrite Hc, Hc1, Hn1, <- app_assoc. f_equal.
      destruct (keptCharacter c); cbn [app imap length].
      * rewrite Nat.add_0_r. f_equal. apply imap_ext. intros j x _. cbn.
        rewrite (idByName_skeleton _ _ _ Hs1). do 2 f_equal. lia.
      * rewrite Nat.add_0_r. apply imap_ext. intros j x _.
        rewrite (idByName_skeleton _ _ _ Hs1). reflexivity.
    + rewrite Hn, Hn1. destruct (keptCharacter c); cbn [length]; lia.
    + intros Hnd Hidx. apply Hi.
      * destruct (skeleton_maps _ _ Hs1) as (-> & _). exact Hnd.
      * apply importCharacter_indexed; assumption.
Qed.

(** *** Third pass *)

Lemma alter_core (f : Character -> Character) i (cs : list Character) :
  (forall c, characterCore (f c) = characterCore c) ->
  map characterCore (alter f i cs) = map characterCore cs.
Proof.
  intros Hf. revert i. induction cs as [|c cs IH]; intros [|i]; cbn; try reflexivity.
  - rewrite Hf. reflexivity.
  - f_equal. apply IH.
Qed.

Lemma core_ids (cs cs' : list Character) :
  map characterCore cs = map characterCore cs' -> map c_id cs = map c_id cs'.
Proof.
  intros H.
  assert (H1 := f_equal (map (fun t : string * string * string * option string * string
                                      * list string * list string =>
                                fst (fst (fst (fst (fst (fst t))))))) H).
  rewrite !map_map in H1. exact H1.
Qed.

Lemma linked_ids_known (cs : list Character) sourceChar k :
  In k (filterBooleanOpt
          (map (fun name => option_map c_id (findCharacterByName cs name))
             (cd_knownCharacters sourceChar))) ->
  In k (map c_id cs).
Proof.
  induction (cd_knownCharacters sourceChar) as [|name names IH]; cbn; [tauto|].
  unfold findCharacterByName at 1.
  destruct (List.find _ cs) as [c|] eqn:E; cbn; [|exact IH].
  destruct (JS.truthy (c_id c)); [|exact IH].
  intros [<-|H]; [|exact (IH H)].
  apply List.in_map. exact (proj1 (List.find_some _ _ E)).
Qed.

Lemma linkKnownCharacters_any (cs : list Character) sourceChar :
  (forall c k, In c cs -> In k (c_knownCharacterIds c) -> In k (map c_id cs)) ->
  map characterCore (linkKnownCharacters cs sourceChar) = map characterCore cs /\
  (forall c k, In c (linkKnownCharacters cs sourceChar) -> In k (c_knownCharacterIds c) ->
     In k (map c_id (linkKnownCharacters cs sourceChar))).
Proof.
  intros Hclosed.
  assert (Hcore : map characterCore (linkKnownCharacters cs sourceChar)
                  = map characterCore cs).
  { unfold linkKnownCharacters. destruct (JS.findIndex _ cs) as [i|]; [|reflexivity].
    apply alter_core. reflexivity. }
  split; [exact Hcore|]. rewrite (core_ids _ _ Hcore).
  unfold linkKnownCharacters. destruct (JS.findIndex _ cs) as [i|]; [|exact Hclosed].
  intros c k Hc Hk.
  apply list_elem_of_In, list_elem_of_lookup in Hc as [j Hj].
  destruct (decide (i = j)) as [<-|Hne].
  - rewrite list_lookup_alter_eq in Hj. destruct (cs !! i) as [d|]; [|discriminate].
    cbn in Hj. injection Hj as <-. cbn in Hk. exact (linked_ids_known cs sourceChar k Hk).
  - rewrite list_lookup_alter_ne in Hj by exact Hne.
    apply (Hclosed c k); [|exact Hk].
    apply list_elem_of_In, list_elem_of_lookup. eauto.
Qed.

Lemma linkAll_any (data : list CharacterData) (cs : list Character) :
  (forall c k, In c cs -> In k (c_knownCharacterIds c) -> In k (map c_id cs)) ->
  map characterCore (fold_left linkKnownCharacters data cs) = map characterCore cs /\
  (forall c k, In c (fold_left linkKnownCharacters data cs) ->
     In k (c_knownCharacterIds c) ->
     In k (map c_id (fold_left linkKnownCharacters data cs))).
Proof.
  revert cs. induction data as [|d data IH]; intros cs Hclosed; cbn [fold_left]; [auto|].
  destruct (linkKnownCharacters_any cs d Hclosed) as [Hcore Hclosed'].
  destruct (IH _ Hclosed') as [Hcore2 Hclosed2].
  split; [congruence|exact Hclosed2].
Qed.

Lemma assigned_pairs (cs : list Character) g cid :
  assigned cs g cid <-> In (cid, g) (map (fun c => (c_id c, c_groupChatId c)) cs).
Proof.
  unfold assigned. rewrite List.in_map_iff. split.
  - intros (c & Hc & <- & <-). exists c. auto.
  - intros (c & E & Hc). injection E as <- <-. exists c. auto.
Qed.

Lemma assigned_core (cs cs' : list Character) g cid :
  map characterCore cs = map characterCore cs' -> assigned cs g cid -> assigned cs' g cid.
Proof.
  intros H. rewrite !assigned_pairs.
  assert (H1 := f_equal (map (fun t : string * string * string * option string * string
                                      * list string * list string =>
                                (fst (fst (fst (fst (fst (fst t))))), snd (fst (fst t))))) H).
  rewrite !map_map in H1. cbn in H1. rewrite H1. tauto.
Qed.

Lemma indexed_core (cs cs' : list Character) gcs :
  map characterCore cs = map characterCore cs' -> indexed cs gcs -> indexed cs' gcs.
Proof.
  intros H Hidx L HL cid. rewrite (Hidx L HL cid).
  split; apply assigned_core; [exact H|symmetry; exact H].
Qed.

End ImportAnyData.

Lemma Forall_imap {A B} (P : B -> Prop) (g : nat -> A -> B) (l : list A) :
  (forall j x, P (g j x)) -> Forall P (imap g l).
Proof.
  revert g. induction l as [|x l IH]; intros g H; cbn; constructor; [apply H|].
  apply IH. intros j y. apply H.
Qed.

Lemma map_imap {A B C} (f : B -> C) (g : nat -> A -> B) (l : list A) :
  map f (imap g l) = imap (fun j x => f (g j x)) l.
Proof.
  revert g. induction l as [|x l IH]; intros g; [reflexivity|].
  cbn. f_equal. apply IH.
Qed.

Lemma core_projection {X} (f : Character -> X)
    (p : string * string * string * option string * string * list string * list string -> X)
    (cs : list Character) T :
  map characterCore cs = T ->
  (forall c, f c = p (characterCore c)) -> map f cs = map p T.
Proof.
  intros <- Hf. rewrite map_map. apply map_ext. exact Hf.
Qed.

Section ImportTheorems.

Variable generateId : nat -> string.

(** The locations the second pass of the import starts from. *)
Lemma import_first_passes data n :
  let st := importDefaultLocation generateId data
              (fold_left (importLocation generateId) (wd_locations data)
                 (mkImportState [] [] n)) in
  is_characters st = [] /\
  is_nextId st = n + length (is_groupChats st) /\
  map gc_id (is_groupChats st) = map generateId (seq n (length (is_groupChats st))) /\
  Forall (fun g => gc_characterIds g = []) (is_groupChats st) /\
  length (is_groupChats st) <= length (wd_locations data) + 1 /\
  match List.filter keptLocation (wd_locations data), wd_characters data with
  | [], _ :: _ =>
      is_groupChats st
      = [mkGroupChat (generateId n) "Default Location" "A starting place" []
           (Some ["A plain, featureless area."])]
  | kept, _ =>
      map (fun g => (gc_name g, gc_description g, gc_exposition g)) (is_groupChats st)
      = map (fun l => (ld_name l, ld_description l, Some (filterBoolean (ld_exposition l))))
          kept
  end.
Proof.
  destruct (importLocations_any generateId (wd_locations data) (mkImportState [] [] n))
    as (Hc & Hg & Hn).
  cbn zeta in *. cbn [is_characters is_groupChats is_nextId app] in Hc, Hg, Hn.
  assert (Hlen : length (List.filter keptLocation (wd_locations data))
                 <= length (wd_locations data)) by apply List.filter_length_le.
  unfold importDefaultLocation. rewrite Hg.
  destruct (List.filter keptLocation (wd_locations data)) as [|l kept] eqn:Ek.
  - cbn [imap]. destruct (wd_characters data) as [|c cs].
    + rewrite Hc, Hn, Hg. cbn. repeat split; try lia. constructor.
    + cbn [is_characters is_groupChats is_nextId]. rewrite Hc, Hn. cbn.
      rewrite Nat.add_0_r. repeat split; try lia. repeat constructor.
  - set (built := imap _ (l :: kept)) in *.
    assert (Hb : exists g G, built = g :: G) by (cbn; eauto).
    destruct Hb as (g & G & Hb).
    assert (Hst : match built, wd_characters data with
                  | [], _ :: _ =>
                      mkImportState
                        [mkGroupChat
                           (generateId
                              (is_nextId (fold_left (importLocation generateId)
                                            (wd_locations data) (mkImportState [] [] n))))
                           "Default Location" "A starting place" []
                           (Some ["A plain, featureless area."])]
                        (is_characters (fold_left (importLocation generateId)
                                          (wd_locations data) (mkImportState [] [] n)))
                        (S (is_nextId (fold_left (importLocation generateId)
                                         (wd_locations data) (mkImportState [] [] n))))
                  | _, _ => fold_left (importLocation generateId) (wd_locations data)
                              (mkImportState [] [] n)
                  end
                  = fold_left (importLocation generateId) (wd_locations data)
                      (mkImportState [] [] n)).
    { rewrite Hb. destruct (wd_characters data); reflexivity. }
    rewrite Hst, Hc, Hn, Hg. subst built. rewrite length_imap.
    split; [reflexivity|]. split; [reflexivity|].
    split; [apply imap_ids; reflexivity|].
    split; [apply Forall_imap; reflexivity|].
    split; [cbn [length] in *; lia|].
    apply imap_fields. reflexivity.
Qed.


Lemma fresh_prefix n k k' :
  k' <= k -> freshIds generateId n k -> freshIds generateId n k'.
Proof.
  intros Hle [Hnd Hne]. replace k with (k' + (k - k')) in Hnd, Hne by lia.
  rewrite List.seq_app, map_app in Hnd. split.
  - exact (List.NoDup_app_remove_r _ _ Hnd).
  - intros i Hi. apply Hne. rewrite List.seq_app. apply List.in_app_iff. auto.
Qed.

Lemma fresh_split n a b :
  freshIds generateId n (a + b) ->
  List.NoDup (map generateId (seq n a)) /\ List.NoDup (map generateId (seq (n + a) b)) /\
  (forall i, In i (seq n a) -> generateId i <> EmptyString).
Proof.
  intros [Hnd Hne]. rewrite List.seq_app, map_app in Hnd.
  split; [exact (List.NoDup_app_remove_r _ _ Hnd)|].
  split; [exact (List.NoDup_app_remove_l _ _ Hnd)|].
  intros i Hi. apply Hne. rewrite List.seq_app. apply List.in_app_iff. auto.
Qed.

(** What [importWorldData] returns, in terms of the locations [G] the
    second pass starts from. *)
Lemma importWorldData_any data n :
  let st := importDefaultLocation generateId data
              (fold_left (importLocation generateId) (wd_locations data)
                 (mkImportState [] [] n)) in
  let G := is_groupChats st in
  let '(characters, groupChats, n') := importWorldData generateId data n in
  map skeleton groupChats = map skeleton G /\
  map characterCore characters
  = imap (fun j c =>
            (generateId (n + length G + j), cd_name c, cd_description c, cd_pfp_base64 c,
             idByName G (cd_location c), filterBoolean (cd_notes c),
             filterBoolean (cd_quotes c)))
      (List.filter keptCharacter (wd_characters data)) /\
  n' = n + length G + length (List.filter keptCharacter (wd_characters data)) /\
  (List.NoDup (map gc_id G) -> indexed characters groupChats) /\
  (forall c k, In c characters -> In k (c_knownCharacterIds c) -> In k (map c_id characters)).
Proof.
  intros st G. unfold importWorldData. fold st.
  destruct (import_first_passes data n) as (Hc0 & Hn0 & Hids & Hempty & _ & _).
  fold st in Hc0, Hn0, Hids, Hempty. fold G in Hn0, Hids, Hempty.
  destruct (importCharacters_any generateId (wd_characters data) st) as (Hs & Hc & Hn & Hi).
  cbn zeta in *. rewrite Hc0 in Hc, Hi. cbn [app] in Hc. rewrite Hn0 in Hc, Hn. fold G in Hc, Hi.
  set (st2 := fold_left (importCharacter generateId) (wd_characters data) st) in *.
  assert (Hclosed0 : forall c k, In c (is_characters st2) -> In k (c_knownCharacterIds c) ->
                       In k (map c_id (is_characters st2))).
  { intros c k Hin Hk. rewrite Hc in Hin.
    apply list_elem_of_In, list_elem_of_lookup in Hin as [j Hj].
    rewrite list_lookup_imap in Hj.
    destruct (List.filter keptCharacter (wd_characters data) !! j); [|discriminate].
    cbn in Hj. injection Hj as <-. destruct Hk. }
  destruct (linkAll_any (wd_characters data) (is_characters st2) Hclosed0) as [Hcore Hclosed].
  split; [exact Hs|]. split; [|split; [exact Hn|split; [|exact Hclosed]]].
  - rewrite Hcore, Hc. rewrite map_imap. apply imap_ext. intros j c _. reflexivity.
  - intros Hnd. apply (indexed_core (is_characters st2)); [symmetry; exact Hcore|].
    apply Hi; [exact Hnd|].
    intros L HL cid. rewrite (proj1 (List.Forall_forall _ _) Hempty L HL).
    split; [intros []|]. intros (c & [] & _).
Qed.


(** X17. A world imported from any world data, with fresh ids, is well
    formed: the characters have ids of their own, the locations have ids
    of their own and none is empty, the member list of every location
    holds exactly the ids of the characters assigned to it, and every
    character knows ids of imported characters only. The import clears
    the histories and leaves the token counters as they were. *)
Theorem handleImportWorld_well_formed data s :
  freshIds generateId (app_nextId s)
    (length (wd_locations data) + 1 + length (wd_characters data)) ->
  let s' := handleImportWorld generateId data s in
  consistent s' /\
  List.NoDup (map gc_id (app_groupChats s')) /\
  (forall c k, In c (app_characters s') -> In k (c_knownCharacterIds c) ->
     In k (map c_id (app_characters s'))) /\
  app_messages s' = ∅ /\
  app_tokenUsage s' = app_tokenUsage s.
Proof.
  intros Hfresh s'. subst s'. unfold handleImportWorld.
  assert (H := importWorldData_any data (app_nextId s)).
  destruct (import_first_passes data (app_nextId s)) as (_ & _ & Hids & _ & Hlen & _).
  cbn zeta in H.
  set (G := is_groupChats _) in *.
  destruct (importWorldData generateId data (app_nextId s)) as [[characters groupChats] n'].
  destruct H as (Hs & Hcore & _ & Hidx & Hclosed).
  assert (Hkept : length (List.filter keptCharacter (wd_characters data))
                  <= length (wd_characters data)) by apply List.filter_length_le.
  apply (fresh_prefix _ _ (length G + length (List.filter keptCharacter (wd_characters data))))
    in Hfresh; [|lia].
  destruct (fresh_split _ _ _ Hfresh) as (HndG & HndC & HneG).
  destruct (skeleton_maps _ _ Hs) as (HidG & _).
  assert (Hcids : map c_id characters
                  = map generateId
                      (seq (app_nextId s + length G)
                         (length (List.filter keptCharacter (wd_characters data))))).
  { rewrite (core_projection c_id (fun t => fst (fst (fst (fst (fst (fst t)))))) _ _ Hcore)
      by reflexivity.
    apply (imap_ids generateId). reflexivity. }
  unfold consistent, onImportWorld. cbn.
  rewrite HidG, Hids, Hcids.
  split; [split; [exact HndC|split]|split; [exact HndG|split; [rewrite <- Hcids; exact Hclosed|auto]]].
  - intros L HL E.
    assert (Hin : In (gc_id L) (map gc_id groupChats)) by (apply List.in_map; exact HL).
    rewrite HidG, Hids in Hin. apply List.in_map_iff in Hin as (i & Hi & Hseq).
    apply (HneG i Hseq). congruence.
  - apply Hidx. rewrite Hids. exact HndG.
Qed.

Lemma importCharacters_single (data : list CharacterData) st D :
  is_groupChats st = [D] ->
  is_groupChats (fold_left (importCharacter generateId) data st)
  = [withCharacterIds
       (gc_characterIds D
        ++ map generateId (seq (is_nextId st) (length (List.filter keptCharacter data)))) D].
Proof.
  revert st D. induction data as [|c data IH]; intros st D HD; cbn [fold_left List.filter].
  - cbn. rewrite app_nil_r, HD. destruct D; reflexivity.
  - destruct (keptCharacter c) eqn:Ek.
    + assert (Hstep : is_groupChats (importCharacter generateId st c)
                      = [withCharacterIds (gc_characterIds D ++ [generateId (is_nextId st)]) D]
                      /\ is_nextId (importCharacter generateId st c) = S (is_nextId st)).
      { unfold importCharacter. fold (keptCharacter c). rewrite Ek, HD. cbn.
        destruct (String.eqb (gc_name D) (cd_location c)); cbn; auto. }
      destruct Hstep as [Hg Hn]. rewrite (IH _ _ Hg), Hn. cbn. rewrite <- app_assoc.
      reflexivity.
    + rewrite importCharacter_skipped by exact Ek. apply IH. exact HD.
Qed.

(** X18. When the data holds no location with a name and a description but
    holds at least one character entry, the import builds the single
    location "Default Location"; every imported character is assigned to
    it, and its member list is the list of their ids, in order. *)
Theorem importWorldData_default_location data n :
  List.filter keptLocation (wd_locations data) = [] ->
  wd_characters data <> [] ->
  let '(characters, groupChats, _) := importWorldData generateId data n in
  groupChats
  = [mkGroupChat (generateId n) "Default Location" "A starting place" (map c_id characters)
       (Some ["A plain, featureless area."])] /\
  Forall (fun c => c_groupChatId c = generateId n) characters.
Proof.
  intros Hkept Hchars.
  assert (H := importWorldData_any data n).
  destruct (import_first_passes data n) as (_ & Hn0 & _ & _ & _ & HG).
  cbn zeta in H. rewrite Hkept in HG.
  destruct (wd_characters data) as [|c0 rest] eqn:Ec; [congruence|]. rewrite <- Ec in *.
  assert (Hmembers := importCharacters_single (wd_characters data) _ _ HG).
  rewrite Hn0, HG in Hmembers. cbn [length gc_characterIds app] in Hmembers.
  unfold importWorldData in *.
  set (st := importDefaultLocation generateId data _) in *.
  set (st2 := fold_left (importCharacter generateId) (wd_characters data) st) in *.
  destruct H as (_ & Hcore & _ & _ & _). rewrite HG in Hcore. cbn [length] in Hcore.
  split.
  - rewrite Hmembers. unfold withCharacterIds. cbn. do 2 f_equal.
    rewrite (core_projection c_id (fun t => fst (fst (fst (fst (fst (fst t)))))) _ _ Hcore)
      by reflexivity.
    symmetry. apply (imap_ids generateId). reflexivity.
  - apply List.Forall_forall. intros c Hc.
    assert (Hin : In (c_groupChatId c)
                    (map c_groupChatId (fold_left linkKnownCharacters (wd_characters data)
                                          (is_characters st2))))
      by (apply List.in_map; exact Hc).
    rewrite (core_projection c_groupChatId (fun t => snd (fst (fst t))) _ _ Hcore) in Hin
      by reflexivity.
    rewrite map_imap in Hin.
    apply list_elem_of_In, list_elem_of_lookup in Hin as [j Hj].
    rewrite list_lookup_imap in Hj.
    destruct (List.filter keptCharacter (wd_characters data) !! j) as [d|]; [|discriminate].
    injection Hj as <-. unfold idByName. cbn [List.find gc_name gc_id snd fst].
    destruct (String.eqb "Default Location" (cd_location d)); reflexivity.
Qed.

(** X19. The import keeps exactly the entries that have a name and a
    description, in the order of the data: the characters with their
    name, description, picture, and their notes and quotes without the
    empty ones; the locations, when one at least is kept, with their
    name, description and exposition without the empty lines. It draws
    one id per location and per character it builds. *)
Theorem importWorldData_kept_entries data n :
  let '(characters, groupChats, n') := importWorldData generateId data n in
  map (fun c => (c_name c, c_description c, c_pfp_base64 c, c_notes c, c_quotes c)) characters
  = map (fun c => (cd_name c, cd_description c, cd_pfp_base64 c,
                   filterBoolean (cd_notes c), filterBoolean (cd_quotes c)))
      (List.filter keptCharacter (wd_characters data)) /\
  match List.filter keptLocation (wd_locations data) with
  | [] => length groupChats = if wd_characters data is [] then 0 else 1
  | kept =>
      map (fun g => (gc_name g, gc_description g, gc_exposition g)) groupChats
      = map (fun l => (ld_name l, ld_description l, Some (filterBoolean (ld_exposition l))))
          kept
  end /\
  n' = n + length groupChats + length characters.
Proof.
  assert (H := importWorldData_any data n).
  destruct (import_first_passes data n) as (_ & _ & _ & _ & _ & HG).
  cbn zeta in H.
  set (G := is_groupChats _) in *.
  destruct (importWorldData generateId data n) as [[characters groupChats] n'].
  destruct H as (Hs & Hcore & Hn & _ & _).
  assert (HlenG : length groupChats = length G).
  { rewrite <- (length_map skeleton groupChats), Hs. apply length_map. }
  assert (HlenC : length characters
                  = length (List.filter keptCharacter (wd_characters data))).
  { rewrite <- (length_map characterCore characters), Hcore. apply length_imap. }
  split; [|split; [|lia]].
  - rewrite (core_projection
               (fun c => (c_name c, c_description c, c_pfp_base64 c, c_notes c, c_quotes c))
               (fun t => (snd (fst (fst (fst (fst (fst t))))), snd (fst (fst (fst (fst t)))),
                          snd (fst (fst (fst t))), snd (fst t), snd t))
               _ _ Hcore) by reflexivity.
    apply imap_fields. reflexivity.
  - destruct (List.filter keptLocation (wd_locations data)) as [|l kept].
    + rewrite HlenG. destruct (wd_characters data); [|rewrite HG; reflexivity].
      apply (f_equal (@length _)) in HG. rewrite length_map in HG. exact HG.
    + rewrite <- HG.
      assert (E := f_equal (map (fun t : string * string * string * option (list string) =>
                                   (snd (fst (fst t)), snd (fst t), snd t))) Hs).
      rewrite !map_map in E. exact E.
Qed.

End ImportTheorems.

(** ** Chat history export and import *)

Lemma fold_insert_lookup {A} (key val : A -> string) (l : list A) k :
  fold_left (fun m x => <[key x := val x]> m) l (∅ : gmap string string) !! k
  = option_map val (List.find (fun x => String.eqb (key x) k) (rev l)).
Proof.
  induction l as [|x l IH] using rev_ind; [reflexivity|].
  rewrite fold_left_app, rev_unit. cbn [fold_left List.find].
  destruct (String.eqb (key x) k) eqn:E.
  - apply String.eqb_eq in E. subst k. apply lookup_insert_eq.
  - apply String.eqb_neq in E. rewrite lookup_insert_ne by exact E. exact IH.
Qed.

Lemma find_rev_unique {A} (key : A -> string) (l : list A) x :
  List.NoDup (map key l) -> In x l ->
  List.find (fun y => String.eqb (key y) (key x)) (rev l) = Some x.
Proof.
  intros Hnd Hin. apply find_by_key.
  - rewrite map_rev. apply List.NoDup_rev. exact Hnd.
  - apply List.in_rev. rewrite rev_involutive. exact Hin.
Qed.

Lemma regenerateIds_content generateId msgs n :
  map contentOf (regenerateIds generateId msgs n) = map contentOf msgs /\
  map m_id (regenerateIds generateId msgs n) = map generateId (seq n (length msgs)).
Proof.
  revert n. induction msgs as [|m msgs IH]; intros n; cbn; [auto|].
  destruct (IH (S n)) as [-> ->]. auto.
Qed.

(** X20. An exported chat history has version 1, holds no loading
    placeholder and no empty history; each exported history is a history
    of the state without its placeholders; and the location name recorded
    for an id is the name of the last location of that id. *)
Theorem exportChatHistory_clean now entries groupChats :
  let out := exportChatHistory now entries groupChats in
  che_version out = 1 /\
  Forall (fun e =>
            snd e <> [] /\
            Forall (fun m => isType TLoading m = false) (snd e) /\
            exists msgs, In (fst e, msgs) entries /\
                         snd e = List.filter (fun m => negb (isType TLoading m)) msgs)
    (che_messages out) /\
  forall k, che_locationNames out !! k
            = option_map gc_name (List.find (fun g => String.eqb (gc_id g) k) (rev groupChats)).
Proof.
  cbn zeta. split; [reflexivity|]. split; [|intros k; apply fold_insert_lookup].
  cbn [che_messages exportChatHistory]. apply List.Forall_forall. intros e He.
  apply list_elem_of_In, list_elem_of_omap in He as ([k msgs] & Hin & HF).
  apply list_elem_of_In in Hin. cbn [fst snd] in HF.
  destruct (List.filter _ msgs) as [|m l] eqn:Ef; [discriminate|].
  injection HF as <-. cbn [fst snd]. split; [discriminate|]. split.
  - rewrite <- Ef. eapply List.Forall_impl; [|apply Forall_filter_holds].
    intros x Hx. apply negb_true_iff. exact Hx.
  - exists msgs. split; [exact Hin|]. symmetry. exact Ef.
Qed.

Section ChatHistoryProperties.

Variable generateId : nat -> string.
Variable nativeText : string -> string.

Lemma fold_setProperty_lookup {A} (key val : A -> string) (l : list A) k :
  fold_left (fun m x => setProperty (key x) (val x) m) l (∅ : gmap string string) !! k
  = if String.eqb k "__proto__" then None
    else option_map val (List.find (fun x => String.eqb (key x) k) (rev l)).
Proof.
  induction l as [|x l IH] using rev_ind.
  - cbn. rewrite lookup_empty. destruct (String.eqb k "__proto__"); reflexivity.
  - rewrite fold_left_app, rev_unit. cbn [fold_left List.find]. unfold setProperty at 1.
    destruct (String.eqb (key x) "__proto__") eqn:Ep.
    + rewrite IH. apply String.eqb_eq in Ep.
      destruct (String.eqb k "__proto__") eqn:Ek; [reflexivity|].
      destruct (String.eqb (key x) k) eqn:E; [|reflexivity].
      apply String.eqb_eq in E. apply String.eqb_neq in Ek. congruence.
    + destruct (String.eqb (key x) k) eqn:E.
      * apply String.eqb_eq in E. subst k. rewrite Ep. apply lookup_insert_eq.
      * apply String.eqb_neq in E. rewrite lookup_insert_ne by exact E. exact IH.
Qed.

Lemma nameToIdOf_lookup groupChats name newChatId :
  nameToIdOf groupChats !! name = Some newChatId ->
  exists g, In g groupChats /\ gc_name g = name /\ gc_id g = newChatId.
Proof.
  unfold nameToIdOf. rewrite (fold_setProperty_lookup gc_name gc_id).
  destruct (String.eqb name "__proto__"); [discriminate|].
  destruct (List.find _ (rev groupChats)) as [g|] eqn:E; [|discriminate].
  intros [= <-]. apply List.find_some in E as [Hin Hname].
  exists g. split; [apply List.in_rev; exact Hin|].
  split; [apply String.eqb_eq; exact Hname|reflexivity].
Qed.

Lemma setProperty_lookup {V} k (v : V) o j w :
  setProperty k v o !! j = Some w ->
  (j = k /\ w = v /\ k <> "__proto__") \/ o !! j = Some w.
Proof.
  unfold setProperty. destruct (String.eqb k "__proto__") eqn:Ep; [auto|].
  apply String.eqb_neq in Ep.
  destruct (decide (k = j)) as [<-|Hne].
  - rewrite lookup_insert_eq. intros [= <-]. auto.
  - rewrite lookup_insert_ne by exact Hne. auto.
Qed.

Lemma importEntries_targets locationNames groupChats (all es : list (string * list ChatMessage))
    acc :
  (forall e, In e es -> In e all) ->
  (forall k msgs, fst acc !! k = Some msgs ->
     filedUnder nativeText locationNames groupChats all k msgs) ->
  let out := fold_left (importEntry generateId nativeText locationNames
                          (nameToIdOf groupChats)) es acc in
  snd acc <= snd out /\
  forall k msgs, fst out !! k = Some msgs ->
     filedUnder nativeText locationNames groupChats all k msgs.
Proof.
  revert acc. induction es as [|[old source] es IH]; intros [imported n] Hsub Hacc;
    cbn [fold_left]; [split; [lia|exact Hacc]|].
  assert (Hstep : snd (imported, n)
                  <= snd (importEntry generateId nativeText locationNames
                            (nameToIdOf groupChats) (imported, n) (old, source)) /\
                  forall k msgs,
                    fst (importEntry generateId nativeText locationNames
                           (nameToIdOf groupChats) (imported, n) (old, source)) !! k
                    = Some msgs ->
                    filedUnder nativeText locationNames groupChats all k msgs).
  { unfold importEntry.
    destruct (getProperty locationNames old) as [recorded|] eqn:El;
      [|split; [lia|exact Hacc]].
    destruct (truthyValue recorded) eqn:Et; [|split; [lia|exact Hacc]].
    destruct (getProperty (nameToIdOf groupChats) (textOf nativeText recorded))
      as [newChatId|] eqn:En; [|split; [lia|exact Hacc]].
    destruct (truthyValue newChatId) eqn:Ei; [|split; [lia|exact Hacc]].
    cbn [fst snd]. split; [lia|]. intros k msgs Hk.
    apply setProperty_lookup in Hk as [(-> & -> & Hp)|Hk]; [|exact (Hacc k msgs Hk)].
    split; [exact Hp|]. exists old, source, recorded.
    split; [apply Hsub; left; reflexivity|]. split; [exact El|]. split; [exact Et|].
    split; [apply regenerateIds_content|].
    unfold getProperty in En.
    destruct (nameToIdOf groupChats !! textOf nativeText recorded) as [id|] eqn:Eo.
    - injection En as <-. left.
      apply nameToIdOf_lookup in Eo as (g & Hg & Hname & Hid).
      exists g. cbn [textOf]. split; [exact Hg|]. split; [exact Hname|].
      split; [exact Hid|]. apply truthy_true_iff. exact Ei.
    - destruct (JS.includes inheritedNames (textOf nativeText recorded)) eqn:Einh;
        [|discriminate].
      injection En as <-. right. split; [|split; reflexivity].
      apply includes_In. exact Einh. }
  destruct Hstep as [Hle Hacc'].
  destruct (IH _ (fun e He => Hsub e (or_intror He)) Hacc') as [Hle' Hout].
  split; [lia|exact Hout].
Qed.

(** X21. Importing a chat history file touches neither the world nor the
    token counters, and a file of another version than 1 changes nothing.
    Otherwise each history [importChatHistory] returns replaces the
    history filed under the same id and every other history stays. Every
    history returned holds the messages, with new ids, of an entry of the
    data for which the data records a name. It is filed under the id, not
    empty, of a current location of that name; or, when no location has
    that name and the name is one of the properties every object
    inherits, under the text of the inherited value, which is the id of
    no location in general. None is filed under "__proto__". *)
Theorem importChatHistory_targets data s :
  let out := importChatHistory generateId nativeText data (app_groupChats s) (app_nextId s) in
  let s' := handleImportChatHistory generateId nativeText data s in
  (forall k msgs, fst out !! k = Some msgs ->
     filedUnder nativeText (che_locationNames data) (app_groupChats s) (che_messages data)
       k msgs) /\
  app_characters s' = app_characters s /\
  app_groupChats s' = app_groupChats s /\
  app_tokenUsage s' = app_tokenUsage s /\
  app_nextId s <= app_nextId s' /\
  (if che_version data =? 1
   then forall k, app_messages s' !! k
                  = match fst out !! k with
                    | Some msgs => Some msgs
                    | None => app_messages s !! k
                    end
   else s' = s).
Proof.
  cbv zeta.
  destruct (importEntries_targets (che_locationNames data) (app_groupChats s)
              (che_messages data) (che_messages data) (∅, app_nextId s)) as [Hn Ht];
    [auto| |].
  { intros k msgs Hk. cbn in Hk. rewrite lookup_empty in Hk. discriminate. }
  fold (importChatHistory generateId nativeText data (app_groupChats s) (app_nextId s))
    in Hn, Ht.
  split; [exact Ht|].
  unfold handleImportChatHistory.
  destruct (importChatHistory generateId nativeText data (app_groupChats s) (app_nextId s))
    as [importedMessages n'] eqn:E.
  cbn [fst snd] in *.
  destruct (che_version data =? 1); cbn [negb]; [|repeat split; lia].
  repeat split; [exact Hn|].
  intros k. cbn. rewrite lookup_union.
  destruct (importedMessages !! k), (app_messages s !! k); reflexivity.
Qed.

(** The entry of key [k] among entries of distinct keys. *)
Lemma find_entry {V} (es : list (string * V)) k v :
  List.NoDup (map fst es) -> In (k, v) es ->
  List.find (fun e => String.eqb (fst e) k) es = Some (k, v).
Proof. intros Hnd Hin. exact (find_by_key fst es (k, v) Hnd Hin). Qed.

Lemma find_no_entry {V} (es : list (string * V)) k :
  ~ In k (map fst es) -> List.find (fun e => String.eqb (fst e) k) es = None.
Proof.
  intros H. destruct (List.find _ es) as [e|] eqn:E; [|reflexivity].
  apply List.find_some in E as [Hin Hk]. apply String.eqb_eq in Hk.
  exfalso. apply H. rewrite <- Hk. apply List.in_map. exact Hin.
Qed.

Lemma not_inherited k : ~ In k inheritedNames -> JS.includes inheritedNames k = false.
Proof.
  intros H. destruct (JS.includes inheritedNames k) eqn:E; [|reflexivity].
  exfalso. apply H, includes_In. exact E.
Qed.

Lemma not_inherited_proto k : ~ In k inheritedNames -> String.eqb k "__proto__" = false.
Proof.
  intros H. apply String.eqb_neq. intros ->. apply H. unfold inheritedNames.
  do 11 right. left. reflexivity.
Qed.

(** An entry whose location id is the id of a current location, in a
    world of distinct ids and names, none of them empty and no name or
    key that of an inherited property, is filed under its own id; the
    other entries are dropped. *)
Lemma importEntry_same_world groupChats acc n old source :
  List.NoDup (map gc_id groupChats) -> List.NoDup (map gc_name groupChats) ->
  (forall g, In g groupChats -> gc_id g <> EmptyString /\ gc_name g <> EmptyString) ->
  (forall g, In g groupChats -> ~ In (gc_name g) inheritedNames) ->
  ~ In old inheritedNames ->
  importEntry generateId nativeText (locationNamesOf groupChats) (nameToIdOf groupChats)
    (acc, n) (old, source)
  = if existsb (fun g => String.eqb (gc_id g) old) groupChats
    then (<[old := regenerateIds generateId source n]> acc, n + length source)
    else (acc, n).
Proof.
  intros Hids Hnames Hne Hplain Hold. unfold importEntry, getProperty at 1, locationNamesOf.
  rewrite (fold_insert_lookup gc_id gc_name).
  destruct (existsb _ groupChats) eqn:Ex.
  - apply List.existsb_exists in Ex as (g & Hg & Eg). apply String.eqb_eq in Eg. subst old.
    rewrite (find_rev_unique gc_id groupChats g Hids Hg). cbn [option_map truthyValue textOf].
    destruct (Hne g Hg) as [Hi Hn]. apply truthy_true_iff in Hi, Hn. rewrite Hn.
    unfold getProperty, nameToIdOf. rewrite (fold_setProperty_lookup gc_name gc_id).
    rewrite (not_inherited_proto _ (Hplain g Hg)).
    rewrite (find_rev_unique gc_name groupChats g Hnames Hg).
    cbn [option_map truthyValue textOf]. rewrite Hi.
    unfold setProperty. rewrite (not_inherited_proto _ Hold). reflexivity.
  - destruct (List.find _ (rev groupChats)) as [g|] eqn:E.
    + apply List.find_some in E as [Hin Hk]. apply List.in_rev in Hin.
      assert (Ex' : existsb (fun g => String.eqb (gc_id g) old) groupChats = true)
        by (apply List.existsb_exists; eauto).
      congruence.
    + cbn [option_map]. rewrite (not_inherited _ Hold). reflexivity.
Qed.

Lemma importEntries_same_world groupChats (es : list (string * list ChatMessage)) acc n k :
  List.NoDup (map gc_id groupChats) -> List.NoDup (map gc_name groupChats) ->
  (forall g, In g groupChats -> gc_id g <> EmptyString /\ gc_name g <> EmptyString) ->
  (forall g, In g groupChats -> ~ In (gc_name g) inheritedNames) ->
  (forall e, In e es -> ~ In (fst e) inheritedNames) ->
  List.NoDup (map fst es) ->
  option_map (map contentOf)
    (fst (fold_left (importEntry generateId nativeText (locationNamesOf groupChats)
                       (nameToIdOf groupChats)) es (acc, n)) !! k)
  = match List.find (fun e => String.eqb (fst e) k) es with
    | Some e =>
        if existsb (fun g => String.eqb (gc_id g) k) groupChats
        then Some (map contentOf (snd e))
        else option_map (map contentOf) (acc !! k)
    | None => option_map (map contentOf) (acc !! k)
    end.
Proof.
  intros Hids Hnames Hne Hplain. revert acc n.
  induction es as [|[old source] es IH]; intros acc n Hkeys Hnd;
    cbn [fold_left List.find fst]; [reflexivity|].
  cbn [map fst] in Hnd. apply List.NoDup_cons_iff in Hnd as [Hold Hnd].
  rewrite (importEntry_same_world groupChats acc n old source Hids Hnames Hne Hplain
             (Hkeys (old, source) (or_introl eq_refl))).
  assert (Hkeys' : forall e, In e es -> ~ In (fst e) inheritedNames)
    by (intros e He; apply Hkeys; right; exact He).
  destruct (String.eqb old k) eqn:Ek.
  - apply String.eqb_eq in Ek. subst k.
    destruct (existsb _ groupChats); rewrite (IH _ _ Hkeys' Hnd), (find_no_entry es old Hold);
      [|reflexivity].
    rewrite lookup_insert_eq. cbn. f_equal. apply regenerateIds_content.
  - apply String.eqb_neq in Ek.
    destruct (existsb (fun g => String.eqb (gc_id g) old) groupChats);
      rewrite (IH _ _ Hkeys' Hnd); [|reflexivity].
    rewrite lookup_insert_ne by exact Ek. reflexivity.
Qed.

Lemma exported_keys (entries : list (string * list ChatMessage)) now groupChats :
  List.NoDup (map fst entries) ->
  List.NoDup (map fst (che_messages (exportChatHistory now entries groupChats))) /\
  forall k msgs, In (k, msgs) entries ->
    List.find (fun e => String.eqb (fst e) k)
      (che_messages (exportChatHistory now entries groupChats))
    = match List.filter (fun m => negb (isType TLoading m)) msgs with
      | [] => None
      | filtered => Some (k, filtered)
      end.
Proof.
  cbn [che_messages exportChatHistory].
  induction entries as [|[k0 msgs0] entries IH]; intros Hnd; [split; [constructor|intros ? ? []]|].
  cbn [map fst] in Hnd. apply List.NoDup_cons_iff in Hnd as [Hk0 Hnd].
  destruct (IH Hnd) as [IHnd IHfind]. clear IH.
  assert (Hsub : forall k, In k (map fst (omap (fun e : string * list ChatMessage =>
                     match List.filter (fun m => negb (isType TLoading m)) (snd e) with
                     | [] => None
                     | _ :: _ => Some (fst e, List.filter (fun m => negb (isType TLoading m))
                                                (snd e))
                     end) entries)) -> In k (map fst entries)).
  { intros k Hk. apply List.in_map_iff in Hk as ([k' f] & <- & Hin).
    apply list_elem_of_In, list_elem_of_omap in Hin as ([k2 m2] & Hin & HF).
    apply list_elem_of_In in Hin. cbn [fst snd] in HF.
    destruct (List.filter _ m2); [discriminate|]. injection HF as <- _.
    apply (List.in_map fst) in Hin. exact Hin. }
  cbn [omap list_omap fst snd].
  destruct (List.filter (fun m => negb (isType TLoading m)) msgs0) as [|m l] eqn:Ef.
  - split; [exact IHnd|]. intros k msgs [E|Hin]; [|exact (IHfind k msgs Hin)].
    injection E as <- <-. rewrite Ef. apply find_no_entry. intros H. exact (Hk0 (Hsub _ H)).
  - split.
    + cbn [map fst]. constructor; [intros H; exact (Hk0 (Hsub _ H))|exact IHnd].
    + intros k msgs [E|Hin].
      * injection E as <- <-. cbn [List.find fst]. rewrite String.eqb_refl, Ef. reflexivity.
      * cbn [List.find fst].
        destruct (String.eqb k0 k) eqn:Ek; [|exact (IHfind k msgs Hin)].
        apply String.eqb_eq in Ek. subst k. exfalso. apply Hk0.
        apply (List.in_map fst) in Hin. exact Hin.
Qed.

Lemma exported_subset (entries : list (string * list ChatMessage)) now groupChats e :
  In e (che_messages (exportChatHistory now entries groupChats)) ->
  In (fst e) (map fst entries).
Proof.
  cbn [che_messages exportChatHistory]. intros Hin.
  apply list_elem_of_In, list_elem_of_omap in Hin as ([k2 m2] & Hin & HF).
  apply list_elem_of_In in Hin. cbn [fst snd] in HF.
  destruct (List.filter _ m2); [discriminate|]. injection HF as <-.
  apply (List.in_map fst) in Hin. exact Hin.
Qed.

(** X22. Exporting the chat history of a world and importing the export
    into the same world gives back for every location its history
    without the loading placeholders, each message with its type, text,
    sender and character id, under a new id, and drops the histories
    filed under the id of no location. This holds when the locations
    have distinct ids and distinct names, none of them empty, and when no
    id or name of a location and no key of a history is the name of a
    property every object inherits, such as "constructor" or
    "__proto__". *)
Theorem chat_history_roundtrip now entries groupChats n :
  List.NoDup (map fst entries) ->
  List.NoDup (map gc_id groupChats) ->
  List.NoDup (map gc_name groupChats) ->
  (forall g, In g groupChats -> gc_id g <> EmptyString /\ gc_name g <> EmptyString) ->
  (forall g, In g groupChats ->
     ~ In (gc_id g) inheritedNames /\ ~ In (gc_name g) inheritedNames) ->
  (forall e, In e entries -> ~ In (fst e) inheritedNames) ->
  let imported :=
    fst (importChatHistory generateId nativeText (exportChatHistory now entries groupChats)
           groupChats n) in
  (forall g msgs, In g groupChats -> In (gc_id g, msgs) entries ->
     map contentOf (default [] (imported !! gc_id g))
     = map contentOf (List.filter (fun m => negb (isType TLoading m)) msgs)) /\
  (forall k, ~ In k (map gc_id groupChats) -> imported !! k = None).
Proof.
  intros Hkeys Hids Hnames Hne Hplain' Hown imported.
  assert (Hplain : forall g, In g groupChats -> ~ In (gc_name g) inheritedNames)
    by (intros g Hg; exact (proj2 (Hplain' g Hg))).
  destruct (exported_keys entries now groupChats Hkeys) as [Hnd Hfind].
  assert (Hown' : forall e, In e (che_messages (exportChatHistory now entries groupChats)) ->
                    ~ In (fst e) inheritedNames).
  { intros e He Hinh. apply exported_subset in He.
    apply List.in_map_iff in He as (e' & Efst & He'). apply (Hown e' He'). congruence. }
  assert (H := fun k => importEntries_same_world groupChats
                          (che_messages (exportChatHistory now entries groupChats))
                          ∅ n k Hids Hnames Hne Hplain Hown' Hnd).
  fold (importChatHistory generateId nativeText (exportChatHistory now entries groupChats)
          groupChats n) in H.
  change (che_locationNames (exportChatHistory now entries groupChats))
    with (locationNamesOf groupChats) in *.
  split.
  - intros g msgs Hg Hin. specialize (H (gc_id g)).
    unfold importChatHistory in imported.
    change (che_locationNames (exportChatHistory now entries groupChats))
      with (locationNamesOf groupChats) in imported.
    fold imported in H. rewrite (Hfind _ _ Hin) in H.
    assert (Ex : existsb (fun g0 => String.eqb (gc_id g0) (gc_id g)) groupChats = true).
    { apply List.existsb_exists. exists g. split; [exact Hg|apply String.eqb_refl]. }
    rewrite Ex, lookup_empty in H.
    destruct (List.filter _ msgs) as [|m l]; destruct (imported !! gc_id g) as [h|];
      cbn in H |- *; congruence.
  - intros k Hk. specialize (H k).
    unfold importChatHistory in imported.
    change (che_locationNames (exportChatHistory now entries groupChats))
      with (locationNamesOf groupChats) in imported.
    fold imported in H.
    assert (Ex : existsb (fun g0 => String.eqb (gc_id g0) k) groupChats = false).
    { destruct (existsb _ groupChats) eqn:Ex; [|reflexivity].
      apply List.existsb_exists in Ex as (g & Hg & Eg). apply String.eqb_eq in Eg.
      exfalso. apply Hk. rewrite <- Eg. apply List.in_map. exact Hg. }
    rewrite Ex, lookup_empty in H.
    destruct (imported !! k); [|reflexivity].
    destruct (List.find _ _); discriminate.
Qed.

End ChatHistoryProperties.

(** ** World builder *)

Lemma findRef_spec {A} (p : A -> bool) (l : list A) i x :
  findRef p l = Some (i, x) -> l !! i = Some x /\ p x = true /\ In x l.
Proof.
  revert i. induction l as [|a l IH]; intros i; cbn; [discriminate|].
  destruct (p a) eqn:E.
  - intros [= <- <-]. auto.
  - destruct (findRef p l) as [[j y]|]; [|discriminate]. cbn. intros [= <- <-].
    destruct (IH j eq_refl) as (H1 & H2 & H3). auto.
Qed.

Lemma In_alter {A} (f : A -> A) i (l : list A) x :
  In x (alter f i l) -> In x l \/ exists y, l !! i = Some y /\ x = f y.
Proof.
  intros H. apply list_elem_of_In, list_elem_of_lookup in H as [j Hj].
  destruct (decide (i = j)) as [<-|Hne].
  - rewrite list_lookup_alter_eq in Hj. destruct (l !! i) as [y|]; [|discriminate].
    cbn in Hj. injection Hj as <-. right. eauto.
  - rewrite list_lookup_alter_ne in Hj by exact Hne.
    left. apply list_elem_of_In, list_elem_of_lookup. eauto.
Qed.

Lemma alter_covers {A} (f : A -> A) i (l : list A) x :
  In x l -> In x (alter f i l) \/ (l !! i = Some x /\ In (f x) (alter f i l)).
Proof.
  intros H. apply list_elem_of_In, list_elem_of_lookup in H as [j Hj].
  destruct (decide (i = j)) as [<-|Hne].
  - right. split; [exact Hj|]. apply list_elem_of_In, list_elem_of_lookup. exists i.
    rewrite list_lookup_alter_eq, Hj. reflexivity.
  - left. apply list_elem_of_In, list_elem_of_lookup. exists j.
    rewrite list_lookup_alter_ne by exact Hne. exact Hj.
Qed.

Lemma map_alter_fixed {A B} (g : A -> B) (f : A -> A) i (l : list A) :
  (forall x, g (f x) = g x) -> map g (alter f i l) = map g l.
Proof.
  intros H. revert i. induction l as [|x l IH]; intros [|i]; cbn; try reflexivity.
  - rewrite H. reflexivity.
  - f_equal. apply IH.
Qed.

(** *** The log *)

Lemma addLog_frame key message type st :
  wb_characters (addLog key message type st) = wb_characters st /\
  wb_groupChats (addLog key message type st) = wb_groupChats st /\
  wb_nextId (addLog key message type st) = wb_nextId st.
Proof. unfold addLog. destruct (JS.findIndex _ (wb_logs st)); cbn; auto. Qed.

Lemma findIndex_key (logs : list WorldBuilderLogEntry) key :
  match JS.findIndex (fun l => String.eqb (log_key l) key) logs with
  | Some i => exists e, logs !! i = Some e /\ log_key e = key
  | None => ~ In key (map log_key logs)
  end.
Proof.
  induction logs as [|a logs IH]; cbn; [tauto|].
  destruct (String.eqb (log_key a) key) eqn:E.
  - apply String.eqb_eq in E. exists a. auto.
  - apply String.eqb_neq in E. destruct (JS.findIndex _ logs) as [i|]; cbn.
    + exact IH.
    + intros [H|H]; auto.
Qed.

Lemma addLog_keys key message type st :
  map log_key (wb_logs (addLog key message type st))
  = if JS.includes (map log_key (wb_logs st)) key
    then map log_key (wb_logs st) else map log_key (wb_logs st) ++ [key].
Proof.
  unfold addLog. assert (H := findIndex_key (wb_logs st) key).
  destruct (JS.findIndex _ (wb_logs st)) as [i|].
  - destruct H as (e & He & Hk).
    assert (Hin : JS.includes (map log_key (wb_logs st)) key = true).
    { apply includes_In. rewrite <- Hk. apply List.in_map.
      apply list_elem_of_In, list_elem_of_lookup. eauto. }
    rewrite Hin. cbn [wb_logs setLogs].
    change (map log_key (<[i:=mkLogEntry key message type]> (wb_logs st)))
      with (log_key <$> <[i:=mkLogEntry key message type]> (wb_logs st)).
    rewrite list_fmap_insert. cbn [log_key]. apply list_insert_id.
    rewrite list_lookup_fmap, He. cbn. congruence.
  - assert (Hin : JS.includes (map log_key (wb_logs st)) key = false).
    { destruct (JS.includes _ key) eqn:E; [|reflexivity]. apply includes_In in E. tauto. }
    rewrite Hin. cbn [wb_logs setLogs]. rewrite map_app. reflexivity.
Qed.

Lemma addLog_invariant key message type st :
  key <> "init" -> key <> "error" ->
  logInvariant (wb_logs st) -> logInvariant (wb_logs (addLog key message type st)).
Proof.
  intros Hinit Herror (Hnd & Hhead & Hno). unfold logInvariant.
  rewrite addLog_keys.
  assert (Hhead' : head (wb_logs (addLog key message type st))
                   = Some (mkLogEntry "init" "Starting world generation with AI..." LogInfo)).
  { unfold addLog. destruct (wb_logs st) as [|e logs] eqn:El; [discriminate|].
    cbn in Hhead. injection Hhead as ->. cbn [JS.findIndex log_key].
    apply String.eqb_neq in Hinit. rewrite String.eqb_sym, Hinit.
    destruct (JS.findIndex _ logs); reflexivity. }
  destruct (JS.includes (map log_key (wb_logs st)) key) eqn:E.
  - auto.
  - split; [|split; [exact Hhead'|]].
    + apply List.NoDup_app; [exact Hnd|repeat constructor; intros []|].
      intros x Hx [<-|[]]. apply includes_In in Hx. congruence.
    + intros H. apply List.in_app_iff in H as [H|[H|[]]]; [exact (Hno H)|congruence].
Qed.

(** *** The arrays *)

Section BuilderInvariants.

Variable generateId : nat -> string.
Variable toLowerCase : string -> string.

Lemma builderInvariant_frame st st' :
  wb_characters st' = wb_characters st -> wb_groupChats st' = wb_groupChats st ->
  builderInvariant toLowerCase st -> builderInvariant toLowerCase st'.
Proof. unfold builderInvariant. intros -> ->. auto. Qed.

Lemma addLog_builderInvariant key message type st :
  builderInvariant toLowerCase st -> builderInvariant toLowerCase (addLog key message type st).
Proof.
  destruct (addLog_frame key message type st) as (Hc & Hg & _).
  apply builderInvariant_frame; assumption.
Qed.

Lemma fresh_name {A} (name : A -> string) (l : list A) x :
  existsb (fun y => sameName toLowerCase (name y) x) l = false ->
  ~ In (toLowerCase x) (map (fun y => toLowerCase (name y)) l).
Proof.
  intros H Hin. apply List.in_map_iff in Hin as (y & Hy & Hin).
  assert (E : existsb (fun y => sameName toLowerCase (name y) x) l = true).
  { apply List.existsb_exists. exists y. split; [exact Hin|].
    unfold sameName. rewrite Hy. apply String.eqb_refl. }
  congruence.
Qed.

Lemma NoDup_snoc {A} (l : list A) x : List.NoDup l -> ~ In x l -> List.NoDup (l ++ [x]).
Proof.
  intros Hnd Hx. apply List.NoDup_app; [exact Hnd|repeat constructor; intros []|].
  intros y Hy [<-|[]]. exact (Hx Hy).
Qed.


Lemma createLocation_invariant acc loc :
  builderInvariant toLowerCase (fst (fst acc)) ->
  builderInvariant toLowerCase (fst (fst (createLocation generateId toLowerCase acc loc))) /\
  wb_logs (fst (fst (createLocation generateId toLowerCase acc loc))) = wb_logs (fst (fst acc)).
Proof.
  destruct acc as [[st created] skipped]. cbn [fst]. intros (H1 & H2 & H3 & H4 & H5).
  unfold createLocation. destruct (existsb _ (wb_groupChats st)) eqn:E; cbn [fst].
  - split; [exact (conj H1 (conj H2 (conj H3 (conj H4 H5))))|reflexivity].
  - split; [|reflexivity]. unfold builderInvariant. cbn [wb_groupChats wb_characters].
    split; [|split; [exact H2|split; [|split; [|exact H5]]]].
    + rewrite map_app. cbn [map gc_name]. apply NoDup_snoc; [exact H1|].
      exact (fresh_name gc_name _ _ E).
    + intros c Hc. destruct (H3 c Hc) as [Hn|(g & Hg & Hid & Hin)]; [left; exact Hn|].
      right. exists g. split; [apply List.in_app_iff; left; exact Hg|auto].
    + intros g k Hg Hk. apply List.in_app_iff in Hg as [Hg|[<-|[]]]; [exact (H4 g k Hg Hk)|].
      destruct Hk.
Qed.

Lemma createLocations_invariant locations acc :
  builderInvariant toLowerCase (fst (fst acc)) ->
  builderInvariant toLowerCase (fst (fst (fold_left (createLocation generateId toLowerCase) locations acc))) /\
  wb_logs (fst (fst (fold_left (createLocation generateId toLowerCase) locations acc)))
  = wb_logs (fst (fst acc)).
Proof.
  revert acc. induction locations as [|loc locations IH]; intros acc H; cbn [fold_left];
    [auto|].
  destruct (createLocation_invariant acc loc H) as [H' Hl].
  destruct (IH _ H') as [H'' Hl']. split; [exact H''|congruence].
Qed.

Lemma createBuilderCharacter_invariant acc char :
  builderInvariant toLowerCase (fst (fst acc)) ->
  builderInvariant toLowerCase (fst (fst (createBuilderCharacter generateId toLowerCase acc char))) /\
  wb_logs (fst (fst (createBuilderCharacter generateId toLowerCase acc char))) = wb_logs (fst (fst acc)).
Proof.
  destruct acc as [[st created] skipped]. cbn [fst]. intros (H1 & H2 & H3 & H4 & H5).
  unfold createBuilderCharacter. destruct (existsb _ (wb_characters st)) eqn:E; cbn [fst].
  - split; [exact (conj H1 (conj H2 (conj H3 (conj H4 H5))))|reflexivity].
  - split; [|reflexivity]. unfold builderInvariant. cbn [wb_groupChats wb_characters].
    split; [exact H1|split; [|split; [|split]]].
    + rewrite map_app. cbn [map c_name]. apply NoDup_snoc; [exact H2|].
      exact (fresh_name c_name _ _ E).
    + intros c Hc. apply List.in_app_iff in Hc as [Hc|[<-|[]]]; [exact (H3 c Hc)|].
      left. reflexivity.
    + intros g k Hg Hk. rewrite map_app. apply List.in_app_iff. left. exact (H4 g k Hg Hk).
    + intros c k Hc Hk. rewrite map_app.
      apply List.in_app_iff in Hc as [Hc|[<-|[]]]; [|destruct Hk].
      destruct (H5 c k Hc Hk) as [Hne Hin]. split; [exact Hne|].
      apply List.in_app_iff. left. exact Hin.
Qed.

Lemma createCharacters_invariant chars acc :
  builderInvariant toLowerCase (fst (fst acc)) ->
  builderInvariant toLowerCase (fst (fst (fold_left (createBuilderCharacter generateId toLowerCase) chars acc))) /\
  wb_logs (fst (fst (fold_left (createBuilderCharacter generateId toLowerCase) chars acc)))
  = wb_logs (fst (fst acc)).
Proof.
  revert acc. induction chars as [|char chars IH]; intros acc H; cbn [fold_left]; [auto|].
  destruct (createBuilderCharacter_invariant acc char H) as [H' Hl].
  destruct (IH _ H') as [H'' Hl']. split; [exact H''|congruence].
Qed.


Lemma assign_invariant ci character li location st :
  wb_characters st !! ci = Some character ->
  wb_groupChats st !! li = Some location ->
  builderInvariant toLowerCase st ->
  builderInvariant toLowerCase
    (mkBuilderState (wb_logs st)
       (alter (withLocation (gc_id location)) ci (wb_characters st))
       (if negb (JS.includes (gc_characterIds location) (c_id character))
        then alter (fun gc => withCharacterIds (gc_characterIds gc ++ [c_id character]) gc)
               li (wb_groupChats st)
        else wb_groupChats st)
       (wb_nextId st)).
Proof.
  intros Hc Hl (H1 & H2 & H3 & H4 & H5).
  set (cs' := alter (withLocation (gc_id location)) ci (wb_characters st)).
  set (gcs' := if negb _ then _ else wb_groupChats st).
  assert (Hcin : In character (wb_characters st))
    by (apply list_elem_of_In, list_elem_of_lookup; eauto).
  assert (Hlin : In location (wb_groupChats st))
    by (apply list_elem_of_In, list_elem_of_lookup; eauto).
  assert (Hids : map c_id cs' = map c_id (wb_characters st))
    by (apply map_alter_fixed; reflexivity).
  assert (Hnames : map (fun g => toLowerCase (gc_name g)) gcs'
                   = map (fun g => toLowerCase (gc_name g)) (wb_groupChats st)).
  { subst gcs'. destruct (negb _); [|reflexivity]. apply map_alter_fixed. reflexivity. }
  (* every location keeps its id and its members *)
  assert (Hkeep : forall g, In g (wb_groupChats st) ->
            exists g', In g' gcs' /\ gc_id g' = gc_id g /\
                       (forall k, In k (gc_characterIds g) -> In k (gc_characterIds g'))).
  { intros g Hg. subst gcs'. destruct (negb _); [|exists g; auto].
    destruct (alter_covers (fun gc => withCharacterIds (gc_characterIds gc ++ [c_id character]) gc)
                li _ g Hg) as [Hin|[_ Hin]].
    - exists g. auto.
    - eexists. split; [exact Hin|]. split; [reflexivity|].
      intros k Hk. cbn. apply List.in_app_iff. auto. }
  (* the location of the call lists the character *)
  assert (Hlisted : exists g', In g' gcs' /\ gc_id g' = gc_id location /\
                               In (c_id character) (gc_characterIds g')).
  { subst gcs'. destruct (JS.includes (gc_characterIds location) (c_id character)) eqn:E;
      cbn [negb].
    - apply includes_In in E. exists location. auto.
    - exists (withCharacterIds (gc_characterIds location ++ [c_id character]) location).
      split; [|split; [reflexivity|]].
      + apply list_elem_of_In, list_elem_of_lookup. exists li.
        rewrite list_lookup_alter_eq, Hl. reflexivity.
      + cbn. apply List.in_app_iff. right. left. reflexivity. }
  (* every member is a member of before, or the character *)
  assert (Hmem : forall g' k, In g' gcs' -> In k (gc_characterIds g') ->
            k = c_id character \/ exists g, In g (wb_groupChats st) /\ In k (gc_characterIds g)).
  { intros g' k Hg' Hk. subst gcs'. destruct (negb _); [|right; eauto].
    apply In_alter in Hg' as [Hg'|(y & Hy & ->)]; [right; eauto|].
    cbn in Hk. apply List.in_app_iff in Hk as [Hk|[<-|[]]]; [|left; reflexivity].
    right. exists y. split; [|exact Hk]. apply list_elem_of_In, list_elem_of_lookup. eauto. }
  unfold builderInvariant. cbn [wb_characters wb_groupChats]. fold cs' gcs'.
  rewrite Hnames, Hids.
  split; [exact H1|]. split.
  { replace (map (fun c => toLowerCase (c_name c)) cs')
      with (map (fun c => toLowerCase (c_name c)) (wb_characters st)); [exact H2|].
    symmetry. apply map_alter_fixed. reflexivity. }
  split; [|split].
  - intros c Hin. apply In_alter in Hin as [Hin|(y & Hy & ->)].
    + destruct (H3 c Hin) as [Hn|(g & Hg & Hid & Hk)]; [left; exact Hn|].
      right. destruct (Hkeep g Hg) as (g' & Hg' & Hid' & Hsub).
      exists g'. split; [exact Hg'|]. split; [congruence|auto].
    + right. rewrite Hc in Hy. injection Hy as <-. exact Hlisted.
  - intros g' k Hg' Hk. destruct (Hmem g' k Hg' Hk) as [->|(g & Hg & Hk')].
    + apply List.in_map. exact Hcin.
    + exact (H4 g k Hg Hk').
  - intros c k Hin Hk. apply In_alter in Hin as [Hin|(y & Hy & ->)].
    + exact (H5 c k Hin Hk).
    + cbn in Hk |- *. apply (H5 y k); [|exact Hk].
      apply list_elem_of_In, list_elem_of_lookup. eauto.
Qed.

Lemma addCharacterToLocation_invariant characterName locationName st :
  builderInvariant toLowerCase st ->
  builderInvariant toLowerCase (fst (addCharacterToLocation toLowerCase characterName locationName st)).
Proof.
  intros H. unfold addCharacterToLocation.
  destruct (findRef _ (wb_characters st)) as [[ci character]|] eqn:Ec; [|exact H].
  destruct (findRef _ (wb_groupChats st)) as [[li location]|] eqn:El; [|exact H].
  cbn [fst]. apply addLog_builderInvariant.
  apply findRef_spec in Ec as (Hc & _ & _). apply findRef_spec in El as (Hl & _ & _).
  apply assign_invariant; auto.
Qed.

Lemma resolveKnown_found characters character names acc :
  (forall k, In k (fst acc) -> k <> c_id character /\ In k (map c_id characters)) ->
  forall k, In k (fst (fold_left (resolveKnown toLowerCase characters character) names acc)) ->
    k <> c_id character /\ In k (map c_id characters).
Proof.
  revert acc. induction names as [|name names IH]; intros acc Hacc; [exact Hacc|].
  cbn [fold_left]. apply IH. destruct acc as [foundIds notFound]. unfold resolveKnown.
  destruct (List.find _ characters) as [known|] eqn:E; [|exact Hacc].
  destruct (String.eqb (c_id known) (c_id character)) eqn:Ek; cbn [negb fst]; [exact Hacc|].
  intros k Hk. apply List.in_app_iff in Hk as [Hk|[<-|[]]]; [exact (Hacc k Hk)|].
  split; [apply String.eqb_neq; exact Ek|].
  apply List.in_map. exact (proj1 (List.find_some _ _ E)).
Qed.

Lemma setKnownCharacters_invariant characterName knownCharacterNames st :
  builderInvariant toLowerCase st ->
  builderInvariant toLowerCase (fst (setKnownCharacters toLowerCase characterName knownCharacterNames st)).
Proof.
  intros H. unfold setKnownCharacters.
  destruct (findRef _ (wb_characters st)) as [[ci character]|] eqn:Ec; [|exact H].
  assert (Hfound := resolveKnown_found (wb_characters st) character knownCharacterNames
                      ([], []) (fun k (Hk : In k []) => match Hk with end)).
  destruct (fold_left _ knownCharacterNames ([], [])) as [foundIds notFound].
  cbn [fst] in *. apply addLog_builderInvariant.
  apply findRef_spec in Ec as (Hc & _ & _).
  destruct H as (H1 & H2 & H3 & H4 & H5).
  set (cs' := alter (setKnownCharacterIds foundIds) ci (wb_characters st)).
  assert (Hids : map c_id cs' = map c_id (wb_characters st))
    by (apply map_alter_fixed; reflexivity).
  unfold builderInvariant. cbn [wb_characters wb_groupChats]. fold cs'. rewrite Hids.
  split; [exact H1|]. split.
  { replace (map (fun c => toLowerCase (c_name c)) cs')
      with (map (fun c => toLowerCase (c_name c)) (wb_characters st)); [exact H2|].
    symmetry. apply map_alter_fixed. reflexivity. }
  split; [|split; [exact H4|]].
  - intros c Hin. apply In_alter in Hin as [Hin|(y & Hy & ->)]; [exact (H3 c Hin)|].
    cbn. apply (H3 y). apply list_elem_of_In, list_elem_of_lookup. eauto.
  - intros c k Hin Hk. apply In_alter in Hin as [Hin|(y & Hy & ->)]; [exact (H5 c k Hin Hk)|].
    cbn in Hk |- *. rewrite Hc in Hy. injection Hy as <-. exact (Hfound k Hk).
Qed.

Lemma builderStep_invariant st e :
  builderInvariant toLowerCase st /\ logInvariant (wb_logs st) ->
  builderInvariant toLowerCase (builderStep generateId toLowerCase st e) /\
  logInvariant (wb_logs (builderStep generateId toLowerCase st e)).
Proof.
  intros [H Hlog]. destruct e; cbn [builderStep].
  - unfold createLocations.
    destruct (createLocations_invariant locations (st, 0, 0) H) as [H' Hl].
    destruct (fold_left _ locations (st, 0, 0)) as [[st' created] skipped].
    cbn [fst] in *. split; [apply addLog_builderInvariant; exact H'|].
    apply addLog_invariant; [discriminate|discriminate|]. rewrite Hl. exact Hlog.
  - unfold createCharacters.
    destruct (createCharacters_invariant characters (st, 0, 0) H) as [H' Hl].
    destruct (fold_left _ characters (st, 0, 0)) as [[st' created] skipped].
    cbn [fst] in *. split; [apply addLog_builderInvariant; exact H'|].
    apply addLog_invariant; [discriminate|discriminate|]. rewrite Hl. exact Hlog.
  - split; [apply addCharacterToLocation_invariant; exact H|].
    unfold addCharacterToLocation.
    destruct (findRef _ (wb_characters st)) as [[ci character]|]; [|exact Hlog].
    destruct (findRef _ (wb_groupChats st)) as [[li location]|]; [|exact Hlog].
    cbn [fst]. apply addLog_invariant; [discriminate|discriminate|exact Hlog].
  - split; [apply setKnownCharacters_invariant; exact H|].
    unfold setKnownCharacters.
    destruct (findRef _ (wb_characters st)) as [[ci character]|]; [|exact Hlog].
    destruct (fold_left _ knownCharacterNames ([], [])) as [foundIds notFound].
    cbn [fst]. apply addLog_invariant; [discriminate|discriminate|exact Hlog].
  - cbn [fst worldGenerationComplete].
    split; [apply addLog_builderInvariant; exact H|].
    apply addLog_invariant; [discriminate|discriminate|exact Hlog].
  - unfold onStepFinish. destruct (String.eqb finishReason "error"); [|auto].
    split; [apply addLog_builderInvariant; exact H|].
    apply addLog_invariant; [discriminate|discriminate|exact Hlog].
Qed.

Lemma builderRun_invariant events st :
  builderInvariant toLowerCase st /\ logInvariant (wb_logs st) ->
  builderInvariant toLowerCase (fold_left (builderStep generateId toLowerCase) events st) /\
  logInvariant (wb_logs (fold_left (builderStep generateId toLowerCase) events st)).
Proof.
  revert st. induction events as [|e events IH]; intros st H; cbn [fold_left]; [exact H|].
  apply IH. apply builderStep_invariant. exact H.
Qed.


Lemma ensureLocation_invariant st :
  builderInvariant toLowerCase st /\ logInvariant (wb_logs st) ->
  builderInvariant toLowerCase (ensureLocation generateId st) /\
  logInvariant (wb_logs (ensureLocation generateId st)).
Proof.
  intros [H Hlog]. unfold ensureLocation.
  destruct (wb_groupChats st) as [|g0 G] eqn:Eg; [|auto].
  destruct (wb_characters st) as [|c0 C] eqn:Ec; [auto|]. rewrite <- Ec in *.
  split; [apply addLog_builderInvariant|
          apply addLog_invariant; [discriminate|discriminate|exact Hlog]].
  destruct H as (H1 & H2 & H3 & H4 & H5). rewrite Eg in H3.
  set (d := generateId (wb_nextId st)).
  assert (Hids : map c_id (map (placeUnassigned d) (wb_characters st))
                 = map c_id (wb_characters st)).
  { rewrite map_map. apply map_ext. intros c. unfold placeUnassigned.
    destruct (negb _); reflexivity. }
  unfold builderInvariant. cbn [wb_characters wb_groupChats]. rewrite Hids.
  split; [repeat constructor; intros []|]. split.
  { rewrite map_map.
    rewrite (map_ext (fun c => toLowerCase (c_name (placeUnassigned d c)))
               (fun c => toLowerCase (c_name c))); [exact H2|].
    intros c. unfold placeUnassigned. destruct (negb _); reflexivity. }
  split; [|split].
  - intros c Hc. apply List.in_map_iff in Hc as (c' & <- & Hc').
    destruct (H3 c' Hc') as [Hn|(g & [] & _)].
    right. eexists. split; [left; reflexivity|].
    unfold placeUnassigned. rewrite Hn. cbn. split; [reflexivity|].
    apply List.in_map. apply List.filter_In. split; [exact Hc'|]. rewrite Hn. reflexivity.
  - intros g k [<-|[]] Hk. cbn in Hk.
    apply List.in_map_iff in Hk as (c & <- & Hc). apply List.filter_In in Hc as [Hc _].
    apply List.in_map. exact Hc.
  - intros c k Hc Hk. apply List.in_map_iff in Hc as (c' & <- & Hc').
    assert (E : c_knownCharacterIds (placeUnassigned d c') = c_knownCharacterIds c'
                /\ c_id (placeUnassigned d c') = c_id c').
    { unfold placeUnassigned. destruct (negb _); auto. }
    destruct E as [E1 E2]. rewrite E1 in Hk. rewrite E2. exact (H5 c' k Hc' Hk).
Qed.

Variable generateWorldRun : BuilderRequest -> list BuilderEvent * option Thrown.

Lemma start_invariant n :
  let st := addLog "init" "Starting world generation with AI..." LogInfo
              (mkBuilderState [] [] [] n) in
  builderInvariant toLowerCase st /\ logInvariant (wb_logs st).
Proof.
  cbn. split.
  - unfold builderInvariant. cbn.
    split; [constructor|]. split; [constructor|]. split; [intros c []|].
    split; [intros g k []|intros c k []].
  - unfold logInvariant. cbn. split; [repeat constructor; intros []|].
    split; [reflexivity|]. intros [H|[]]. discriminate.
Qed.

(** The state [generateWorld] ends in, and what it returns from it. *)
Lemma generateWorld_cases inputText settings n :
  exists st,
    builderInvariant toLowerCase st /\ logInvariant (wb_logs st) /\
    ((exists error,
        fst (generateWorld generateId toLowerCase generateWorldRun inputText settings n)
        = resultOf false
            (addLog "error" ("Error generating world: " +:+ errorMessageOf error) LogError st))
     \/ fst (generateWorld generateId toLowerCase generateWorldRun inputText settings n)
        = resultOf true (ensureLocation generateId st)).
Proof.
  unfold generateWorld.
  destruct (start_invariant n) as [H0 Hl0]. cbn zeta in H0, Hl0.
  set (st0 := addLog "init" _ _ _) in *.
  destruct (getModelInstance settings ForWorldbuilder) as [error|model].
  - exists st0. split; [exact H0|]. split; [exact Hl0|]. left. exists error. reflexivity.
  - destruct (generateWorldRun _) as [events thrown].
    destruct (builderRun_invariant events st0 (conj H0 Hl0)) as [H Hl].
    exists (fold_left (builderStep generateId toLowerCase) events st0).
    split; [exact H|]. split; [exact Hl|].
    destruct thrown as [error|]; [left; exists error; reflexivity|right; reflexivity].
Qed.

(** X23. In the world [generateWorld] returns, whether it succeeds or fails
    and whatever the model had the tools do, no two locations and no two
    characters have the same name up to letter case, whatever the case
    folding of [toLowerCase]. *)
Theorem generateWorld_unique_names inputText settings n :
  let out := fst (generateWorld generateId toLowerCase generateWorldRun inputText settings n) in
  List.NoDup (map (fun g => toLowerCase (gc_name g)) (wr_groupChats out)) /\
  List.NoDup (map (fun c => toLowerCase (c_name c)) (wr_characters out)).
Proof.
  destruct (generateWorld_cases inputText settings n) as (st & H & Hl & [[error ->]| ->]);
    cbn zeta; cbn [wr_groupChats wr_characters resultOf].
  - destruct (addLog_builderInvariant "error"
                ("Error generating world: " +:+ errorMessageOf error) LogError st H)
      as (H1 & H2 & _). auto.
  - destruct (ensureLocation_invariant st (conj H Hl)) as [(H1 & H2 & _) _]. auto.
Qed.

(** X24. In the world [generateWorld] returns, every character that has a
    location is listed by a location of that id, and every member of a
    location is the id of a character. When the generation succeeds, a
    world with characters has a location. *)
Theorem generateWorld_assignments inputText settings n :
  let out := fst (generateWorld generateId toLowerCase generateWorldRun inputText settings n) in
  (forall c, In c (wr_characters out) ->
     c_groupChatId c = EmptyString \/
     exists g, In g (wr_groupChats out) /\ gc_id g = c_groupChatId c /\
               In (c_id c) (gc_characterIds g)) /\
  (forall g k, In g (wr_groupChats out) -> In k (gc_characterIds g) ->
     In k (map c_id (wr_characters out))) /\
  (if wr_success out
   then match wr_characters out with [] => True | _ :: _ => wr_groupChats out <> [] end
   else True).
Proof.
  destruct (generateWorld_cases inputText settings n) as (st & H & Hl & [[error ->]| ->]);
    cbn zeta; cbn [wr_groupChats wr_characters wr_success resultOf].
  - destruct (addLog_builderInvariant "error"
                ("Error generating world: " +:+ errorMessageOf error) LogError st H)
      as (_ & _ & H3 & H4 & _). auto.
  - destruct (ensureLocation_invariant st (conj H Hl)) as [(_ & _ & H3 & H4 & _) _].
    split; [exact H3|]. split; [exact H4|].
    unfold ensureLocation.
    destruct (wb_groupChats st) as [|g0 G] eqn:Eg.
    + destruct (wb_characters st) as [|c0 C] eqn:Ec; [rewrite Ec; exact I|].
      destruct (addLog_frame "default_loc"
                  "Created default location for unassigned characters" LogInfo
                  (mkBuilderState (wb_logs st)
                     (map (placeUnassigned (generateId (wb_nextId st))) (c0 :: C))
                     [mkGroupChat (generateId (wb_nextId st)) "Default Location"
                        "A starting place for characters"
                        (map c_id (List.filter (fun c => negb (JS.truthy (c_groupChatId c)))
                                     (c0 :: C)))
                        (Some [])]
                     (S (wb_nextId st)))) as (-> & -> & _).
      cbn. discriminate.
    + rewrite Eg. destruct (wb_characters st); [exact I|discriminate].
Qed.

(** X25. In the world [generateWorld] returns, no character knows itself,
    and every character knows ids of characters of the world only. *)
Theorem generateWorld_acquaintances inputText settings n :
  let out := fst (generateWorld generateId toLowerCase generateWorldRun inputText settings n) in
  Forall (fun c =>
            Forall (fun k => k <> c_id c /\ In k (map c_id (wr_characters out)))
              (c_knownCharacterIds c))
    (wr_characters out).
Proof.
  assert (Hall : forall st : BuilderState,
            (forall c k, In c (wb_characters st) -> In k (c_knownCharacterIds c) ->
               k <> c_id c /\ In k (map c_id (wb_characters st))) ->
            Forall (fun c =>
                      Forall (fun k => k <> c_id c /\ In k (map c_id (wb_characters st)))
                        (c_knownCharacterIds c))
              (wb_characters st)).
  { intros st H. apply List.Forall_forall. intros c Hc. apply List.Forall_forall.
    intros k Hk. exact (H c k Hc Hk). }
  destruct (generateWorld_cases inputText settings n) as (st & H & Hl & [[error ->]| ->]);
    cbn zeta; cbn [wr_groupChats wr_characters resultOf]; apply Hall.
  - destruct (addLog_builderInvariant "error"
                ("Error generating world: " +:+ errorMessageOf error) LogError st H)
      as (_ & _ & _ & _ & H5). exact H5.
  - destruct (ensureLocation_invariant st (conj H Hl)) as [(_ & _ & _ & _ & H5) _]. exact H5.
Qed.

(** X26. The log [generateWorld] returns holds one entry per key, and its
    first entry is that of the start. A successful generation logs no
    error; a failed one ends its log with the entry of key "error" that
    carries the message of what was thrown. *)
Theorem generateWorld_log inputText settings n :
  let out := fst (generateWorld generateId toLowerCase generateWorldRun inputText settings n) in
  List.NoDup (map log_key (wr_logs out)) /\
  head (wr_logs out)
  = Some (mkLogEntry "init" "Starting world generation with AI..." LogInfo) /\
  if wr_success out then ~ In "error" (map log_key (wr_logs out))
  else exists error,
         last (wr_logs out)
         = Some (mkLogEntry "error" ("Error generating world: " +:+ errorMessageOf error)
                   LogError).
Proof.
  destruct (generateWorld_cases inputText settings n) as (st & H & Hl & [[error ->]| ->]);
    cbn zeta; cbn [wr_logs wr_success resultOf].
  - destruct Hl as (Hnd & Hhead & Hno).
    assert (Hkeys := addLog_keys "error" ("Error generating world: " +:+ errorMessageOf error)
                       LogError st).
    assert (Hin : JS.includes (map log_key (wb_logs st)) "error" = false).
    { destruct (JS.includes _ "error") eqn:E; [|reflexivity]. apply includes_In in E. tauto. }
    rewrite Hin in Hkeys.
    assert (Hlogs : wb_logs (addLog "error"
                               ("Error generating world: " +:+ errorMessageOf error)
                               LogError st)
                    = wb_logs st ++ [mkLogEntry "error"
                                       ("Error generating world: " +:+ errorMessageOf error)
                                       LogError]).
    { unfold addLog. assert (Hf := findIndex_key (wb_logs st) "error").
      destruct (JS.findIndex _ (wb_logs st)) as [i|]; [|reflexivity].
      destruct Hf as (e & He & Hk). exfalso. apply Hno. rewrite <- Hk. apply List.in_map.
      apply list_elem_of_In, list_elem_of_lookup. eauto. }
    rewrite Hkeys. split; [apply NoDup_snoc; assumption|]. rewrite Hlogs. split.
    + destruct (wb_logs st); [discriminate|exact Hhead].
    + exists error. apply last_snoc.
  - destruct (ensureLocation_invariant st (conj H Hl)) as [_ (Hnd & Hhead & Hno)]. auto.
Qed.


Lemma createCharacters_groupChats chars acc :
  wb_groupChats (fst (fst (fold_left (createBuilderCharacter generateId toLowerCase) chars acc)))
  = wb_groupChats (fst (fst acc)).
Proof.
  revert acc. induction chars as [|char chars IH]; intros acc; cbn [fold_left]; [reflexivity|].
  rewrite IH. destruct acc as [[st created] skipped]. unfold createBuilderCharacter.
  destruct (existsb _ (wb_characters st)); reflexivity.
Qed.

Lemma run_without_locations events st :
  forallb createsNoLocation events = true ->
  wb_groupChats st = [] ->
  wb_groupChats (fold_left (builderStep generateId toLowerCase) events st) = [].
Proof.
  revert st. induction events as [|e events IH]; intros st Hev Hg; [exact Hg|].
  cbn [forallb] in Hev. apply andb_true_iff in Hev as [He Hev].
  cbn [fold_left]. apply IH; [exact Hev|].
  destruct e; cbn [builderStep].
  - destruct locations; [|discriminate]. unfold createLocations. cbn [fold_left fst].
    rewrite (proj1 (proj2 (addLog_frame _ _ _ _))). exact Hg.
  - unfold createCharacters.
    assert (H := createCharacters_groupChats characters (st, 0, 0)).
    destruct (fold_left _ characters (st, 0, 0)) as [[st' created] skipped].
    cbn [fst] in *. rewrite (proj1 (proj2 (addLog_frame _ _ _ _))). congruence.
  - unfold addCharacterToLocation. rewrite Hg. cbn [findRef].
    destruct (findRef _ (wb_characters st)) as [[ci character]|]; exact Hg.
  - unfold setKnownCharacters.
    destruct (findRef _ (wb_characters st)) as [[ci character]|]; [|exact Hg].
    destruct (fold_left _ knownCharacterNames ([], [])) as [foundIds notFound].
    cbn [fst]. rewrite (proj1 (proj2 (addLog_frame _ _ _ _))). exact Hg.
  - cbn [fst worldGenerationComplete]. rewrite (proj1 (proj2 (addLog_frame _ _ _ _))).
    exact Hg.
  - unfold onStepFinish. destruct (String.eqb finishReason "error"); [|exact Hg].
    rewrite (proj1 (proj2 (addLog_frame _ _ _ _))). exact Hg.
Qed.

(** X27. When the generation succeeds and the model had no location
    created, a world that has characters is given the single location
    "Default Location": every character is assigned to it and its member
    list is the list of their ids, in order. *)
Theorem generateWorld_default_location inputText settings n model events :
  getModelInstance settings ForWorldbuilder = inr model ->
  generateWorldRun
    (mkBuilderRequest model builderSystemPrompt inputText (getGenerationSettings settings) 150)
  = (events, None) ->
  forallb createsNoLocation events = true ->
  let out := fst (generateWorld generateId toLowerCase generateWorldRun inputText settings n) in
  wr_success out = true /\
  match wr_characters out with
  | [] => wr_groupChats out = []
  | _ :: _ =>
      exists defaultId,
        wr_groupChats out
        = [mkGroupChat defaultId "Default Location" "A starting place for characters"
             (map c_id (wr_characters out)) (Some [])] /\
        Forall (fun c => c_groupChatId c = defaultId) (wr_characters out)
  end.
Proof.
  intros Hmodel Hrun Hev. unfold generateWorld. rewrite Hmodel, Hrun.
  destruct (start_invariant n) as [H0 Hl0]. cbn zeta in H0, Hl0.
  set (st0 := addLog "init" _ _ _) in *.
  destruct (builderRun_invariant events st0 (conj H0 Hl0)) as [(_ & _ & H3 & _) _].
  assert (Hg := run_without_locations events st0 Hev eq_refl).
  set (st := fold_left (builderStep generateId toLowerCase) events st0) in *.
  cbn zeta. cbn [fst wr_success wr_characters wr_groupChats resultOf].
  split; [reflexivity|]. unfold ensureLocation. rewrite Hg.
  destruct (wb_characters st) as [|c0 C] eqn:Ec; [rewrite Ec; exact Hg|]. rewrite <- Ec in *.
  set (d := generateId (wb_nextId st)).
  assert (Hall : forall c, In c (wb_characters st) -> JS.truthy (c_groupChatId c) = false).
  { intros c Hc. destruct (H3 c Hc) as [->|(g & Hgin & _)]; [reflexivity|].
    rewrite Hg in Hgin. destruct Hgin. }
  destruct (addLog_frame "default_loc" "Created default location for unassigned characters"
              LogInfo
              (mkBuilderState (wb_logs st) (map (placeUnassigned d) (wb_characters st))
                 [mkGroupChat d "Default Location" "A starting place for characters"
                    (map c_id (List.filter (fun c => negb (JS.truthy (c_groupChatId c)))
                                 (wb_characters st)))
                    (Some [])]
                 (S (wb_nextId st)))) as (-> & -> & _).
  cbn [wb_characters wb_groupChats].
  destruct (map (placeUnassigned d) (wb_characters st)) as [|c1 C1] eqn:Em;
    [rewrite Ec in Em; discriminate|]. rewrite <- Em.
  exists d. split.
  - do 2 f_equal. rewrite map_map. rewrite filter_all.
    + apply map_ext. intros c. unfold placeUnassigned. destruct (negb _); reflexivity.
    + apply List.Forall_forall. intros c Hc. rewrite (Hall c Hc). reflexivity.
  - apply List.Forall_forall. intros c Hc. apply List.in_map_iff in Hc as (c' & <- & Hc').
    unfold placeUnassigned. rewrite (Hall c' Hc'). reflexivity.
Qed.

End BuilderInvariants.

(** ** Model names *)

Lemma includesChar_In c s : includesChar c s = true <-> In c (list_ascii_of_string s).
Proof.
  induction s as [|d s IH]; cbn; [split; [discriminate|tauto]|].
  rewrite orb_true_iff, IH. split; intros [H|H]; auto.
  - left. apply Ascii.eqb_eq. exact H.
  - left. apply Ascii.eqb_eq. exact H.
Qed.

Lemma length_zero_truthy s : (String.length s =? 0) = negb (JS.truthy s).
Proof. destruct s; reflexivity. Qed.

(** X28. A model name is accepted exactly when it has a visible character
    and, for OpenRouter, holds a slash; a name without a visible character
    is refused for every provider with the message of the empty name. *)
Theorem validateModelFormat_accepts provider model :
  validateModelFormat provider model
  = if negb (hasInk model) then Some "Model name cannot be empty"
    else if match provider with OpenRouter => negb (includesChar "/" model) | _ => false end
    then Some "OpenRouter models should be in format: provider/model-name"
    else None.
Proof.
  unfold validateModelFormat. rewrite length_zero_truthy, trim_truthy_ink.
  destruct (hasInk model) eqn:E.
  - assert (Ht : JS.truthy model = true) by (destruct model; [discriminate|reflexivity]).
    rewrite Ht. cbn [negb orb]. destruct provider; reflexivity.
  - rewrite orb_true_r. reflexivity.
Qed.

(** ** The drawer *)

Section DrawerProperties.

Variable JSON_parse : string -> exc (list string).

Lemma whenTruthy_not_empty (field : option string) :
  whenTruthy field (fun v => v) <> Some EmptyString.
Proof.
  unfold whenTruthy. destruct field as [v|]; [|discriminate].
  destruct v; cbn; discriminate.
Qed.

(** X29. Saving the edit form of a location or of a character keeps a
    consistent world consistent, whatever the form holds; the edit of a
    location changes no id and no member list. *)
Theorem drawer_edits_keep_index id editForms s :
  consistent s ->
  consistent (fst (handleSaveGroupChat id editForms s)) /\
  map (fun g => (gc_id g, gc_characterIds g))
    (app_groupChats (fst (handleSaveGroupChat id editForms s)))
  = map (fun g => (gc_id g, gc_characterIds g)) (app_groupChats s) /\
  match handleSaveCharacter JSON_parse id editForms s with
  | inr out => consistent (fst out)
  | inl _ => True
  end.
Proof.
  intros Hs. split; [|split].
  - unfold handleSaveGroupChat. destruct (editForms !! id) as [form|]; [|exact Hs].
    cbn [fst]. apply updateGroupChat_consistent; [exact Hs|reflexivity|reflexivity].
  - unfold handleSaveGroupChat. destruct (editForms !! id) as [form|]; [|reflexivity].
    cbn [fst]. unfold updateGroupChat. cbn [app_groupChats setGroupChats].
    rewrite map_map. apply map_ext. intros g.
    destruct (negb (String.eqb (gc_id g) id)); reflexivity.
  - unfold handleSaveCharacter. destruct (editForms !! id) as [form|]; [|exact Hs].
    destruct (ef_knownCharacterIds form) as [v|];
      [destruct (JS.truthy v); [destruct (JSON_parse v) as [e|ids]; [exact I|]|]|];
      cbn [bind ret fst];
      (apply updateCharacter_consistent;
       [exact Hs|reflexivity|apply whenTruthy_not_empty]).
Qed.

End DrawerProperties.

(** X30. Switching to a provider and back to the one that was selected
    gives back the settings as they were: the key, the models and the
    sampling parameters of a provider are saved when it is left and
    loaded when it is selected again. The provider passed through keeps
    the settings that were loaded for it. *)
Theorem provider_switch_roundtrip (store : SettingsStore) (other : AIProvider) :
  let there := handleProviderChange store other store in
  let back := handleProviderChange there (aiProvider (st_settings store)) there in
  st_settings back = st_settings store /\
  st_providerSettings back !! providerName other
  = Some (default (DEFAULT_PROVIDER_SETTINGS other)
            (st_providerSettings store !! providerName other)).
Proof.
  intros there back. subst back there. unfold handleProviderChange.
  cbn [st_settings st_providerSettings aiProvider apiKey model summarizationModel
       worldbuilderModel temperature topK topP messageStyle shareUserProfile
       charactersKnowAll userProfile strangerLabel].
  rewrite lookup_insert_eq. cbn [from_option id ps_apiKey ps_model ps_summarizationModel
    ps_worldbuilderModel ps_temperature ps_topK ps_topP].
  rewrite !orElse_empty. split.
  - destruct (st_settings store). reflexivity.
  - rewrite lookup_insert_eq. f_equal.
    destruct (default (DEFAULT_PROVIDER_SETTINGS other)
                (st_providerSettings store !! providerName other)). reflexivity.
Qed.

(** ** The further properties on the sample data *)

Lemma executeCharacterTurn_without_key_witness :
  executeCharacterTurn sampleId sampleGenerateText alice tavern [alice; bob] [tavern; market]
    cleanHistory noKeySettings None 0
  = (mkTurnResult
       [mkMessage "g" TCharacter "(An error occurred: API key required for provider: openai)"
          "Alice" (Some "c1")]
       None None None (Some "API key required for provider: openai") None,
     1).
Proof.
  exact (executeCharacterTurn_without_key sampleId sampleGenerateText alice tavern
           [alice; bob] [tavern; market] cleanHistory noKeySettings None 0 eq_refl).
Defined.

Lemma handleSendMessage_no_placeholder_witness :
  Forall (fun m => isLoadingOf "c1" m = false)
    (historyOf (handleSendMessage sampleId sampleGenerateText (sampleState 0 staleHistory))
       "loc1").
Proof.
  apply (handleSendMessage_no_placeholder sampleId sampleGenerateText
           (sampleState 0 staleHistory) tavern alice); vm_compute; reflexivity.
Defined.

Lemma handleSendMessage_plain_witness :
  let s' := handleSendMessage sampleId failingGenerateText (composerState "director" " Rain ") in
  app_messages s'
  = {["loc1" := cleanHistory ++ [mkMessage "g" TDirector " Rain " "Director" None]]} /\
  app_message s' = EmptyString /\
  app_nextId s' = 1.
Proof.
  assert (H := handleSendMessage_plain sampleId failingGenerateText
                 (composerState "director" " Rain ") tavern "director"
                 eq_refl eq_refl (or_intror eq_refl)).
  cbv zeta in H |- *. destruct H as (Hm & He & Hn & _).
  split; [|split; [exact He|exact Hn]].
  rewrite Hm. vm_compute. reflexivity.
Defined.

Lemma handleRetryMessage_guards_witness :
  handleRetryMessage sampleId sampleGenerateText "m0" (sampleState 0 cleanHistory)
  = sampleState 0 cleanHistory.
Proof.
  apply (handleRetryMessage_guards sampleId sampleGenerateText "m0"
           (sampleState 0 cleanHistory)).
  vm_compute. left. discriminate.
Defined.

Lemma update_unknown_id_witness :
  updateCharacter "ghost" (mkCharacterPatch None (Some "Ghost") None None (Some "loc2")
                             None None None) (sampleState 0 [])
  = sampleState 0 [] /\
  updateGroupChat "nowhere" memberPatch (sampleState 0 []) = sampleState 0 [].
Proof.
  apply (update_unknown_id "ghost" "nowhere" _ memberPatch (sampleState 0 []));
    cbn; intros [H|[H|[]]]; discriminate.
Defined.

Lemma create_then_delete_witness :
  let s' := deleteCharacter "g"
              (createCharacter sampleId
                 (mkCharacter EmptyString "Cara" "A sailor" None "loc2" [] [] ["c1"])
                 (sampleState 0 [])) in
  app_characters s' = [alice; bob] /\ app_groupChats s' = [tavern; market] /\
  app_nextId s' = 1.
Proof.
  apply (create_then_delete sampleId
           (mkCharacter EmptyString "Cara" "A sailor" None "loc2" [] [] ["c1"])
           (sampleState 0 [])).
  - cbn. intros [H|[H|[]]]; discriminate.
  - repeat constructor; cbn; intros [H|[]]; discriminate.
  - repeat constructor; cbn; try (intros [H|[]]; discriminate); intros [].
Defined.

Lemma handleImportWorld_well_formed_witness :
  consistent (handleImportWorld sampleId sampleWorldData (sampleState 3000 cleanHistory)).
Proof.
  apply (handleImportWorld_well_formed sampleId sampleWorldData
           (sampleState 3000 cleanHistory)).
  apply sample_freshIds. vm_compute. reflexivity.
Defined.

Lemma importWorldData_default_location_witness :
  snd (fst (importWorldData sampleId strayData 0))
  = [mkGroupChat "g" "Default Location" "A starting place" ["xg"]
       (Some ["A plain, featureless area."])].
Proof.
  assert (H := importWorldData_default_location sampleId strayData 0 eq_refl
                 ltac:(discriminate)).
  vm_compute in H. vm_compute. exact (proj1 H).
Defined.

Lemma chat_history_roundtrip_witness :
  map contentOf
    (default []
       (fst (importChatHistory sampleId sampleNativeText
               (exportChatHistory "2026" sampleEntries [tavern; market])
               [tavern; market] 0) !! "loc1"))
  = map contentOf (List.filter (fun m => negb (isType TLoading m)) longHistory).
Proof.
  refine (proj1 (chat_history_roundtrip sampleId sampleNativeText "2026" sampleEntries
                   [tavern; market] 0 _ _ _ _ _ _) tavern longHistory _ _).
  - apply nodupb_sound. vm_compute. reflexivity.
  - apply nodupb_sound. vm_compute. reflexivity.
  - apply nodupb_sound. vm_compute. reflexivity.
  - intros g [<-|[<-|[]]]; split; discriminate.
  - intros g [<-|[<-|[]]]; split; intros Hin; vm_compute in Hin; intuition discriminate.
  - intros e [<-|[<-|[]]] Hin; vm_compute in Hin; intuition discriminate.
  - left. reflexivity.
  - left. reflexivity.
Defined.

Lemma generateWorld_default_location_witness :
  let out := fst (generateWorld sampleId asciiLowerCase sampleWorldRun "Cara and Dan at sea"
                    sampleSettings 0) in
  wr_success out = true /\
  map c_name (wr_characters out) = ["Cara"; "Dan"] /\
  wr_groupChats out
  = [mkGroupChat "xxg" "Default Location" "A starting place for characters" ["g"; "xg"]
       (Some [])].
Proof.
  assert (H := generateWorld_default_location sampleId asciiLowerCase sampleWorldRun
                 "Cara and Dan at sea" sampleSettings 0 (mkModelInstance OpenAI "model-a") (fst (sampleWorldRun
                   (mkBuilderRequest (mkModelInstance OpenAI "model-a") builderSystemPrompt
                      "Cara and Dan at sea" (getGenerationSettings sampleSettings) 150)))
                 eq_refl eq_refl eq_refl).
  destruct H as [Hs _]. split; [exact Hs|]. vm_compute. split; reflexivity.
Defined.

Lemma drawer_edits_keep_index_witness :
  consistent (fst (handleSaveGroupChat "loc1" sampleEditForms (sampleState 0 []))) /\
  match handleSaveCharacter sampleParse "c2" sampleEditForms (sampleState 0 []) with
  | inr out => consistent (fst out)
  | inl _ => True
  end.
Proof.
  assert (Hs : consistent (sampleState 0 []))
    by (apply consistentb_sound; vm_compute; reflexivity).
  split.
  - exact (proj1 (drawer_edits_keep_index sampleParse "loc1" sampleEditForms
                    (sampleState 0 []) Hs)).
  - exact (proj2 (proj2 (drawer_edits_keep_index sampleParse "c2" sampleEditForms
                           (sampleState 0 []) Hs))).
Defined.

(** White space beyond ASCII is trimmed: the label of the stranger, the
    model of a purpose, the composer and the name of a model. *)
Example white_space_code_points :
  forallb (fun l => JS.isWhiteSpace (ofBytes l)) whiteSpaceTable = true /\
  forallb (fun l => negb (hasInk (ofBytes l +:+ ofBytes l))) whiteSpaceTable = true /\
  forallb (fun l => String.eqb (JS.trim (" " +:+ ofBytes l +:+ " ")) (ofBytes l)) inkTable = true.
Proof. vm_compute. repeat split. Qed.

Example trim_unicode :
  JS.trim (byteOrderMark +:+ nbsp +:+ " Ann Lee" +:+ lineSeparator +:+ nbsp) = "Ann Lee" /\
  hasInk (nbsp +:+ lineSeparator) = false.
Proof. vm_compute. split; reflexivity. Qed.

Example label_trimmed :
  tr_strangerLabel (fst (processCharacterTurnResult sampleId (labelAs (nbsp +:+ "Ann" +:+ nbsp))
                           alice tavern [tavern; market] 0)) = Some "Ann" /\
  tr_strangerLabel (fst (processCharacterTurnResult sampleId (labelAs nbsp)
                           alice tavern [tavern; market] 0)) = None.
Proof. vm_compute. split; reflexivity. Qed.

Example blank_purpose_model :
  getModelInstance blankModelSettings ForSummarization = inr (mkModelInstance OpenAI "model-a") /\
  getModelInstance blankModelSettings ForWorldbuilder = inr (mkModelInstance OpenAI "model-w").
Proof. vm_compute. split; reflexivity. Qed.

Example blank_message_not_sent :
  handleSendMessage sampleId sampleGenerateText (composerState "none" (nbsp +:+ " "))
  = composerState "none" (nbsp +:+ " ").
Proof. vm_compute. reflexivity. Qed.

Example blank_model_name :
  validateModelFormat OpenAI nbsp = Some "Model name cannot be empty" /\
  validateModelFormat OpenRouter "meta/llama" = None.
Proof. vm_compute. split; reflexivity. Qed.

(** A recorded location name that every object inherits: the history is
    filed under the text of the inherited function, and under
    "[object Object]" for a location named "__proto__". *)
Example import_inherited_name :
  map fst (map_to_list
             (fst (importChatHistory sampleId sampleNativeText
                     (mkChatHistoryExport 1 "2026" [("old", cleanHistory)]
                        {["old" := "constructor"]})
                     [tavern; market] 0)))
  = ["function Object() { [native code] }"] /\
  map fst (map_to_list
             (fst (importChatHistory sampleId sampleNativeText
                     (exportChatHistory "2026" [("loc9", cleanHistory)]
                        [mkGroupChat "loc9" "__proto__" "A trap" [] None])
                     [mkGroupChat "loc9" "__proto__" "A trap" [] None] 0)))
  = ["[object Object]"].
Proof. vm_compute. split; reflexivity. Qed.

(** The behaviours on the sample data: the window with and without a
    limit, two notes in one turn, the world a run of the builder yields,
    and the lines of a form field. *)
Example getMessagesForContext_zero_keeps_all :
  length (getMessagesForContext longHistory 0) = 11 /\
  length (getMessagesForContext longHistory 3) = 4.
Proof. vm_compute. split; reflexivity. Qed.

Example two_notes_one_kept :
  let result :=
    mkGenResult None
      (Some [mkToolCall "makeNote" (Some (mkToolInput (Some "Alice hums") None None));
             mkToolCall "makeNote" (Some (mkToolInput (Some "Alice left") None None))])
      None None in
  let out := fst (processCharacterTurnResult sampleId result bob market [tavern; market] 0) in
  map m_text (tr_messages out) = ["Bob noted: *Alice hums*"; "Bob noted: *Alice left*"] /\
  option_map cp_notes (tr_characterUpdates out) = Some (Some ["Alice sings"; "Alice left"]).
Proof. vm_compute. split; reflexivity. Qed.

Example sample_world_run :
  let out := fst (generateWorld sampleId asciiLowerCase sampleWorldRun "Cara and Dan at sea"
                    sampleSettings 0) in
  map c_knownCharacterIds (wr_characters out) = [["xg"]; []] /\
  map c_quotes (wr_characters out) = [["Ahoy"]; []] /\
  map log_key (wr_logs out) = ["init"; "characters"; "relationships"; "done"; "default_loc"].
Proof. vm_compute. repeat split. Qed.

Example splitLines_sample :
  splitLines ("Warm." +:+ nl +:+ nl +:+ "Loud.") = ["Warm."; EmptyString; "Loud."] /\
  splitLines EmptyString = [EmptyString].
Proof. vm_compute. split; reflexivity. Qed.
